(** * pygame-soccer: the soccer environment (soccer_environment.py)

    A shallow embedding of [SoccerEnvironmentOptions], [SoccerState] and
    [SoccerEnvironment], and the properties of the state-transition engine:
    ball possession, overlap resolution, the scripted opponent's greedy
    action search, and the error behaviour of the accessors.

    Conventions of the embedding.
    - Team names, computer modes, actions and strategic modes are the
      string constants of the source; they are closed enumerations here, so
      a [KeyError] for an unknown name is left only where [None] or a
      character of an action name can reach the dispatch.
    - A tile position is a pair of integers (the source holds it in a list
      that is copied before it is changed, never updated in place); an
      agent's ['pos'] field is [None] between the first loop of [reset] and
      the agent's placement.
    - Python exceptions are values of [exn]; a mutation made before an
      exception is raised stays visible afterwards, each method of the
      state counting as one mutation.
    - [random] is a tape of natural numbers read through a cursor.
    - A [while] loop takes fuel, one unit per execution of its body.
    - [np.linalg.norm] of an integer vector is compared through its square,
      an exact integer: the square root is strictly monotone, and between
      tiles with coordinates of at most 2^24 in absolute value the sum of
      squares is below 2^52, where the floating-point comparison agrees
      with the exact one; the theorems on distances are stated there.
    - The constructor of the options takes any value as [team_size]
      ([PyValue]); the environment reads it as a natural number.
    - The integers of NumPy in the renderer wrap around at 64 bits. *)

From Stdlib Require Import List ZArith Lia Bool Arith PeanoNat.
From Stdlib Require String.
Import ListNotations.


(** ** Enumerations *)

Inductive Team := PLAYER | COMPUTER.
Inductive Mode := DEFENSIVE | OFFENSIVE.
Inductive Action := MOVE_RIGHT | MOVE_UP | MOVE_LEFT | MOVE_DOWN | STAND.
Inductive StrategicMode := APPROACH | AVOID | INTERCEPT.

Definition team_names : list Team := [PLAYER; COMPUTER].
Definition modes : list Mode := [DEFENSIVE; OFFENSIVE].
Definition actions : list Action :=
  [MOVE_RIGHT; MOVE_UP; MOVE_LEFT; MOVE_DOWN; STAND].

Definition team_eqb (a b : Team) : bool :=
  match a, b with
  | PLAYER, PLAYER | COMPUTER, COMPUTER => true
  | _, _ => false
  end.

(** ** Positions *)

Definition Pos : Type := (Z * Z)%type.

Definition pos_eqb (p q : Pos) : bool :=
  (fst p =? fst q)%Z && (snd p =? snd q)%Z.

(** [pos == other] where [other] may be [None]. *)
Definition py_pos_eq (p : Pos) (q : option Pos) : bool :=
  match q with
  | Some q' => pos_eqb p q'
  | None => false
  end.

(** [pos in tiles] for a list of tiles. *)
Definition pos_in (p : Pos) (tiles : list Pos) : bool :=
  existsb (pos_eqb p) tiles.

(** [pos in tiles] where [pos] may be [None]. *)
Definition py_in (p : option Pos) (tiles : list Pos) : bool :=
  match p with
  | Some p' => pos_in p' tiles
  | None => false
  end.

(** ** Exceptions and outcomes *)

Inductive exn := IndexError | KeyError | ValueError | TypeError.

Inductive outcome (A : Type) : Type :=
| Ok (a : A)
| Raise (e : exn)
| OutOfFuel.

Arguments Ok {A} a.
Arguments Raise {A} e.
Arguments OutOfFuel {A}.

Definition obind {A B} (o : outcome A) (k : A -> outcome B) : outcome B :=
  match o with
  | Ok a => k a
  | Raise e => Raise e
  | OutOfFuel => OutOfFuel
  end.

Declare Scope outcome_scope.
Delimit Scope outcome_scope with outcome.
Notation "x <- m ;; k" := (obind m (fun x => k))
  (at level 61, m at next level, right associativity) : outcome_scope.

(** ** SoccerEnvironmentOptions *)

(** The options as the environment reads them, once constructed: the
    code counts agents and indexes lists with [team_size], which is then a
    natural number.  What the constructor accepts and stores is
    [OptionsObject] below. *)
Record SoccerEnvironmentOptions := mkOptions {
  map_path : String.string;
  team_size : nat
}.

(** A value passed as [team_size]. Python checks no type there: the
    argument may be an integer, a boolean (an integer subtype), a float, or
    something that is no number at all. A finite float is given by the
    dyadic rational [m / 2 ^ e] it stands for. *)
Inductive PyValue :=
| PyInt (z : Z)
| PyBool (b : bool)
| PyFloat (m : Z) (e : nat)
| PyInf (negative : bool)
| PyNaN
| PyStr (s : String.string)
| PyNone.

(** [v >= k] for an integer literal [k]; ordering a string or [None]
    against an integer is a [TypeError]. *)
Definition py_ge_int (v : PyValue) (k : Z) : outcome bool :=
  match v with
  | PyInt z => Ok (k <=? z)%Z
  | PyBool b => Ok (k <=? (if b then 1 else 0))%Z
  | PyFloat m e => Ok (k * 2 ^ Z.of_nat e <=? m)%Z
  | PyInf negative => Ok (negb negative)
  | PyNaN => Ok false
  | PyStr _ | PyNone => Raise TypeError
  end.

(** [v <= k] for an integer literal [k]. *)
Definition py_le_int (v : PyValue) (k : Z) : outcome bool :=
  match v with
  | PyInt z => Ok (z <=? k)%Z
  | PyBool b => Ok ((if b then 1 else 0) <=? k)%Z
  | PyFloat m e => Ok (m <=? k * 2 ^ Z.of_nat e)%Z
  | PyInf negative => Ok negative
  | PyNaN => Ok false
  | PyStr _ | PyNone => Raise TypeError
  end.

(** The attributes [__init__] sets: the team size is stored as it was
    given. *)
Record OptionsObject := mkOptionsObject {
  object_map_path : String.string;
  object_team_size : PyValue
}.

(** [SoccerEnvironmentOptions.__init__]. [resource_path] is what
    [file_util.get_resource_path] returns for [map_resource_name]; an absent
    or empty [map_path] is falsy. [and] evaluates its second operand only
    when the first is true. *)
Definition SoccerEnvironmentOptions_init (resource_path : String.string)
    (map_path : option String.string) (team_size : PyValue)
  : outcome OptionsObject :=
  let path :=
    match map_path with
    | Some (String.String c p) => String.String c p
    | _ => resource_path
    end in
  obind (py_ge_int team_size 1) (fun at_least_one =>
  obind (if at_least_one then py_le_int team_size 2 else Ok false)
    (fun in_range =>
  if negb in_range then Raise ValueError
  else Ok (mkOptionsObject path team_size))).

(** The options of an environment, for a stored team size that is an
    integer: the rest of the code counts and indexes with it. *)
Definition options_of (o : OptionsObject) : option SoccerEnvironmentOptions :=
  match object_team_size o with
  | PyInt z =>
      if (0 <=? z)%Z then Some (mkOptions (object_map_path o) (Z.to_nat z))
      else None
  | PyBool b => Some (mkOptions (object_map_path o) (if b then 1 else 0))
  | _ => None
  end.

Definition get_agent_size (o : SoccerEnvironmentOptions) : nat :=
  2 * team_size o.

(** ** SoccerMapData *)

Record SoccerMapData := mkMap {
  spawn : Team -> list Pos;
  goals : Team -> list Pos;
  walkable : list Pos
}.

(** ** SoccerState *)

Record Agent := mkAgent {
  pos : option Pos;
  ball : bool;
  mode : option Mode;
  action : option Action
}.

Record SoccerState := mkState {
  agent_list : list Agent;
  time_step : Z
}.

(** The dictionary returned by [get_pos_status] and
    [get_ball_possession]. *)
Record AgentStatus := mkStatus {
  status_team_name : Team;
  status_team_agent_index : nat;
  status_agent_index : nat
}.

Fixpoint list_set {A} (l : list A) (i : nat) (x : A) : list A :=
  match l, i with
  | [], _ => []
  | _ :: t, O => x :: t
  | h :: t, S i' => h :: list_set t i' x
  end.

Section State.

Variable options : SoccerEnvironmentOptions.
Variable map_data : SoccerMapData.

Local Open Scope outcome_scope.

Definition group_index (t : Team) : nat :=
  match t with
  | PLAYER => 0
  | COMPUTER => 1
  end.

(** [SoccerEnvironment.get_agent_index]. *)
Definition get_agent_index (t : Team) (team_agent_index : nat) : nat :=
  team_size options * group_index t + team_agent_index.

(** [self.agent_list[agent_index]]. *)
Definition get_agent (s : SoccerState) (i : nat) : outcome Agent :=
  match nth_error (agent_list s) i with
  | Some a => Ok a
  | None => Raise IndexError
  end.

Definition set_agent (s : SoccerState) (i : nat) (f : Agent -> Agent)
  : outcome SoccerState :=
  match nth_error (agent_list s) i with
  | Some a => Ok (mkState (list_set (agent_list s) i (f a)) (time_step s))
  | None => Raise IndexError
  end.

Definition get_agent_pos (s : SoccerState) (i : nat) : outcome (option Pos) :=
  a <- get_agent s i ;; Ok (pos a).

Definition set_agent_pos (s : SoccerState) (i : nat) (p : option Pos) :=
  set_agent s i (fun a => mkAgent p (ball a) (mode a) (action a)).

Definition get_agent_ball (s : SoccerState) (i : nat) : outcome bool :=
  a <- get_agent s i ;; Ok (ball a).

Definition set_agent_ball (s : SoccerState) (i : nat) (has_ball : bool) :=
  set_agent s i (fun a => mkAgent (pos a) has_ball (mode a) (action a)).

Definition get_agent_mode (s : SoccerState) (i : nat) : outcome (option Mode) :=
  a <- get_agent s i ;; Ok (mode a).

Definition set_agent_mode (s : SoccerState) (i : nat) (m : option Mode) :=
  set_agent s i (fun a => mkAgent (pos a) (ball a) m (action a)).

Definition get_agent_action (s : SoccerState) (i : nat)
  : outcome (option Action) :=
  a <- get_agent s i ;; Ok (action a).

Definition set_agent_action (s : SoccerState) (i : nat) (x : option Action) :=
  set_agent s i (fun a => mkAgent (pos a) (ball a) (mode a) x).

(** [SoccerState.get_team_name]. *)
Definition get_team_name (i : nat) : Team :=
  if i <? team_size options then PLAYER else COMPUTER.

(** [SoccerState.switch_ball], as the state it leaves when it returns.
    With a second index out of range the method raises after it has
    flipped the flag of the first agent, which an outcome without a state
    does not show; [_update_ball_possession], its one caller, passes two
    indices it has read the flags of. *)
Definition switch_ball (s : SoccerState) (agent_index other_agent_index : nat)
  : outcome SoccerState :=
  agent_ball <- get_agent_ball s agent_index ;;
  s1 <- set_agent_ball s agent_index (negb agent_ball) ;;
  set_agent_ball s1 other_agent_index agent_ball.

(** The enumeration order of the two nested loops
    [for team_name in team_names: for team_agent_index in range(team_size)]. *)
Definition roster : list (Team * nat) :=
  flat_map (fun t => map (pair t) (seq 0 (team_size options))) team_names.

(** The nested loops of [get_pos_status] and [get_ball_possession]: the
    status of the first agent of the roster that passes [test]. *)
Fixpoint first_status (s : SoccerState) (test : Agent -> bool)
    (l : list (Team * nat)) : outcome (option AgentStatus) :=
  match l with
  | [] => Ok None
  | (team_name, team_agent_index) :: l' =>
      let agent_index := get_agent_index team_name team_agent_index in
      a <- get_agent s agent_index ;;
      if test a
      then Ok (Some (mkStatus team_name team_agent_index agent_index))
      else first_status s test l'
  end.

(** [SoccerState.get_pos_status]. *)
Definition get_pos_status (s : SoccerState) (p : Pos)
  : outcome (option AgentStatus) :=
  first_status s (fun a => py_pos_eq p (pos a)) roster.

(** [SoccerState.get_ball_possession]. *)
Definition get_ball_possession (s : SoccerState)
  : outcome (option AgentStatus) :=
  first_status s ball roster.

(** [SoccerState.is_agent_win]. *)
Definition is_agent_win (s : SoccerState) (i : nat) : outcome bool :=
  agent_pos <- get_agent_pos s i ;;
  has_ball <- get_agent_ball s i ;;
  if negb has_ball then Ok false
  else
    let team_name := get_team_name i in
    Ok (py_in agent_pos (goals map_data team_name)).

(** The loops of [is_team_win] and [is_terminal]: [True] at the first
    winning agent of [l]. *)
Fixpoint any_agent_win (s : SoccerState) (l : list nat) : outcome bool :=
  match l with
  | [] => Ok false
  | i :: l' =>
      w <- is_agent_win s i ;;
      if w then Ok true else any_agent_win s l'
  end.

(** [SoccerState.is_team_win]. *)
Definition is_team_win (s : SoccerState) (t : Team) : outcome bool :=
  any_agent_win s (map (get_agent_index t) (seq 0 (team_size options))).

(** [SoccerState.is_terminal]. *)
Definition is_terminal (s : SoccerState) : outcome bool :=
  if (time_step s >=? 100)%Z then Ok true
  else any_agent_win s (seq 0 (get_agent_size options)).

(** [SoccerState.increase_time_step]. *)
Definition increase_time_step (s : SoccerState) : SoccerState :=
  mkState (agent_list s) (time_step s + 1).

End State.

(** ** The random source and the environment monad *)

Record Rng := mkRng {
  tape : nat -> nat;
  cursor : nat
}.

Record World := mkWorld {
  st : SoccerState;
  rnd : Rng
}.

(** A method of the environment: it may read and mutate the state, draw
    random numbers, and return, raise, or run out of loop fuel. *)
Definition M (A : Type) : Type := World -> outcome A * World.

Definition ret {A} (a : A) : M A := fun w => (Ok a, w).

Definition raise {A} (e : exn) : M A := fun w => (Raise e, w).

Definition out_of_fuel {A} : M A := fun w => (OutOfFuel, w).

Definition bind {A B} (m : M A) (k : A -> M B) : M B :=
  fun w =>
    match m w with
    | (Ok a, w') => k a w'
    | (Raise e, w') => (Raise e, w')
    | (OutOfFuel, w') => (OutOfFuel, w')
    end.

Declare Scope env_scope.
Delimit Scope env_scope with env.
Notation "x <- m ;; k" := (bind m (fun x => k))
  (at level 61, m at next level, right associativity) : env_scope.
Notation "m ;;; k" := (bind m (fun _ => k))
  (at level 61, right associativity) : env_scope.

(** A read of the state. *)
Definition read {A} (f : SoccerState -> outcome A) : M A :=
  fun w => (f (st w), w).

(** A mutation of the state. *)
Definition write (f : SoccerState -> outcome SoccerState) : M unit :=
  fun w =>
    match f (st w) with
    | Ok s' => (Ok tt, mkWorld s' (rnd w))
    | Raise e => (Raise e, w)
    | OutOfFuel => (OutOfFuel, w)
    end.

(** A uniform draw below [n], for [0 < n]. *)
Definition randbelow (n : nat) : M nat :=
  fun w =>
    let r := rnd w in
    (Ok (tape r (cursor r) mod n), mkWorld (st w) (mkRng (tape r) (S (cursor r)))).

(** [random.choice]. *)
Definition choice {A} (l : list A) : M A :=
  match l with
  | [] => raise IndexError
  | d :: _ => bind (randbelow (length l)) (fun k => ret (nth k l d))
  end.

(** [random.randrange]. *)
Definition randrange (n : nat) : M nat :=
  if n =? 0 then raise ValueError else randbelow n.

(** [random.sample(pool, k)] as the library does it for a short
    population: the drawn element goes to the result and the last element
    of the pool takes its place. *)
Fixpoint sample {A} (k : nat) (pool : list A) : M (list A) :=
  match k with
  | O => ret []
  | S k' =>
      match pool with
      | [] => raise ValueError
      | d :: _ =>
          bind (randbelow (length pool)) (fun j =>
          bind (sample k' (removelast (list_set pool j (last pool d))))
            (fun rest =>
          ret (nth j pool d :: rest)))
      end
  end.

(** A [for] loop that threads a local variable. *)
Fixpoint foldM {A B} (body : B -> A -> M B) (l : list A) (acc : B) : M B :=
  match l with
  | [] => ret acc
  | x :: l' => bind (body acc x) (foldM body l')
  end.

(** A [for] loop run for its effects. *)
Fixpoint forM {A} (body : A -> M unit) (l : list A) : M unit :=
  match l with
  | [] => ret tt
  | x :: l' => bind (body x) (fun _ => forM body l')
  end.

Definition lift {A} (o : outcome A) : M A := fun w => (o, w).

(** A list comprehension whose element expression may raise. *)
Fixpoint mapO {A B} (f : A -> outcome B) (l : list A) : outcome (list B) :=
  match l with
  | [] => Ok []
  | x :: l' =>
      obind (f x) (fun y => obind (mapO f l') (fun ys => Ok (y :: ys)))
  end.

(** A read-only [for] loop that threads a local variable. *)
Fixpoint foldO {A B} (body : B -> A -> outcome B) (l : list A) (acc : B)
  : outcome B :=
  match l with
  | [] => Ok acc
  | x :: l' => obind (body acc x) (foldO body l')
  end.

(** [l[i]] *)
Definition py_nth {A} (l : list A) (i : nat) : outcome A :=
  match nth_error l i with
  | Some x => Ok x
  | None => Raise IndexError
  end.

(** [np.argmin] / [np.argmax]: the first index of an extremal element;
    [ValueError] on an empty sequence. [lt d best] says that [d] replaces
    the incumbent [best]. *)
Fixpoint arg_best (lt : Z -> Z -> bool) (best_i : nat) (best : Z) (i : nat)
    (l : list Z) : nat :=
  match l with
  | [] => best_i
  | d :: l' =>
      if lt d best then arg_best lt i d (S i) l'
      else arg_best lt best_i best (S i) l'
  end.

Definition argmin (l : list Z) : outcome nat :=
  match l with
  | [] => Raise ValueError
  | d :: l' => Ok (arg_best Z.ltb 0 d 1 l')
  end.

Definition argmax (l : list Z) : outcome nat :=
  match l with
  | [] => Raise ValueError
  | d :: l' => Ok (arg_best Z.gtb 0 d 1 l')
  end.

(** ** Dictionaries with insertion order *)

(** [intended_pos]: agent index to position. *)
Definition IntendedPos : Type := list (nat * option Pos).

(** [d[k] = v]: replaces the value of an existing key in place, appends a
    new key. *)
Fixpoint dict_set {V} (d : list (nat * V)) (k : nat) (v : V)
  : list (nat * V) :=
  match d with
  | [] => [(k, v)]
  | (k', v') :: d' =>
      if k' =? k then (k', v) :: d' else (k', v') :: dict_set d' k v
  end.

(** [overlapping_pos_to_agent]: tile to the list of agents claiming it. *)
Definition Overlapping : Type := list (Pos * list nat).

(** [if key in d: d[key].append(i) else: d[key] = [i]]. *)
Fixpoint group_add (d : Overlapping) (key : Pos) (i : nat) : Overlapping :=
  match d with
  | [] => [(key, [i])]
  | (key', l) :: d' =>
      if pos_eqb key' key then (key', l ++ [i]) :: d'
      else (key', l) :: group_add d' key i
  end.

(** ** SoccerObservation *)

Record SoccerObservation := mkObservation {
  obs_state : option SoccerState;
  obs_action : option (list Action);
  obs_reward : Z;
  obs_next_state : option SoccerState
}.

(** The argument of [take_action]: one action name or a list of them. *)
Inductive ActionArg :=
| OneAction (a : Action)
| ActionList (l : list Action).

(** [len] of an action name. *)
Definition action_name_length (a : Action) : nat :=
  match a with
  | MOVE_RIGHT => 10
  | MOVE_UP => 7
  | MOVE_LEFT => 9
  | MOVE_DOWN => 9
  | STAND => 5
  end.

(** ** SoccerEnvironment *)

Section Environment.

Variable options : SoccerEnvironmentOptions.
Variable map_data : SoccerMapData.

Local Open Scope env_scope.

(** [SoccerEnvironment.get_moved_pos]; [list(pos)] fails on [None]. *)
Definition get_moved_pos (p : option Pos) (a : Action) : outcome Pos :=
  match p with
  | None => Raise TypeError
  | Some (x, y) =>
      Ok match a with
         | MOVE_RIGHT => (x + 1, y)
         | MOVE_UP => (x, y - 1)
         | MOVE_LEFT => (x - 1, y)
         | MOVE_DOWN => (x, y + 1)
         | STAND => (x, y)
         end%Z
  end.

(** [SoccerEnvironment.get_pos_distance], as the square of the norm: the
    code subtracts the positions as 64-bit integers and returns the norm
    of the difference in double precision, of which it uses the order and
    the comparison with 1.0 only.  The sum of squares stands for it as
    long as it is exact and orders the norms as they are ordered, which
    is so below 2^52, that is, between tiles with coordinates of at most
    2^24 in absolute value; the tiles of a map are far within. *)
Definition get_pos_distance (pos1 pos2 : option Pos) : outcome Z :=
  match pos1, pos2 with
  | Some p1, Some p2 =>
      let vx := (fst p2 - fst p1)%Z in
      let vy := (snd p2 - snd p1)%Z in
      Ok (vx * vx + vy * vy)%Z
  | _, _ => Raise TypeError
  end.

(** [self.state.get_agent_pos(i)] where [i] may be [None]. *)
Definition py_get_agent_pos (s : SoccerState) (i : option nat)
  : outcome (option Pos) :=
  match i with
  | Some i' => get_agent_pos s i'
  | None => Raise TypeError
  end.

(** [SoccerEnvironment._get_nearest_player_index]. The loop variable is the
    pair [(nearest_agent_index, nearest_dist)]. *)
Definition _get_nearest_player_index (s : SoccerState)
    (computer_agent_index : nat) : outcome (option nat) :=
  let agent_index := get_agent_index options COMPUTER computer_agent_index in
  obind (get_agent_pos s agent_index) (fun computer_pos =>
  obind
    (foldO
       (fun (acc : option nat * option Z) player_agent_index =>
          let agent_index := get_agent_index options PLAYER player_agent_index in
          obind (get_agent_pos s agent_index) (fun player_pos =>
          obind (get_pos_distance computer_pos player_pos) (fun dist =>
          match snd acc with
          | None => Ok (Some agent_index, Some dist)
          | Some nearest_dist =>
              if (dist <? nearest_dist)%Z
              then Ok (Some agent_index, Some dist)
              else Ok acc
          end)))
       (seq 0 (team_size options)) (None, None))
    (fun acc => Ok (fst acc))).

(** [SoccerEnvironment._get_defensive_agent_index]; subscripting [None]
    is a [TypeError]. *)
Definition _get_defensive_agent_index (s : SoccerState)
    (computer_agent_index : nat) : outcome (option nat) :=
  obind (get_ball_possession options s) (fun ball_possession =>
  match ball_possession with
  | None => Raise TypeError
  | Some bp =>
      match status_team_name bp with
      | PLAYER => Ok (Some (status_agent_index bp))
      | COMPUTER => _get_nearest_player_index s computer_agent_index
      end
  end).

(** The update test of the greedy search; [moved_dist >= 1.0] on the norm
    is [1 <= moved_dist] on its square. *)
Definition improves (m : StrategicMode) (moved_dist best_dist : Z) : bool :=
  match m with
  | APPROACH => (moved_dist <? best_dist)%Z
  | AVOID => (moved_dist >? best_dist)%Z
  | INTERCEPT => (moved_dist <? best_dist)%Z && (moved_dist >=? 1)%Z
  end.

(** The [for action in shuffled_actions] loop of
    [_get_strategic_action]. *)
Fixpoint strategic_scan (source_pos target_pos : option Pos)
    (m : StrategicMode) (l : list Action) (best_action : Action)
    (best_dist : Z) : outcome Action :=
  match l with
  | [] => Ok best_action
  | a :: l' =>
      obind (get_moved_pos source_pos a) (fun moved_pos =>
      if negb (pos_in moved_pos (walkable map_data))
      then strategic_scan source_pos target_pos m l' best_action best_dist
      else
        obind (get_pos_distance (Some moved_pos) target_pos) (fun moved_dist =>
        if improves m moved_dist best_dist
        then strategic_scan source_pos target_pos m l' a moved_dist
        else strategic_scan source_pos target_pos m l' best_action best_dist))
  end.

(** [SoccerEnvironment._get_strategic_action]. *)
Definition _get_strategic_action (source_pos target_pos : option Pos)
    (m : StrategicMode) : M Action :=
  orig_dist <- lift (get_pos_distance source_pos target_pos) ;;
  best_action <- choice actions ;;
  let best_dist := orig_dist in
  shuffled_actions <- sample (length actions) actions ;;
  lift (strategic_scan source_pos target_pos m shuffled_actions
          best_action best_dist).

(** [SoccerEnvironment._get_computer_action]. *)
Definition _get_computer_action (computer_agent_index : nat) : M Action :=
  let agent_index := get_agent_index options COMPUTER computer_agent_index in
  computer_ball <- read (fun s => get_agent_ball s agent_index) ;;
  computer_mode <- read (fun s => get_agent_mode s agent_index) ;;
  nearest_player_index <-
    read (fun s => _get_nearest_player_index s computer_agent_index) ;;
  nearest_player_pos <-
    read (fun s => py_get_agent_pos s nearest_player_index) ;;
  defensive_target_agent_index <-
    read (fun s => _get_defensive_agent_index s computer_agent_index) ;;
  defensive_target_agent_pos <-
    read (fun s => py_get_agent_pos s defensive_target_agent_index) ;;
  computer_pos <- read (fun s => get_agent_pos s agent_index) ;;
  target <-
    match computer_mode with
    | Some DEFENSIVE =>
        if computer_ball then ret (nearest_player_pos, AVOID)
        else
          let goals := goals map_data PLAYER in
          distances <-
            lift (mapO (fun goal_pos =>
                          get_pos_distance (Some goal_pos)
                            defensive_target_agent_pos) goals) ;;
          min_distance_index <- lift (argmin distances) ;;
          target_pos <- lift (py_nth goals min_distance_index) ;;
          ret (Some target_pos, APPROACH)
    | Some OFFENSIVE =>
        if computer_ball then
          let goals := goals map_data COMPUTER in
          distances <-
            lift (mapO (fun goal_pos =>
                          get_pos_distance (Some goal_pos) nearest_player_pos)
                    goals) ;;
          min_distance_index <- lift (argmax distances) ;;
          target_pos <- lift (py_nth goals min_distance_index) ;;
          ret (Some target_pos, APPROACH)
        else ret (defensive_target_agent_pos, INTERCEPT)
    | None => raise KeyError
    end ;;
  _get_strategic_action computer_pos (fst target) (snd target).

(** [SoccerEnvironment._get_wrapped_action], for teams of at most four
    agents.  For a bare action name and a team of several agents,
    [len(action)] is the length of the name, which is 5, 7, 9 or 10, and
    the method raises [ValueError].  For a team of that very size, which
    the constructor of the options refuses, the method returns the name,
    [take_action] indexes it by character, records the first character as
    the first agent's last action and raises [KeyError] in
    [get_moved_pos]; the state has no place for a character, so there the
    last branch gives the exception only and does not stand for the
    code. *)
Definition _get_wrapped_action (action : ActionArg) : outcome (list Action) :=
  match action with
  | OneAction a =>
      if team_size options <=? 1 then
        if negb (length [a] =? team_size options) then Raise ValueError
        else Ok [a]
      else
        if negb (action_name_length a =? team_size options)
        then Raise ValueError
        else Raise KeyError
  | ActionList l =>
      if negb (length l =? team_size options) then Raise ValueError
      else Ok l
  end.

(** The body of the nested loops of [_get_intended_pos]. *)
Definition intended_pos_step (action : list Action)
    (intended_pos : IntendedPos) (member : Team * nat) : M IntendedPos :=
  let team_name := fst member in
  let team_agent_index := snd member in
  let agent_index := get_agent_index options team_name team_agent_index in
  pos <- read (fun s => get_agent_pos s agent_index) ;;
  agent_action <-
    match team_name with
    | PLAYER => lift (py_nth action team_agent_index)
    | COMPUTER => _get_computer_action team_agent_index
    end ;;
  write (fun s => set_agent_action s agent_index (Some agent_action)) ;;;
  moved_pos <- lift (get_moved_pos pos agent_action) ;;
  if pos_in moved_pos (walkable map_data)
  then ret (dict_set intended_pos agent_index (Some moved_pos))
  else ret (dict_set intended_pos agent_index pos).

(** [SoccerEnvironment._get_intended_pos]. *)
Definition _get_intended_pos (action : list Action) : M IntendedPos :=
  foldM (intended_pos_step action) (roster options) [].

(** [tuple(pos)] *)
Definition py_tuple (p : option Pos) : outcome Pos :=
  match p with
  | Some p' => Ok p'
  | None => Raise TypeError
  end.

(** [SoccerEnvironment._get_overlapping_pos_to_agent]. *)
Definition _get_overlapping_pos_to_agent (s : SoccerState)
    (intended_pos : IntendedPos) : outcome Overlapping :=
  foldO
    (fun overlapping_pos_to_agent (item : nat * option Pos) =>
       let agent_index := fst item in
       let pos := snd item in
       obind (if negb (py_in pos (walkable map_data))
              then get_agent_pos s agent_index
              else Ok pos) (fun pos =>
       obind (py_tuple pos) (fun pos_tuple =>
       Ok (group_add overlapping_pos_to_agent pos_tuple agent_index))))
    intended_pos [].

(** The first loop of [_update_ball_possession]; the loop variable is the
    pair [(has_ball_agent_index, no_ball_agent_list)]. *)
Definition ball_scan (s : SoccerState) (agent_index_list : list nat)
  : outcome (option nat * list nat) :=
  foldO
    (fun (acc : option nat * list nat) agent_index =>
       obind (get_agent_ball s agent_index) (fun has_ball =>
       if has_ball then Ok (Some agent_index, snd acc)
       else Ok (fst acc, snd acc ++ [agent_index])))
    agent_index_list (None, []).

(** [SoccerEnvironment._update_ball_possession]. *)
Definition _update_ball_possession (agent_index_list : list nat) : M bool :=
  scan <- read (fun s => ball_scan s agent_index_list) ;;
  match fst scan with
  | Some has_ball_agent_index =>
      switch_agent_index <- choice (snd scan) ;;
      write (fun s => switch_ball s has_ball_agent_index switch_agent_index) ;;;
      ret true
  | None => ret false
  end.

(** The local variables of the [while] loop of [_update_agent_pos]. *)
Record Resolution := mkResolution {
  res_intended_pos : IntendedPos;
  res_has_switched : bool;
  res_detecting_overlap : bool
}.

(** The body of [for (_, agent_index_list) in
    overlapping_pos_to_agent.items()]. *)
Definition resolve_group (r : Resolution) (item : Pos * list nat)
  : M Resolution :=
  let agent_index_list := snd item in
  if 1 <? length agent_index_list then
    has_switched <-
      (if negb (res_has_switched r) then
         switch <- _update_ball_possession agent_index_list ;;
         ret (res_has_switched r || switch)
       else ret (res_has_switched r)) ;;
    intended_pos <-
      foldM (fun intended_pos agent_index =>
               old_pos <- read (fun s => get_agent_pos s agent_index) ;;
               ret (dict_set intended_pos agent_index old_pos))
        agent_index_list (res_intended_pos r) ;;
    ret (mkResolution intended_pos has_switched true)
  else ret r.

(** The [while detecting_overlap] loop of [_update_agent_pos]; one unit of
    [fuel] per execution of the loop body. *)
Fixpoint resolve_loop (fuel : nat) (intended_pos : IntendedPos)
    (has_switched : bool) : M IntendedPos :=
  match fuel with
  | O => out_of_fuel
  | S fuel' =>
      overlapping_pos_to_agent <-
        read (fun s => _get_overlapping_pos_to_agent s intended_pos) ;;
      r <- foldM resolve_group overlapping_pos_to_agent
             (mkResolution intended_pos has_switched false) ;;
      if res_detecting_overlap r
      then resolve_loop fuel' (res_intended_pos r) (res_has_switched r)
      else ret (res_intended_pos r)
  end.

(** [SoccerEnvironment._update_agent_pos]. *)
Definition _update_agent_pos (fuel : nat) (intended_pos : IntendedPos)
  : M unit :=
  intended_pos <- resolve_loop fuel intended_pos false ;;
  forM (fun item : nat * option Pos =>
          write (fun s => set_agent_pos s (fst item) (snd item)))
    intended_pos.

(** [SoccerEnvironment._get_reward]; the rewards 1.0, -1.0 and 0.0. *)
Definition _get_reward (s : SoccerState) : outcome Z :=
  obind (is_team_win options map_data s PLAYER) (fun player_win =>
  if player_win then Ok 1%Z
  else
    obind (is_team_win options map_data s COMPUTER) (fun computer_win =>
    if computer_win then Ok (-1)%Z else Ok 0%Z)).

(** [SoccerEnvironment.take_action]. The observation holds the state as it
    is when the method returns. *)
Definition take_action (fuel : nat) (action : ActionArg)
  : M SoccerObservation :=
  action <- lift (_get_wrapped_action action) ;;
  intended_pos <- _get_intended_pos action ;;
  _update_agent_pos fuel intended_pos ;;;
  write (fun s => Ok (increase_time_step s)) ;;;
  reward <- read _get_reward ;;
  next_state <- read (fun s => Ok s) ;;
  ret (mkObservation None (Some action) reward (Some next_state)).

(** The [while not found_pos] loop of [randomize]. *)
Fixpoint find_pos (fuel : nat) (team_name : Team) (agent_index : nat)
  : M unit :=
  match fuel with
  | O => out_of_fuel
  | S fuel' =>
      agent_pos <- choice (spawn map_data team_name) ;;
      status <- read (fun s => get_pos_status options s agent_pos) ;;
      match status with
      | None => write (fun s => set_agent_pos s agent_index (Some agent_pos))
      | Some _ => find_pos fuel' team_name agent_index
      end
  end.

(** The body of the nested loops of [randomize]. *)
Definition randomize_step (fuel : nat) (team_has_ball : Team)
    (team_agent_has_ball : nat) (member : Team * nat) : M unit :=
  let team_name := fst member in
  let team_agent_index := snd member in
  let agent_index := get_agent_index options team_name team_agent_index in
  find_pos fuel team_name agent_index ;;;
  let set_ball :=
    team_eqb team_name team_has_ball
    && (team_agent_index =? team_agent_has_ball) in
  (if set_ball
   then write (fun s => set_agent_ball s agent_index true)
   else write (fun s => set_agent_ball s agent_index false)) ;;;
  match team_name with
  | COMPUTER =>
      computer_mode <- choice modes ;;
      write (fun s => set_agent_mode s agent_index (Some computer_mode))
  | PLAYER => write (fun s => set_agent_mode s agent_index None)
  end ;;;
  write (fun s => set_agent_action s agent_index (Some (last actions STAND))).

(** [SoccerState.randomize]. *)
Definition randomize (fuel : nat) : M unit :=
  team_has_ball <- choice team_names ;;
  team_agent_has_ball <- randrange (team_size options) ;;
  forM (randomize_step fuel team_has_ball team_agent_has_ball)
    (roster options).

(** An agent record with the four fields as the first loop of
    [SoccerState.reset] sets them. *)
Definition blank_agent : Agent := mkAgent None false None None.

(** [SoccerState.reset]. The list of empty dictionaries is a list of blank
    records, which the first loop then fills field by field. *)
Definition SoccerState_reset (fuel : nat) : M unit :=
  write (fun s =>
           Ok (mkState (repeat blank_agent (get_agent_size options))
                 (time_step s))) ;;;
  forM (fun agent_index =>
          write (fun s => set_agent_pos s agent_index None) ;;;
          write (fun s => set_agent_ball s agent_index false) ;;;
          write (fun s => set_agent_mode s agent_index None) ;;;
          write (fun s => set_agent_action s agent_index None))
    (seq 0 (get_agent_size options)) ;;;
  randomize fuel ;;;
  write (fun s => Ok (mkState (agent_list s) 0)).

(** [SoccerEnvironment.reset]. *)
Definition reset (fuel : nat) : M SoccerObservation :=
  SoccerState_reset fuel ;;;
  s <- read (fun s => Ok s) ;;
  ret (mkObservation (Some s) None 0 None).

End Environment.

(** * Specification vocabulary *)

(** The record of agent [i]; out of range it is the blank record, and the
    statements below only use it in range. *)
Definition agent (s : SoccerState) (i : nat) : Agent :=
  nth i (agent_list s) blank_agent.

Definition agent_count (s : SoccerState) : nat := length (agent_list s).

(** The tile agent [i] stands on. *)
Definition cur (s : SoccerState) (i : nat) : option Pos := pos (agent s i).



(** The global index of a member of the roster. *)
Definition member_index (options : SoccerEnvironmentOptions)
    (m : Team * nat) : nat :=
  get_agent_index options (fst m) (snd m).

(** The dictionary the lookups return for a member of the roster. *)
Definition status_of (options : SoccerEnvironmentOptions) (m : Team * nat)
  : AgentStatus :=
  mkStatus (fst m) (snd m) (member_index options m).

(** Agent [h] holds the ball and nobody else does. *)
Definition holder_at (s : SoccerState) (h : nat) : Prop :=
  h < agent_count s /\
  forall i, i < agent_count s -> ball (agent s i) = (i =? h).

(** Exactly one agent holds the ball. *)
Definition one_holder (s : SoccerState) : Prop := exists h, holder_at s h.

Definition no_holder (s : SoccerState) : Prop :=
  forall i, i < agent_count s -> ball (agent s i) = false.

(** The number of ball flags that are set. *)
Definition ball_count (s : SoccerState) : nat :=
  length (filter ball (agent_list s)).

(** Every agent stands on a tile. *)
Definition placed (s : SoccerState) : Prop :=
  forall i, i < agent_count s -> cur s i <> None.

(** No two distinct agents stand on the same tile. *)
Definition distinct_tiles (s : SoccerState) : Prop :=
  forall i j, i < agent_count s -> j < agent_count s -> i <> j ->
  forall p, cur s i = Some p -> cur s j <> Some p.

(** Every scripted agent has a mode. *)
Definition computer_modes (options : SoccerEnvironmentOptions)
    (s : SoccerState) : Prop :=
  forall i, team_size options <= i -> i < agent_count s ->
  mode (agent s i) <> None.

(** The well-formed states of an environment. *)
Record wf_state (options : SoccerEnvironmentOptions) (s : SoccerState)
  : Prop := mkWf {
  wf_count : agent_count s = get_agent_size options;
  wf_holder : one_holder s;
  wf_placed : placed s;
  wf_distinct : distinct_tiles s;
  wf_modes : computer_modes options s
}.

(** The states an environment goes through: the state a call of [reset]
    returns with, and the state a call of [take_action] leaves behind,
    whether it returns or raises. *)
Inductive reachable (options : SoccerEnvironmentOptions)
    (map_data : SoccerMapData) : SoccerState -> Prop :=
| reach_reset : forall fuel w obs w',
    reset options map_data fuel w = (Ok obs, w') ->
    reachable options map_data (st w')
| reach_take_action : forall fuel action w r w',
    reachable options map_data (st w) ->
    take_action options map_data fuel action w = (r, w') ->
    r <> OutOfFuel ->
    reachable options map_data (st w').

(** The map data the loader must supply: each team has a goal area. *)
Definition map_has_goals (map_data : SoccerMapData) : Prop :=
  forall t, goals map_data t <> [].

(** ** Reasoning about methods *)

(** [wp m w Q E F]: run from [w], the method [m] returns a value and a
    world in [Q], or raises leaving a world in [E], or runs out of fuel
    leaving a world in [F]. *)
Definition wp {A} (m : M A) (w : World) (Q : A -> World -> Prop)
    (E F : World -> Prop) : Prop :=
  match m w with
  | (Ok a, w') => Q a w'
  | (Raise _, w') => E w'
  | (OutOfFuel, w') => F w'
  end.

(** A method that leaves the state as it found it, whatever its outcome. *)
Definition readonly {A} (m : M A) : Prop :=
  forall w, st (snd (m w)) = st w.

Definition nowhere : World -> Prop := fun _ => False.
Definition anywhere : World -> Prop := fun _ => True.

(** ** Overlap resolution *)

(** The tile an entry of [intended_pos] claims, as
    [_get_overlapping_pos_to_agent] reads it. *)
Definition claim (map_data : SoccerMapData) (s : SoccerState)
    (item : nat * option Pos) : option Pos :=
  if negb (py_in (snd item) (walkable map_data))
  then cur s (fst item)
  else snd item.

Definition opt_pos_eqb (p q : option Pos) : bool :=
  match p, q with
  | Some p', Some q' => pos_eqb p' q'
  | None, None => true
  | _, _ => false
  end.

(** An entry that claims another tile than the agent's own. *)
Definition moving (map_data : SoccerMapData) (s : SoccerState)
    (item : nat * option Pos) : bool :=
  negb (opt_pos_eqb (claim map_data s item) (cur s (fst item))).

(** The number of entries that still attempt a move. *)
Definition movers (map_data : SoccerMapData) (s : SoccerState)
    (intended_pos : IntendedPos) : nat :=
  length (filter (moving map_data s) intended_pos).

(** An entry as [_get_intended_pos] builds it: a walkable tile, or the
    agent's own tile. *)
Definition destination (map_data : SoccerMapData) (s : SoccerState)
    (item : nat * option Pos) : Prop :=
  py_in (snd item) (walkable map_data) = true \/ snd item = cur s (fst item).

(** A dictionary over agent indices: the keys are distinct and in range. *)
Definition agent_dict (s : SoccerState) (intended_pos : IntendedPos) : Prop :=
  NoDup (map fst intended_pos) /\
  Forall (fun i => i < agent_count s) (map fst intended_pos).

(** No tile is claimed by two agents. *)
Definition no_overlap (map_data : SoccerMapData) (s : SoccerState)
    (intended_pos : IntendedPos) : Prop :=
  forall x y, In x intended_pos -> In y intended_pos ->
  claim map_data s x = claim map_data s y -> fst x = fst y.

(** [d[k]] for a key that is present. *)
Fixpoint dict_get {V} (d : list (nat * V)) (k : nat) : option V :=
  match d with
  | [] => None
  | (k', v) :: d' => if k' =? k then Some v else dict_get d' k
  end.

(** The grouping of claims by tile. *)
Definition group_all (claims : list (Pos * nat)) : Overlapping :=
  fold_left (fun acc c => group_add acc (fst c) (snd c)) claims [].

(** The agents filed under a tile. *)
Fixpoint members (g : Overlapping) (t : Pos) : list nat :=
  match g with
  | [] => []
  | (t', l) :: g' => if pos_eqb t' t then l else members g' t
  end.

(** Agent [i] is in a group of two or more. *)
Definition contested (g : Overlapping) (i : nat) : bool :=
  existsb (fun item : Pos * list nat =>
             (1 <? length (snd item)) && existsb (Nat.eqb i) (snd item)) g.

(** One pass of the [while] loop, on the dictionary. *)
Definition rolled_back (s : SoccerState) (g : Overlapping)
    (item : nat * option Pos) : nat * option Pos :=
  if contested g (fst item) then (fst item, cur s (fst item)) else item.

Definition tile_or_origin (p : option Pos) : Pos :=
  match p with
  | Some p' => p'
  | None => (0, 0)%Z
  end.

(** The claims of a dictionary, by tile. *)
Definition claims_of (map_data : SoccerMapData) (s : SoccerState)
    (intended_pos : IntendedPos) : list (Pos * nat) :=
  map (fun item => (tile_or_origin (claim map_data s item), fst item))
    intended_pos.

(** Same agents but for the ball flags. *)
Definition same_but_ball (s s' : SoccerState) : Prop :=
  time_step s' = time_step s /\
  agent_count s' = agent_count s /\
  forall i, pos (agent s' i) = pos (agent s i) /\
            mode (agent s' i) = mode (agent s i) /\
            action (agent s' i) = action (agent s i).

(** ** Example data *)

(** A corridor of two rows and six columns; the controlled team starts on
    the left and scores on the right. *)
Definition corridor : SoccerMapData :=
  mkMap
    (fun t => match t with
              | PLAYER => [(1, 1); (1, 2)]
              | COMPUTER => [(4, 1); (4, 2)]
              end%Z)
    (fun t => match t with
              | PLAYER => [(5, 1); (5, 2)]
              | COMPUTER => [(0, 1); (0, 2)]
              end%Z)
    [(0, 1); (0, 2); (1, 1); (1, 2); (2, 1); (2, 2);
     (3, 1); (3, 2); (4, 1); (4, 2); (5, 1); (5, 2)]%Z.

Definition duel : SoccerEnvironmentOptions := mkOptions String.EmptyString 1.
Definition doubles : SoccerEnvironmentOptions := mkOptions String.EmptyString 2.

(** A random tape that always yields the given number. *)
Definition constant_rng (n : nat) : Rng := mkRng (fun _ => n) 0.

(** A one-against-one state in which nobody has the ball. *)
Definition lost_ball_state : SoccerState :=
  mkState
    [mkAgent (Some (1, 1)%Z) false None (Some STAND);
     mkAgent (Some (4, 1)%Z) false (Some OFFENSIVE) (Some STAND)] 0.

(** A two-against-two state; the first scripted agent has the ball. *)
Definition doubles_state : SoccerState :=
  mkState
    [mkAgent (Some (1, 1)%Z) false None (Some STAND);
     mkAgent (Some (1, 2)%Z) false None (Some STAND);
     mkAgent (Some (4, 1)%Z) true (Some DEFENSIVE) (Some STAND);
     mkAgent (Some (4, 2)%Z) false (Some OFFENSIVE) (Some STAND)] 0.

(** The action [random.choice(self.actions)] draws in world [w]. *)
Definition default_action (w : World) : Action :=
  nth (tape (rnd w) (cursor (rnd w)) mod length actions) actions MOVE_RIGHT.

(** The world after one random draw. *)
Definition after_draw (w : World) : World :=
  mkWorld (st w) (mkRng (tape (rnd w)) (S (cursor (rnd w)))).

(** Another agent claims the same tile. *)
Definition crowded (map_data : SoccerMapData) (s : SoccerState)
    (intended_pos : IntendedPos) (x : nat * option Pos) : Prop :=
  exists y, In y intended_pos /\ fst y <> fst x /\
            claim map_data s y = claim map_data s x.

(** The dictionary [_get_overlapping_pos_to_agent] builds. *)
Definition groups_of (map_data : SoccerMapData) (s : SoccerState)
    (intended_pos : IntendedPos) : Overlapping :=
  group_all (claims_of map_data s intended_pos).

(** Some tile has two or more claimants. *)
Definition overlap_detected (g : Overlapping) : bool :=
  existsb (fun item : Pos * list nat => 1 <? length (snd item)) g.

(** The claimants of a group other than agent [h], in the order of the
    group: [no_ball_agent_list] when [h] holds the ball. *)
Definition other_claimants (h : nat) (l : list nat) : list nat :=
  filter (fun i => negb (i =? h)) l.

(** The claimant [random.choice] picks in world [w]. *)
Definition switch_partner (w : World) (h : nat) (l : list nat) : nat :=
  nth (tape (rnd w) (cursor (rnd w)) mod length (other_claimants h l))
    (other_claimants h l) 0.

(** The entries of a group are rolled back. *)
Definition roll_back_group (s : SoccerState) (l : list nat)
    (item : nat * option Pos) : nat * option Pos :=
  if existsb (Nat.eqb (fst item)) l then (fst item, cur s (fst item))
  else item.

(** One pass of the [while] loop of [_update_agent_pos], on the
    dictionary. *)
Definition pass (map_data : SoccerMapData) (s : SoccerState)
    (intended_pos : IntendedPos) : IntendedPos :=
  map (rolled_back s (groups_of map_data s intended_pos)) intended_pos.

(** From a state whose ball holder is [h] and a switch flag [hs] to a
    state [s'] and a flag [hs']: nothing happened, or the flag was unset
    and the ball went from [h] to another agent in one [switch_ball]. *)
Definition at_most_one_switch (h : nat) (hs : bool) (s : SoccerState)
    (hs' : bool) (s' : SoccerState) : Prop :=
  (s' = s /\ hs' = hs) \/
  (hs = false /\ hs' = true /\
   exists c, c <> h /\ c < agent_count s /\ switch_ball s h c = Ok s').

(** What a group must satisfy to be resolved: its agents are distinct,
    in range, and keys of the dictionary. *)
Definition group_ok (s : SoccerState) (keys : list nat)
    (item : Pos * list nat) : Prop :=
  NoDup (snd item) /\
  Forall (fun i => i < agent_count s /\ In i keys) (snd item).

(** A row of five tiles with four agents in a queue, each of the last
    three stepping onto the tile of the one before. *)
Definition row : SoccerMapData :=
  mkMap (fun _ => []) (fun _ => [])
    [(0, 0); (1, 0); (2, 0); (3, 0); (4, 0)]%Z.

Definition queue_state : SoccerState :=
  mkState
    [mkAgent (Some (0, 0)%Z) true None (Some STAND);
     mkAgent (Some (1, 0)%Z) false None (Some STAND);
     mkAgent (Some (2, 0)%Z) false (Some OFFENSIVE) (Some STAND);
     mkAgent (Some (3, 0)%Z) false (Some OFFENSIVE) (Some STAND)] 0.

Definition queue_intended_pos : IntendedPos :=
  [(0, Some (0, 0)%Z); (1, Some (0, 0)%Z);
   (2, Some (1, 0)%Z); (3, Some (2, 0)%Z)].

(** An agent record with another position. *)
Definition with_pos (p : option Pos) (a : Agent) : Agent :=
  mkAgent p (ball a) (mode a) (action a).

(** Same agents but for the last actions. *)
Definition same_but_action (s s' : SoccerState) : Prop :=
  time_step s' = time_step s /\
  agent_count s' = agent_count s /\
  forall i, pos (agent s' i) = pos (agent s i) /\
            ball (agent s' i) = ball (agent s i) /\
            mode (agent s' i) = mode (agent s i).

(** The state after the dictionary is committed. *)
Definition committed (s : SoccerState) (intended_pos : IntendedPos)
    (s' : SoccerState) : Prop :=
  time_step s' = time_step s /\
  agent_count s' = agent_count s /\
  forall i, agent s' i =
            match dict_get intended_pos i with
            | Some p => with_pos p (agent s i)
            | None => agent s i
            end.

(** The state of [randomize] after the first [k] agents of the roster
    were dealt with, [hb] being the agent chosen to have the ball. *)
Definition dealt (options : SoccerEnvironmentOptions) (hb k : nat)
    (s : SoccerState) : Prop :=
  agent_count s = get_agent_size options /\
  (forall i, i < k ->
     cur s i <> None /\ ball (agent s i) = (i =? hb) /\
     (team_size options <= i -> mode (agent s i) <> None)) /\
  (forall i, k <= i -> i < agent_count s ->
     cur s i = None /\ ball (agent s i) = false) /\
  (forall i j, i < k -> j < k -> i <> j ->
     forall p, cur s i = Some p -> cur s j <> Some p).

(** The world a one-against-one environment is constructed in, and the
    world its first [reset] leaves. *)
Definition dawn : World := mkWorld (mkState [] 0) (constant_rng 0).

Definition kickoff : World := snd (reset duel corridor 3 dawn).

(** A training loop that repeats one action [n] times and never looks at
    [is_terminal]. *)
Fixpoint play (options : SoccerEnvironmentOptions)
    (map_data : SoccerMapData) (fuel : nat) (action : ActionArg) (n : nat)
  : M unit :=
  match n with
  | O => ret tt
  | S n' =>
      bind (take_action options map_data fuel action)
        (fun _ => play options map_data fuel action n')
  end.

(** A one-against-one state past the step budget: the controlled agent has
    the ball, the scripted agent stands next to it. *)
Definition overtime_state : SoccerState :=
  mkState
    [mkAgent (Some (2, 1)%Z) true None (Some STAND);
     mkAgent (Some (3, 1)%Z) false (Some OFFENSIVE) (Some STAND)] 100.

(** A one-against-one state in which the controlled agent has scored. *)
Definition scored_state : SoccerState :=
  mkState
    [mkAgent (Some (5, 1)%Z) true None (Some MOVE_RIGHT);
     mkAgent (Some (3, 2)%Z) false (Some DEFENSIVE) (Some STAND)] 7.

(** ** Tactics *)

(** Well-formedness of a state given with its agents, of which there are at
    most four; [h] is the ball holder. *)
Ltac concrete_wf h :=
  constructor;
  [ reflexivity
  | exists h; split; [unfold agent_count; simpl; lia|];
    intros i Hi; unfold agent_count in Hi; simpl in Hi;
    do 4 (try (destruct i as [|i]; [reflexivity|])); lia
  | intros i Hi; unfold agent_count in Hi; simpl in Hi;
    do 4 (try (destruct i as [|i]; [unfold cur, agent; simpl; discriminate|]));
    lia
  | intros i j Hi Hj Hij p; unfold agent_count in Hi, Hj; simpl in Hi, Hj;
    do 4 (try (destruct i as [|i])); do 4 (try (destruct j as [|j]));
    try lia; unfold cur, agent; simpl; congruence
  | intros i Hts Hi; unfold agent_count in Hi; simpl in Hi, Hts;
    do 4 (try (destruct i as [|i];
               [try lia; unfold agent; simpl; discriminate|]));
    lia ].


(** * SoccerRenderer (soccer_renderer.py) *)

(** [SoccerRenderer._get_action]: the action list a key press stands for.
    [action[0] = ...] fails on an empty list. *)
Definition _get_action (options : SoccerEnvironmentOptions)
    (first_player_action : Action) : outcome (list Action) :=
  let action := repeat STAND (team_size options) in
  match action with
  | [] => Raise IndexError
  | _ :: _ => Ok (list_set action 0 first_player_action)
  end.

(** A [slice(start, stop)]. *)
Record Slice := mkSlice {
  slice_start : Z;
  slice_stop : Z
}.

(** The windows [get_po_screenshot] computes along one axis. *)
Record PoWindow := mkPoWindow {
  po_size : Z;
  crop_slice : Slice;
  paste_slice : Slice
}.

(** The value a signed 64-bit integer takes for the result [z] of an
    operation of NumPy: it wraps around. *)
Definition wrap64 (z : Z) : Z := ((z + 2 ^ 63) mod 2 ^ 64 - 2 ^ 63)%Z.

(** The arithmetic of [SoccerRenderer.get_po_screenshot] along one axis:
    [tile_size], [display_size] and [agent_pos] are the components of the
    tile size, of the display size and of the agent's position on that
    axis.  The tile size and the position are 64-bit integers of NumPy,
    and so is every value computed from them; [tile_len] is an integer of
    Python, taken to fit 64 bits, as are [radius] and the display size. *)
Definition po_window (tile_size display_size agent_pos radius : Z)
  : PoWindow :=
  let tile_len := (2 * radius + 1)%Z in
  let po_size := wrap64 (tile_size * tile_len) in
  let crop_offset := wrap64 (tile_size * wrap64 (agent_pos - radius)) in
  let crop_slice :=
    mkSlice (Z.max 0 crop_offset)
      (Z.min display_size (wrap64 (crop_offset + po_size))) in
  let crop_size :=
    wrap64 (slice_stop crop_slice - slice_start crop_slice) in
  let paste_offset := Z.max 0 (wrap64 (- crop_offset)) in
  let paste_slice :=
    mkSlice paste_offset (wrap64 (paste_offset + crop_size)) in
  mkPoWindow po_size crop_slice paste_slice.

(** * More vocabulary *)

(** The tile an action leads to from a tile. *)
Definition neighbour (p : Pos) (a : Action) : Pos :=
  match a with
  | MOVE_RIGHT => (fst p + 1, snd p)
  | MOVE_UP => (fst p, snd p - 1)
  | MOVE_LEFT => (fst p - 1, snd p)
  | MOVE_DOWN => (fst p, snd p + 1)
  | STAND => p
  end%Z.

Definition opposite (a : Action) : Action :=
  match a with
  | MOVE_RIGHT => MOVE_LEFT
  | MOVE_UP => MOVE_DOWN
  | MOVE_LEFT => MOVE_RIGHT
  | MOVE_DOWN => MOVE_UP
  | STAND => STAND
  end.

(** The square of the distance between two tiles. *)
Definition dist2 (p q : Pos) : Z :=
  ((fst q - fst p) * (fst q - fst p) + (snd q - snd p) * (snd q - snd p))%Z.

(** Coordinates of at most 2^24 in absolute value.  Between two such
    tiles, and between a tile next to one and the other, the differences
    of the coordinates fit a 64-bit integer and the sum of their squares
    is below 2^52, so that it is exact in double precision and two norms,
    the rounded square roots, compare as the sums of squares do.  It is
    on such tiles that [get_pos_distance], the sum of squares, stands for
    the norm the code returns. *)
Definition in_float_range (p : Pos) : Prop :=
  (Z.abs (fst p) <= 2 ^ 24 /\ Z.abs (snd p) <= 2 ^ 24)%Z.

(** Every agent that stands on a tile stands on one within that range. *)
Definition agents_in_float_range (s : SoccerState) : Prop :=
  forall i p, cur s i = Some p -> in_float_range p.

(** The index of an agent within its team. *)
Definition team_agent_index (options : SoccerEnvironmentOptions) (i : nat)
  : nat :=
  i - team_size options * group_index (get_team_name options i).

(** Every agent stands on a walkable tile. *)
Definition on_walkable (map_data : SoccerMapData) (s : SoccerState) : Prop :=
  forall i, i < agent_count s ->
  exists p, cur s i = Some p /\ In p (walkable map_data).

(** Every spawn tile is walkable. *)
Definition spawn_walkable (map_data : SoccerMapData) : Prop :=
  forall t p, In p (spawn map_data t) -> In p (walkable map_data).

(** What the greedy search orders the candidates by: the distance when it
    is to shrink, its opposite when it is to grow. *)
Definition search_key (m : StrategicMode) (d : Z) : Z :=
  match m with
  | AVOID => (- d)%Z
  | _ => d
  end.

(** The distances a candidate of the search may have. *)
Definition eligible (m : StrategicMode) (d : Z) : Prop :=
  match m with
  | INTERCEPT => (1 <= d)%Z
  | _ => True
  end.

(** An action is a candidate of the search from [src] towards [tgt], with
    distance [d]: it leads to a walkable tile at an eligible distance. *)
Definition candidate (map_data : SoccerMapData) (m : StrategicMode)
    (src tgt : Pos) (a : Action) (d : Z) : Prop :=
  In (neighbour src a) (walkable map_data) /\
  d = dist2 (neighbour src a) tgt /\
  eligible m d.

(** The distance from the scripted agent [c] to the controlled agent [k],
    as [_get_nearest_player_index] computes it. *)
Definition player_distance (options : SoccerEnvironmentOptions)
    (s : SoccerState) (c k : nat) : Z :=
  match cur s (get_agent_index options COMPUTER c),
        cur s (get_agent_index options PLAYER k) with
  | Some p, Some q => dist2 p q
  | _, _ => 0%Z
  end.

(** A team has an agent that wins. *)
Definition team_scores (options : SoccerEnvironmentOptions)
    (map_data : SoccerMapData) (s : SoccerState) (t : Team) : Prop :=
  exists k, k < team_size options /\
    is_agent_win options map_data s (get_agent_index options t k) = Ok true.

(** A one-against-one state on the row, which has no goal area: the
    controlled agent has the ball and the scripted agent defends. *)
Definition guard_state : SoccerState :=
  mkState
    [mkAgent (Some (0, 0)%Z) true None (Some STAND);
     mkAgent (Some (2, 0)%Z) false (Some DEFENSIVE) (Some STAND)] 0.

(** * Vocabulary of a step *)

(** The tile an agent at [p] asks for with action [a]: the next tile in
    that direction when it is walkable, its own tile otherwise. *)
Definition intended_tile (map_data : SoccerMapData) (p : Pos) (a : Action)
  : Pos :=
  if pos_in (neighbour p a) (walkable map_data) then neighbour p a else p.

(** An entry of [intended_pos] is the tile its agent asks for: the agent
    stood at some tile in [s0], the action it chose is recorded in [s], a
    controlled agent's action is the one at its place in [l], and the entry
    is the intended tile. *)
Definition recorded (options : SoccerEnvironmentOptions)
    (map_data : SoccerMapData) (l : list Action) (s0 s : SoccerState)
    (x : nat * option Pos) : Prop :=
  exists p a, cur s0 (fst x) = Some p /\
    action (agent s (fst x)) = Some a /\
    (fst x < team_size options -> nth_error l (fst x) = Some a) /\
    snd x = Some (intended_tile map_data p a).

(** What a step does to the agents of [s], leaving [s']: each keeps its
    mode, has a last action, which for a controlled agent is the one at its
    place in [l], and stands where it stood or on the walkable tile next
    to it in the direction of that action. *)
Definition stepped (options : SoccerEnvironmentOptions)
    (map_data : SoccerMapData) (l : list Action) (s s' : SoccerState)
  : Prop :=
  forall i, i < agent_count s ->
    mode (agent s' i) = mode (agent s i) /\
    exists p a, cur s i = Some p /\
      action (agent s' i) = Some a /\
      (i < team_size options -> nth_error l i = Some a) /\
      (cur s' i = Some p \/
       (cur s' i = Some (neighbour p a) /\
        pos_in (neighbour p a) (walkable map_data) = true)).

(** The world after the first step of a one-against-one episode, the
    controlled agent moving right. *)
Definition first_step : World :=
  snd (take_action duel corridor 2 (OneAction MOVE_RIGHT) kickoff).

(** The first [k] agents are as [randomize] leaves them: on a spawn tile
    of their team, with STAND as last action, and with a mode exactly when
    they are scripted. *)
Definition seated (options : SoccerEnvironmentOptions)
    (map_data : SoccerMapData) (k : nat) (s : SoccerState) : Prop :=
  agent_count s = get_agent_size options /\
  forall i, i < k ->
    (exists p, cur s i = Some p /\
               In p (spawn map_data (get_team_name options i))) /\
    action (agent s i) = Some STAND /\
    (mode (agent s i) = None <-> i < team_size options).

(** The body of the loop of [_get_nearest_player_index], the scripted
    agent standing at [computer_pos]. *)
Definition nearest_step (options : SoccerEnvironmentOptions)
    (s : SoccerState) (computer_pos : option Pos)
    (acc : option nat * option Z) (player_agent_index : nat)
  : outcome (option nat * option Z) :=
  let agent_index := get_agent_index options PLAYER player_agent_index in
  obind (get_agent_pos s agent_index) (fun player_pos =>
  obind (get_pos_distance computer_pos player_pos) (fun dist =>
  match snd acc with
  | None => Ok (Some agent_index, Some dist)
  | Some nearest_dist =>
      if (dist <? nearest_dist)%Z
      then Ok (Some agent_index, Some dist)
      else Ok acc
  end)).

(** * [SoccerState.__hash__] *)

(** The values [__hash__] collects. Python compares and hashes [True] and
    [False] as the integers 1 and 0; the mode and action names are strings
    of two disjoint sets. *)
Inductive PyVal :=
| VInt (z : Z)
| VNone
| VMode (m : Mode)
| VAction (a : Action).

Definition py_bool (b : bool) : PyVal := VInt (if b then 1 else 0).

Definition py_mode (m : option Mode) : PyVal :=
  match m with
  | Some m' => VMode m'
  | None => VNone
  end.

Definition py_action (a : option Action) : PyVal :=
  match a with
  | Some a' => VAction a'
  | None => VNone
  end.

(** [hash_list.extend(pos)]; [None] is not iterable. *)
Definition py_extend (hash_list : list PyVal) (p : option Pos)
  : outcome (list PyVal) :=
  match p with
  | Some (x, y) => Ok (hash_list ++ [VInt x; VInt y])
  | None => Raise TypeError
  end.

(** The body of the loop of [__hash__]. *)
Definition hash_step (s : SoccerState) (hash_list : list PyVal)
    (agent_index : nat) : outcome (list PyVal) :=
  obind (get_agent_pos s agent_index) (fun p =>
  obind (py_extend hash_list p) (fun hash_list =>
  obind (get_agent_ball s agent_index) (fun b =>
  let hash_list := hash_list ++ [py_bool b] in
  obind (get_agent_mode s agent_index) (fun m =>
  let hash_list := hash_list ++ [py_mode m] in
  obind (get_agent_action s agent_index) (fun a =>
  Ok (hash_list ++ [py_action a])))))).

(** The list [__hash__] builds; the method returns the hash of the tuple
    of its elements. *)
Definition hash_list (options : SoccerEnvironmentOptions) (s : SoccerState)
  : outcome (list PyVal) :=
  obind (foldO (hash_step s) (seq 0 (get_agent_size options)) [])
    (fun hash_list => Ok (hash_list ++ [VInt (time_step s)])).

(** What an agent contributes to the list. *)
Definition agent_key (a : Agent) : option (list PyVal) :=
  match pos a with
  | Some (x, y) =>
      Some [VInt x; VInt y; py_bool (ball a); py_mode (mode a);
            py_action (action a)]
  | None => None
  end.

(** What the agents contribute, when all of them have a position. *)
Fixpoint agents_key (l : list Agent) : option (list PyVal) :=
  match l with
  | [] => Some []
  | a :: l' =>
      match agent_key a, agents_key l' with
      | Some k, Some ks => Some (k ++ ks)
      | _, _ => None
      end
  end.

(** * Vocabulary of the overlap loop *)

(** At most one agent holds the ball. *)
Definition at_most_one_holder (s : SoccerState) : Prop :=
  one_holder s \/ no_holder s.

(** What is known of the ball: its holder, or that nobody has it. *)
Definition holds (s : SoccerState) (oh : option nat) : Prop :=
  match oh with
  | Some h => holder_at s h
  | None => no_holder s
  end.

(** The dictionary after [n] passes of the loop. *)
Fixpoint passes (map_data : SoccerMapData) (s : SoccerState) (n : nat)
    (intended_pos : IntendedPos) : IntendedPos :=
  match n with
  | O => intended_pos
  | S n' => passes map_data s n' (pass map_data s intended_pos)
  end.

(** The first group of two or more claimants that agent [h] is in. *)
Definition holder_group (g : Overlapping) (h : nat) : option (list nat) :=
  option_map snd
    (find (fun item : Pos * list nat =>
             (1 <? length (snd item)) && existsb (Nat.eqb h) (snd item)) g).

(** The world after the ball went from [h] to the claimant that
    [random.choice] draws among the others of [l]. *)
Definition world_after_switch (w : World) (h : nat) (l : list nat) : World :=
  match switch_ball (st w) h (switch_partner w h l) with
  | Ok s' => mkWorld s' (rnd (after_draw w))
  | _ => after_draw w
  end.

(** The switch flag and the world after the loop over the groups [g]: the
    ball is switched in the group of its holder, if no switch happened
    before. *)
Definition round_outcome (g : Overlapping) (oh : option nat) (hs : bool)
    (w : World) : bool * World :=
  match oh, hs with
  | Some h, false =>
      match holder_group g h with
      | Some l => (true, world_after_switch w h l)
      | None => (false, w)
      end
  | _, _ => (hs, w)
  end.

(** The ball holder after the loop over the groups. *)
Definition round_holder (g : Overlapping) (oh : option nat) (hs : bool)
    (w : World) : option nat :=
  match oh, hs with
  | Some h, false =>
      match holder_group g h with
      | Some l => Some (switch_partner w h l)
      | None => Some h
      end
  | _, _ => oh
  end.

(** The contested group agent [h] is in at the first of [n] passes in
    which it is in one. *)
Fixpoint first_contest (map_data : SoccerMapData) (s : SoccerState)
    (h : nat) (n : nat) (intended_pos : IntendedPos) : option (list nat) :=
  match n with
  | O => None
  | S n' =>
      match holder_group (groups_of map_data s intended_pos) h with
      | Some l => Some l
      | None =>
          if overlap_detected (groups_of map_data s intended_pos)
          then first_contest map_data s h n' (pass map_data s intended_pos)
          else None
      end
  end.

(** The world the loop leaves after at most [n] passes. *)
Definition loop_world (map_data : SoccerMapData) (oh : option nat)
    (hs : bool) (n : nat) (intended_pos : IntendedPos) (w : World) : World :=
  match oh, hs with
  | Some h, false =>
      match first_contest map_data (st w) h n intended_pos with
      | Some l => world_after_switch w h l
      | None => w
      end
  | _, _ => w
  end.

(** The agents of a dictionary that claim the same tile as agent [h], in
    the order of the dictionary. *)
Definition claimants (map_data : SoccerMapData) (s : SoccerState)
    (intended_pos : IntendedPos) (h : nat) : list nat :=
  match dict_get intended_pos h with
  | Some v =>
      members (groups_of map_data s intended_pos)
        (tile_or_origin (claim map_data s (h, v)))
  | None => []
  end.

(** A state with two ball holders, on the row. *)
Definition two_balls_state : SoccerState :=
  mkState
    [mkAgent (Some (0, 0)%Z) true None (Some STAND);
     mkAgent (Some (2, 0)%Z) true (Some OFFENSIVE) (Some STAND)] 0.

(** The action agent [i] takes in a step from [s] when the caller gives
    the actions [l]: a controlled agent takes the action at its place in
    [l], a scripted agent the one its policy returns in a state that has
    the positions, the ball and the modes of [s]. *)
Definition chooses (options : SoccerEnvironmentOptions)
    (map_data : SoccerMapData) (l : list Action) (s : SoccerState) (i : nat)
    (a : Action) : Prop :=
  if i <? team_size options then nth_error l i = Some a
  else exists w, same_but_action s (st w) /\
         fst (_get_computer_action options map_data
                (i - team_size options) w) = Ok a.

(** An entry of [intended_pos] as [_get_intended_pos] decides it: the
    agent stood at some tile in [s0], it chose an action, which is
    recorded in [s], and the entry is the tile it asks for with it. *)
Definition decided (options : SoccerEnvironmentOptions)
    (map_data : SoccerMapData) (l : list Action) (s0 s : SoccerState)
    (x : nat * option Pos) : Prop :=
  exists p a, cur s0 (fst x) = Some p /\
    chooses options map_data l s0 (fst x) a /\
    action (agent s (fst x)) = Some a /\
    snd x = Some (intended_tile map_data p a).

(** * Basic facts *)

Lemma pos_eqb_eq (p q : Pos) : pos_eqb p q = true <-> p = q.
Proof.
  destruct p as [a b], q as [c d]; unfold pos_eqb; simpl.
  rewrite andb_true_iff, !Z.eqb_eq. split.
  - intros [-> ->]; reflexivity.
  - intros H; inversion H; auto.
Qed.

Lemma pos_eqb_refl (p : Pos) : pos_eqb p p = true.
Proof. apply pos_eqb_eq; reflexivity. Qed.

Lemma pos_eqb_neq (p q : Pos) : pos_eqb p q = false <-> p <> q.
Proof.
  rewrite <- pos_eqb_eq. destruct (pos_eqb p q); split; congruence.
Qed.

Lemma pos_eqb_sym (p q : Pos) : pos_eqb p q = pos_eqb q p.
Proof.
  destruct (pos_eqb q p) eqn:E.
  - apply pos_eqb_eq in E; subst; apply pos_eqb_refl.
  - apply pos_eqb_neq in E. apply pos_eqb_neq. congruence.
Qed.

Lemma pos_in_In (p : Pos) (tiles : list Pos) :
  pos_in p tiles = true <-> In p tiles.
Proof.
  unfold pos_in. rewrite existsb_exists. split.
  - intros [q [Hq E]]. apply pos_eqb_eq in E; subst; assumption.
  - intros H. exists p; split; [assumption | apply pos_eqb_refl].
Qed.

Lemma opt_pos_eqb_eq (p q : option Pos) : opt_pos_eqb p q = true <-> p = q.
Proof.
  destruct p, q; simpl; try (split; congruence).
  rewrite pos_eqb_eq. split; congruence.
Qed.

Lemma list_set_length {A} (l : list A) i x :
  length (list_set l i x) = length l.
Proof.
  revert i; induction l as [|h t IH]; intros [|i]; simpl; auto.
Qed.

Lemma nth_list_set {A} (l : list A) i j x d :
  nth j (list_set l i x) d =
  if (j =? i) && (i <? length l) then x else nth j l d.
Proof.
  revert i j; induction l as [|h t IH]; intros i j.
  - simpl. rewrite andb_false_r. reflexivity.
  - destruct i as [|i], j as [|j]; simpl; auto.
Qed.

Lemma nth_error_nth_lt {A} (l : list A) i d :
  i < length l -> nth_error l i = Some (nth i l d).
Proof. intros H. apply nth_error_nth'. assumption. Qed.

Lemma get_agent_ok s i :
  i < agent_count s -> get_agent s i = Ok (agent s i).
Proof.
  intros H. unfold get_agent, agent.
  rewrite (nth_error_nth_lt _ _ blank_agent H). reflexivity.
Qed.

Lemma get_agent_out s i :
  agent_count s <= i -> get_agent s i = Raise IndexError.
Proof.
  intros H. unfold get_agent.
  destruct (nth_error (agent_list s) i) eqn:E; auto.
  assert (nth_error (agent_list s) i <> None) by congruence.
  apply nth_error_Some in H0. unfold agent_count in H. lia.
Qed.

Lemma get_agent_pos_ok s i :
  i < agent_count s -> get_agent_pos s i = Ok (cur s i).
Proof.
  intros H. unfold get_agent_pos. rewrite get_agent_ok by assumption.
  reflexivity.
Qed.

Lemma get_agent_ball_ok s i :
  i < agent_count s -> get_agent_ball s i = Ok (ball (agent s i)).
Proof.
  intros H. unfold get_agent_ball. rewrite get_agent_ok by assumption.
  reflexivity.
Qed.

Lemma get_agent_mode_ok s i :
  i < agent_count s -> get_agent_mode s i = Ok (mode (agent s i)).
Proof.
  intros H. unfold get_agent_mode. rewrite get_agent_ok by assumption.
  reflexivity.
Qed.

Lemma set_agent_ok s i f :
  i < agent_count s ->
  set_agent s i f =
  Ok (mkState (list_set (agent_list s) i (f (agent s i))) (time_step s)).
Proof.
  intros H. unfold set_agent, agent.
  rewrite (nth_error_nth_lt _ _ blank_agent H). reflexivity.
Qed.

Lemma agent_after_set s i x t j :
  i < agent_count s ->
  agent (mkState (list_set (agent_list s) i x) t) j
  = if j =? i then x else agent s j.
Proof.
  intros H. unfold agent at 1. simpl. rewrite nth_list_set.
  unfold agent_count in H. apply Nat.ltb_lt in H. rewrite H, andb_true_r.
  reflexivity.
Qed.

Lemma count_after_set s i x t :
  agent_count (mkState (list_set (agent_list s) i x) t) = agent_count s.
Proof. unfold agent_count; simpl. apply list_set_length. Qed.

(** * The options and the accessors of the state *)





(** The options an environment is built with are those of a stored
    integer. *)
Lemma options_init_stores_size resource_path map_path (size : Z) o :
  SoccerEnvironmentOptions_init resource_path map_path (PyInt size) = Ok o ->
  exists options, options_of o = Some options /\
    Z.of_nat (team_size options) = size /\ 1 <= team_size options <= 2.
Proof.
  unfold SoccerEnvironmentOptions_init. simpl.
  destruct (1 <=? size)%Z eqn:E1; simpl; [|discriminate].
  destruct (size <=? 2)%Z eqn:E2; simpl; [|discriminate].
  apply Z.leb_le in E1, E2.
  intros H; inversion H; subst. unfold options_of. simpl.
  replace (0 <=? size)%Z with true by (symmetry; apply Z.leb_le; lia).
  eexists. split; [reflexivity|]. simpl. lia.
Qed.

(** ** The ball flags *)

Lemma filter_list_set_count {A} (f : A -> bool) (l : list A) i x d :
  i < length l ->
  length (filter f (list_set l i x)) + (if f (nth i l d) then 1 else 0)
  = length (filter f l) + (if f x then 1 else 0).
Proof.
  revert i; induction l as [|h t IH]; intros i Hi; simpl in Hi; [lia|].
  destruct i as [|i]; simpl.
  - destruct (f x), (f h); simpl; lia.
  - specialize (IH i ltac:(lia)). destruct (f h); simpl; lia.
Qed.

Lemma set_agent_ball_spec s i b :
  i < agent_count s ->
  exists s', set_agent_ball s i b = Ok s' /\
    agent_count s' = agent_count s /\
    time_step s' = time_step s /\
    (forall j, agent s' j =
       if j =? i
       then mkAgent (pos (agent s i)) b (mode (agent s i)) (action (agent s i))
       else agent s j) /\
    ball_count s' + (if ball (agent s i) then 1 else 0)
    = ball_count s + (if b then 1 else 0).
Proof.
  intros Hi. unfold set_agent_ball. rewrite set_agent_ok by assumption.
  eexists; split; [reflexivity|]. split; [apply count_after_set|].
  split; [reflexivity|]. split.
  - intros j. apply agent_after_set. assumption.
  - unfold ball_count; simpl.
    exact (filter_list_set_count ball (agent_list s) i
             (mkAgent (pos (agent s i)) b (mode (agent s i))
                (action (agent s i))) blank_agent Hi).
Qed.

(** C9. When neither of two agents holds the ball, [switch_ball] is not a
    no-op: it sets the flag of the first and leaves the flag of the second
    unset, so one more flag is set than before, next to the flag of any
    third agent that held the ball. *)
Theorem switch_ball_without_holder s a b :
  a < agent_count s -> b < agent_count s -> a <> b ->
  ball (agent s a) = false -> ball (agent s b) = false ->
  exists s', switch_ball s a b = Ok s' /\
    s' <> s /\
    ball (agent s' a) = true /\
    ball (agent s' b) = false /\
    (forall c, c <> a -> c <> b -> agent s' c = agent s c) /\
    (forall c, c < agent_count s -> ball (agent s c) = true ->
               c <> a /\ ball (agent s' c) = true) /\
    ball_count s' = S (ball_count s).
Proof.
  intros Ha Hb Hab Ba Bb. unfold switch_ball.
  rewrite get_agent_ball_ok by assumption. simpl. rewrite Ba. simpl.
  destruct (set_agent_ball_spec s a true Ha) as [s1 [E1 [C1 [_ [A1 N1]]]]].
  rewrite E1. simpl.
  assert (Hb1 : b < agent_count s1) by lia.
  destruct (set_agent_ball_spec s1 b false Hb1) as [s2 [E2 [C2 [_ [A2 N2]]]]].
  rewrite E2. exists s2. split; [reflexivity|].
  assert (Ea : ball (agent s2 a) = true).
  { rewrite A2. destruct (a =? b) eqn:E; [apply Nat.eqb_eq in E; lia|].
    rewrite A1, Nat.eqb_refl. reflexivity. }
  assert (Eb : ball (agent s2 b) = false).
  { rewrite A2, Nat.eqb_refl. reflexivity. }
  split; [intros ->; congruence|]. split; [assumption|].
  split; [assumption|]. split; [|split].
  - intros c Hca Hcb. rewrite A2.
    destruct (c =? b) eqn:E; [apply Nat.eqb_eq in E; lia|].
    rewrite A1. destruct (c =? a) eqn:E'; [apply Nat.eqb_eq in E'; lia|].
    reflexivity.
  - intros c Hc Bc. assert (c <> a) by congruence.
    assert (c <> b) by congruence. split; [assumption|].
    rewrite A2. destruct (c =? b) eqn:E; [apply Nat.eqb_eq in E; lia|].
    rewrite A1. destruct (c =? a) eqn:E'; [apply Nat.eqb_eq in E'; lia|].
    assumption.
  - rewrite Ba in N1.
    assert (Bb1 : ball (agent s1 b) = false).
    { rewrite A1. destruct (b =? a) eqn:E; [apply Nat.eqb_eq in E; lia|].
      assumption. }
    rewrite Bb1 in N2. simpl in *. lia.
Qed.

Lemma switch_ball_without_holder_witness :
  exists s', switch_ball lost_ball_state 0 1 = Ok s' /\
    s' <> lost_ball_state /\
    ball (agent s' 0) = true /\
    ball (agent s' 1) = false /\
    (forall c, c <> 0 -> c <> 1 -> agent s' c = agent lost_ball_state c) /\
    (forall c, c < agent_count lost_ball_state ->
               ball (agent lost_ball_state c) = true ->
               c <> 0 /\ ball (agent s' c) = true) /\
    ball_count s' = S (ball_count lost_ball_state).
Proof.
  apply (@switch_ball_without_holder lost_ball_state 0 1);
    simpl; try reflexivity; unfold agent_count; simpl; lia.
Defined.

(** With one and the same agent for both arguments the second assignment
    undoes the first. *)
Lemma switch_ball_same_agent s a :
  a < agent_count s -> ball (agent s a) = false ->
  exists s', switch_ball s a a = Ok s' /\ ball (agent s' a) = false.
Proof.
  intros Ha Ba. unfold switch_ball.
  rewrite get_agent_ball_ok by assumption. simpl. rewrite Ba. simpl.
  destruct (set_agent_ball_spec s a true Ha) as [s1 [E1 [C1 [_ [A1 _]]]]].
  rewrite E1. simpl.
  assert (Ha1 : a < agent_count s1) by lia.
  destruct (set_agent_ball_spec s1 a false Ha1) as [s2 [E2 [_ [_ [A2 _]]]]].
  rewrite E2. exists s2. split; [reflexivity|].
  rewrite A2, Nat.eqb_refl. reflexivity.
Qed.

(** ** Winning *)




(** * The roster and the lookups over it *)

Lemma map_add_seq c a n :
  map (fun k => c + k) (seq a n) = seq (c + a) n.
Proof.
  revert a; induction n as [|n IH]; intros a; simpl; [reflexivity|].
  rewrite IH. f_equal. f_equal. lia.
Qed.

Lemma roster_split options :
  roster options =
  map (pair PLAYER) (seq 0 (team_size options)) ++
  map (pair COMPUTER) (seq 0 (team_size options)).
Proof. unfold roster; simpl. rewrite app_nil_r. reflexivity. Qed.

Lemma roster_indices options :
  map (member_index options) (roster options)
  = seq 0 (get_agent_size options).
Proof.
  rewrite roster_split, map_app, !map_map.
  unfold member_index, get_agent_index, get_agent_size; simpl.
  rewrite (map_add_seq (team_size options * 0) 0).
  rewrite (map_add_seq (team_size options * 1) 0).
  replace (team_size options * 0 + 0) with 0 by lia.
  replace (team_size options * 1 + 0) with (0 + team_size options) by lia.
  rewrite <- seq_app. f_equal. lia.
Qed.

Lemma roster_In options t k :
  In (t, k) (roster options) <-> k < team_size options.
Proof.
  rewrite roster_split, in_app_iff, !in_map_iff. split.
  - intros [[x [E H]]|[x [E H]]]; inversion E; subst;
      apply in_seq in H; lia.
  - intros H. destruct t; [left|right]; exists k;
      (split; [reflexivity | apply in_seq; lia]).
Qed.

Lemma roster_member options t k :
  In (t, k) (roster options) ->
  get_team_name options (get_agent_index options t k) = t /\
  k = get_agent_index options t k - team_size options * group_index t /\
  get_agent_index options t k < get_agent_size options.
Proof.
  intros H. apply roster_In in H.
  unfold get_team_name, get_agent_index, get_agent_size.
  destruct t; simpl.
  - destruct (_ <? _) eqn:E; [|apply Nat.ltb_ge in E];
      repeat split; try reflexivity; try lia.
  - destruct (_ <? _) eqn:E; [apply Nat.ltb_lt in E|];
      repeat split; try reflexivity; try lia.
Qed.

(** The nested loops return the first member of the roster that passes the
    test, and [None] when none does. *)
Lemma first_status_find options s test l :
  Forall (fun m => member_index options m < agent_count s) l ->
  first_status options s test l =
  Ok (option_map (status_of options)
        (find (fun m => test (agent s (member_index options m))) l)).
Proof.
  induction 1 as [|[t k] l Hm Hl IH]; simpl; [reflexivity|].
  unfold member_index in *; simpl in *.
  rewrite get_agent_ok by assumption. simpl.
  destruct (test _); [reflexivity | apply IH].
Qed.

Lemma roster_in_range options s :
  agent_count s = get_agent_size options ->
  Forall (fun m => member_index options m < agent_count s) (roster options).
Proof.
  intros H. apply Forall_forall. intros [t k] Hm.
  apply roster_member in Hm. unfold member_index; simpl. lia.
Qed.

Lemma find_unique_index options (f : nat -> bool) h :
  h < get_agent_size options ->
  (forall i, i < get_agent_size options -> f i = (i =? h)) ->
  find (fun m => f (member_index options m)) (roster options)
  = Some (get_team_name options h,
          h - team_size options * group_index (get_team_name options h)).
Proof.
  intros Hh Hf.
  destruct (find _ _) as [[t k]|] eqn:E.
  - apply find_some in E. destruct E as [Hin Ht].
    pose proof (roster_member _ _ _ Hin) as [T [K R]].
    unfold member_index in Ht; simpl in Ht.
    rewrite Hf in Ht by assumption. apply Nat.eqb_eq in Ht.
    rewrite Ht in *. rewrite T. rewrite <- K. reflexivity.
  - exfalso.
    assert (Hin : In h (map (member_index options) (roster options))).
    { rewrite roster_indices. apply in_seq. lia. }
    apply in_map_iff in Hin. destruct Hin as [m [Em Hm]].
    pose proof (find_none _ _ E _ Hm) as N. simpl in N.
    rewrite Em, Hf, Nat.eqb_refl in N by assumption. discriminate.
Qed.

Lemma get_ball_possession_holder options s h :
  agent_count s = get_agent_size options -> holder_at s h ->
  get_ball_possession options s =
  Ok (Some (mkStatus (get_team_name options h)
              (h - team_size options * group_index (get_team_name options h))
              h)).
Proof.
  intros Hc [Hh Hb]. unfold get_ball_possession.
  rewrite first_status_find by (apply roster_in_range; assumption).
  rewrite (find_unique_index options (fun i => ball (agent s i)) h);
    try (intros; apply Hb); try lia.
  simpl. unfold status_of, member_index; simpl. do 3 f_equal.
  unfold get_agent_index, get_team_name.
  destruct (h <? team_size options) eqn:E;
    [apply Nat.ltb_lt in E | apply Nat.ltb_ge in E]; simpl; lia.
Qed.

Lemma get_ball_possession_none options s :
  agent_count s = get_agent_size options -> no_holder s ->
  get_ball_possession options s = Ok None.
Proof.
  intros Hc Hn. unfold get_ball_possession.
  rewrite first_status_find by (apply roster_in_range; assumption).
  destruct (find _ _) as [m|] eqn:E; [|reflexivity].
  apply find_some in E. destruct E as [Hin Ht].
  pose proof (roster_in_range options s Hc) as R.
  rewrite Forall_forall in R. rewrite Hn in Ht by (apply R; assumption).
  discriminate.
Qed.

(** C7, as the code has it. [get_ball_possession] returns the team name,
    the index within the team and the global index of the one agent that
    holds the ball; when nobody holds the ball it returns [None] and raises
    nothing. *)
Theorem get_ball_possession_contract options s :
  agent_count s = get_agent_size options ->
  (forall h, holder_at s h ->
     get_ball_possession options s =
     Ok (Some (mkStatus (get_team_name options h)
                 (h - team_size options
                      * group_index (get_team_name options h)) h))) /\
  (no_holder s -> get_ball_possession options s = Ok None).
Proof.
  intros Hc. split.
  - intros h Hh. apply get_ball_possession_holder; assumption.
  - apply get_ball_possession_none; assumption.
Qed.

Lemma get_ball_possession_contract_witness :
  (forall h, holder_at doubles_state h ->
     get_ball_possession doubles doubles_state =
     Ok (Some (mkStatus (get_team_name doubles h)
                 (h - team_size doubles
                      * group_index (get_team_name doubles h)) h))) /\
  (no_holder doubles_state ->
   get_ball_possession doubles doubles_state = Ok None).
Proof.
  apply (@get_ball_possession_contract doubles doubles_state). reflexivity.
Defined.

(** C7, as stated, fails: with no ball holder the lookup returns [None]
    instead of raising. *)
Lemma get_ball_possession_no_holder_returns :
  agent_count lost_ball_state = get_agent_size duel /\
  no_holder lost_ball_state /\
  get_ball_possession duel lost_ball_state = Ok None /\
  forall e, get_ball_possession duel lost_ball_state <> Raise e.
Proof.
  split; [reflexivity|]. split.
  - intros i Hi. unfold agent_count in Hi; simpl in Hi.
    destruct i as [|[|i]]; [reflexivity | reflexivity | lia].
  - split; [reflexivity|]. intros e H. vm_compute in H. discriminate.
Qed.

(** * Running methods *)

Lemma wp_ret {A} (a : A) w (Q : A -> World -> Prop) E F :
  Q a w -> wp (ret a) w Q E F.
Proof. intros H; exact H. Qed.

Lemma wp_bind {A B} (m : M A) (k : A -> M B) w (Q : B -> World -> Prop) E F :
  wp m w (fun a w' => wp (k a) w' Q E F) E F -> wp (bind m k) w Q E F.
Proof.
  unfold wp, bind. destruct (m w) as [[a|e|] w']; auto.
Qed.

Lemma wp_conseq {A} (m : M A) w (Q Q' : A -> World -> Prop) E E' F F' :
  wp m w Q E F ->
  (forall a w', Q a w' -> Q' a w') ->
  (forall w', E w' -> E' w') ->
  (forall w', F w' -> F' w') ->
  wp m w Q' E' F'.
Proof.
  unfold wp. destruct (m w) as [[a|e|] w']; auto.
Qed.

Lemma wp_lift {A} (o : outcome A) a w (Q : A -> World -> Prop) E F :
  o = Ok a -> Q a w -> wp (lift o) w Q E F.
Proof. intros -> H; exact H. Qed.

Lemma wp_read {A} (f : SoccerState -> outcome A) a w
    (Q : A -> World -> Prop) E F :
  f (st w) = Ok a -> Q a w -> wp (read f) w Q E F.
Proof. unfold wp, read. intros -> H; exact H. Qed.

Lemma wp_write f s' w (Q : unit -> World -> Prop) E F :
  f (st w) = Ok s' -> Q tt (mkWorld s' (rnd w)) -> wp (write f) w Q E F.
Proof. unfold wp, write. intros -> H; exact H. Qed.

Lemma wp_randbelow n w (Q : nat -> World -> Prop) E F :
  Q (tape (rnd w) (cursor (rnd w)) mod n) (after_draw w) ->
  wp (randbelow n) w Q E F.
Proof. intros H; exact H. Qed.

Lemma wp_returns {A} (m : M A) w (Q : A -> World -> Prop) :
  wp m w Q nowhere nowhere -> exists a w', m w = (Ok a, w') /\ Q a w'.
Proof.
  unfold wp, nowhere. destruct (m w) as [[a|e|] w']; try contradiction.
  intros H; eauto.
Qed.

Lemma wp_of_run {A} (m : M A) w a w' (Q : A -> World -> Prop) E F :
  m w = (Ok a, w') -> Q a w' -> wp m w Q E F.
Proof. unfold wp. intros -> H; exact H. Qed.

Lemma wp_and {A} (m : M A) w (Q1 Q2 : A -> World -> Prop) E1 E2 F1 F2 :
  wp m w Q1 E1 F1 -> wp m w Q2 E2 F2 ->
  wp m w (fun a w' => Q1 a w' /\ Q2 a w')
    (fun w' => E1 w' /\ E2 w') (fun w' => F1 w' /\ F2 w').
Proof. unfold wp. destruct (m w) as [[a|e|] w']; auto. Qed.

Lemma nth_In_mod {A} (l : list A) d n :
  l <> [] -> In (nth (n mod length l) l d) l.
Proof.
  intros H. apply nth_In. apply Nat.mod_upper_bound.
  destruct l; simpl; congruence.
Qed.

(** [random.choice] on a sequence that is not empty returns one of its
    elements and leaves the state alone. *)
Lemma wp_choice {A} (l : list A) w (Q : A -> World -> Prop) E F :
  l <> [] ->
  (forall x, In x l -> Q x (after_draw w)) ->
  wp (choice l) w Q E F.
Proof.
  intros Hl HQ. destruct l as [|d l]; [congruence|].
  unfold choice. apply wp_bind, wp_randbelow, wp_ret. apply HQ.
  apply nth_In_mod. discriminate.
Qed.

Lemma wp_choice_draw {A} (d : A) (l : list A) w (Q : A -> World -> Prop) E F :
  Q (nth (tape (rnd w) (cursor (rnd w)) mod length (d :: l)) (d :: l) d)
    (after_draw w) ->
  wp (choice (d :: l)) w Q E F.
Proof.
  intros HQ. unfold choice. apply wp_bind, wp_randbelow, wp_ret. exact HQ.
Qed.

Lemma removelast_shorter {A} (l : list A) :
  length (removelast l) = length l - 1.
Proof.
  induction l as [|h t IH]; [reflexivity|].
  destruct t as [|h' t]; [reflexivity|].
  change (removelast (h :: h' :: t)) with (h :: removelast (h' :: t)).
  simpl length in *. rewrite IH. lia.
Qed.

(** [random.sample] of no more elements than the pool has returns, and
    leaves the state alone. *)
Lemma sample_returns {A} k : forall (pool : list A) w,
  k <= length pool ->
  exists l w', sample k pool w = (Ok l, w') /\ st w' = st w /\ length l = k.
Proof.
  induction k as [|k IH]; intros pool w Hk; simpl.
  - exists [], w. auto.
  - destruct pool as [|d pool]; [simpl in Hk; lia|].
    unfold bind at 1. unfold randbelow at 1.
    set (j := _ mod _). set (w1 := mkWorld _ _).
    assert (Hj : j < length (d :: pool))
      by (apply Nat.mod_upper_bound; discriminate).
    destruct (IH (removelast (list_set (d :: pool) j (last (d :: pool) d)))
                w1) as [l [w' [E [S L]]]].
    { rewrite removelast_shorter, list_set_length. simpl in *. lia. }
    unfold bind. rewrite E. eexists; eexists. split; [reflexivity|].
    split; [assumption | simpl; lia].
Qed.

Lemma wp_sample {A} k (pool : list A) w (Q : list A -> World -> Prop) E F :
  k <= length pool ->
  (forall l w', st w' = st w -> length l = k -> Q l w') ->
  wp (sample k pool) w Q E F.
Proof.
  intros Hk HQ. destruct (sample_returns k pool w Hk) as [l [w' [Eq [S L]]]].
  eapply wp_of_run; [exact Eq|]. apply HQ; assumption.
Qed.

(** * The greedy action search *)

Lemma get_moved_pos_some p a :
  exists q, get_moved_pos (Some p) a = Ok q.
Proof. destruct p as [x y]. simpl. eexists; reflexivity. Qed.

Lemma strategic_scan_returns map_data src tgt m l : forall best_action best_dist,
  exists a,
    strategic_scan map_data (Some src) (Some tgt) m l best_action best_dist
    = Ok a.
Proof.
  induction l as [|x l IH]; intros ba bd; cbn [strategic_scan]; [eauto|].
  destruct (get_moved_pos_some src x) as [q ->]. cbn [obind].
  destruct (pos_in q (walkable map_data)); cbn [negb];
    [|apply IH].
  cbn [get_pos_distance obind].
  destruct (improves m _ bd); apply IH.
Qed.

(** The incumbent of an INTERCEPT search is only replaced by an action
    that leads to a walkable tile other than the target and nearer to it
    than the incumbent. *)
Lemma strategic_scan_intercept map_data src tgt l :
  forall best_action best_dist,
  exists a,
    strategic_scan map_data (Some src) (Some tgt) INTERCEPT l
      best_action best_dist = Ok a /\
    (a = best_action \/
     exists moved d,
       get_moved_pos (Some src) a = Ok moved /\
       pos_in moved (walkable map_data) = true /\
       get_pos_distance (Some moved) (Some tgt) = Ok d /\
       (1 <= d < best_dist)%Z).
Proof.
  induction l as [|x l IH]; intros ba bd; cbn [strategic_scan]; [eauto|].
  destruct (get_moved_pos_some src x) as [q Hq]. rewrite Hq. cbn [obind].
  destruct (pos_in q (walkable map_data)) eqn:W; cbn [negb];
    [|apply IH].
  cbn [get_pos_distance obind improves].
  set (d := (_ + _)%Z).
  destruct ((d <? bd)%Z && (d >=? 1)%Z) eqn:I.
  - apply andb_true_iff in I. destruct I as [I1 I2].
    apply Z.ltb_lt in I1. apply Z.geb_le in I2.
    destruct (IH x d) as [a [E [Ea|[moved [d' [M [Wm [D R]]]]]]]];
      exists a; (split; [assumption|]); right.
    + subst a. exists q, d. repeat split; auto; lia.
    + exists moved, d'. repeat split; auto; lia.
  - apply IH.
Qed.

Lemma get_moved_pos_neighbour p a :
  get_moved_pos (Some p) a = Ok (neighbour p a).
Proof. destruct p as [x y], a; reflexivity. Qed.

Lemma get_pos_distance_dist2 p q :
  get_pos_distance (Some p) (Some q) = Ok (dist2 p q).
Proof. reflexivity. Qed.

Lemma dist2_zero p q : dist2 p q = 0%Z <-> p = q.
Proof.
  destruct p as [x y], q as [u v]. unfold dist2; simpl.
  pose proof (Z.square_nonneg (u - x)) as Sx.
  pose proof (Z.square_nonneg (v - y)) as Sy.
  split.
  - intros E. assert (Ex : ((u - x) * (u - x) = 0)%Z) by lia.
    assert (Ey : ((v - y) * (v - y) = 0)%Z) by lia.
    apply Z.mul_eq_0 in Ex, Ey. f_equal; lia.
  - intros H. inversion H; subst. ring.
Qed.

Lemma dist2_nonneg p q : (0 <= dist2 p q)%Z.
Proof.
  destruct p as [x y], q as [u v]. unfold dist2; simpl.
  pose proof (Z.square_nonneg (u - x)).
  pose proof (Z.square_nonneg (v - y)). lia.
Qed.

(** A step leads to a tile at distance at most 1. *)
Lemma dist2_neighbour p a : (dist2 p (neighbour p a) <= 1)%Z.
Proof. destruct p as [x y], a; unfold dist2, neighbour; simpl; lia. Qed.

(** Within the range of exact norms the sum of squares is below 2^52,
    also from a tile one step away. *)
Lemma dist2_in_float_range p q :
  in_float_range p -> in_float_range q -> (dist2 p q < 2 ^ 52)%Z.
Proof.
  destruct p as [x y], q as [u v]. unfold in_float_range, dist2; simpl.
  intros [Hx Hy] [Hu Hv].
  assert (B : forall a b, (Z.abs a <= 2 ^ 24 -> Z.abs b <= 2 ^ 24 ->
                           (b - a) * (b - a) <= 2 ^ 50)%Z).
  { intros a b Ha Hb. change (2 ^ 50)%Z with (2 ^ 25 * 2 ^ 25)%Z.
    rewrite <- Z.abs_square.
    apply Z.mul_le_mono_nonneg; lia. }
  pose proof (B x u Hx Hu). pose proof (B y v Hy Hv). lia.
Qed.

Lemma dist2_neighbour_in_float_range p a q :
  in_float_range p -> in_float_range q ->
  (dist2 (neighbour p a) q < 2 ^ 52)%Z.
Proof.
  destruct p as [x y], q as [u v]. unfold in_float_range; simpl.
  intros [Hx Hy] [Hu Hv].
  assert (B : forall a b, (Z.abs a <= 2 ^ 24 + 1 -> Z.abs b <= 2 ^ 24 ->
                           (b - a) * (b - a) <= (2 ^ 25 + 1) * (2 ^ 25 + 1))%Z).
  { intros c b Hc Hb. rewrite <- Z.abs_square.
    apply Z.mul_le_mono_nonneg; lia. }
  destruct a; unfold dist2, neighbour; simpl;
    match goal with
    | |- ((u - ?c) * (u - ?c) + (v - ?e) * (v - ?e) < _)%Z =>
        pose proof (B c u); pose proof (B e v)
    end; lia.
Qed.

(** C6, as the code has it, for tiles on which the distances are exact.
    An INTERCEPT search returns, and the action it returns leads onto the
    target tile exactly when the default action it drew before the scan
    leads there: the scan never replaces the default by a step onto the
    target, and never replaces a default that leads there, since then
    nothing is nearer at distance 1 or more. In that case the returned
    action is the default and the source is on the target or next to it.
    From a source at a squared distance of 2 or more the returned action
    therefore leads to a tile at distance at least 1. The sums of squares
    compared are below 2^52. *)
Theorem intercept_search_guard map_data (src tgt : Pos) w :
  in_float_range src -> in_float_range tgt ->
  exists a w' moved d orig_dist,
    _get_strategic_action map_data (Some src) (Some tgt) INTERCEPT w
    = (Ok a, w') /\
    st w' = st w /\
    get_moved_pos (Some src) a = Ok moved /\
    get_pos_distance (Some moved) (Some tgt) = Ok d /\
    get_pos_distance (Some src) (Some tgt) = Ok orig_dist /\
    ((d < 1)%Z <-> moved = tgt) /\
    (moved = tgt <->
     get_moved_pos (Some src) (default_action w) = Ok tgt) /\
    (moved = tgt -> a = default_action w /\ (orig_dist <= 1)%Z) /\
    ((2 <= orig_dist)%Z -> (1 <= d)%Z) /\
    (orig_dist < 2 ^ 52)%Z /\ (d < 2 ^ 52)%Z.
Proof.
  intros Rs Rt.
  assert (H : wp (_get_strategic_action map_data (Some src) (Some tgt)
                    INTERCEPT) w
                (fun a w' =>
                   st w' = st w /\
                   (a = default_action w \/
                    exists moved d,
                      get_moved_pos (Some src) a = Ok moved /\
                      pos_in moved (walkable map_data) = true /\
                      get_pos_distance (Some moved) (Some tgt) = Ok d /\
                      (1 <= d < dist2 src tgt)%Z)) nowhere nowhere).
  { unfold _get_strategic_action.
    apply wp_bind. eapply wp_lift; [apply get_pos_distance_dist2|].
    apply wp_bind. apply wp_choice_draw. fold (default_action w).
    apply wp_bind. apply wp_sample; [simpl; lia|]. intros l w2 T L.
    destruct (strategic_scan_intercept map_data src tgt l
                (default_action w) (dist2 src tgt)) as [a [E R]].
    eapply wp_lift; [exact E|]. split; [exact T | exact R]. }
  apply wp_returns in H. destruct H as [a [w' [E [T R]]]].
  assert (R' : a = default_action w \/
               (1 <= dist2 (neighbour src a) tgt < dist2 src tgt)%Z).
  { destruct R as [R|[moved [d [Mv [_ [D Rg]]]]]]; [left; exact R|].
    right. rewrite get_moved_pos_neighbour in Mv. inversion Mv; subst moved.
    rewrite get_pos_distance_dist2 in D. inversion D; subst d. exact Rg. }
  clear R.
  pose proof (dist2_nonneg (neighbour src a) tgt) as Hnn.
  pose proof (dist2_zero (neighbour src a) tgt) as Hz.
  assert (Hnear : forall b, neighbour src b = tgt ->
                            (dist2 src tgt <= 1)%Z).
  { intros b <-. apply dist2_neighbour. }
  exists a, w', (neighbour src a), (dist2 (neighbour src a) tgt),
    (dist2 src tgt).
  split; [exact E|]. split; [exact T|].
  split; [apply get_moved_pos_neighbour|].
  split; [apply get_pos_distance_dist2|].
  split; [apply get_pos_distance_dist2|].
  assert (Hland : neighbour src a = tgt ->
                  a = default_action w /\ (dist2 src tgt <= 1)%Z).
  { intros Ha. split; [|apply (Hnear a Ha)].
    destruct R' as [R'|R']; [exact R'|].
    apply Hz in Ha. lia. }
  split; [|split; [|split; [|split; [|split]]]].
  - split; [intros Hd; apply Hz; lia | intros Ha; apply Hz in Ha; lia].
  - rewrite get_moved_pos_neighbour. split.
    + intros Ha. destruct (Hland Ha) as [<- _]. rewrite Ha. reflexivity.
    + intros Hd. inversion Hd as [Hd'].
      destruct R' as [->|R']; [reflexivity|].
      pose proof (Hnear _ Hd'). lia.
  - exact Hland.
  - intros H2.
    destruct (Z_lt_le_dec (dist2 (neighbour src a) tgt) 1) as [Hlt|Hge];
      [|exact Hge].
    assert (Ha : neighbour src a = tgt) by (apply Hz; lia).
    pose proof (Hnear a Ha). lia.
  - apply dist2_in_float_range; assumption.
  - apply dist2_neighbour_in_float_range; assumption.
Qed.

Lemma intercept_search_guard_witness :
  in_float_range (1, 1)%Z /\ in_float_range (4, 1)%Z /\
  exists a w' moved d,
    _get_strategic_action corridor (Some (1, 1)%Z) (Some (4, 1)%Z) INTERCEPT
      (mkWorld lost_ball_state (constant_rng 0)) = (Ok a, w') /\
    get_moved_pos (Some (1, 1)%Z) a = Ok moved /\
    get_pos_distance (Some moved) (Some (4, 1)%Z) = Ok d /\
    (1 <= d)%Z.
Proof.
  assert (R1 : in_float_range (1, 1)%Z) by (unfold in_float_range; simpl; lia).
  assert (R4 : in_float_range (4, 1)%Z) by (unfold in_float_range; simpl; lia).
  split; [exact R1|]. split; [exact R4|].
  destruct (intercept_search_guard corridor (1, 1)%Z (4, 1)%Z
              (mkWorld lost_ball_state (constant_rng 0)) R1 R4)
    as [a [w' [moved [d [od [E [_ [M [D [O [_ [_ [_ [H _]]]]]]]]]]]]]].
  exists a, w', moved, d. split; [exact E|]. split; [exact M|].
  split; [exact D|]. apply H. inversion O. vm_compute. discriminate.
Defined.

(** C6, as stated, fails: next to the target, no candidate improves, and
    the default action the search falls back on may step onto the target
    tile. *)
Lemma intercept_default_reaches_target :
  let w := mkWorld lost_ball_state (constant_rng 0) in
  fst (_get_strategic_action corridor (Some (1, 1)%Z) (Some (2, 1)%Z)
         INTERCEPT w) = Ok MOVE_RIGHT /\
  pos_in (1, 1)%Z (walkable corridor) = true /\
  get_moved_pos (Some (1, 1)%Z) MOVE_RIGHT = Ok (2, 1)%Z /\
  get_pos_distance (Some (2, 1)%Z) (Some (2, 1)%Z) = Ok 0%Z /\
  (0 < 1)%Z.
Proof. vm_compute. repeat split; reflexivity. Qed.

(** * Grouping the claims by tile *)

Lemma members_group_add g k i t :
  members (group_add g k i) t =
  if pos_eqb k t then members g t ++ [i] else members g t.
Proof.
  induction g as [|[k' l] g IH]; simpl.
  - destruct (pos_eqb k t); reflexivity.
  - destruct (pos_eqb k' k) eqn:E; simpl.
    + apply pos_eqb_eq in E; subst k'.
      destruct (pos_eqb k t); reflexivity.
    + rewrite IH. destruct (pos_eqb k' t) eqn:E'; [|reflexivity].
      apply pos_eqb_eq in E'; subst k'.
      rewrite pos_eqb_sym, E. reflexivity.
Qed.

Lemma members_fold claims : forall acc t,
  members (fold_left (fun a c => group_add a (fst c) (snd c)) claims acc) t
  = members acc t
    ++ map snd (filter (fun c : Pos * nat => pos_eqb (fst c) t) claims).
Proof.
  induction claims as [|c claims IH]; intros acc t; simpl.
  - rewrite app_nil_r. reflexivity.
  - rewrite IH, members_group_add.
    destruct (pos_eqb (fst c) t); simpl; [rewrite <- app_assoc|]; reflexivity.
Qed.

Lemma members_group_all claims t :
  members (group_all claims) t
  = map snd (filter (fun c : Pos * nat => pos_eqb (fst c) t) claims).
Proof. unfold group_all. rewrite members_fold. reflexivity. Qed.

Lemma group_add_keys g k i :
  forall t, In t (map fst (group_add g k i)) <-> t = k \/ In t (map fst g).
Proof.
  induction g as [|[k' l] g IH]; intros t; simpl.
  - intuition congruence.
  - destruct (pos_eqb k' k) eqn:E; simpl.
    + apply pos_eqb_eq in E; subst k'. intuition congruence.
    + rewrite IH. intuition congruence.
Qed.

Lemma group_add_NoDup g k i :
  NoDup (map fst g) -> NoDup (map fst (group_add g k i)).
Proof.
  induction g as [|[k' l] g IH]; simpl; intros H.
  - constructor; [intros []|constructor].
  - inversion H as [|? ? Hn Hd]; subst.
    destruct (pos_eqb k' k) eqn:E; simpl.
    + constructor; assumption.
    + constructor; [|apply IH; assumption].
      rewrite group_add_keys. intros [->|Hin]; [|contradiction].
      rewrite pos_eqb_refl in E. discriminate.
Qed.

Lemma group_all_NoDup claims : NoDup (map fst (group_all claims)).
Proof.
  unfold group_all.
  assert (H : forall acc, NoDup (map fst acc) ->
            NoDup (map fst (fold_left
                     (fun a (c : Pos * nat) => group_add a (fst c) (snd c))
                     claims acc))).
  { induction claims as [|c claims IH]; intros acc Ha; simpl; [assumption|].
    apply IH, group_add_NoDup, Ha. }
  apply H. constructor.
Qed.

(** The list filed under a key of the dictionary is the one [members]
    finds. *)
Lemma members_of_item g t l :
  NoDup (map fst g) -> In (t, l) g -> members g t = l.
Proof.
  induction g as [|[k' l'] g IH]; simpl; intros Hn H; [contradiction|].
  destruct H as [H|H].
  - inversion H; subst. rewrite pos_eqb_refl. reflexivity.
  - inversion Hn as [|? ? Hk Hd]; subst.
    destruct (pos_eqb k' t) eqn:E.
    + apply pos_eqb_eq in E; subst k'. exfalso. apply Hk.
      apply in_map_iff. exists (t, l); auto.
    + apply IH; assumption.
Qed.

Lemma members_item g t :
  members g t <> [] -> In (t, members g t) g.
Proof.
  induction g as [|[k' l'] g IH]; simpl; intros H; [congruence|].
  destruct (pos_eqb k' t) eqn:E.
  - apply pos_eqb_eq in E; subst k'. left; reflexivity.
  - right. apply IH, H.
Qed.

(** ** Counting *)

Lemma two_in_length {A} (l : list A) x y :
  In x l -> In y l -> x <> y -> 2 <= length l.
Proof.
  intros Hx Hy Hxy. apply in_split in Hx. destruct Hx as [l1 [l2 ->]].
  apply in_app_or in Hy. rewrite length_app. simpl.
  destruct Hy as [Hy|[Hy|Hy]]; [| congruence |].
  - destruct l1; [contradiction | simpl; lia].
  - destruct l2; [contradiction | simpl; lia].
Qed.

Lemma other_in_NoDup (l : list nat) i :
  NoDup l -> 1 < length l -> In i l -> exists j, In j l /\ j <> i.
Proof.
  intros Hn Hl Hi. destruct l as [|a [|b l]]; simpl in Hl; try lia.
  inversion Hn as [|? ? Hab _]; subst.
  destruct (Nat.eq_dec a i) as [->|Ha].
  - exists b. split; [simpl; auto|]. intros ->. apply Hab. simpl; auto.
  - exists a. split; [simpl; auto | assumption].
Qed.

Lemma filter_length_split {A} (p : A -> bool) (l : list A) :
  length (filter p l) + length (filter (fun x => negb (p x)) l) = length l.
Proof.
  induction l as [|h t IH]; simpl; [reflexivity|].
  destruct (p h); simpl; lia.
Qed.

Lemma filter_map_length_le {A} (p : A -> bool) (f : A -> A) (l : list A) :
  (forall x, In x l -> p (f x) = true -> p x = true) ->
  length (filter p (map f l)) <= length (filter p l).
Proof.
  induction l as [|h t IH]; simpl; intros H; [lia|].
  assert (IH' : length (filter p (map f t)) <= length (filter p t))
    by (apply IH; intros; apply H; auto).
  destruct (p (f h)) eqn:E.
  - rewrite (H h (or_introl eq_refl) E). simpl. lia.
  - destruct (p h); simpl; lia.
Qed.

Lemma filter_map_length_lt {A} (p : A -> bool) (f : A -> A) (l : list A) x :
  (forall y, In y l -> p (f y) = true -> p y = true) ->
  In x l -> p x = true -> p (f x) = false ->
  length (filter p (map f l)) < length (filter p l).
Proof.
  induction l as [|h t IH]; simpl; intros H Hx Px Pfx; [contradiction|].
  assert (Hle : length (filter p (map f t)) <= length (filter p t))
    by (apply filter_map_length_le; intros; apply H; auto).
  destruct Hx as [->|Hx].
  - rewrite Px, Pfx. simpl. lia.
  - assert (IH' : length (filter p (map f t)) < length (filter p t))
      by (apply IH; auto).
    destruct (p (f h)) eqn:E.
    + rewrite (H h (or_introl eq_refl) E). simpl. lia.
    + destruct (p h); simpl; lia.
Qed.

Lemma filter_map_two_out {A} (p : A -> bool) (f : A -> A) (l : list A) x y :
  In x l -> In y l -> x <> y -> p (f x) = false -> p (f y) = false ->
  length (filter p (map f l)) + 2 <= length l.
Proof.
  intros Hx Hy Hxy Px Py.
  assert (E : length (filter p (map f l))
              = length (filter (fun z => p (f z)) l)).
  { clear. induction l as [|h t IH]; simpl; [reflexivity|].
    destruct (p (f h)); simpl; rewrite IH; reflexivity. }
  rewrite E.
  pose proof (filter_length_split (fun z => p (f z)) l) as S.
  assert (2 <= length (filter (fun z => negb (p (f z))) l)).
  { apply (two_in_length _ x y); try assumption;
      apply filter_In; split; try assumption.
    - rewrite Px; reflexivity.
    - rewrite Py; reflexivity. }
  lia.
Qed.

(** The keys of the entries kept by a filter stay distinct. *)
Lemma filtered_keys_distinct (keep : nat * option Pos -> bool)
    (d : IntendedPos) :
  NoDup (map fst d) -> NoDup (map fst (filter keep d)).
Proof.
  intros Hd. induction d as [|x d IH]; [constructor|].
  simpl in Hd. apply NoDup_cons_iff in Hd. destruct Hd as [Hx Hd].
  simpl. destruct (keep x); [|exact (IH Hd)].
  simpl. apply NoDup_cons_iff. split; [|exact (IH Hd)].
  intros Hin. apply Hx. apply in_map_iff in Hin.
  destruct Hin as [y [Ey Hy]]. apply filter_In in Hy.
  apply in_map_iff. exists y. tauto.
Qed.

Lemma NoDup_range_length (l : list nat) n :
  NoDup l -> Forall (fun i => i < n) l -> length l <= n.
Proof.
  intros Hn Hr. rewrite <- (length_seq n 0).
  apply NoDup_incl_length; [assumption|].
  intros i Hi. rewrite Forall_forall in Hr. apply in_seq.
  specialize (Hr i Hi). lia.
Qed.

(** * Claims and contested tiles *)

Section Claims.

Variable map_data : SoccerMapData.
Variable s : SoccerState.

Lemma claim_some x :
  placed s -> fst x < agent_count s ->
  exists t, claim map_data s x = Some t.
Proof.
  intros Hp Hx. unfold claim.
  destruct (py_in (snd x) (walkable map_data)) eqn:E; simpl.
  - destruct (snd x) as [t|]; [eauto | discriminate].
  - specialize (Hp _ Hx). destruct (cur s (fst x)); [eauto | congruence].
Qed.

Lemma claim_rolled_back i :
  claim map_data s (i, cur s i) = cur s i.
Proof. unfold claim; simpl. destruct (negb _); reflexivity. Qed.

Lemma moving_rolled_back i :
  moving map_data s (i, cur s i) = false.
Proof.
  unfold moving. rewrite claim_rolled_back. simpl.
  replace (opt_pos_eqb (cur s i) (cur s i)) with true; [reflexivity|].
  symmetry. apply opt_pos_eqb_eq. reflexivity.
Qed.

Lemma members_groups_of ip t :
  members (groups_of map_data s ip) t
  = map fst (filter (fun x =>
                       pos_eqb (tile_or_origin (claim map_data s x)) t) ip).
Proof.
  unfold groups_of. rewrite members_group_all. unfold claims_of.
  induction ip as [|x ip IH]; simpl; [reflexivity|].
  destruct (pos_eqb _ t); simpl; rewrite IH; reflexivity.
Qed.

Lemma group_item ip t l :
  In (t, l) (groups_of map_data s ip) ->
  l = map fst (filter (fun x =>
                         pos_eqb (tile_or_origin (claim map_data s x)) t) ip).
Proof.
  intros H. rewrite <- members_groups_of. symmetry.
  apply members_of_item; [apply group_all_NoDup | exact H].
Qed.

Lemma group_item_NoDup ip t l :
  NoDup (map fst ip) -> In (t, l) (groups_of map_data s ip) -> NoDup l.
Proof.
  intros Hn H. rewrite (group_item _ _ _ H). apply filtered_keys_distinct, Hn.
Qed.

Lemma group_item_keys ip t l i :
  In (t, l) (groups_of map_data s ip) -> In i l ->
  exists x, In x ip /\ fst x = i /\
            tile_or_origin (claim map_data s x) = t.
Proof.
  intros H Hi. rewrite (group_item _ _ _ H) in Hi.
  apply in_map_iff in Hi. destruct Hi as [x [E Hx]].
  apply filter_In in Hx. destruct Hx as [Hx Ht].
  apply pos_eqb_eq in Ht. eauto.
Qed.

Lemma key_unique (ip : IntendedPos) x y :
  NoDup (map fst ip) -> In x ip -> In y ip -> fst x = fst y -> x = y.
Proof.
  induction ip as [|z ip IH]; simpl; intros Hn Hx Hy E; [contradiction|].
  inversion Hn as [|? ? Hz Hd]; subst.
  destruct Hx as [->|Hx], Hy as [->|Hy]; auto.
  - exfalso. apply Hz. rewrite E. apply in_map. assumption.
  - exfalso. apply Hz. rewrite <- E. apply in_map. assumption.
Qed.

Lemma in_dict_range ip x :
  agent_dict s ip -> In x ip -> fst x < agent_count s.
Proof.
  intros [_ Hr] Hx. rewrite Forall_forall in Hr. apply Hr.
  apply in_map. assumption.
Qed.

Lemma same_claim_same_tile ip x y :
  placed s -> agent_dict s ip -> In x ip -> In y ip ->
  (claim map_data s x = claim map_data s y <->
   tile_or_origin (claim map_data s x) = tile_or_origin (claim map_data s y)).
Proof.
  intros Hp Hd Hx Hy.
  destruct (claim_some x Hp (in_dict_range _ _ Hd Hx)) as [t ->].
  destruct (claim_some y Hp (in_dict_range _ _ Hd Hy)) as [u ->].
  simpl. split; congruence.
Qed.

(** An agent is in a group of two or more exactly when another agent
    claims its tile. *)
Lemma contested_crowded ip x :
  placed s -> agent_dict s ip -> In x ip ->
  contested (groups_of map_data s ip) (fst x) = true <->
  crowded map_data s ip x.
Proof.
  intros Hp Hd Hx. unfold contested. rewrite existsb_exists. split.
  - intros [[t l] [Hg Hc]]. simpl in Hc.
    apply andb_true_iff in Hc. destruct Hc as [Hl Hi].
    apply Nat.ltb_lt in Hl. apply existsb_exists in Hi.
    destruct Hi as [i [Hi Ei]]. apply Nat.eqb_eq in Ei. subst i.
    destruct (other_in_NoDup l (fst x)
                (group_item_NoDup _ _ _ (proj1 Hd) Hg) Hl Hi) as [j [Hj Hji]].
    destruct (group_item_keys _ _ _ _ Hg Hi) as [x' [Hx' [Ex' Tx']]].
    destruct (group_item_keys _ _ _ _ Hg Hj) as [y [Hy [Ey Ty]]].
    assert (x' = x) by (apply (key_unique ip); auto; apply Hd). subst x'.
    exists y. split; [assumption|]. split; [congruence|].
    apply (same_claim_same_tile ip); auto. congruence.
  - intros [y [Hy [Hn Hc]]].
    set (t := tile_or_origin (claim map_data s x)).
    assert (Mx : In (fst x) (members (groups_of map_data s ip) t)).
    { rewrite members_groups_of. apply in_map. apply filter_In.
      split; [assumption | apply pos_eqb_refl]. }
    assert (My : In (fst y) (members (groups_of map_data s ip) t)).
    { rewrite members_groups_of. apply in_map. apply filter_In.
      split; [assumption|]. rewrite Hc. apply pos_eqb_refl. }
    exists (t, members (groups_of map_data s ip) t). split.
    + apply members_item. intros E. rewrite E in Mx. contradiction.
    + simpl. apply andb_true_iff. split.
      * apply Nat.ltb_lt.
        pose proof (two_in_length _ _ _ Mx My ltac:(congruence)). lia.
      * apply existsb_exists. exists (fst x). split;
          [assumption | apply Nat.eqb_refl].
Qed.

Lemma detected_two_claimants ip :
  placed s -> agent_dict s ip ->
  overlap_detected (groups_of map_data s ip) = true ->
  exists x y, In x ip /\ In y ip /\ fst x <> fst y /\
    claim map_data s x = claim map_data s y /\
    contested (groups_of map_data s ip) (fst x) = true /\
    contested (groups_of map_data s ip) (fst y) = true.
Proof.
  intros Hp Hd H. unfold overlap_detected in H.
  apply existsb_exists in H. destruct H as [[t l] [Hg Hl]].
  simpl in Hl. apply Nat.ltb_lt in Hl.
  destruct l as [|i l]; [simpl in Hl; lia|].
  assert (Hi : In i (i :: l)) by (simpl; auto).
  destruct (other_in_NoDup _ i (group_item_NoDup _ _ _ (proj1 Hd) Hg) Hl Hi)
    as [j [Hj Hji]].
  destruct (group_item_keys _ _ _ _ Hg Hi) as [x [Hx [Ex Tx]]].
  destruct (group_item_keys _ _ _ _ Hg Hj) as [y [Hy [Ey Ty]]].
  assert (Hc : claim map_data s x = claim map_data s y)
    by (apply (same_claim_same_tile ip); auto; congruence).
  exists x, y. repeat split; auto; try congruence.
  - apply contested_crowded; auto. exists y. repeat split; auto; congruence.
  - apply contested_crowded; auto. exists x. repeat split; auto; congruence.
Qed.

Lemma not_detected_not_contested g i :
  overlap_detected g = false -> contested g i = false.
Proof.
  unfold overlap_detected, contested. intros H.
  destruct (existsb _ g) eqn:E at 1; [|reflexivity].
  apply existsb_exists in E. destruct E as [item [Hi Hc]].
  apply andb_true_iff in Hc. destruct Hc as [Hc _].
  assert (existsb (fun item : Pos * list nat => 1 <? length (snd item)) g
          = true) by (apply existsb_exists; eauto).
  congruence.
Qed.

Lemma not_detected_no_overlap ip :
  placed s -> agent_dict s ip ->
  overlap_detected (groups_of map_data s ip) = false ->
  no_overlap map_data s ip.
Proof.
  intros Hp Hd H x y Hx Hy Hc.
  destruct (Nat.eq_dec (fst x) (fst y)) as [E|E]; [assumption|].
  assert (C : contested (groups_of map_data s ip) (fst x) = true).
  { apply contested_crowded; auto. exists y. repeat split; auto. }
  rewrite (not_detected_not_contested _ _ H) in C. discriminate.
Qed.

End Claims.

(** * One pass of overlap resolution, on the dictionary *)

Section Pass.

Variable map_data : SoccerMapData.
Variable s : SoccerState.

Lemma pass_keys ip : map fst (pass map_data s ip) = map fst ip.
Proof.
  unfold pass. rewrite map_map. apply map_ext.
  intros x. unfold rolled_back. destruct (contested _ _); reflexivity.
Qed.

Lemma pass_agent_dict ip :
  agent_dict s ip -> agent_dict s (pass map_data s ip).
Proof. unfold agent_dict. rewrite pass_keys. auto. Qed.

Lemma pass_without_overlap ip :
  overlap_detected (groups_of map_data s ip) = false ->
  pass map_data s ip = ip.
Proof.
  intros H. unfold pass.
  transitivity (map (fun x : nat * option Pos => x) ip); [|apply map_id].
  apply map_ext. intros x. unfold rolled_back.
  rewrite (not_detected_not_contested _ _ H). reflexivity.
Qed.

Lemma pass_entries ip x' :
  In x' (pass map_data s ip) ->
  In x' ip \/ (x' = (fst x', cur s (fst x')) /\ In (fst x') (map fst ip)).
Proof.
  unfold pass. intros H. apply in_map_iff in H.
  destruct H as [x [E Hx]]. subst x'. unfold rolled_back.
  destruct (contested _ _); [right | left; assumption].
  simpl. split; [reflexivity | apply in_map; assumption].
Qed.

Lemma pass_destination ip :
  Forall (destination map_data s) ip ->
  Forall (destination map_data s) (pass map_data s ip).
Proof.
  intros H. apply Forall_forall. intros x' Hx'.
  destruct (pass_entries _ _ Hx') as [Hin|[E _]].
  - rewrite Forall_forall in H. apply H, Hin.
  - right. rewrite E. reflexivity.
Qed.

Lemma rolled_back_moving g x :
  moving map_data s (rolled_back s g x) = true ->
  moving map_data s x = true.
Proof.
  unfold rolled_back. destruct (contested g (fst x)); [|auto].
  rewrite moving_rolled_back. discriminate.
Qed.

Lemma still_standing x :
  moving map_data s x = false -> claim map_data s x = cur s (fst x).
Proof.
  unfold moving. intros H. apply negb_false_iff in H.
  apply opt_pos_eqb_eq in H. exact H.
Qed.

(** A pass that detects an overlap rolls back at least two entries, one
    of which was attempting a move. *)
Lemma pass_decreases ip :
  placed s -> distinct_tiles s -> agent_dict s ip ->
  overlap_detected (groups_of map_data s ip) = true ->
  movers map_data s (pass map_data s ip) < movers map_data s ip /\
  movers map_data s (pass map_data s ip) + 2 <= length ip.
Proof.
  intros Hp Hdist Hd Hdet.
  destruct (detected_two_claimants map_data s ip Hp Hd Hdet)
    as [x [y [Hx [Hy [Hxy [Hc [Cx Cy]]]]]]].
  assert (Rx : moving map_data s
                 (rolled_back s (groups_of map_data s ip) x) = false)
    by (unfold rolled_back; rewrite Cx; apply moving_rolled_back).
  assert (Ry : moving map_data s
                 (rolled_back s (groups_of map_data s ip) y) = false)
    by (unfold rolled_back; rewrite Cy; apply moving_rolled_back).
  unfold movers, pass. split.
  - assert (M : moving map_data s x = true \/ moving map_data s y = true).
    { destruct (moving map_data s x) eqn:Mx; [auto|].
      destruct (moving map_data s y) eqn:My; [auto|]. exfalso.
      apply still_standing in Mx, My.
      destruct (claim_some map_data s x Hp (in_dict_range s ip x Hd Hx))
        as [t Et].
      apply (Hdist (fst x) (fst y) (in_dict_range s ip x Hd Hx)
               (in_dict_range s ip y Hd Hy) Hxy t); congruence. }
    destruct M as [M|M].
    + apply (filter_map_length_lt _ _ _ x); auto.
      intros z _. apply rolled_back_moving.
    + apply (filter_map_length_lt _ _ _ y); auto.
      intros z _. apply rolled_back_moving.
  - apply (filter_map_two_out _ _ _ x y); auto. congruence.
Qed.

End Pass.

(** ** States that differ in the ball flags only *)

Lemma same_but_ball_refl s : same_but_ball s s.
Proof. unfold same_but_ball. auto. Qed.

Lemma same_but_ball_trans s1 s2 s3 :
  same_but_ball s1 s2 -> same_but_ball s2 s3 -> same_but_ball s1 s3.
Proof.
  intros [T1 [C1 A1]] [T2 [C2 A2]]. split; [congruence|].
  split; [congruence|]. intros i.
  destruct (A1 i) as [? [? ?]], (A2 i) as [? [? ?]]. repeat split; congruence.
Qed.

Lemma same_but_ball_cur s s' i : same_but_ball s s' -> cur s' i = cur s i.
Proof. intros [_ [_ A]]. apply A. Qed.

Lemma same_but_ball_placed s s' :
  same_but_ball s s' -> placed s -> placed s'.
Proof.
  intros H Hp i Hi. rewrite (same_but_ball_cur s s' i H). apply Hp.
  destruct H as [_ [C _]]. lia.
Qed.

Lemma same_but_ball_distinct s s' :
  same_but_ball s s' -> distinct_tiles s -> distinct_tiles s'.
Proof.
  intros H Hd i j Hi Hj Hij p.
  rewrite !(same_but_ball_cur s s' _ H).
  destruct H as [_ [C _]]. apply Hd; lia.
Qed.

Lemma same_but_ball_dict s s' ip :
  same_but_ball s s' -> agent_dict s ip -> agent_dict s' ip.
Proof.
  intros [_ [C _]] [Hn Hr]. split; [assumption|]. rewrite C. assumption.
Qed.

Lemma same_but_ball_modes options s s' :
  same_but_ball s s' -> computer_modes options s -> computer_modes options s'.
Proof.
  intros [_ [C A]] Hm i Hi Hc. destruct (A i) as [_ [-> _]].
  apply Hm; lia.
Qed.

Lemma same_but_ball_claim map_data s s' x :
  same_but_ball s s' -> claim map_data s' x = claim map_data s x.
Proof.
  intros H. unfold claim. rewrite (same_but_ball_cur s s' _ H). reflexivity.
Qed.

Lemma same_but_ball_groups map_data s s' ip :
  same_but_ball s s' -> groups_of map_data s' ip = groups_of map_data s ip.
Proof.
  intros H. unfold groups_of, claims_of. f_equal. apply map_ext.
  intros x. rewrite (same_but_ball_claim map_data s s' x H). reflexivity.
Qed.

Lemma same_but_ball_movers map_data s s' ip :
  same_but_ball s s' -> movers map_data s' ip = movers map_data s ip.
Proof.
  intros H. unfold movers. f_equal. apply filter_ext. intros x.
  unfold moving. rewrite (same_but_ball_claim map_data s s' x H).
  rewrite (same_but_ball_cur s s' _ H). reflexivity.
Qed.

Lemma same_but_ball_pass map_data s s' ip :
  same_but_ball s s' -> pass map_data s' ip = pass map_data s ip.
Proof.
  intros H. unfold pass. rewrite (same_but_ball_groups map_data s s' ip H).
  apply map_ext. intros x. unfold rolled_back.
  rewrite (same_but_ball_cur s s' _ H). reflexivity.
Qed.

Lemma same_but_ball_no_overlap map_data s s' ip :
  same_but_ball s s' -> no_overlap map_data s ip -> no_overlap map_data s' ip.
Proof.
  intros H Hn x y Hx Hy. rewrite !(same_but_ball_claim map_data s s' _ H).
  apply Hn; assumption.
Qed.

(** * One pass of overlap resolution, as the code runs it *)

Lemma overlapping_ok map_data s ip :
  placed s -> agent_dict s ip ->
  _get_overlapping_pos_to_agent map_data s ip
  = Ok (groups_of map_data s ip).
Proof.
  intros Hp [_ Hr]. unfold _get_overlapping_pos_to_agent, groups_of, group_all.
  generalize (@nil (Pos * list nat)) as acc.
  induction ip as [|x ip IH]; intros acc; simpl; [reflexivity|].
  simpl in Hr. inversion Hr as [|? ? Hx Hr']; subst.
  destruct (claim_some map_data s x Hp Hx) as [t Et].
  assert (E : (if negb (py_in (snd x) (walkable map_data))
               then get_agent_pos s (fst x) else Ok (snd x))
              = Ok (claim map_data s x)).
  { unfold claim. destruct (negb _); [|reflexivity].
    apply get_agent_pos_ok. assumption. }
  rewrite E. simpl. rewrite Et. simpl. apply IH. assumption.
Qed.

Lemma holder_unique s h h' : holder_at s h -> holder_at s h' -> h = h'.
Proof.
  intros [Hh Hb] [Hh' Hb'].
  pose proof (Hb h Hh) as E. rewrite (Hb' h Hh), Nat.eqb_refl in E.
  apply Nat.eqb_eq in E. assumption.
Qed.

Lemma ball_scan_holder s h l :
  holder_at s h -> Forall (fun i => i < agent_count s) l ->
  ball_scan s l
  = Ok (if existsb (Nat.eqb h) l then Some h else None, other_claimants h l).
Proof.
  intros [Hh Hb] Hl. unfold ball_scan.
  assert (G : forall a b,
    foldO
      (fun (acc : option nat * list nat) agent_index =>
         obind (get_agent_ball s agent_index) (fun has_ball =>
         if has_ball then Ok (Some agent_index, snd acc)
         else Ok (fst acc, snd acc ++ [agent_index])))
      l (a, b)
    = Ok (if existsb (Nat.eqb h) l then Some h else a,
          b ++ other_claimants h l)).
  { induction Hl as [|i l Hi Hl IH]; intros a b; simpl.
    - rewrite app_nil_r. reflexivity.
    - rewrite get_agent_ball_ok by assumption. simpl. rewrite (Hb i Hi).
      rewrite (Nat.eqb_sym h i).
      destruct (i =? h) eqn:E; simpl; rewrite IH.
      + apply Nat.eqb_eq in E; subst i.
        destruct (existsb _ l); reflexivity.
      + rewrite <- app_assoc. reflexivity. }
  apply G.
Qed.

Lemma switch_ball_holder s h c :
  holder_at s h -> c < agent_count s -> c <> h ->
  exists s', switch_ball s h c = Ok s' /\
    same_but_ball s s' /\ holder_at s' c.
Proof.
  intros [Hh Hb] Hc Hch. unfold switch_ball.
  rewrite get_agent_ball_ok by assumption. simpl.
  rewrite (Hb h Hh), Nat.eqb_refl. simpl.
  destruct (set_agent_ball_spec s h false Hh) as [s1 [E1 [C1 [T1 [A1 _]]]]].
  rewrite E1. simpl.
  assert (Hc1 : c < agent_count s1) by lia.
  destruct (set_agent_ball_spec s1 c true Hc1) as [s2 [E2 [C2 [T2 [A2 _]]]]].
  rewrite E2. exists s2. split; [reflexivity|]. split; [split; [|split]|].
  - congruence.
  - congruence.
  - intros i. rewrite A2. destruct (i =? c) eqn:Ei; simpl.
    + apply Nat.eqb_eq in Ei; subst i. rewrite A1.
      destruct (c =? h) eqn:Ech; [apply Nat.eqb_eq in Ech; contradiction|].
      simpl; auto.
    + rewrite A1. destruct (i =? h) eqn:Eh; simpl; auto.
      apply Nat.eqb_eq in Eh; subst i. auto.
  - split; [lia|]. intros i Hi. rewrite A2.
    destruct (i =? c) eqn:Ei; simpl; [reflexivity|].
    rewrite A1. destruct (i =? h) eqn:Eh; simpl; [reflexivity|].
    rewrite Hb by lia. assumption.
Qed.

Lemma other_claimants_In h l c :
  In c (other_claimants h l) <-> In c l /\ c <> h.
Proof.
  unfold other_claimants. rewrite filter_In, negb_true_iff, Nat.eqb_neq.
  reflexivity.
Qed.

Lemma other_claimants_nonempty h l :
  NoDup l -> 1 < length l -> In h l -> other_claimants h l <> [].
Proof.
  intros Hn Hl Hh E.
  destruct (other_in_NoDup l h Hn Hl Hh) as [j [Hj Hjh]].
  assert (In j (other_claimants h l)) by (apply other_claimants_In; auto).
  rewrite E in H. contradiction.
Qed.

Lemma existsb_eqb_In i l : existsb (Nat.eqb i) l = true <-> In i l.
Proof.
  rewrite existsb_exists. split.
  - intros [j [Hj E]]. apply Nat.eqb_eq in E; subst; assumption.
  - intros H. exists i. split; [assumption | apply Nat.eqb_refl].
Qed.

(** [_update_ball_possession] on a group of two or more distinct agents,
    in a state with one ball holder [h]. *)
Lemma update_ball_possession_wp l w h :
  holder_at (st w) h ->
  NoDup l -> Forall (fun i => i < agent_count (st w)) l -> 1 < length l ->
  wp (_update_ball_possession l) w
    (fun switch w' =>
       if existsb (Nat.eqb h) l then
         switch = true /\
         In (switch_partner w h l) (other_claimants h l) /\
         switch_ball (st w) h (switch_partner w h l) = Ok (st w') /\
         same_but_ball (st w) (st w') /\
         holder_at (st w') (switch_partner w h l)
       else switch = false /\ st w' = st w)
    nowhere nowhere.
Proof.
  intros Hh Hn Hr Hl. unfold _update_ball_possession.
  apply wp_bind. eapply wp_read; [apply ball_scan_holder; eassumption|].
  simpl. destruct (existsb (Nat.eqb h) l) eqn:E.
  - apply existsb_eqb_In in E.
    pose proof (other_claimants_nonempty h l Hn Hl E) as Hne.
    assert (Hin : In (switch_partner w h l) (other_claimants h l)).
    { unfold switch_partner. apply nth_In_mod. assumption. }
    unfold switch_partner in *.
    destruct (other_claimants h l) as [|d o] eqn:Eo; [congruence|].
    apply wp_bind. apply wp_choice_draw.
    rewrite (nth_indep (d :: o) d 0)
      by (apply Nat.mod_upper_bound; discriminate).
    set (c := nth _ (d :: o) 0) in *.
    assert (Hc : In c l /\ c <> h).
    { apply other_claimants_In. rewrite Eo. exact Hin. }
    rewrite Forall_forall in Hr.
    destruct (switch_ball_holder (st w) h c Hh (Hr c (proj1 Hc)) (proj2 Hc))
      as [s' [Es [Sb Hc']]].
    apply wp_bind. eapply wp_write; [exact Es|]. apply wp_ret. simpl.
    auto.
  - apply wp_ret. auto.
Qed.

Lemma dict_set_map {V} (d : list (nat * V)) k v :
  NoDup (map fst d) -> In k (map fst d) ->
  dict_set d k v = map (fun x => if fst x =? k then (fst x, v) else x) d.
Proof.
  induction d as [|[k' v'] d IH]; simpl; intros Hn Hk; [contradiction|].
  inversion Hn as [|? ? Hk' Hd]; subst.
  destruct (k' =? k) eqn:E.
  - f_equal. apply Nat.eqb_eq in E; subst k'.
    transitivity (map (fun x : nat * V => x) d); [symmetry; apply map_id|].
    apply map_ext_in. intros x Hx.
    destruct (fst x =? k) eqn:E'; [|reflexivity].
    apply Nat.eqb_eq in E'. exfalso. apply Hk'. rewrite <- E'.
    apply in_map. assumption.
  - f_equal. apply IH; [assumption|].
    destruct Hk as [Hk|Hk]; [|assumption].
    apply Nat.eqb_neq in E. congruence.
Qed.

(** The loop that puts the agents of a group back on their own tiles. *)
Lemma roll_back_fold l : forall ip w,
  Forall (fun i => i < agent_count (st w) /\ In i (map fst ip)) l ->
  NoDup (map fst ip) ->
  foldM (fun intended_pos agent_index =>
           bind (read (fun s => get_agent_pos s agent_index))
             (fun old_pos => ret (dict_set intended_pos agent_index old_pos)))
    l ip w
  = (Ok (map (roll_back_group (st w) l) ip), w).
Proof.
  induction l as [|i l IH]; intros ip w Hl Hn; simpl.
  - unfold ret. f_equal. f_equal. symmetry.
    transitivity (map (fun x : nat * option Pos => x) ip); [|apply map_id].
    apply map_ext. intros x. reflexivity.
  - inversion Hl as [|? ? [Hi Hk] Hl']; subst.
    unfold bind at 1. unfold bind at 1. unfold read at 1.
    rewrite get_agent_pos_ok by assumption. unfold ret at 1.
    rewrite dict_set_map by assumption.
    rewrite IH.
    + f_equal. f_equal. rewrite map_map. apply map_ext. intros x.
      unfold roll_back_group. simpl.
      destruct (fst x =? i) eqn:E; simpl.
      * apply Nat.eqb_eq in E. rewrite E.
        destruct (existsb (Nat.eqb i) l); reflexivity.
      * reflexivity.
    + rewrite map_map. simpl.
      assert (Ek : map (fun x : nat * option Pos =>
                          fst (if fst x =? i then (fst x, cur (st w) i) else x))
                     ip = map fst ip).
      { apply map_ext. intros x. destruct (fst x =? i); reflexivity. }
      rewrite Ek. assumption.
    + rewrite map_map.
      assert (Ek : map (fun x : nat * option Pos =>
                          fst (if fst x =? i then (fst x, cur (st w) i) else x))
                     ip = map fst ip).
      { apply map_ext. intros x. destruct (fst x =? i); reflexivity. }
      rewrite Ek. assumption.
Qed.

Lemma roll_back_group_same s s' l ip :
  same_but_ball s s' ->
  map (roll_back_group s' l) ip = map (roll_back_group s l) ip.
Proof.
  intros H. apply map_ext. intros x. unfold roll_back_group.
  rewrite (same_but_ball_cur s s' _ H). reflexivity.
Qed.

Lemma group_ok_range s keys t l :
  group_ok s keys (t, l) -> Forall (fun i => i < agent_count s) l.
Proof.
  intros [_ H]. simpl in H. eapply Forall_impl; [|exact H].
  simpl. intros i [Hi _]. exact Hi.
Qed.

(** The body of the loop over the groups, on one group. *)
Lemma resolve_group_wp r t l w h :
  holder_at (st w) h ->
  group_ok (st w) (map fst (res_intended_pos r)) (t, l) ->
  NoDup (map fst (res_intended_pos r)) ->
  wp (resolve_group r (t, l)) w
    (fun r' w' =>
       res_intended_pos r' =
         (if 1 <? length l
          then map (roll_back_group (st w) l) (res_intended_pos r)
          else res_intended_pos r) /\
       res_detecting_overlap r' = (res_detecting_overlap r || (1 <? length l)) /\
       if (1 <? length l) && negb (res_has_switched r)
          && existsb (Nat.eqb h) l
       then
         res_has_switched r' = true /\
         In (switch_partner w h l) (other_claimants h l) /\
         switch_ball (st w) h (switch_partner w h l) = Ok (st w') /\
         same_but_ball (st w) (st w') /\
         holder_at (st w') (switch_partner w h l)
       else res_has_switched r' = res_has_switched r /\ st w' = st w)
    nowhere nowhere.
Proof.
  intros Hh Hg Hn. pose proof (group_ok_range _ _ _ _ Hg) as Hr.
  destruct Hg as [Hnl Hk]. simpl in Hnl, Hk.
  unfold resolve_group. simpl snd.
  destruct (1 <? length l) eqn:El.
  - apply Nat.ltb_lt in El. apply wp_bind.
    destruct (res_has_switched r) eqn:Ehs; simpl negb; cbv iota.
    + apply wp_ret. apply wp_bind.
      eapply wp_of_run; [apply roll_back_fold; assumption|].
      apply wp_ret. simpl. rewrite orb_true_r. auto.
    + apply wp_bind.
      eapply wp_conseq;
        [apply (update_ball_possession_wp l w h); assumption | | auto | auto].
      intros switch w1 H1. apply wp_ret. apply wp_bind.
      assert (Sb : same_but_ball (st w) (st w1)).
      { destruct (existsb (Nat.eqb h) l); [apply H1|].
        destruct H1 as [_ ->]. apply same_but_ball_refl. }
      eapply wp_of_run.
      { apply roll_back_fold; [|assumption].
        destruct Sb as [_ [C _]]. rewrite C. assumption. }
      apply wp_ret. simpl. rewrite orb_true_r.
      rewrite (roll_back_group_same _ _ _ _ Sb).
      split; [reflexivity|]. split; [reflexivity|].
      destruct (existsb (Nat.eqb h) l).
      * destruct H1 as [-> H1]. auto.
      * destruct H1 as [-> H1]. auto.
  - apply wp_ret. rewrite orb_false_r. simpl. auto.
Qed.

Lemma at_most_one_switch_refl h hs s : at_most_one_switch h hs s hs s.
Proof. left; auto. Qed.

Lemma at_most_one_switch_holder h hs s hs' s' :
  holder_at s h -> at_most_one_switch h hs s hs' s' ->
  same_but_ball s s' /\ one_holder s'.
Proof.
  intros Hh [[-> _]|[_ [_ [c [Hc [Hr Es]]]]]].
  - split; [apply same_but_ball_refl | exists h; assumption].
  - destruct (switch_ball_holder s h c Hh Hr Hc) as [s2 [E2 [Sb Hc']]].
    assert (s2 = s') by congruence. subst s2.
    split; [assumption | exists c; assumption].
Qed.

Lemma at_most_one_switch_trans h hs s hs1 s1 hs2 s2 :
  holder_at s h ->
  at_most_one_switch h hs s hs1 s1 ->
  (forall h1, holder_at s1 h1 -> at_most_one_switch h1 hs1 s1 hs2 s2) ->
  at_most_one_switch h hs s hs2 s2.
Proof.
  intros Hh [[-> ->]|[Eh [E1 [c [Hc [Hr Es]]]]]] H2.
  - apply H2. assumption.
  - destruct (switch_ball_holder s h c Hh Hr Hc) as [s' [E' [_ Hc']]].
    assert (s' = s1) by congruence. subst s'.
    destruct (H2 c Hc') as [[-> ->]|[Ef _]]; [|congruence].
    right. split; [assumption|]. split; [assumption|]. eauto.
Qed.

Lemma rolled_back_cons s t l g x :
  rolled_back s g
    (if 1 <? length l then roll_back_group s l x else x)
  = rolled_back s ((t, l) :: g) x.
Proof.
  unfold rolled_back, contested, roll_back_group. simpl existsb.
  destruct (1 <? length l); simpl.
  - destruct (existsb (Nat.eqb (fst x)) l); simpl; [|reflexivity].
    destruct (existsb _ g); reflexivity.
  - reflexivity.
Qed.

(** The loop over the groups. [s0] is the state the positions are read
    from; the ball flags may have changed since. *)
Lemma resolve_groups_wp s0 keys : forall g r w h,
  holder_at (st w) h ->
  same_but_ball s0 (st w) ->
  Forall (group_ok s0 keys) g ->
  map fst (res_intended_pos r) = keys -> NoDup keys ->
  wp (foldM resolve_group g r) w
    (fun r' w' =>
       res_intended_pos r' = map (rolled_back s0 g) (res_intended_pos r) /\
       res_detecting_overlap r'
       = (res_detecting_overlap r || overlap_detected g) /\
       at_most_one_switch h (res_has_switched r) (st w)
         (res_has_switched r') (st w'))
    nowhere nowhere.
Proof.
  induction g as [|[t l] g IH]; intros r w h Hh Sb Hg Hk Hn; simpl.
  - apply wp_ret. rewrite orb_false_r. split; [|split; [reflexivity|]].
    + transitivity (map (fun x : nat * option Pos => x) (res_intended_pos r));
        [symmetry; apply map_id|].
      apply map_ext. intros x. reflexivity.
    + apply at_most_one_switch_refl.
  - inversion Hg as [|? ? Hg1 Hg']; subst.
    assert (Hg1' : group_ok (st w) (map fst (res_intended_pos r)) (t, l)).
    { destruct Hg1 as [A B]. split; [assumption|].
      destruct Sb as [_ [C _]]. rewrite C. assumption. }
    apply wp_bind.
    eapply wp_conseq;
      [apply (resolve_group_wp r t l w h); assumption | | auto | auto].
    intros r1 w1 [Eip [Edet Hsw]].
    assert (Hkeys : map fst (res_intended_pos r1) = map fst (res_intended_pos r)).
    { rewrite Eip. destruct (1 <? length l); [|reflexivity].
      rewrite map_map. apply map_ext. intros x. unfold roll_back_group.
      destruct (existsb (Nat.eqb (fst x)) l); reflexivity. }
    assert (Hstep : at_most_one_switch h (res_has_switched r) (st w)
                      (res_has_switched r1) (st w1)).
    { destruct ((1 <? length l) && negb (res_has_switched r)
                && existsb (Nat.eqb h) l) eqn:Ec.
      - destruct Hsw as [E1 [Hin [Es _]]].
        apply andb_true_iff in Ec. destruct Ec as [Ec _].
        apply andb_true_iff in Ec. destruct Ec as [_ Ec].
        apply negb_true_iff in Ec.
        apply other_claimants_In in Hin. destruct Hin as [Hin Hne].
        right. split; [assumption|]. split; [assumption|].
        exists (switch_partner w h l). split; [assumption|].
        split; [|assumption].
        pose proof (group_ok_range _ _ _ _ Hg1') as R.
        rewrite Forall_forall in R. apply R. assumption.
      - destruct Hsw as [-> ->]. apply at_most_one_switch_refl. }
    destruct (at_most_one_switch_holder _ _ _ _ _ Hh Hstep) as [Sb1 [h1 Hh1]].
    assert (Sb01 : same_but_ball s0 (st w1))
      by (apply (same_but_ball_trans s0 (st w) (st w1)); assumption).
    eapply wp_conseq;
      [apply (IH r1 w1 h1); solve [assumption | congruence] | | auto | auto].
    intros r2 w2 [Eip2 [Edet2 Hsw2]]. split; [|split].
    + rewrite Eip2, Eip.
        transitivity
          (map (rolled_back s0 g)
             (map (fun x => if 1 <? length l
                            then roll_back_group s0 l x else x)
                (res_intended_pos r))).
        { f_equal. destruct (1 <? length l).
          - apply (roll_back_group_same s0 (st w) l). assumption.
          - symmetry. apply map_id. }
        rewrite map_map. apply map_ext. intros x. apply rolled_back_cons.
    + rewrite Edet2, Edet. unfold overlap_detected. simpl.
        rewrite orb_assoc. reflexivity.
    + apply (at_most_one_switch_trans h (res_has_switched r) (st w)
               (res_has_switched r1) (st w1)); try assumption.
        intros h1' Hh1'. rewrite (holder_unique _ _ _ Hh1' Hh1). assumption.
Qed.

(** * The [while] loop of [_update_agent_pos] *)

Lemma groups_ok map_data s ip :
  agent_dict s ip ->
  Forall (group_ok s (map fst ip)) (groups_of map_data s ip).
Proof.
  intros Hd. apply Forall_forall. intros [t l] Hg. split; simpl.
  - apply (group_item_NoDup map_data s ip t l); [apply Hd | assumption].
  - apply Forall_forall. intros i Hi.
    destruct (group_item_keys map_data s ip t l i Hg Hi) as [x [Hx [E _]]].
    subst i. split; [apply (in_dict_range s ip x Hd Hx)|].
    apply in_map. assumption.
Qed.

(** One execution of the loop body: the ball is switched at most once, and
    the loop goes on with the rolled-back dictionary when an overlap was
    detected. *)
Lemma resolve_loop_unfold map_data fuel ip hs w h :
  holder_at (st w) h -> placed (st w) -> agent_dict (st w) ip ->
  exists hs1 w1,
    at_most_one_switch h hs (st w) hs1 (st w1) /\
    resolve_loop map_data (S fuel) ip hs w =
    if overlap_detected (groups_of map_data (st w) ip)
    then resolve_loop map_data fuel (pass map_data (st w) ip) hs1 w1
    else (Ok ip, w1).
Proof.
  intros Hh Hp Hd.
  pose proof (resolve_groups_wp (st w) (map fst ip)
                (groups_of map_data (st w) ip)
                (mkResolution ip hs false) w h Hh
                (same_but_ball_refl (st w))
                (groups_ok map_data (st w) ip Hd)
                eq_refl (proj1 Hd)) as H.
  apply wp_returns in H. destruct H as [r [w1 [E [Eip [Edet Hsw]]]]].
  simpl in Eip, Edet, Hsw.
  exists (res_has_switched r), w1. split; [assumption|].
  simpl resolve_loop. unfold bind at 1. unfold read at 1.
  rewrite overlapping_ok by assumption.
  unfold bind at 1. rewrite E. rewrite Edet.
  destruct (overlap_detected (groups_of map_data (st w) ip)) eqn:Ed.
  - rewrite Eip. reflexivity.
  - rewrite Eip. fold (pass map_data (st w) ip).
    rewrite pass_without_overlap by assumption. reflexivity.
Qed.

(** The loop, for any fuel: it returns a dictionary without overlap, or
    runs out of fuel with as many entries still moving as it had fuel. It
    never raises. *)
Lemma resolve_loop_wp map_data : forall fuel ip hs w h,
  holder_at (st w) h -> placed (st w) -> distinct_tiles (st w) ->
  agent_dict (st w) ip ->
  wp (resolve_loop map_data fuel ip hs) w
    (fun ip' w' =>
       (exists hs', at_most_one_switch h hs (st w) hs' (st w')) /\
       map fst ip' = map fst ip /\
       overlap_detected (groups_of map_data (st w) ip') = false /\
       (forall x', In x' ip' ->
                   In x' ip \/ x' = (fst x', cur (st w) (fst x'))))
    nowhere
    (fun _ => fuel <= movers map_data (st w) ip).
Proof.
  induction fuel as [|fuel IH]; intros ip hs w h Hh Hp Hdist Hd.
  - unfold wp; simpl. lia.
  - destruct (resolve_loop_unfold map_data fuel ip hs w h Hh Hp Hd)
      as [hs1 [w1 [Hsw E]]].
    unfold wp. rewrite E.
    destruct (overlap_detected (groups_of map_data (st w) ip)) eqn:Ed.
    + destruct (at_most_one_switch_holder _ _ _ _ _ Hh Hsw) as [Sb [h1 Hh1]].
      pose proof (pass_decreases map_data (st w) ip Hp Hdist Hd Ed) as [Hlt _].
      assert (Hd1 : agent_dict (st w1) (pass map_data (st w) ip)).
      { apply (same_but_ball_dict (st w)); [assumption|].
        apply pass_agent_dict. assumption. }
      specialize (IH (pass map_data (st w) ip) hs1 w1 h1 Hh1
                    (same_but_ball_placed _ _ Sb Hp)
                    (same_but_ball_distinct _ _ Sb Hdist) Hd1).
      unfold wp in IH.
      destruct (resolve_loop map_data fuel (pass map_data (st w) ip) hs1 w1)
        as [[ip'|e|] w'].
      * destruct IH as [[hs' Hsw'] [Hk [Hnd Hen]]]. split; [|split; [|split]].
        -- exists hs'.
           apply (at_most_one_switch_trans h hs (st w) hs1 (st w1));
             try assumption.
           intros h1' Hh1'. rewrite (holder_unique _ _ _ Hh1' Hh1).
           assumption.
        -- rewrite Hk. apply pass_keys.
        -- rewrite <- (same_but_ball_groups map_data (st w) (st w1) ip' Sb).
           assumption.
        -- intros x' Hx'. destruct (Hen x' Hx') as [Hin|Ex].
           ++ destruct (pass_entries map_data (st w) ip x' Hin) as [?|[? _]];
                auto.
           ++ right. rewrite Ex at 1. simpl.
              rewrite (same_but_ball_cur (st w) (st w1) _ Sb). reflexivity.
      * exact IH.
      * rewrite (same_but_ball_movers map_data (st w) (st w1) _ Sb) in IH.
        lia.
    + split; [exists hs1; assumption|]. split; [reflexivity|].
      split; [assumption|]. auto.
Qed.

Lemma destination_claim map_data s x :
  destination map_data s x -> claim map_data s x = snd x.
Proof.
  unfold destination, claim. intros [H|H].
  - rewrite H. reflexivity.
  - destruct (negb _); congruence.
Qed.

Lemma loop_entries_destination map_data s ip ip' :
  Forall (destination map_data s) ip ->
  (forall x', In x' ip' -> In x' ip \/ x' = (fst x', cur s (fst x'))) ->
  Forall (destination map_data s) ip'.
Proof.
  intros Hd He. apply Forall_forall. intros x' Hx'.
  destruct (He x' Hx') as [Hin|E].
  - rewrite Forall_forall in Hd. apply Hd, Hin.
  - right. rewrite E. reflexivity.
Qed.

Lemma no_overlap_distinct_values map_data s ip :
  no_overlap map_data s ip -> Forall (destination map_data s) ip ->
  forall x y, In x ip -> In y ip -> snd x = snd y -> fst x = fst y.
Proof.
  intros Hn Hd x y Hx Hy E. rewrite Forall_forall in Hd.
  apply Hn; try assumption.
  rewrite !destination_claim by (apply Hd; assumption). assumption.
Qed.

Lemma dict_length_bound s (ip : IntendedPos) :
  agent_dict s ip -> length ip <= agent_count s.
Proof.
  intros [Hn Hr]. rewrite <- (length_map fst ip).
  apply NoDup_range_length; assumption.
Qed.

(** The loop with at least as much fuel as there are agents returns: a
    pass that detects an overlap leaves at least two entries at a
    standstill. *)
Lemma resolve_loop_bounded map_data fuel ip hs w h :
  holder_at (st w) h -> placed (st w) -> distinct_tiles (st w) ->
  agent_dict (st w) ip ->
  wp (resolve_loop map_data fuel ip hs) w
    (fun ip' w' =>
       (exists hs', at_most_one_switch h hs (st w) hs' (st w')) /\
       map fst ip' = map fst ip /\
       overlap_detected (groups_of map_data (st w) ip') = false /\
       (forall x', In x' ip' ->
                   In x' ip \/ x' = (fst x', cur (st w) (fst x'))))
    nowhere
    (fun _ => fuel < agent_count (st w)).
Proof.
  intros Hh Hp Hdist Hd.
  destruct fuel as [|fuel]; [unfold wp; simpl; destruct Hh; lia|].
  destruct (resolve_loop_unfold map_data fuel ip hs w h Hh Hp Hd)
    as [hs1 [w1 [Hsw E]]].
  unfold wp. rewrite E.
  destruct (overlap_detected (groups_of map_data (st w) ip)) eqn:Ed.
  - destruct (at_most_one_switch_holder _ _ _ _ _ Hh Hsw) as [Sb [h1 Hh1]].
    pose proof (pass_decreases map_data (st w) ip Hp Hdist Hd Ed) as [_ Hle].
    pose proof (dict_length_bound (st w) ip Hd) as Hlen.
    assert (Hd1 : agent_dict (st w1) (pass map_data (st w) ip)).
    { apply (same_but_ball_dict (st w)); [assumption|].
      apply pass_agent_dict. assumption. }
    pose proof (resolve_loop_wp map_data fuel (pass map_data (st w) ip)
                  hs1 w1 h1 Hh1 (same_but_ball_placed _ _ Sb Hp)
                  (same_but_ball_distinct _ _ Sb Hdist) Hd1) as L.
    unfold wp in L.
    destruct (resolve_loop map_data fuel (pass map_data (st w) ip) hs1 w1)
      as [[ip'|e|] w'].
    + destruct L as [[hs' Hsw'] [Hk [Hnd Hen]]]. split; [|split; [|split]].
      * exists hs'.
        apply (at_most_one_switch_trans h hs (st w) hs1 (st w1));
          try assumption.
        intros h1' Hh1'. rewrite (holder_unique _ _ _ Hh1' Hh1).
        assumption.
      * rewrite Hk. apply pass_keys.
      * rewrite <- (same_but_ball_groups map_data (st w) (st w1) ip' Sb).
        assumption.
      * intros x' Hx'. destruct (Hen x' Hx') as [Hin|Ex].
        -- destruct (pass_entries map_data (st w) ip x' Hin) as [?|[? _]];
             auto.
        -- right. rewrite Ex at 1. simpl.
           rewrite (same_but_ball_cur (st w) (st w1) _ Sb). reflexivity.
    + exact L.
    + rewrite (same_but_ball_movers map_data (st w) (st w1) _ Sb) in L.
      lia.
  - split; [exists hs1; assumption|]. split; [reflexivity|].
    split; [assumption|]. auto.
Qed.

(** * The effect of overlap resolution *)

Lemma dict_get_rolled_back s l (ip : IntendedPos) i :
  In i l -> In i (map fst ip) ->
  dict_get (map (roll_back_group s l) ip) i = Some (cur s i).
Proof.
  intros Hl. induction ip as [|[k v] ip IH]; simpl; intros Hk; [contradiction|].
  unfold roll_back_group at 1. simpl.
  destruct (k =? i) eqn:E.
  - apply Nat.eqb_eq in E; subst k.
    rewrite (proj2 (existsb_eqb_In i l) Hl). simpl.
    rewrite Nat.eqb_refl. reflexivity.
  - assert (R : dict_get (map (roll_back_group s l) ip) i = Some (cur s i)).
    { apply IH. destruct Hk as [Hk|Hk]; [|assumption].
      apply Nat.eqb_neq in E. congruence. }
    destruct (existsb (Nat.eqb k) l); simpl; rewrite E; exact R.
Qed.

Lemma dict_get_not_rolled_back s l (ip : IntendedPos) i :
  ~ In i l ->
  dict_get (map (roll_back_group s l) ip) i = dict_get ip i.
Proof.
  intros Hl. induction ip as [|[k v] ip IH]; simpl; [reflexivity|].
  unfold roll_back_group at 1. simpl.
  destruct (k =? i) eqn:E.
  - apply Nat.eqb_eq in E; subst k.
    destruct (existsb (Nat.eqb i) l) eqn:Ex.
    + apply existsb_eqb_In in Ex. contradiction.
    + simpl. rewrite Nat.eqb_refl. reflexivity.
  - destruct (existsb (Nat.eqb k) l); simpl; rewrite E; exact IH.
Qed.

Lemma other_claimants_NoDup h l : NoDup l -> NoDup (other_claimants h l).
Proof. intros H. unfold other_claimants. apply NoDup_filter, H. Qed.

(** Every other claimant is picked by exactly one index of the draw. *)
Lemma other_claimants_draw h l c :
  NoDup l -> In c l -> c <> h ->
  exists k, k < length (other_claimants h l) /\
    nth k (other_claimants h l) 0 = c /\
    forall k', k' < length (other_claimants h l) ->
               nth k' (other_claimants h l) 0 = c -> k' = k.
Proof.
  intros Hn Hc Hch.
  assert (Hin : In c (other_claimants h l))
    by (apply other_claimants_In; auto).
  destruct (In_nth _ _ 0 Hin) as [k [Hk Ek]].
  exists k. split; [assumption|]. split; [assumption|].
  intros k' Hk' Ek'.
  apply (proj1 (NoDup_nth (other_claimants h l) 0)
           (other_claimants_NoDup h l Hn)); try assumption.
  congruence.
Qed.

(** * Committing the positions *)

Lemma forM_inv {A} (body : A -> M unit) (L : list A)
    (I : list A -> World -> Prop) E F :
  (forall done x rest w, L = done ++ x :: rest -> I done w ->
     wp (body x) w (fun _ w' => I (done ++ [x]) w') E F) ->
  forall w, I [] w -> wp (forM body L) w (fun _ w' => I L w') E F.
Proof.
  intros Hstep.
  assert (G : forall rest done w, L = done ++ rest -> I done w ->
                wp (forM body rest) w (fun _ w' => I L w') E F).
  { induction rest as [|x rest IH]; intros done w EL Hi; simpl.
    - apply wp_ret. rewrite EL, app_nil_r. assumption.
    - apply wp_bind.
      eapply wp_conseq; [apply (Hstep done x rest w EL Hi) | | auto | auto].
      intros u w' Hi'. apply (IH (done ++ [x])); [|assumption].
      rewrite <- app_assoc. assumption. }
  intros w Hi. apply (G L [] w); [reflexivity | assumption].
Qed.

Lemma foldM_inv {A B} (body : B -> A -> M B) (L : list A)
    (I : list A -> B -> World -> Prop) E F :
  (forall done x rest acc w, L = done ++ x :: rest -> I done acc w ->
     wp (body acc x) w (fun acc' w' => I (done ++ [x]) acc' w') E F) ->
  forall acc w, I [] acc w ->
  wp (foldM body L acc) w (fun acc' w' => I L acc' w') E F.
Proof.
  intros Hstep.
  assert (G : forall rest done acc w, L = done ++ rest -> I done acc w ->
                wp (foldM body rest acc) w (fun acc' w' => I L acc' w') E F).
  { induction rest as [|x rest IH]; intros done acc w EL Hi; simpl.
    - apply wp_ret. rewrite EL, app_nil_r. assumption.
    - apply wp_bind.
      eapply wp_conseq; [apply (Hstep done x rest acc w EL Hi) | | auto | auto].
      intros acc' w' Hi'. apply (IH (done ++ [x])); [|assumption].
      rewrite <- app_assoc. assumption. }
  intros acc w Hi. apply (G L [] acc w); [reflexivity | assumption].
Qed.

Lemma dict_get_absent {V} (d : list (nat * V)) k :
  ~ In k (map fst d) -> dict_get d k = None.
Proof.
  induction d as [|[k' v] d IH]; simpl; intros H; [reflexivity|].
  destruct (k' =? k) eqn:E.
  - apply Nat.eqb_eq in E. tauto.
  - apply IH. tauto.
Qed.

Lemma dict_get_In {V} (d : list (nat * V)) k v :
  dict_get d k = Some v -> In (k, v) d.
Proof.
  induction d as [|[k' v'] d IH]; simpl; [discriminate|].
  destruct (k' =? k) eqn:E.
  - apply Nat.eqb_eq in E. intros H; inversion H; subst. auto.
  - auto.
Qed.

Lemma dict_get_present {V} (d : list (nat * V)) k :
  In k (map fst d) -> exists v, dict_get d k = Some v.
Proof.
  induction d as [|[k' v'] d IH]; simpl; intros H; [contradiction|].
  destruct (k' =? k) eqn:E; [eauto|].
  apply IH. destruct H as [H|H]; [|assumption].
  apply Nat.eqb_neq in E. congruence.
Qed.

Lemma set_agent_pos_spec s i p :
  i < agent_count s ->
  exists s', set_agent_pos s i p = Ok s' /\
    time_step s' = time_step s /\
    agent_count s' = agent_count s /\
    forall j, agent s' j = if j =? i then with_pos p (agent s i)
                           else agent s j.
Proof.
  intros Hi. unfold set_agent_pos. rewrite set_agent_ok by assumption.
  eexists; split; [reflexivity|]. split; [reflexivity|].
  split; [apply count_after_set|].
  intros j. apply agent_after_set. assumption.
Qed.

(** The last loop of [_update_agent_pos]. *)
Lemma commit_wp (ip : IntendedPos) : forall w,
  agent_dict (st w) ip ->
  wp (forM (fun item : nat * option Pos =>
              write (fun s => set_agent_pos s (fst item) (snd item))) ip) w
    (fun _ w' => committed (st w) ip (st w')) nowhere nowhere.
Proof.
  induction ip as [|[k v] ip IH]; intros w [Hn Hr]; simpl.
  - apply wp_ret. unfold committed. auto.
  - simpl in Hn, Hr. inversion Hn as [|? ? Hk Hn']; subst.
    inversion Hr as [|? ? Hkr Hr']; subst.
    destruct (set_agent_pos_spec (st w) k v Hkr) as [s1 [E1 [T1 [C1 A1]]]].
    apply wp_bind. eapply wp_write; [exact E1|].
    eapply wp_conseq; [apply IH | | auto | auto].
    + split; [assumption|]. simpl. rewrite C1. assumption.
    + simpl. intros u w' [T2 [C2 A2]]. split; [congruence|].
      split; [congruence|]. intros i. rewrite A2, A1. simpl dict_get.
      destruct (k =? i) eqn:E.
      * apply Nat.eqb_eq in E; subst i.
        rewrite (dict_get_absent ip k Hk), Nat.eqb_refl. reflexivity.
      * rewrite (Nat.eqb_sym i k), E.
        destruct (dict_get ip i); reflexivity.
Qed.

(** ** Well-formed states *)

Lemma holder_at_ext s s' h :
  agent_count s' = agent_count s ->
  (forall i, ball (agent s' i) = ball (agent s i)) ->
  holder_at s h -> holder_at s' h.
Proof.
  intros C B [Hh Hb]. split; [lia|]. intros i Hi. rewrite B. apply Hb. lia.
Qed.

Lemma wf_same_but_action options s s' :
  same_but_action s s' -> wf_state options s -> wf_state options s'.
Proof.
  intros [T [C A]] [Wc [h Wh] Wp Wd Wm]. constructor.
  - congruence.
  - exists h. apply (holder_at_ext s); [assumption | apply A | assumption].
  - intros i Hi. unfold cur. destruct (A i) as [-> _]. apply Wp. lia.
  - intros i j Hi Hj Hij p. unfold cur.
    destruct (A i) as [-> _]. destruct (A j) as [-> _]. apply Wd; lia.
  - intros i Hi Hc. destruct (A i) as [_ [_ ->]]. apply Wm; lia.
Qed.

Lemma wf_same_but_ball options s s' :
  same_but_ball s s' -> one_holder s' -> wf_state options s ->
  wf_state options s'.
Proof.
  intros Sb Hh [Wc _ Wp Wd Wm]. constructor.
  - destruct Sb as [_ [C _]]. congruence.
  - assumption.
  - apply (same_but_ball_placed s); assumption.
  - apply (same_but_ball_distinct s); assumption.
  - apply (same_but_ball_modes options s); assumption.
Qed.

Lemma same_but_action_refl s : same_but_action s s.
Proof. unfold same_but_action. auto. Qed.

Lemma same_but_action_trans s1 s2 s3 :
  same_but_action s1 s2 -> same_but_action s2 s3 -> same_but_action s1 s3.
Proof.
  intros [T1 [C1 A1]] [T2 [C2 A2]]. split; [congruence|].
  split; [congruence|]. intros i.
  destruct (A1 i) as [? [? ?]], (A2 i) as [? [? ?]]. repeat split; congruence.
Qed.

Lemma destination_some map_data s x :
  placed s -> fst x < agent_count s -> destination map_data s x ->
  exists p, snd x = Some p.
Proof.
  intros Hp Hx [H|H].
  - destruct (snd x) as [p|]; [eauto | discriminate].
  - specialize (Hp _ Hx). rewrite H. destruct (cur s (fst x)); [eauto|].
    congruence.
Qed.

(** Committing a dictionary without overlap, over all agents, whose
    entries are destinations, gives a well-formed state. *)
Lemma wf_committed options map_data s ip s' :
  wf_state options s ->
  map fst ip = seq 0 (agent_count s) ->
  Forall (destination map_data s) ip ->
  no_overlap map_data s ip ->
  committed s ip s' ->
  wf_state options s'.
Proof.
  intros [Wc [h Wh] Wp Wd Wm] Hk Hdest Hno [T [C A]].
  assert (Hget : forall i, i < agent_count s ->
            exists p, dict_get ip i = Some (Some p) /\
                      In (i, Some p) ip /\ cur s' i = Some p).
  { intros i Hi.
    destruct (dict_get_present ip i) as [v Ev].
    { rewrite Hk. apply in_seq. lia. }
    pose proof (dict_get_In ip i v Ev) as Hin.
    rewrite Forall_forall in Hdest.
    destruct (destination_some map_data s (i, v) Wp Hi (Hdest _ Hin))
      as [p Ep].
    simpl in Ep. subst v. exists p. split; [assumption|].
    split; [assumption|]. unfold cur. rewrite A, Ev. reflexivity. }
  assert (Hb : forall i, ball (agent s' i) = ball (agent s i)).
  { intros i. rewrite A. destruct (dict_get ip i); reflexivity. }
  assert (Hm : forall i, mode (agent s' i) = mode (agent s i)).
  { intros i. rewrite A. destruct (dict_get ip i); reflexivity. }
  constructor.
  - congruence.
  - exists h. apply (holder_at_ext s); assumption.
  - intros i Hi. destruct (Hget i ltac:(lia)) as [p [_ [_ ->]]]. discriminate.
  - intros i j Hi Hj Hij p Ei Ej.
    destruct (Hget i ltac:(lia)) as [pi [_ [Ii Ci]]].
    destruct (Hget j ltac:(lia)) as [pj [_ [Ij Cj]]].
    apply Hij.
    apply (no_overlap_distinct_values map_data s ip Hno Hdest
             (i, Some pi) (j, Some pj) Ii Ij).
    simpl. congruence.
  - intros i Hi Hc. rewrite Hm. apply Wm; lia.
Qed.

(** * [_update_agent_pos] *)

Lemma same_but_ball_destination map_data s s' x :
  same_but_ball s s' -> destination map_data s x -> destination map_data s' x.
Proof.
  intros H. unfold destination. rewrite (same_but_ball_cur s s' _ H). auto.
Qed.

Lemma all_agents_dict s (ip : IntendedPos) :
  map fst ip = seq 0 (agent_count s) -> agent_dict s ip.
Proof.
  intros H. unfold agent_dict. rewrite H. split; [apply seq_NoDup|].
  apply Forall_forall. intros i Hi. apply in_seq in Hi. lia.
Qed.

(** From a well-formed state and a dictionary of destinations over all
    agents, [_update_agent_pos] leaves a well-formed state, raises nothing,
    and runs out of fuel only with less fuel than there are agents. *)
Lemma update_agent_pos_wp options map_data fuel ip w :
  wf_state options (st w) ->
  map fst ip = seq 0 (agent_count (st w)) ->
  Forall (destination map_data (st w)) ip ->
  wp (_update_agent_pos map_data fuel ip) w
    (fun _ w' =>
       wf_state options (st w') /\
       time_step (st w') = time_step (st w) /\
       agent_count (st w') = agent_count (st w) /\
       forall i, action (agent (st w') i) = action (agent (st w) i))
    nowhere
    (fun _ => fuel < agent_count (st w)).
Proof.
  intros Hwf Hk Hdest. pose proof Hwf as [Wc [h Wh] Wp Wd Wm].
  pose proof (all_agents_dict (st w) ip Hk) as Hd.
  unfold _update_agent_pos. apply wp_bind.
  eapply wp_conseq;
    [apply (resolve_loop_bounded map_data fuel ip false w h); assumption
    | | auto | auto].
  intros ip' w1 [[hs' Hsw] [Hk' [Hnd Hen]]].
  destruct (at_most_one_switch_holder _ _ _ _ _ Wh Hsw) as [Sb Hh1].
  pose proof (wf_same_but_ball options _ _ Sb Hh1 Hwf) as Hwf1.
  assert (C1 : agent_count (st w1) = agent_count (st w))
    by (destruct Sb as [_ [C _]]; exact C).
  assert (Hk1 : map fst ip' = seq 0 (agent_count (st w1)))
    by (rewrite Hk', C1; exact Hk).
  assert (Hd' : agent_dict (st w) ip')
    by (unfold agent_dict; rewrite Hk'; exact Hd).
  eapply wp_conseq;
    [apply commit_wp; apply all_agents_dict; exact Hk1 | | auto
    | unfold nowhere; tauto].
  simpl. intros u w' Hc. split; [|split; [|split]].
  - apply (wf_committed options map_data (st w1) ip' (st w') Hwf1 Hk1);
      [| |exact Hc].
    + apply Forall_forall. intros x Hx.
      apply (same_but_ball_destination map_data (st w)); [assumption|].
      pose proof (loop_entries_destination map_data (st w) ip ip' Hdest Hen)
        as D.
      rewrite Forall_forall in D. apply D, Hx.
    + apply (same_but_ball_no_overlap map_data (st w)); [assumption|].
      apply not_detected_no_overlap; assumption.
  - destruct Hc as [T _]. destruct Sb as [T1 _]. congruence.
  - destruct Hc as [_ [C _]]. congruence.
  - intros i. destruct Hc as [_ [_ A]]. rewrite A.
    destruct Sb as [_ [_ A1]]. destruct (A1 i) as [_ [_ <-]].
    destruct (dict_get ip' i); reflexivity.
Qed.

(** * Methods that only read the state *)

Lemma readonly_ret {A} (a : A) : readonly (ret a).
Proof. intros w; reflexivity. Qed.

Lemma readonly_raise {A} e : readonly (@raise A e).
Proof. intros w; reflexivity. Qed.

Lemma readonly_lift {A} (o : outcome A) : readonly (lift o).
Proof. intros w; reflexivity. Qed.

Lemma readonly_read {A} (f : SoccerState -> outcome A) : readonly (read f).
Proof. intros w; reflexivity. Qed.

Lemma readonly_randbelow n : readonly (randbelow n).
Proof. intros w; reflexivity. Qed.

Lemma readonly_bind {A B} (m : M A) (k : A -> M B) :
  readonly m -> (forall a, readonly (k a)) -> readonly (bind m k).
Proof.
  intros Hm Hk w. unfold bind. specialize (Hm w).
  destruct (m w) as [[a|e|] w1]; simpl in *; try assumption.
  rewrite <- Hm. apply Hk.
Qed.

Lemma readonly_choice {A} (l : list A) : readonly (choice l).
Proof.
  destruct l as [|d l]; [apply readonly_raise|].
  apply readonly_bind; [apply readonly_randbelow|].
  intros k. apply readonly_ret.
Qed.

Lemma readonly_sample {A} k : forall pool : list A, readonly (sample k pool).
Proof.
  induction k as [|k IH]; intros pool; simpl; [apply readonly_ret|].
  destruct pool as [|d pool]; [apply readonly_raise|].
  apply readonly_bind; [apply readonly_randbelow|]. intros j.
  apply readonly_bind; [apply IH|]. intros rest. apply readonly_ret.
Qed.

Lemma readonly_strategic_action map_data src tgt m :
  readonly (_get_strategic_action map_data src tgt m).
Proof.
  unfold _get_strategic_action.
  apply readonly_bind; [apply readonly_lift|]. intros d.
  apply readonly_bind; [apply readonly_choice|]. intros a.
  apply readonly_bind; [apply readonly_sample|]. intros l.
  apply readonly_lift.
Qed.

Lemma readonly_computer_action options map_data c :
  readonly (_get_computer_action options map_data c).
Proof.
  unfold _get_computer_action.
  repeat (apply readonly_bind; [apply readonly_read|]; intros ?).
  apply readonly_bind; [|intros; apply readonly_strategic_action].
  destruct a0 as [[|]|]; [| |apply readonly_raise]; destruct a.
  - apply readonly_ret.
  - repeat (apply readonly_bind; [apply readonly_lift|]; intros ?).
    apply readonly_ret.
  - repeat (apply readonly_bind; [apply readonly_lift|]; intros ?).
    apply readonly_ret.
  - apply readonly_ret.
Qed.

Lemma wp_readonly {A} (m : M A) w :
  readonly m ->
  wp m w (fun _ w' => st w' = st w) (fun w' => st w' = st w)
    (fun w' => st w' = st w).
Proof.
  intros H. unfold wp. specialize (H w).
  destruct (m w) as [[a|e|] w']; exact H.
Qed.

(** * [_get_intended_pos] *)

Lemma set_agent_action_spec s i x :
  i < agent_count s ->
  exists s', set_agent_action s i x = Ok s' /\
    same_but_action s s' /\
    forall j, action (agent s' j) = if j =? i then x else action (agent s j).
Proof.
  intros Hi. unfold set_agent_action. rewrite set_agent_ok by assumption.
  eexists; split; [reflexivity|]. split; [split; [|split]|].
  - reflexivity.
  - apply count_after_set.
  - intros j. rewrite agent_after_set by assumption.
    destruct (j =? i) eqn:E; simpl; auto.
    apply Nat.eqb_eq in E; subst j. auto.
  - intros j. rewrite agent_after_set by assumption.
    destruct (j =? i); reflexivity.
Qed.

Lemma dict_set_append {V} (d : list (nat * V)) k v :
  ~ In k (map fst d) -> dict_set d k v = d ++ [(k, v)].
Proof.
  induction d as [|[k' v'] d IH]; simpl; intros H; [reflexivity|].
  destruct (k' =? k) eqn:E.
  - apply Nat.eqb_eq in E. tauto.
  - rewrite IH by tauto. reflexivity.
Qed.

Lemma same_but_action_cur s s' i : same_but_action s s' -> cur s' i = cur s i.
Proof. intros [_ [_ A]]. apply A. Qed.

Lemma wrapped_action_length options action l :
  _get_wrapped_action options action = Ok l -> length l = team_size options.
Proof.
  unfold _get_wrapped_action. destruct action as [a|l'].
  - destruct (team_size options <=? 1).
    + destruct (length [a] =? team_size options) eqn:E; simpl;
        [|discriminate].
      apply Nat.eqb_eq in E. intros H; inversion H; subst. assumption.
    + destruct (negb _); discriminate.
  - destruct (length l' =? team_size options) eqn:E; simpl; [|discriminate].
    apply Nat.eqb_eq in E. intros H; inversion H; subst. assumption.
Qed.

Section IntendedPos.

Variable options : SoccerEnvironmentOptions.
Variable map_data : SoccerMapData.

(** The state the step started from, and what is known of the state an
    exception or a lack of fuel leaves behind. *)
Variable s0 : SoccerState.
Variable G : SoccerState -> Prop.

Hypothesis computer_action_wp : forall c w,
  c < team_size options -> same_but_action s0 (st w) ->
  wp (_get_computer_action options map_data c) w
    (fun _ w' => st w' = st w)
    (fun w' => G (st w')) (fun w' => G (st w')).

Hypothesis wf0 : wf_state options s0.

Lemma intended_pos_step_wp action ip t k w :
  same_but_action s0 (st w) ->
  length action = team_size options ->
  In (t, k) (roster options) ->
  wp (intended_pos_step options map_data action ip (t, k)) w
    (fun ip' w' =>
       same_but_action s0 (st w') /\
       exists v,
         ip' = dict_set ip (get_agent_index options t k) v /\
         destination map_data s0 (get_agent_index options t k, v))
    (fun w' => G (st w')) (fun w' => G (st w')).
Proof.
  intros Sa Hlen Hin. pose proof wf0 as [Wc _ Wp _ _].
  destruct (roster_member options t k Hin) as [_ [_ Hidx]].
  apply roster_In in Hin.
  set (idx := get_agent_index options t k) in *.
  assert (Hi0 : idx < agent_count s0) by lia.
  assert (Hi : idx < agent_count (st w))
    by (destruct Sa as [_ [C _]]; lia).
  destruct (cur s0 idx) as [p|] eqn:Ep; [|exfalso; apply (Wp idx Hi0 Ep)].
  unfold intended_pos_step. simpl fst. simpl snd. fold idx.
  apply wp_bind.
  eapply wp_read; [apply get_agent_pos_ok; assumption|].
  rewrite (same_but_action_cur s0 (st w) idx Sa), Ep.
  apply wp_bind.
  assert (Hact : wp (match t with
                     | PLAYER => lift (py_nth action k)
                     | COMPUTER => _get_computer_action options map_data k
                     end) w
                   (fun _ w' => st w' = st w)
                   (fun w' => G (st w')) (fun w' => G (st w'))).
  { destruct t.
    - unfold py_nth.
      destruct (nth_error action k) as [a|] eqn:En.
      + eapply wp_lift; reflexivity.
      + apply nth_error_None in En. lia.
    - apply computer_action_wp; assumption. }
  eapply wp_conseq; [exact Hact | | auto | auto].
  intros a w1 E1. simpl in E1.
  assert (Hi1 : idx < agent_count (st w1)) by (rewrite E1; assumption).
  destruct (set_agent_action_spec (st w1) idx (Some a) Hi1)
    as [s2 [E2 [Sa2 _]]].
  apply wp_bind. eapply wp_write; [exact E2|].
  assert (Sa02 : same_but_action s0 s2).
  { apply (same_but_action_trans s0 (st w1) s2); [|assumption].
    rewrite E1. assumption. }
  destruct (get_moved_pos_some p a) as [q Eq].
  apply wp_bind. eapply wp_lift; [exact Eq|].
  destruct (pos_in q (walkable map_data)) eqn:W; apply wp_ret;
    (split; [exact Sa02|]); eexists; (split; [reflexivity|]).
  - left. exact W.
  - right. simpl. symmetry. exact Ep.
Qed.

Lemma roster_position done x rest :
  roster options = done ++ x :: rest ->
  In x (roster options) /\
  ~ In (member_index options x) (map (member_index options) done).
Proof.
  intros E. split; [rewrite E; apply in_or_app; right; left; reflexivity|].
  pose proof (seq_NoDup (get_agent_size options) 0) as N.
  rewrite <- roster_indices, E, map_app in N. simpl in N.
  apply NoDup_remove_2 in N. intros H. apply N. apply in_or_app. auto.
Qed.

Lemma get_intended_pos_wp action w :
  same_but_action s0 (st w) ->
  length action = team_size options ->
  wp (_get_intended_pos options map_data action) w
    (fun ip w' =>
       same_but_action s0 (st w') /\
       map fst ip = seq 0 (agent_count s0) /\
       Forall (destination map_data s0) ip)
    (fun w' => G (st w')) (fun w' => G (st w')).
Proof.
  intros Sa Hlen. unfold _get_intended_pos.
  eapply wp_conseq;
    [apply (foldM_inv (intended_pos_step options map_data action)
              (roster options)
              (fun done ip w' =>
                 same_but_action s0 (st w') /\
                 map fst ip = map (member_index options) done /\
                 Forall (destination map_data s0) ip)
              (fun w' => G (st w')) (fun w' => G (st w')))
    | | auto | auto].
  - intros done [t k] rest ip w1 EL [Sa1 [Hk Hd]].
    destruct (roster_position done (t, k) rest EL) as [Hin Hfresh].
    eapply wp_conseq;
      [apply (intended_pos_step_wp action ip t k w1); assumption
      | | auto | auto].
    simpl. intros ip' w2 [Sa2 [v [-> Dv]]]. split; [assumption|].
    rewrite dict_set_append by (rewrite Hk; exact Hfresh).
    rewrite !map_app. simpl. rewrite Hk. split; [reflexivity|].
    apply Forall_app. split; [assumption|]. constructor; [exact Dv|constructor].
  - simpl. split; [assumption|]. split; [reflexivity | constructor].
  - simpl. intros ip w' [Sa' [Hk Hd]]. split; [assumption|].
    split; [|assumption].
    rewrite Hk, roster_indices. destruct wf0 as [Wc _ _ _ _].
    rewrite Wc. reflexivity.
Qed.

End IntendedPos.

(** * [reset] *)

Lemma set_agent_spec s i f :
  i < agent_count s ->
  exists s', set_agent s i f = Ok s' /\
    time_step s' = time_step s /\
    agent_count s' = agent_count s /\
    forall j, agent s' j = if j =? i then f (agent s i) else agent s j.
Proof.
  intros Hi. rewrite set_agent_ok by assumption.
  eexists; split; [reflexivity|]. split; [reflexivity|].
  split; [apply count_after_set|].
  intros j. apply agent_after_set. assumption.
Qed.

Lemma wp_set_agent i f w (Q : unit -> World -> Prop) E F :
  i < agent_count (st w) ->
  (forall s', time_step s' = time_step (st w) ->
              agent_count s' = agent_count (st w) ->
              (forall j, agent s' j = if j =? i then f (agent (st w) i)
                                      else agent (st w) j) ->
              Q tt (mkWorld s' (rnd w))) ->
  wp (write (fun s => set_agent s i f)) w Q E F.
Proof.
  intros Hi HQ.
  destruct (set_agent_spec (st w) i f Hi) as [s' [E' [T [C A]]]].
  eapply wp_write; [exact E'|]. apply HQ; assumption.
Qed.

Lemma list_set_repeat {A} (x : A) n i : list_set (repeat x n) i x = repeat x n.
Proof.
  revert i; induction n as [|n IH]; intros [|i]; simpl; auto.
  rewrite IH. reflexivity.
Qed.

Lemma blank_write n t r i f :
  i < n -> f blank_agent = blank_agent ->
  write (fun s => set_agent s i f)
    (mkWorld (mkState (repeat blank_agent n) t) r)
  = (Ok tt, mkWorld (mkState (repeat blank_agent n) t) r).
Proof.
  intros Hi Hf. unfold write, set_agent. simpl.
  rewrite (nth_error_nth_lt _ _ blank_agent)
    by (rewrite repeat_length; assumption).
  rewrite nth_repeat, Hf, list_set_repeat. reflexivity.
Qed.

(** The first loop of [SoccerState.reset] leaves the blank records as they
    are. *)
Lemma blank_loop n t l : forall r,
  Forall (fun i => i < n) l ->
  forM (fun agent_index =>
          bind (write (fun s => set_agent_pos s agent_index None)) (fun _ =>
          bind (write (fun s => set_agent_ball s agent_index false)) (fun _ =>
          bind (write (fun s => set_agent_mode s agent_index None)) (fun _ =>
          write (fun s => set_agent_action s agent_index None)))))
    l (mkWorld (mkState (repeat blank_agent n) t) r)
  = (Ok tt, mkWorld (mkState (repeat blank_agent n) t) r).
Proof.
  intros r Hl. induction Hl as [|i l Hi Hl IH]; simpl; [reflexivity|].
  unfold set_agent_pos, set_agent_ball, set_agent_mode, set_agent_action.
  unfold bind. rewrite !blank_write by (assumption || reflexivity).
  exact IH.
Qed.

Lemma agent_index_inj options t k t' k' :
  k < team_size options -> k' < team_size options ->
  (get_agent_index options t k = get_agent_index options t' k'
   <-> t = t' /\ k = k').
Proof.
  intros Hk Hk'. unfold get_agent_index. split.
  - destruct t, t'; simpl; intros H; try (split; [reflexivity|lia]); nia.
  - intros [-> ->]. reflexivity.
Qed.

Lemma set_ball_test options t k t0 k0 :
  k < team_size options -> k0 < team_size options ->
  team_eqb t t0 && (k =? k0)
  = (get_agent_index options t k =? get_agent_index options t0 k0).
Proof.
  intros Hk Hk0.
  destruct (get_agent_index options t k =? get_agent_index options t0 k0)
    eqn:E.
  - apply Nat.eqb_eq in E. apply agent_index_inj in E; try assumption.
    destruct E as [-> ->]. rewrite Nat.eqb_refl. destruct t0; reflexivity.
  - apply Nat.eqb_neq in E.
    destruct (team_eqb t t0) eqn:Et; [|reflexivity].
    destruct (k =? k0) eqn:Ek; [|reflexivity].
    apply Nat.eqb_eq in Ek. exfalso. apply E.
    apply agent_index_inj; try assumption.
    destruct t, t0; try discriminate; auto.
Qed.

Section Reset.

Variable options : SoccerEnvironmentOptions.
Variable map_data : SoccerMapData.

Lemma pos_status_free s p :
  agent_count s = get_agent_size options ->
  get_pos_status options s p = Ok None ->
  forall j, j < agent_count s -> cur s j <> Some p.
Proof.
  intros Hc H j Hj Ej. unfold get_pos_status in H.
  rewrite first_status_find in H by (apply roster_in_range; assumption).
  destruct (find _ (roster options)) as [m|] eqn:Ef; [discriminate|].
  assert (Hin : In j (map (member_index options) (roster options))).
  { rewrite roster_indices. apply in_seq. lia. }
  apply in_map_iff in Hin. destruct Hin as [m [Em Hm]].
  pose proof (find_none _ _ Ef m Hm) as N. simpl in N.
  rewrite Em in N. fold (cur s j) in N. rewrite Ej in N. simpl in N.
  rewrite pos_eqb_refl in N. discriminate.
Qed.

(** The placement loop: when it returns, the agent stands on a tile that
    was free. *)
Lemma find_pos_wp fuel t i : forall w,
  agent_count (st w) = get_agent_size options ->
  i < agent_count (st w) ->
  wp (find_pos options map_data fuel t i) w
    (fun _ w' =>
       exists p,
         (forall j, j < agent_count (st w) -> cur (st w) j <> Some p) /\
         time_step (st w') = time_step (st w) /\
         agent_count (st w') = agent_count (st w) /\
         forall j, agent (st w') j =
                   if j =? i then with_pos (Some p) (agent (st w) i)
                   else agent (st w) j)
    anywhere anywhere.
Proof.
  induction fuel as [|fuel IH]; intros w Hc Hi; simpl.
  - exact I.
  - apply wp_bind.
    destruct (spawn map_data t) as [|d l] eqn:Es; [exact I|].
    apply wp_choice_draw. set (p := nth _ (d :: l) d).
    apply wp_bind. unfold wp at 1. unfold read. simpl st.
    destruct (get_pos_status options (st w) p) as [[status|]|e|] eqn:Ep;
      try exact I.
    + eapply wp_conseq; [apply (IH (after_draw w)); assumption | | auto | auto].
      simpl. auto.
    + unfold set_agent_pos. apply wp_set_agent; [assumption|].
      intros s' T C A. exists p. simpl.
      split; [apply pos_status_free; assumption|]. auto.
Qed.

(** The body of the loops of [randomize], on the member of the roster
    whose turn it is. *)
Lemma randomize_step_wp fuel t0 k0 t k w :
  agent_count (st w) = get_agent_size options ->
  In (t, k) (roster options) -> k0 < team_size options ->
  wp (randomize_step options map_data fuel t0 k0 (t, k)) w
    (fun _ w' =>
       exists p a,
         (forall j, j < agent_count (st w) -> cur (st w) j <> Some p) /\
         pos a = Some p /\
         ball a = (get_agent_index options t k
                   =? get_agent_index options t0 k0) /\
         (t = COMPUTER -> mode a <> None) /\
         time_step (st w') = time_step (st w) /\
         agent_count (st w') = agent_count (st w) /\
         forall j, agent (st w') j =
                   if j =? get_agent_index options t k then a
                   else agent (st w) j)
    anywhere anywhere.
Proof.
  intros Hc Hin Hk0.
  destruct (roster_member options t k Hin) as [_ [_ Hidx]].
  apply roster_In in Hin.
  set (idx := get_agent_index options t k) in *.
  assert (Hi : idx < agent_count (st w)) by lia.
  unfold randomize_step. simpl fst. simpl snd. fold idx.
  rewrite (set_ball_test options t k t0 k0 Hin Hk0). fold idx.
  set (hb := get_agent_index options t0 k0).
  apply wp_bind.
  eapply wp_conseq; [apply find_pos_wp; assumption | | auto | auto].
  intros u w1 [p [Hfree [T1 [C1 A1]]]].
  assert (Hi1 : idx < agent_count (st w1)) by lia.
  apply wp_bind.
  assert (Hball : wp (if idx =? hb
                      then write (fun s => set_agent_ball s idx true)
                      else write (fun s => set_agent_ball s idx false)) w1
            (fun _ w2 =>
               time_step (st w2) = time_step (st w1) /\
               agent_count (st w2) = agent_count (st w1) /\
               forall j, agent (st w2) j =
                 if j =? idx
                 then mkAgent (pos (agent (st w1) idx)) (idx =? hb)
                        (mode (agent (st w1) idx)) (action (agent (st w1) idx))
                 else agent (st w1) j)
            anywhere anywhere).
  { destruct (idx =? hb); unfold set_agent_ball;
      (apply wp_set_agent; [assumption|]); intros s' T C A; simpl; auto. }
  eapply wp_conseq; [exact Hball | | auto | auto].
  intros u2 w2 [T2 [C2 A2]].
  assert (Hi2 : idx < agent_count (st w2)) by lia.
  apply wp_bind.
  assert (Hmode : wp (match t with
                      | COMPUTER =>
                          bind (choice modes) (fun computer_mode =>
                          write (fun s => set_agent_mode s idx
                                            (Some computer_mode)))
                      | PLAYER => write (fun s => set_agent_mode s idx None)
                      end) w2
            (fun _ w3 =>
               exists m, (t = COMPUTER -> m <> None) /\
               time_step (st w3) = time_step (st w2) /\
               agent_count (st w3) = agent_count (st w2) /\
               forall j, agent (st w3) j =
                 if j =? idx
                 then mkAgent (pos (agent (st w2) idx))
                        (ball (agent (st w2) idx)) m
                        (action (agent (st w2) idx))
                 else agent (st w2) j)
            anywhere anywhere).
  { destruct t.
    - unfold set_agent_mode. apply wp_set_agent; [assumption|].
      intros s' T C A. exists None. simpl. split; [discriminate|]. auto.
    - apply wp_bind. apply wp_choice; [discriminate|]. intros m _.
      unfold set_agent_mode. apply wp_set_agent; [assumption|].
      intros s' T C A. exists (Some m). simpl. split; [discriminate|]. auto. }
  eapply wp_conseq; [exact Hmode | | auto | auto].
  intros u3 w3 [m [Hm [T3 [C3 A3]]]].
  assert (Hi3 : idx < agent_count (st w3)) by lia.
  unfold set_agent_action. apply wp_set_agent; [assumption|].
  intros s' T C A.
  exists p, (mkAgent (Some p) (idx =? hb) m (Some (last actions STAND))).
  simpl. split; [assumption|]. split; [reflexivity|].
  split; [reflexivity|]. split; [assumption|].
  split; [congruence|]. split; [congruence|].
  intros j. rewrite A. destruct (j =? idx) eqn:Ej.
  - rewrite A3, Nat.eqb_refl. simpl.
    rewrite A2, Nat.eqb_refl. simpl.
    rewrite A1, Nat.eqb_refl. simpl. reflexivity.
  - rewrite A3, Ej, A2, Ej, A1, Ej. reflexivity.
Qed.

End Reset.

Section Kickoff.

Variable options : SoccerEnvironmentOptions.
Variable map_data : SoccerMapData.

Lemma roster_length : length (roster options) = get_agent_size options.
Proof.
  rewrite <- (length_map (member_index options)), roster_indices.
  apply length_seq.
Qed.

Lemma roster_nth done x rest :
  roster options = done ++ x :: rest ->
  member_index options x = length done /\
  length done < get_agent_size options.
Proof.
  intros E.
  assert (Hlen : length done < get_agent_size options).
  { rewrite <- roster_length, E, length_app. simpl. lia. }
  split; [|assumption].
  pose proof (roster_indices options) as R.
  rewrite E, map_app in R. simpl in R.
  assert (N : nth (length done) (seq 0 (get_agent_size options)) 0
              = member_index options x).
  { rewrite <- R. rewrite app_nth2 by (rewrite length_map; lia).
    rewrite length_map, Nat.sub_diag. reflexivity. }
  rewrite seq_nth in N by assumption. simpl in N. congruence.
Qed.

Lemma dealt_blank hb t :
  dealt options hb 0
    (mkState (repeat blank_agent (get_agent_size options)) t).
Proof.
  split; [unfold agent_count; simpl; apply repeat_length|].
  split; [intros i Hi; lia|]. split; [|intros i j Hi; lia].
  intros i _ _. unfold cur, agent. simpl. rewrite nth_repeat. auto.
Qed.

Lemma dealt_step hb k s s' t p a :
  dealt options hb k s ->
  k < get_agent_size options ->
  get_team_name options k = t ->
  (forall j, j < agent_count s -> cur s j <> Some p) ->
  pos a = Some p -> ball a = (k =? hb) ->
  (t = COMPUTER -> mode a <> None) ->
  agent_count s' = agent_count s ->
  (forall j, agent s' j = if j =? k then a else agent s j) ->
  dealt options hb (S k) s'.
Proof.
  intros [Dc [Dl [Dr Dd]]] Hk Ht Hfree Hp Hb Hm C A.
  assert (Ak : agent s' k = a) by (rewrite A, Nat.eqb_refl; reflexivity).
  assert (Ao : forall j, j <> k -> agent s' j = agent s j).
  { intros j Hj. rewrite A. destruct (j =? k) eqn:E; [|reflexivity].
    apply Nat.eqb_eq in E. contradiction. }
  split; [congruence|]. split; [|split].
  - intros i Hi. destruct (Nat.eq_dec i k) as [->|Hik].
    + unfold cur. rewrite Ak, Hp. split; [discriminate|].
      split; [assumption|]. intros Hts. apply Hm. rewrite <- Ht.
      unfold get_team_name. destruct (k <? team_size options) eqn:E;
        [apply Nat.ltb_lt in E; lia | reflexivity].
    + unfold cur. rewrite (Ao i Hik). apply Dl. lia.
  - intros i Hi Hi'. unfold cur. rewrite (Ao i) by lia. apply Dr; lia.
  - intros i j Hi Hj Hij q. unfold cur.
    destruct (Nat.eq_dec i k) as [->|Hik];
      destruct (Nat.eq_dec j k) as [->|Hjk]; try lia.
    + rewrite Ak, (Ao j Hjk), Hp. intros E. inversion E; subst q.
      apply Hfree. lia.
    + rewrite Ak, (Ao i Hik), Hp. intros E E'. inversion E'; subst q.
      apply (Hfree i); [lia | exact E].
    + rewrite (Ao i Hik), (Ao j Hjk). apply Dd; lia.
Qed.

Lemma dealt_all hb s :
  hb < get_agent_size options ->
  dealt options hb (get_agent_size options) s -> wf_state options s.
Proof.
  intros Hhb [Dc [Dl [_ Dd]]]. constructor.
  - assumption.
  - exists hb. split; [lia|]. intros i Hi. apply Dl. lia.
  - intros i Hi. apply Dl. lia.
  - intros i j Hi Hj. apply Dd; lia.
  - intros i Hts Hi. apply Dl; lia.
Qed.

Lemma randomize_wp fuel w t :
  st w = mkState (repeat blank_agent (get_agent_size options)) t ->
  wp (randomize options map_data fuel) w
    (fun _ w' => wf_state options (st w')) anywhere anywhere.
Proof.
  intros Es. unfold randomize.
  apply wp_bind. apply wp_choice; [discriminate|]. intros t0 _.
  apply wp_bind. unfold randrange.
  destruct (team_size options =? 0) eqn:Ets; [exact I|].
  apply Nat.eqb_neq in Ets. apply wp_randbelow.
  set (k0 := _ mod _).
  assert (Hk0 : k0 < team_size options)
    by (apply Nat.mod_upper_bound; assumption).
  set (hb := get_agent_index options t0 k0).
  assert (Hhb : hb < get_agent_size options).
  { apply (roster_member options t0 k0). apply roster_In. assumption. }
  eapply wp_conseq;
    [apply (forM_inv (randomize_step options map_data fuel t0 k0)
              (roster options)
              (fun done w' => dealt options hb (length done) (st w'))
              anywhere anywhere)
    | | auto | auto].
  - intros done [t1 k1] rest w1 EL D.
    destruct (roster_position options done (t1, k1) rest EL) as [Hin _].
    destruct (roster_nth done (t1, k1) rest EL) as [Hidx Hlt].
    unfold member_index in Hidx. simpl in Hidx.
    eapply wp_conseq;
      [apply (randomize_step_wp options map_data fuel t0 k0 t1 k1 w1);
       [apply D | assumption | assumption]
      | | auto | auto].
    simpl. intros u w2 [p [a [Hfree [Hp [Hb [Hm [_ [C A]]]]]]]].
    rewrite length_app. simpl. rewrite Nat.add_1_r.
    apply (dealt_step hb (length done) (st w1) (st w2) t1 p a); auto.
    + rewrite <- Hidx. apply (roster_member options t1 k1 Hin).
    + rewrite <- Hidx. exact Hb.
    + intros j. rewrite A, Hidx. reflexivity.
  - simpl. do 2 (unfold after_draw; simpl). rewrite Es. apply dealt_blank.
  - simpl. intros u w' D. rewrite roster_length in D.
    apply (dealt_all hb); assumption.
Qed.

Lemma wf_time_step s t :
  wf_state options s -> wf_state options (mkState (agent_list s) t).
Proof.
  intros [Wc Wh Wp Wd Wm]. constructor; assumption.
Qed.

(** [reset], when it returns, leaves a well-formed state at time step 0
    and reports it in the observation. *)
Lemma reset_wp fuel w :
  wp (reset options map_data fuel) w
    (fun obs w' =>
       wf_state options (st w') /\ time_step (st w') = 0%Z /\
       obs = mkObservation (Some (st w')) None 0 None)
    anywhere anywhere.
Proof.
  unfold reset, SoccerState_reset.
  apply wp_bind. apply wp_bind. eapply wp_write; [reflexivity|].
  apply wp_bind.
  eapply wp_of_run.
  { apply (blank_loop (get_agent_size options)).
    apply Forall_forall. intros i Hi. apply in_seq in Hi. lia. }
  apply wp_bind.
  eapply wp_conseq; [eapply randomize_wp; reflexivity | | auto | auto].
  intros u w1 Hwf. eapply wp_write; [reflexivity|].
  apply wp_bind. eapply wp_read; [reflexivity|]. apply wp_ret. simpl.
  split; [apply wf_time_step; assumption|]. auto.
Qed.

End Kickoff.

(** * [take_action] *)

Lemma same_but_action_destination map_data s s' x :
  same_but_action s s' -> destination map_data s x ->
  destination map_data s' x.
Proof.
  intros H. unfold destination. rewrite (same_but_action_cur s s' _ H). auto.
Qed.

Lemma is_agent_win_returns options map_data s i :
  i < agent_count s -> exists b, is_agent_win options map_data s i = Ok b.
Proof.
  intros Hi. unfold is_agent_win.
  rewrite get_agent_pos_ok, get_agent_ball_ok by assumption. simpl.
  destruct (negb _); eauto.
Qed.

Lemma any_agent_win_returns options map_data s l :
  Forall (fun i => i < agent_count s) l ->
  exists b, any_agent_win options map_data s l = Ok b.
Proof.
  induction 1 as [|i l Hi Hl IH]; simpl; [eauto|].
  destruct (is_agent_win_returns options map_data s i Hi) as [b ->]. simpl.
  destruct b; [eauto | exact IH].
Qed.

Lemma is_team_win_returns options map_data s t :
  agent_count s = get_agent_size options ->
  exists b, is_team_win options map_data s t = Ok b.
Proof.
  intros Hc. unfold is_team_win. apply any_agent_win_returns.
  apply Forall_forall. intros i Hi. apply in_map_iff in Hi.
  destruct Hi as [k [<- Hk]]. apply in_seq in Hk.
  rewrite Hc. apply (roster_member options t k). apply roster_In. lia.
Qed.

Lemma get_reward_returns options map_data s :
  agent_count s = get_agent_size options ->
  exists r, _get_reward options map_data s = Ok r /\
            (r = 1 \/ r = -1 \/ r = 0)%Z.
Proof.
  intros Hc. unfold _get_reward.
  destruct (is_team_win_returns options map_data s PLAYER Hc) as [b ->].
  simpl. destruct b; [eauto|].
  destruct (is_team_win_returns options map_data s COMPUTER Hc) as [b ->].
  simpl. destruct b; eauto.
Qed.

Lemma wf_increase_time_step options s :
  wf_state options s -> wf_state options (increase_time_step s).
Proof. intros H. apply wf_time_step. assumption. Qed.

(** [take_action] on a well-formed state, for an argument of the right
    shape. [G] is what is known of the state when the opponent policy
    raises or lacks fuel. *)
Lemma take_action_wp options map_data fuel action l w
    (G : SoccerState -> Prop) :
  wf_state options (st w) ->
  _get_wrapped_action options action = Ok l ->
  (forall c w1, c < team_size options -> same_but_action (st w) (st w1) ->
     wp (_get_computer_action options map_data c) w1
       (fun _ w' => st w' = st w1)
       (fun w' => G (st w')) (fun w' => G (st w'))) ->
  wp (take_action options map_data fuel action) w
    (fun obs w' =>
       wf_state options (st w') /\
       time_step (st w') = (time_step (st w) + 1)%Z /\
       agent_count (st w') = agent_count (st w) /\
       exists r, _get_reward options map_data (st w') = Ok r /\
         obs = mkObservation None (Some l) r (Some (st w')))
    (fun w' => G (st w'))
    (fun w' => G (st w') \/ fuel < agent_count (st w)).
Proof.
  intros Hwf Hwrap HC. unfold take_action.
  apply wp_bind. eapply wp_lift; [exact Hwrap|].
  apply wp_bind.
  eapply wp_conseq;
    [apply (get_intended_pos_wp options map_data (st w) G HC Hwf l w
              (same_but_action_refl (st w))
              (wrapped_action_length options action l Hwrap))
    | | auto | auto].
  intros ip w1 [Sa [Hk Hd]].
  pose proof (wf_same_but_action options _ _ Sa Hwf) as Hwf1.
  assert (C1 : agent_count (st w1) = agent_count (st w))
    by (destruct Sa as [_ [C _]]; exact C).
  apply wp_bind.
  eapply wp_conseq;
    [apply (update_agent_pos_wp options map_data fuel ip w1 Hwf1)
    | | unfold nowhere; tauto | ].
  - rewrite C1. exact Hk.
  - apply Forall_forall. intros x Hx. rewrite Forall_forall in Hd.
    apply (same_but_action_destination map_data (st w)); auto.
  - intros u w2 [Hwf2 [T2 [C2 _]]].
    apply wp_bind. eapply wp_write; [reflexivity|].
    pose proof (wf_increase_time_step options _ Hwf2) as Hwf3.
    destruct (get_reward_returns options map_data
                (increase_time_step (st w2)) (wf_count _ _ Hwf3))
      as [r [Er _]].
    apply wp_bind. eapply wp_read; [exact Er|].
    apply wp_bind. eapply wp_read; [reflexivity|]. apply wp_ret. simpl.
    split; [assumption|]. split.
    + destruct Sa as [T1 _]. rewrite T2, T1. reflexivity.
    + split; [unfold agent_count in *; simpl; congruence|]. eauto.
  - simpl. intros w' H. right. lia.
Qed.

Lemma wrapped_action_outcome options action :
  (exists l, _get_wrapped_action options action = Ok l) \/
  (exists e, _get_wrapped_action options action = Raise e).
Proof.
  unfold _get_wrapped_action. destruct action as [a|l].
  - destruct (team_size options <=? 1); destruct (negb _); eauto.
  - destruct (negb _); eauto.
Qed.

(** Whatever [take_action] does short of running out of fuel, it leaves a
    well-formed state behind. *)
Lemma take_action_keeps_wf options map_data fuel action w r w' :
  wf_state options (st w) ->
  take_action options map_data fuel action w = (r, w') ->
  r <> OutOfFuel ->
  wf_state options (st w').
Proof.
  intros Hwf E Hr.
  destruct (wrapped_action_outcome options action) as [[l Hl]|[e He]].
  - pose proof (take_action_wp options map_data fuel action l w
                  (wf_state options) Hwf Hl) as H.
    unfold wp in H. rewrite E in H.
    destruct r as [obs|e|]; [| |congruence].
    + apply H. intros c w1 Hc Sa.
      eapply wp_conseq;
        [apply wp_readonly, readonly_computer_action | | |]; simpl;
        intros; try assumption;
        match goal with
        | Hs : st _ = st w1 |- _ =>
            rewrite Hs; apply (wf_same_but_action options (st w)); assumption
        end.
    + apply H. intros c w1 Hc Sa.
      eapply wp_conseq;
        [apply wp_readonly, readonly_computer_action | | |]; simpl;
        intros; try assumption;
        match goal with
        | Hs : st _ = st w1 |- _ =>
            rewrite Hs; apply (wf_same_but_action options (st w)); assumption
        end.
  - unfold take_action, bind, lift in E. rewrite He in E.
    inversion E; subst. assumption.
Qed.

(** * The reachable states *)

Lemma reachable_wf options map_data s :
  reachable options map_data s -> wf_state options s.
Proof.
  induction 1 as [fuel w obs w' E | fuel action w r w' _ IH E Hr].
  - pose proof (reset_wp options map_data fuel w) as H.
    unfold wp in H. rewrite E in H. apply H.
  - apply (take_action_keeps_wf options map_data fuel action w r w');
      assumption.
Qed.

Lemma count_none {A} (f : A -> bool) (l : list A) d :
  (forall i, i < length l -> f (nth i l d) = false) ->
  length (filter f l) = 0.
Proof.
  induction l as [|a l IH]; simpl; intros H; [reflexivity|].
  rewrite (H 0 ltac:(lia)). apply IH. intros i Hi.
  apply (H (S i)). lia.
Qed.

Lemma count_one {A} (f : A -> bool) (l : list A) d : forall h,
  h < length l ->
  (forall i, i < length l -> f (nth i l d) = (i =? h)) ->
  length (filter f l) = 1.
Proof.
  induction l as [|a l IH]; simpl; intros h Hh H; [lia|].
  pose proof (H 0 ltac:(lia)) as H0. simpl in H0. rewrite H0.
  destruct h as [|h]; simpl.
  - f_equal. apply (count_none f l d). intros i Hi.
    apply (H (S i)). lia.
  - apply (IH h); [lia|]. intros i Hi. apply (H (S i)). lia.
Qed.

Lemma holder_ball_count s h : holder_at s h -> ball_count s = 1.
Proof.
  intros [Hh Hb]. unfold ball_count.
  apply (count_one ball (agent_list s) blank_agent h Hh). exact Hb.
Qed.

Lemma kickoff_reachable : reachable duel corridor (st kickoff).
Proof.
  apply (reach_reset duel corridor 3 dawn
           (mkObservation (Some (st kickoff)) None 0 None) kickoff).
  vm_compute. reflexivity.
Qed.

(** C1. In every reachable state, right after [reset] and after every
    [take_action], there are [2 * team_size] agents and exactly one of them
    has the ball. *)
Theorem ball_possession_unique options map_data s :
  reachable options map_data s ->
  agent_count s = 2 * team_size options /\
  ball_count s = 1 /\
  exists h, h < agent_count s /\ ball (agent s h) = true /\
    forall i, i < agent_count s -> ball (agent s i) = true -> i = h.
Proof.
  intros R. destruct (reachable_wf options map_data s R) as [Wc [h Wh] _ _ _].
  split; [exact Wc|]. split; [apply (holder_ball_count s h Wh)|].
  destruct Wh as [Hh Hb]. exists h. split; [assumption|].
  split; [rewrite Hb, Nat.eqb_refl by assumption; reflexivity|].
  intros i Hi Bi. rewrite Hb in Bi by assumption.
  apply Nat.eqb_eq. assumption.
Qed.

Lemma ball_possession_unique_witness :
  agent_count (st kickoff) = 2 * team_size duel /\
  ball_count (st kickoff) = 1 /\
  exists h, h < agent_count (st kickoff) /\
    ball (agent (st kickoff) h) = true /\
    forall i, i < agent_count (st kickoff) ->
              ball (agent (st kickoff) i) = true -> i = h.
Proof.
  apply (ball_possession_unique duel corridor (st kickoff)).
  apply kickoff_reachable.
Defined.

(** C2. In every reachable state, right after [reset] and after every
    [take_action], every agent stands on a tile and no two distinct agents
    stand on the same tile. *)
Theorem positions_distinct options map_data s :
  reachable options map_data s ->
  placed s /\ distinct_tiles s.
Proof.
  intros R. destruct (reachable_wf options map_data s R) as [_ _ Wp Wd _].
  split; assumption.
Qed.

Lemma positions_distinct_witness :
  placed (st kickoff) /\ distinct_tiles (st kickoff).
Proof.
  apply (positions_distinct duel corridor (st kickoff)).
  apply kickoff_reachable.
Defined.

(** * The opponent policy returns *)

Lemma mapO_distances goals tgt :
  exists ds,
    mapO (fun goal_pos => get_pos_distance (Some goal_pos) (Some tgt)) goals
    = Ok ds /\ length ds = length goals.
Proof.
  induction goals as [|g goals [ds [E L]]]; cbn [mapO]; [eauto|].
  rewrite E. simpl. eexists; split; [reflexivity|]. simpl. lia.
Qed.

Lemma arg_best_bound lt l : forall best_i best i,
  best_i < i -> arg_best lt best_i best i l < i + length l.
Proof.
  induction l as [|d l IH]; intros bi b i H; simpl; [lia|].
  destruct (lt d b).
  - specialize (IH i d (S i) ltac:(lia)). lia.
  - specialize (IH bi b (S i) ltac:(lia)). lia.
Qed.

Lemma target_goal_returns (arg : list Z -> outcome nat) goals tgt :
  (arg = argmin \/ arg = argmax) -> goals <> [] ->
  exists ds k g,
    mapO (fun goal_pos => get_pos_distance (Some goal_pos) (Some tgt)) goals
    = Ok ds /\ arg ds = Ok k /\ py_nth goals k = Ok g.
Proof.
  intros Harg Hg. destruct (mapO_distances goals tgt) as [ds [E L]].
  destruct ds as [|d ds]; [destruct goals; simpl in L; congruence|].
  assert (Hk : exists k, arg (d :: ds) = Ok k /\ k < length goals).
  { destruct Harg as [-> | ->]; simpl; eexists; (split; [reflexivity|]);
      rewrite <- L; simpl;
      match goal with
      | |- arg_best ?lt 0 d 1 ds < _ =>
          pose proof (arg_best_bound lt ds 0 d 1 ltac:(lia))
      end; lia. }
  destruct Hk as [k [Ek Hk]].
  destruct (nth_error goals k) as [g|] eqn:En.
  - exists (d :: ds), k, g. unfold py_nth. rewrite En. auto.
  - apply nth_error_None in En. lia.
Qed.

Lemma strategic_action_returns map_data src tgt m w :
  wp (_get_strategic_action map_data (Some src) (Some tgt) m) w
    (fun _ w' => st w' = st w) nowhere nowhere.
Proof.
  unfold _get_strategic_action.
  apply wp_bind. eapply wp_lift; [reflexivity|].
  apply wp_bind. apply wp_choice_draw.
  apply wp_bind. apply wp_sample; [simpl; lia|]. intros l w2 T L.
  destruct (strategic_scan_returns map_data src tgt m l
              (nth (tape (rnd w) (cursor (rnd w)) mod length actions)
                 actions MOVE_RIGHT)
              ((fst tgt - fst src) * (fst tgt - fst src)
               + (snd tgt - snd src) * (snd tgt - snd src))%Z) as [a E].
  eapply wp_lift; [exact E|]. exact T.
Qed.

Section Policy.

Variable options : SoccerEnvironmentOptions.
Variable map_data : SoccerMapData.
Variable s : SoccerState.
Hypothesis wf : wf_state options s.

Lemma wf_team_size : 1 <= team_size options.
Proof.
  destruct wf as [Wc [h [Hh _]] _ _ _]. unfold get_agent_size in Wc. lia.
Qed.

Lemma wf_cur i : i < agent_count s -> exists p, cur s i = Some p.
Proof.
  intros Hi. destruct wf as [_ _ Wp _ _]. specialize (Wp i Hi).
  destruct (cur s i); [eauto | congruence].
Qed.

Lemma player_in_range k :
  k < team_size options -> get_agent_index options PLAYER k < agent_count s.
Proof.
  intros Hk. rewrite (wf_count _ _ wf).
  apply (roster_member options PLAYER k). apply roster_In. assumption.
Qed.

Lemma computer_in_range k :
  k < team_size options -> get_agent_index options COMPUTER k < agent_count s.
Proof.
  intros Hk. rewrite (wf_count _ _ wf).
  apply (roster_member options COMPUTER k). apply roster_In. assumption.
Qed.

Lemma nearest_scan computer_pos l :
  Forall (fun k => k < team_size options) l ->
  forall acc,
  (acc = (None, None) /\ l <> []) \/
  (exists j d, acc = (Some j, Some d) /\ j < agent_count s) ->
  exists j d,
    foldO
      (fun (acc : option nat * option Z) player_agent_index =>
         obind (get_agent_pos s
                  (get_agent_index options PLAYER player_agent_index))
           (fun player_pos =>
         obind (get_pos_distance (Some computer_pos) player_pos) (fun dist =>
         match snd acc with
         | None =>
             Ok (Some (get_agent_index options PLAYER player_agent_index),
                 Some dist)
         | Some nearest_dist =>
             if (dist <? nearest_dist)%Z
             then Ok (Some (get_agent_index options PLAYER player_agent_index),
                      Some dist)
             else Ok acc
         end)))
      l acc = Ok (Some j, Some d) /\ j < agent_count s.
Proof.
  induction 1 as [|k l Hk Hl IH]; intros acc Hacc; cbn [foldO].
  - destruct Hacc as [[_ H]|[j [d [-> Hj]]]]; [congruence | eauto].
  - 
    rewrite get_agent_pos_ok by (apply player_in_range; assumption).
    destruct (wf_cur _ (player_in_range k Hk)) as [pp ->].
    cbn [obind get_pos_distance].
    assert (Hnew : forall d : Z,
              exists (j' : nat) (d' : Z),
                (Some (get_agent_index options PLAYER k), Some d)
                = (Some j', Some d') /\ j' < agent_count s).
    { intros d. eexists; eexists; split; [reflexivity|].
      apply player_in_range; assumption. }
    destruct Hacc as [[-> _]|[j [d [-> Hj]]]]; cbn [snd].
    + apply IH. right. apply Hnew.
    + destruct (_ <? d)%Z; apply IH; right; [apply Hnew | eauto].
Qed.

Lemma nearest_player_returns c :
  c < team_size options ->
  exists j, _get_nearest_player_index options s c = Ok (Some j) /\
            j < agent_count s.
Proof.
  intros Hc. unfold _get_nearest_player_index.
  rewrite get_agent_pos_ok by (apply computer_in_range; assumption).
  destruct (wf_cur _ (computer_in_range c Hc)) as [cp ->]. cbn [obind].
  cbv zeta.
  destruct (nearest_scan cp (seq 0 (team_size options))) with
    (acc := (@None nat, @None Z)) as [j [d [E Hj]]].
  - apply Forall_forall. intros k Hk. apply in_seq in Hk. lia.
  - left. split; [reflexivity|]. pose proof wf_team_size.
    destruct (team_size options); [lia | discriminate].
  - rewrite E. simpl. eauto.
Qed.

Lemma defensive_agent_returns c :
  c < team_size options ->
  exists j, _get_defensive_agent_index options s c = Ok (Some j) /\
            j < agent_count s.
Proof.
  intros Hc. unfold _get_defensive_agent_index.
  destruct wf as [Wc [h Wh] _ _ _].
  rewrite (get_ball_possession_holder options s h Wc Wh). cbn [obind].
  cbn [status_team_name status_agent_index].
  destruct (get_team_name options h).
  - exists h. split; [reflexivity | apply Wh].
  - apply nearest_player_returns. assumption.
Qed.

Hypothesis goals_present : map_has_goals map_data.

(** In a well-formed state, on a map with goals, the opponent policy
    returns an action and leaves the state alone. *)
Lemma computer_action_returns c w :
  st w = s -> c < team_size options ->
  wp (_get_computer_action options map_data c) w
    (fun _ w' => st w' = st w) nowhere nowhere.
Proof.
  intros Es Hc. unfold _get_computer_action.
  pose proof (computer_in_range c Hc) as Hi.
  destruct (nearest_player_returns c Hc) as [np [Enp Hnp]].
  destruct (defensive_agent_returns c Hc) as [dt [Edt Hdt]].
  destruct (wf_cur _ Hnp) as [npp Enpp].
  destruct (wf_cur _ Hdt) as [dtp Edtp].
  destruct (wf_cur _ Hi) as [cp Ecp].
  apply wp_bind.
  eapply wp_read; [rewrite Es; apply get_agent_ball_ok; assumption|].
  apply wp_bind.
  eapply wp_read; [rewrite Es; apply get_agent_mode_ok; assumption|].
  apply wp_bind. eapply wp_read; [rewrite Es; exact Enp|].
  apply wp_bind.
  eapply wp_read;
    [rewrite Es; simpl; rewrite get_agent_pos_ok by assumption;
     rewrite Enpp; reflexivity|].
  apply wp_bind. eapply wp_read; [rewrite Es; exact Edt|].
  apply wp_bind.
  eapply wp_read;
    [rewrite Es; simpl; rewrite get_agent_pos_ok by assumption;
     rewrite Edtp; reflexivity|].
  apply wp_bind.
  eapply wp_read;
    [rewrite Es; rewrite get_agent_pos_ok by assumption;
     rewrite Ecp; reflexivity|].
  apply wp_bind.
  assert (Hm : mode (agent s (get_agent_index options COMPUTER c)) <> None).
  { apply (wf_modes _ _ wf); [|assumption].
    unfold get_agent_index; simpl. lia. }
  assert (Htarget :
    wp (match mode (agent s (get_agent_index options COMPUTER c)) with
        | Some DEFENSIVE =>
            if ball (agent s (get_agent_index options COMPUTER c))
            then ret (Some npp, AVOID)
            else
              let goals := goals map_data PLAYER in
              bind (lift (mapO (fun goal_pos =>
                                  get_pos_distance (Some goal_pos) (Some dtp))
                            goals)) (fun distances =>
              bind (lift (argmin distances)) (fun min_distance_index =>
              bind (lift (py_nth goals min_distance_index)) (fun target_pos =>
              ret (Some target_pos, APPROACH))))
        | Some OFFENSIVE =>
            if ball (agent s (get_agent_index options COMPUTER c)) then
              let goals := goals map_data COMPUTER in
              bind (lift (mapO (fun goal_pos =>
                                  get_pos_distance (Some goal_pos) (Some npp))
                            goals)) (fun distances =>
              bind (lift (argmax distances)) (fun min_distance_index =>
              bind (lift (py_nth goals min_distance_index)) (fun target_pos =>
              ret (Some target_pos, APPROACH))))
            else ret (Some dtp, INTERCEPT)
        | None => raise KeyError
        end) w
      (fun target w' => st w' = st w /\ exists tp, fst target = Some tp)
      nowhere nowhere).
  { destruct (mode (agent s (get_agent_index options COMPUTER c))) as [[|]|];
      [| |congruence];
      destruct (ball (agent s (get_agent_index options COMPUTER c)));
      try (apply wp_ret; simpl; eauto).
    - destruct (target_goal_returns argmin (goals map_data PLAYER) dtp
                  (or_introl eq_refl) (goals_present PLAYER))
        as [ds [k [g [E1 [E2 E3]]]]].
      cbv zeta. apply wp_bind. eapply wp_lift; [exact E1|].
      apply wp_bind. eapply wp_lift; [exact E2|].
      apply wp_bind. eapply wp_lift; [exact E3|].
      apply wp_ret. simpl. eauto.
    - destruct (target_goal_returns argmax (goals map_data COMPUTER) npp
                  (or_intror eq_refl) (goals_present COMPUTER))
        as [ds [k [g [E1 [E2 E3]]]]].
      cbv zeta. apply wp_bind. eapply wp_lift; [exact E1|].
      apply wp_bind. eapply wp_lift; [exact E2|].
      apply wp_bind. eapply wp_lift; [exact E3|].
      apply wp_ret. simpl. eauto. }
  eapply wp_conseq; [exact Htarget | | auto | auto].
  intros [tgt sm] w1 [E1 [tp Etp]]. simpl in Etp. subst tgt. simpl.
  eapply wp_conseq;
    [apply strategic_action_returns | | auto | auto].
  simpl. intros a w2 E2. congruence.
Qed.

End Policy.

(** * Stepping past the end of an episode *)

Lemma overtime_state_wf : wf_state duel overtime_state.
Proof. concrete_wf 0. Qed.

Lemma scored_state_wf : wf_state duel scored_state.
Proof. concrete_wf 0. Qed.

Lemma queue_state_wf : wf_state doubles queue_state.
Proof. concrete_wf 0. Qed.

Lemma corridor_has_goals : map_has_goals corridor.
Proof. intros []; discriminate. Qed.

(** On a map with goals, [take_action] on a well-formed state, with an
    argument of the right shape and fuel for the overlap loop, returns. *)
Lemma take_action_returns options map_data fuel action l w :
  wf_state options (st w) -> map_has_goals map_data ->
  _get_wrapped_action options action = Ok l ->
  agent_count (st w) <= fuel ->
  wp (take_action options map_data fuel action) w
    (fun obs w' =>
       wf_state options (st w') /\
       time_step (st w') = (time_step (st w) + 1)%Z /\
       agent_count (st w') = agent_count (st w) /\
       exists r, _get_reward options map_data (st w') = Ok r /\
         obs = mkObservation None (Some l) r (Some (st w')))
    nowhere nowhere.
Proof.
  intros Hwf Hg Hl Hfuel.
  eapply wp_conseq;
    [apply (take_action_wp options map_data fuel action l w
              (fun _ => False) Hwf Hl)
    | auto | auto | ].
  - intros c w1 Hc Sa.
    eapply wp_conseq;
      [apply (computer_action_returns options map_data (st w1)
                (wf_same_but_action options _ _ Sa Hwf) Hg c w1 eq_refl Hc)
      | auto | auto | auto].
  - simpl. intros w' [H|H]; [contradiction | unfold nowhere; lia].
Qed.

Lemma play_returns options map_data fuel action l n : forall w,
  wf_state options (st w) -> map_has_goals map_data ->
  _get_wrapped_action options action = Ok l ->
  agent_count (st w) <= fuel ->
  wp (play options map_data fuel action n) w
    (fun _ w' =>
       wf_state options (st w') /\
       time_step (st w') = (time_step (st w) + Z.of_nat n)%Z)
    nowhere nowhere.
Proof.
  induction n as [|n IH]; intros w Hwf Hg Hl Hfuel; simpl play.
  - apply wp_ret. split; [assumption | simpl; lia].
  - apply wp_bind.
    eapply wp_conseq;
      [apply (take_action_returns options map_data fuel action l w);
       assumption | | auto | auto].
    intros obs w1 [Hwf1 [T1 [C1 _]]].
    eapply wp_conseq; [apply IH; try assumption; lia | | auto | auto].
    simpl. intros u w2 [Hwf2 T2]. split; [assumption|]. lia.
Qed.

(** * Witnesses on the queue of four *)

Lemma queue_dict : agent_dict queue_state queue_intended_pos.
Proof.
  split; simpl.
  - repeat constructor; simpl; intuition lia.
  - repeat constructor; unfold agent_count; simpl; lia.
Qed.

(** The bound is reached: the queue of four needs all four passes. *)
Lemma queue_needs_four_passes :
  fst (resolve_loop row 3 queue_intended_pos false
         (mkWorld queue_state (constant_rng 0))) = OutOfFuel /\
  fst (resolve_loop row 4 queue_intended_pos false
         (mkWorld queue_state (constant_rng 0)))
  = Ok [(0, Some (0, 0)%Z); (1, Some (1, 0)%Z);
        (2, Some (2, 0)%Z); (3, Some (3, 0)%Z)].
Proof. split; vm_compute; reflexivity. Qed.

Lemma queue_holder : holder_at queue_state 0.
Proof.
  split; [unfold agent_count; simpl; lia|].
  intros i Hi. unfold agent_count in Hi; simpl in Hi.
  do 4 (try (destruct i as [|i]; [reflexivity|])). lia.
Qed.

(** * The overlap loop, pass by pass *)

Lemma ball_scan_none s l :
  no_holder s -> Forall (fun i => i < agent_count s) l ->
  ball_scan s l = Ok (None, l).
Proof.
  intros Hn Hl. unfold ball_scan.
  assert (G : forall a b,
    foldO
      (fun (acc : option nat * list nat) agent_index =>
         obind (get_agent_ball s agent_index) (fun has_ball =>
         if has_ball then Ok (Some agent_index, snd acc)
         else Ok (fst acc, snd acc ++ [agent_index])))
      l (a, b)
    = Ok (a, b ++ l)).
  { induction Hl as [|i l Hi Hl IH]; intros a b; simpl.
    - rewrite app_nil_r. reflexivity.
    - rewrite get_agent_ball_ok by assumption. simpl. rewrite (Hn i Hi).
      simpl. rewrite IH, <- app_assoc. reflexivity. }
  apply G.
Qed.

(** The switch of the ball from its holder to another claimant of its
    group. *)
Lemma world_after_switch_spec w h l :
  holder_at (st w) h -> NoDup l ->
  Forall (fun i => i < agent_count (st w)) l -> 1 < length l -> In h l ->
  exists s',
    switch_ball (st w) h (switch_partner w h l) = Ok s' /\
    world_after_switch w h l = mkWorld s' (rnd (after_draw w)) /\
    same_but_ball (st w) s' /\
    holder_at s' (switch_partner w h l) /\
    In (switch_partner w h l) l /\ switch_partner w h l <> h.
Proof.
  intros Hh Hn Hr Hl Hin.
  pose proof (other_claimants_nonempty h l Hn Hl Hin) as Hne.
  assert (Hc : In (switch_partner w h l) l /\ switch_partner w h l <> h).
  { apply other_claimants_In. unfold switch_partner.
    apply nth_In_mod. exact Hne. }
  rewrite Forall_forall in Hr.
  destruct (switch_ball_holder (st w) h (switch_partner w h l) Hh
              (Hr _ (proj1 Hc)) (proj2 Hc)) as [s' [Es [Sb Hh']]].
  exists s'. unfold world_after_switch. rewrite Es. tauto.
Qed.

Lemma choice_run {A} (d : A) (l : list A) w :
  choice (d :: l) w
  = (Ok (nth (tape (rnd w) (cursor (rnd w)) mod length (d :: l)) (d :: l) d),
     after_draw w).
Proof. reflexivity. Qed.

(** [_update_ball_possession] on a group of two or more distinct agents,
    run. *)
Lemma update_ball_possession_run l w oh :
  holds (st w) oh -> NoDup l ->
  Forall (fun i => i < agent_count (st w)) l -> 1 < length l ->
  _update_ball_possession l w =
  match oh with
  | Some h =>
      if existsb (Nat.eqb h) l then (Ok true, world_after_switch w h l)
      else (Ok false, w)
  | None => (Ok false, w)
  end.
Proof.
  intros Hh Hn Hr Hl. unfold _update_ball_possession.
  unfold bind at 1. unfold read at 1.
  destruct oh as [h|]; simpl in Hh.
  - rewrite (ball_scan_holder (st w) h l Hh Hr). cbn [fst snd].
    destruct (existsb (Nat.eqb h) l) eqn:E; [|reflexivity].
    apply existsb_eqb_In in E.
    destruct (world_after_switch_spec w h l Hh Hn Hr Hl E)
      as [s' [Es [Ew _]]].
    rewrite Ew. unfold switch_partner in Es.
    pose proof (other_claimants_nonempty h l Hn Hl E) as Hne.
    destruct (other_claimants h l) as [|d o] eqn:Eo; [congruence|].
    unfold bind at 1. rewrite choice_run.
    rewrite (nth_indep (d :: o) d 0)
      by (apply Nat.mod_upper_bound; discriminate).
    unfold bind, write, ret. cbn [st rnd after_draw]. rewrite Es.
    reflexivity.
  - rewrite (ball_scan_none (st w) l Hh Hr). reflexivity.
Qed.

Lemma holder_group_cons t l g h :
  holder_group ((t, l) :: g) h =
  if (1 <? length l) && existsb (Nat.eqb h) l then Some l
  else holder_group g h.
Proof.
  unfold holder_group. simpl.
  destruct ((1 <? length l) && existsb (Nat.eqb h) l); reflexivity.
Qed.

(** The body of the loop over the groups, run on one group. *)
Lemma resolve_group_run r t l w oh :
  holds (st w) oh ->
  group_ok (st w) (map fst (res_intended_pos r)) (t, l) ->
  NoDup (map fst (res_intended_pos r)) ->
  resolve_group r (t, l) w =
  (Ok (mkResolution
         (if 1 <? length l
          then map (roll_back_group (st w) l) (res_intended_pos r)
          else res_intended_pos r)
         (fst (round_outcome [(t, l)] oh (res_has_switched r) w))
         (res_detecting_overlap r || (1 <? length l))),
   snd (round_outcome [(t, l)] oh (res_has_switched r) w)).
Proof.
  intros Hh Hg Hn. pose proof (group_ok_range _ _ _ _ Hg) as Hr.
  destruct Hg as [Hnl Hk]. simpl in Hnl, Hk.
  destruct r as [ip hs det]. cbn [res_intended_pos res_has_switched
                                  res_detecting_overlap] in *.
  unfold resolve_group. cbn [snd res_intended_pos res_has_switched
                             res_detecting_overlap].
  destruct (1 <? length l) eqn:El.
  - pose proof (proj1 (Nat.ltb_lt _ _) El) as El'. rewrite orb_true_r.
    destruct hs; cbn [negb].
    + unfold bind at 1. unfold ret at 1.
      unfold bind at 1. rewrite roll_back_fold by assumption.
      destruct oh; reflexivity.
    + unfold bind at 1. unfold bind at 1.
      rewrite (update_ball_possession_run l w oh Hh Hnl Hr El').
      destruct oh as [h|]; simpl in Hh.
      * unfold round_outcome. rewrite holder_group_cons, El. cbn [andb].
        destruct (existsb (Nat.eqb h) l) eqn:E.
        -- apply existsb_eqb_In in E.
           destruct (world_after_switch_spec w h l Hh Hnl Hr El' E)
             as [s' [Es [Ew [Sb _]]]].
           rewrite Ew. unfold ret at 1. unfold bind at 1.
           rewrite roll_back_fold.
           ++ cbn [st fst snd].
              rewrite (roll_back_group_same (st w) s' l ip Sb).
              reflexivity.
           ++ cbn [st]. destruct Sb as [_ [C _]]. rewrite C. assumption.
           ++ assumption.
        -- unfold ret at 1. unfold bind at 1.
           rewrite roll_back_fold by assumption.
           unfold holder_group. reflexivity.
      * unfold ret at 1. unfold bind at 1.
        rewrite roll_back_fold by assumption. reflexivity.
  - rewrite orb_false_r. unfold ret.
    destruct oh as [h|]; [destruct hs|]; unfold round_outcome;
      try rewrite holder_group_cons, El; reflexivity.
Qed.

Lemma holder_group_some g h l :
  holder_group g h = Some l ->
  (exists t, In (t, l) g) /\ 1 < length l /\ In h l.
Proof.
  unfold holder_group.
  destruct (find _ g) as [[t l']|] eqn:E; simpl; [|discriminate].
  intros H; inversion H; subst l'. apply find_some in E.
  destruct E as [Hin Hc]. simpl in Hc. apply andb_true_iff in Hc.
  destruct Hc as [H1 H2]. apply Nat.ltb_lt in H1.
  apply existsb_eqb_In in H2. eauto.
Qed.

Lemma holder_group_none g h :
  overlap_detected g = false -> holder_group g h = None.
Proof.
  intros H. destruct (holder_group g h) as [l|] eqn:E; [|reflexivity].
  destruct (holder_group_some g h l E) as [[t Hin] [Hl _]].
  unfold overlap_detected in H.
  assert (X : existsb (fun item : Pos * list nat => 1 <? length (snd item)) g
              = true).
  { apply existsb_exists. exists (t, l). split; [exact Hin|].
    apply Nat.ltb_lt. exact Hl. }
  congruence.
Qed.

Lemma round_outcome_cons t l g oh hs w :
  round_outcome g (round_holder [(t, l)] oh hs w)
    (fst (round_outcome [(t, l)] oh hs w))
    (snd (round_outcome [(t, l)] oh hs w))
  = round_outcome ((t, l) :: g) oh hs w.
Proof.
  destruct oh as [h|], hs; try reflexivity.
  unfold round_outcome, round_holder. rewrite !holder_group_cons.
  destruct ((1 <? length l) && existsb (Nat.eqb h) l); reflexivity.
Qed.

Lemma round_holder_cons t l g oh hs w :
  round_holder g (round_holder [(t, l)] oh hs w)
    (fst (round_outcome [(t, l)] oh hs w))
    (snd (round_outcome [(t, l)] oh hs w))
  = round_holder ((t, l) :: g) oh hs w.
Proof.
  destruct oh as [h|], hs; try reflexivity.
  unfold round_outcome, round_holder. rewrite !holder_group_cons.
  destruct ((1 <? length l) && existsb (Nat.eqb h) l); reflexivity.
Qed.

(** After the loop over the groups the ball is where [round_holder] says,
    and nothing but ball flags has changed. *)
Lemma round_outcome_holds keys g oh hs w :
  holds (st w) oh -> Forall (group_ok (st w) keys) g ->
  holds (st (snd (round_outcome g oh hs w))) (round_holder g oh hs w) /\
  same_but_ball (st w) (st (snd (round_outcome g oh hs w))).
Proof.
  intros Hh Hg. unfold round_outcome, round_holder.
  destruct oh as [h|]; [|split; [exact Hh | apply same_but_ball_refl]].
  destruct hs; [split; [exact Hh | apply same_but_ball_refl]|].
  destruct (holder_group g h) as [l|] eqn:E;
    [|split; [exact Hh | apply same_but_ball_refl]].
  destruct (holder_group_some g h l E) as [[t Hin] [Hl Hhl]].
  rewrite Forall_forall in Hg. pose proof (Hg _ Hin) as Gk.
  pose proof (group_ok_range _ _ _ _ Gk) as Hr.
  destruct Gk as [Hnl _]. simpl in Hnl.
  destruct (world_after_switch_spec w h l Hh Hnl Hr Hl Hhl)
    as [s' [_ [Ew [Sb [Hh' _]]]]].
  simpl. rewrite Ew. simpl. auto.
Qed.

Lemma group_ok_same s s' keys item :
  same_but_ball s s' -> group_ok s keys item -> group_ok s' keys item.
Proof.
  intros [_ [C _]] [A B]. split; [exact A|]. rewrite C. exact B.
Qed.

(** The loop over the groups, run. [s0] is the state the positions are
    read from; the ball flags may have changed since. *)
Lemma resolve_groups_run s0 keys : forall g r w oh,
  holds (st w) oh ->
  same_but_ball s0 (st w) ->
  Forall (group_ok s0 keys) g ->
  map fst (res_intended_pos r) = keys -> NoDup keys ->
  foldM resolve_group g r w =
  (Ok (mkResolution (map (rolled_back s0 g) (res_intended_pos r))
         (fst (round_outcome g oh (res_has_switched r) w))
         (res_detecting_overlap r || overlap_detected g)),
   snd (round_outcome g oh (res_has_switched r) w)).
Proof.
  induction g as [|[t l] g IH]; intros r w oh Hh Sb Hg Hk Hn.
  - simpl. unfold ret. destruct r as [ip hs det]. simpl.
    rewrite orb_false_r.
    assert (Eid : map (rolled_back s0 []) ip = ip).
    { transitivity (map (fun x : nat * option Pos => x) ip); [|apply map_id].
      apply map_ext. intros x. reflexivity. }
    rewrite Eid. destruct oh as [h|]; [destruct hs|]; reflexivity.
  - inversion Hg as [|? ? Hg1 Hg']; subst.
    assert (Hg1' : group_ok (st w) (map fst (res_intended_pos r)) (t, l))
      by (apply (group_ok_same s0); assumption).
    cbn [foldM]. unfold bind at 1.
    rewrite (resolve_group_run r t l w oh Hh Hg1' Hn).
    set (w1 := snd (round_outcome [(t, l)] oh (res_has_switched r) w)).
    set (hs1 := fst (round_outcome [(t, l)] oh (res_has_switched r) w)).
    set (oh1 := round_holder [(t, l)] oh (res_has_switched r) w).
    destruct (round_outcome_holds (map fst (res_intended_pos r)) [(t, l)]
                oh (res_has_switched r) w Hh
                (Forall_cons _ Hg1' (Forall_nil _))) as [Hh1 Sb1].
    fold w1 in Hh1, Sb1. fold oh1 in Hh1.
    assert (Sb01 : same_but_ball s0 (st w1))
      by (apply (same_but_ball_trans s0 (st w) (st w1)); assumption).
    rewrite (IH _ w1 oh1 Hh1 Sb01 Hg').
    + cbn [res_intended_pos res_has_switched res_detecting_overlap].
      unfold hs1, w1, oh1. rewrite round_outcome_cons.
      assert (E1 : map (rolled_back s0 g)
                     (if 1 <? length l
                      then map (roll_back_group (st w) l) (res_intended_pos r)
                      else res_intended_pos r)
                   = map (rolled_back s0 ((t, l) :: g)) (res_intended_pos r)).
      { transitivity
          (map (rolled_back s0 g)
             (map (fun x => if 1 <? length l
                            then roll_back_group s0 l x else x)
                (res_intended_pos r))).
        { f_equal. destruct (1 <? length l).
          - apply (roll_back_group_same s0 (st w) l). assumption.
          - symmetry. apply map_id. }
        rewrite map_map. apply map_ext. intros x. apply rolled_back_cons. }
      assert (E2 : (res_detecting_overlap r || (1 <? length l)
                    || overlap_detected g)
                   = (res_detecting_overlap r
                      || overlap_detected ((t, l) :: g))).
      { unfold overlap_detected. simpl. rewrite orb_assoc. reflexivity. }
      apply (f_equal2 (@pair _ _)); [|reflexivity]. apply f_equal.
      apply (f_equal3 mkResolution); [exact E1 | reflexivity | exact E2].
    + cbn [res_intended_pos]. destruct (1 <? length l); [|reflexivity].
      rewrite map_map. apply map_ext. intros x. unfold roll_back_group.
      destruct (existsb (Nat.eqb (fst x)) l); reflexivity.
    + assumption.
Qed.

(** One execution of the body of the [while] loop, run. *)
Lemma resolve_loop_step map_data fuel ip hs w oh :
  holds (st w) oh -> placed (st w) -> agent_dict (st w) ip ->
  resolve_loop map_data (S fuel) ip hs w =
  if overlap_detected (groups_of map_data (st w) ip)
  then resolve_loop map_data fuel (pass map_data (st w) ip)
         (fst (round_outcome (groups_of map_data (st w) ip) oh hs w))
         (snd (round_outcome (groups_of map_data (st w) ip) oh hs w))
  else (Ok ip, w).
Proof.
  intros Hh Hp Hd.
  simpl resolve_loop. unfold bind at 1. unfold read at 1.
  rewrite overlapping_ok by assumption.
  unfold bind at 1.
  rewrite (resolve_groups_run (st w) (map fst ip)
             (groups_of map_data (st w) ip)
             (mkResolution ip hs false) w oh Hh
             (same_but_ball_refl (st w))
             (groups_ok map_data (st w) ip Hd)
             eq_refl (proj1 Hd)).
  cbn [res_intended_pos res_has_switched res_detecting_overlap orb].
  fold (pass map_data (st w) ip).
  destruct (overlap_detected (groups_of map_data (st w) ip)) eqn:Ed;
    [reflexivity|].
  rewrite pass_without_overlap by assumption. unfold ret.
  f_equal. unfold round_outcome.
  destruct oh as [h|]; [destruct hs|]; try reflexivity.
  rewrite holder_group_none by assumption. reflexivity.
Qed.

Lemma same_but_ball_passes map_data s s' n : forall ip,
  same_but_ball s s' -> passes map_data s' n ip = passes map_data s n ip.
Proof.
  induction n as [|n IH]; intros ip H; simpl; [reflexivity|].
  rewrite (same_but_ball_pass map_data s s' ip H). apply IH. exact H.
Qed.

Lemma passes_keys map_data s n : forall ip,
  map fst (passes map_data s n ip) = map fst ip.
Proof.
  induction n as [|n IH]; intros ip; simpl; [reflexivity|].
  rewrite IH. apply pass_keys.
Qed.

Lemma passes_entries map_data s n : forall ip x',
  In x' (passes map_data s n ip) ->
  In x' ip \/ x' = (fst x', cur s (fst x')).
Proof.
  induction n as [|n IH]; intros ip x' H; simpl in H; [left; exact H|].
  destruct (IH _ _ H) as [Hin|E]; [|right; exact E].
  destruct (pass_entries map_data s ip x' Hin) as [?|[? _]]; auto.
Qed.

(** The loop, run with enough fuel: it makes [k] passes that each detect
    an overlap and stops at the first dictionary without one; the ball is
    switched at the first pass in which its holder is in a contested
    group. *)
Lemma resolve_loop_run map_data : forall fuel ip hs w oh,
  holds (st w) oh -> placed (st w) -> distinct_tiles (st w) ->
  agent_dict (st w) ip ->
  movers map_data (st w) ip < fuel \/ (0 < fuel /\ length ip <= fuel) ->
  exists k, k < fuel /\
    resolve_loop map_data fuel ip hs w
    = (Ok (passes map_data (st w) k ip),
       loop_world map_data oh hs fuel ip w) /\
    (forall j, j < k ->
       overlap_detected
         (groups_of map_data (st w) (passes map_data (st w) j ip)) = true) /\
    overlap_detected
      (groups_of map_data (st w) (passes map_data (st w) k ip)) = false.
Proof.
  induction fuel as [|fuel IH]; intros ip hs w oh Hh Hp Hdist Hd Hfuel;
    [lia|].
  rewrite (resolve_loop_step map_data fuel ip hs w oh Hh Hp Hd).
  destruct (overlap_detected (groups_of map_data (st w) ip)) eqn:Ed.
  - set (g := groups_of map_data (st w) ip) in *.
    destruct (round_outcome_holds (map fst ip) g oh hs w Hh
                (groups_ok map_data (st w) ip Hd)) as [Hh1 Sb].
    set (w1 := snd (round_outcome g oh hs w)) in *.
    set (hs1 := fst (round_outcome g oh hs w)).
    set (oh1 := round_holder g oh hs w) in *.
    pose proof (pass_decreases map_data (st w) ip Hp Hdist Hd Ed)
      as [Hlt Hle].
    assert (Hd1 : agent_dict (st w1) (pass map_data (st w) ip)).
    { apply (same_but_ball_dict (st w)); [assumption|].
      apply pass_agent_dict. assumption. }
    destruct (IH (pass map_data (st w) ip) hs1 w1 oh1 Hh1
                (same_but_ball_placed _ _ Sb Hp)
                (same_but_ball_distinct _ _ Sb Hdist) Hd1)
      as [k [Hk [E [Hdet Hend]]]].
    { left. rewrite (same_but_ball_movers map_data (st w) (st w1) _ Sb).
      lia. }
    exists (S k). split; [lia|]. split; [|split].
    + rewrite E. rewrite (same_but_ball_passes map_data (st w) (st w1) k _ Sb).
      simpl passes. f_equal.
      unfold loop_world, w1, hs1, oh1, round_outcome, round_holder.
      destruct oh as [h|]; [|reflexivity].
      destruct hs; [reflexivity|].
      cbn [first_contest]. fold g.
      destruct (holder_group g h) as [l|] eqn:Eg; [reflexivity|].
      rewrite Ed. reflexivity.
    + intros [|j] Hj; [exact Ed|]. simpl passes.
      specialize (Hdet j ltac:(lia)).
      rewrite (same_but_ball_passes map_data (st w) (st w1) j _ Sb) in Hdet.
      rewrite (same_but_ball_groups map_data (st w) (st w1) _ Sb) in Hdet.
      exact Hdet.
    + simpl passes.
      rewrite (same_but_ball_passes map_data (st w) (st w1) k _ Sb) in Hend.
      rewrite (same_but_ball_groups map_data (st w) (st w1) _ Sb) in Hend.
      exact Hend.
  - exists 0. split; [lia|]. split; [|split].
    + simpl passes. f_equal. unfold loop_world.
      destruct oh as [h|]; [|reflexivity].
      destruct hs; [reflexivity|].
      cbn [first_contest]. rewrite holder_group_none by assumption.
      rewrite Ed. reflexivity.
    + intros j Hj. lia.
    + exact Ed.
Qed.

Lemma passes_succ map_data s n : forall ip,
  passes map_data s (S n) ip = pass map_data s (passes map_data s n ip).
Proof.
  induction n as [|n IH]; intros ip; [reflexivity|].
  change (passes map_data s (S (S n)) ip)
    with (passes map_data s (S n) (pass map_data s ip)).
  rewrite IH. reflexivity.
Qed.

Lemma passes_agent_dict map_data s n ip :
  agent_dict s ip -> agent_dict s (passes map_data s n ip).
Proof. unfold agent_dict. rewrite passes_keys. auto. Qed.

Lemma dict_get_map_entry {V} (f : nat * V -> nat * V) (d : list (nat * V)) x :
  (forall y, fst (f y) = fst y) -> NoDup (map fst d) -> In x d ->
  dict_get (map f d) (fst x) = Some (snd (f x)).
Proof.
  intros Hf. induction d as [|y d IH]; simpl; intros Hn Hx; [contradiction|].
  inversion Hn as [|? ? Hy Hd]; subst.
  destruct (f y) as [k v] eqn:Ef.
  assert (Ek : k = fst y) by (rewrite <- (Hf y), Ef; reflexivity).
  destruct Hx as [->|Hx].
  - rewrite Ek, Nat.eqb_refl, Ef. reflexivity.
  - destruct (k =? fst x) eqn:E; [|apply IH; assumption].
    apply Nat.eqb_eq in E. exfalso. apply Hy. rewrite <- Ek, E.
    apply in_map. exact Hx.
Qed.

(** What a pass does to an entry: it puts the agent back on its own tile
    when another agent claims the same tile, and leaves the entry alone
    otherwise. *)
Lemma pass_effect map_data s ip x :
  placed s -> agent_dict s ip -> In x ip ->
  (crowded map_data s ip x ->
   dict_get (pass map_data s ip) (fst x) = Some (cur s (fst x))) /\
  (~ crowded map_data s ip x ->
   dict_get (pass map_data s ip) (fst x) = Some (snd x)).
Proof.
  intros Hp Hd Hx.
  assert (E : dict_get (pass map_data s ip) (fst x)
              = Some (snd (rolled_back s (groups_of map_data s ip) x))).
  { unfold pass. apply dict_get_map_entry; [|apply Hd|exact Hx].
    intros y. unfold rolled_back. destruct (contested _ _); reflexivity. }
  pose proof (contested_crowded map_data s ip x Hp Hd Hx) as C.
  unfold rolled_back in E.
  destruct (contested (groups_of map_data s ip) (fst x)) eqn:Ec.
  - split; [intros _; exact E|]. intros H. elim H. apply C. reflexivity.
  - split; [|intros _; exact E]. intros H. apply C in H. discriminate.
Qed.

Lemma holder_group_contested g h :
  contested g h = true <-> exists l, holder_group g h = Some l.
Proof.
  unfold contested, holder_group. split.
  - intros H. apply existsb_exists in H. destruct H as [item [Hin Hc]].
    destruct (find _ g) as [item'|] eqn:E; [simpl; eauto|].
    pose proof (find_none _ _ E item Hin) as N. simpl in N. congruence.
  - intros [l H]. destruct (find _ g) as [item'|] eqn:E; [|discriminate].
    apply find_some in E. apply existsb_exists. exists item'. exact E.
Qed.

(** The agents filed with [h] are those that claim the tile [h] claims. *)
Lemma claimants_spec map_data s ip h v :
  placed s -> agent_dict s ip -> dict_get ip h = Some v ->
  forall i, In i (claimants map_data s ip h) <->
            exists y, In y ip /\ fst y = i /\
                      claim map_data s y = claim map_data s (h, v).
Proof.
  intros Hp Hd Ev i. unfold claimants. rewrite Ev.
  pose proof (dict_get_In ip h v Ev) as Hx.
  destruct (claim_some map_data s (h, v) Hp (in_dict_range s ip _ Hd Hx))
    as [t Et].
  rewrite Et. simpl tile_or_origin.
  rewrite members_groups_of, in_map_iff. split.
  - intros [y [E Hy]]. apply filter_In in Hy. destruct Hy as [Hy Ht].
    exists y. split; [exact Hy|]. split; [exact E|].
    destruct (claim_some map_data s y Hp (in_dict_range s ip y Hd Hy))
      as [t' Et'].
    rewrite Et' in Ht |- *. simpl in Ht. apply pos_eqb_eq in Ht. congruence.
  - intros [y [Hy [E Ey]]]. exists y. split; [exact E|].
    apply filter_In. split; [exact Hy|]. rewrite Ey. simpl.
    apply pos_eqb_refl.
Qed.

(** When another agent claims the tile of [h], the contested group of [h]
    is the group of the claimants of that tile. *)
Lemma holder_group_claimants map_data s ip h v :
  placed s -> agent_dict s ip -> dict_get ip h = Some v ->
  crowded map_data s ip (h, v) ->
  holder_group (groups_of map_data s ip) h
  = Some (claimants map_data s ip h).
Proof.
  intros Hp Hd Ev Hc.
  pose proof (dict_get_In ip h v Ev) as Hx.
  apply (contested_crowded map_data s ip (h, v) Hp Hd Hx) in Hc.
  simpl in Hc. apply holder_group_contested in Hc. destruct Hc as [l El].
  rewrite El. f_equal.
  destruct (holder_group_some _ _ _ El) as [[t Hin] [_ Hh]].
  destruct (group_item_keys map_data s ip t l h Hin Hh) as [y [Hy [Ey Et]]].
  assert (y = (h, v)) by (apply (key_unique ip); [apply Hd| | |]; assumption).
  subst y. unfold claimants. rewrite Ev, Et.
  symmetry. apply members_of_item; [apply group_all_NoDup | exact Hin].
Qed.

(** The first contested group of [h] is its group at some pass before
    which it was in none. *)
Lemma first_contest_some map_data s h n : forall ip l,
  first_contest map_data s h n ip = Some l ->
  exists j, j < n /\
    holder_group (groups_of map_data s (passes map_data s j ip)) h = Some l /\
    forall i, i < j ->
      holder_group (groups_of map_data s (passes map_data s i ip)) h = None.
Proof.
  induction n as [|n IH]; intros ip l H; simpl in H; [discriminate|].
  destruct (holder_group (groups_of map_data s ip) h) as [l'|] eqn:Eg.
  - inversion H; subst l'. exists 0. split; [lia|]. split; [exact Eg|].
    intros i Hi. lia.
  - destruct (overlap_detected (groups_of map_data s ip)); [|discriminate].
    destruct (IH _ _ H) as [j [Hj [E Hbefore]]].
    exists (S j). split; [lia|]. split; [exact E|].
    intros [|i] Hi; [exact Eg|]. apply Hbefore. lia.
Qed.

(** The loop changes nothing but ball flags, and leaves the ball with one
    agent when it found it with one. *)
Lemma loop_world_spec map_data oh hs n ip w :
  holds (st w) oh -> agent_dict (st w) ip ->
  same_but_ball (st w) (st (loop_world map_data oh hs n ip w)) /\
  match oh with
  | Some h =>
      match (if hs then None
             else first_contest map_data (st w) h n ip) with
      | Some l =>
          In h l /\ 1 < length l /\ NoDup l /\
          In (switch_partner w h l) l /\ switch_partner w h l <> h /\
          switch_ball (st w) h (switch_partner w h l)
          = Ok (st (loop_world map_data oh hs n ip w)) /\
          holder_at (st (loop_world map_data oh hs n ip w))
            (switch_partner w h l) /\
          rnd (loop_world map_data oh hs n ip w) = rnd (after_draw w)
      | None => loop_world map_data oh hs n ip w = w
      end
  | None => loop_world map_data oh hs n ip w = w
  end.
Proof.
  intros Hh Hd. unfold loop_world.
  destruct oh as [h|]; [|split; [apply same_but_ball_refl | reflexivity]].
  destruct hs; [split; [apply same_but_ball_refl | reflexivity]|].
  destruct (first_contest map_data (st w) h n ip) as [l|] eqn:Ef;
    [|split; [apply same_but_ball_refl | reflexivity]].
  destruct (first_contest_some map_data (st w) h n ip l Ef)
    as [j [_ [Eg _]]].
  destruct (holder_group_some _ _ _ Eg) as [[t Hin] [Hl Hhl]].
  pose proof (groups_ok map_data (st w) _
                (passes_agent_dict map_data (st w) j ip Hd)) as G.
  rewrite Forall_forall in G. pose proof (G _ Hin) as Gk.
  pose proof (group_ok_range _ _ _ _ Gk) as Hr.
  destruct Gk as [Hnl _]. simpl in Hnl.
  destruct (world_after_switch_spec w h l Hh Hnl Hr Hl Hhl)
    as [s' [Es [Ew [Sb [Hh' [Hc Hne]]]]]].
  rewrite Ew. simpl. tauto.
Qed.

Lemma dict_get_entry (ip : IntendedPos) x :
  NoDup (map fst ip) -> In x ip -> dict_get ip (fst x) = Some (snd x).
Proof.
  intros Hn Hx.
  destruct (dict_get_present ip (fst x) (in_map fst ip x Hx)) as [v Ev].
  rewrite Ev. f_equal.
  pose proof (key_unique ip (fst x, v) x Hn (dict_get_In _ _ _ Ev) Hx eq_refl)
    as E.
  rewrite <- E. reflexivity.
Qed.

(** The contested group of [h], read on the dictionary: another agent
    claims the tile [h] claims, and the group is the claimants of it. *)
Lemma holder_group_crowded map_data s ip h l :
  placed s -> agent_dict s ip ->
  holder_group (groups_of map_data s ip) h = Some l ->
  exists v, dict_get ip h = Some v /\ crowded map_data s ip (h, v) /\
            l = claimants map_data s ip h.
Proof.
  intros Hp Hd El.
  destruct (holder_group_some _ _ _ El) as [[t Hin] [_ Hh]].
  destruct (group_item_keys map_data s ip t l h Hin Hh) as [[k v] [Hy [Ey _]]].
  simpl in Ey. subst k. exists v.
  assert (Ev : dict_get ip h = Some v)
    by (apply (dict_get_entry ip (h, v)); [apply Hd | exact Hy]).
  split; [exact Ev|].
  assert (Hc : crowded map_data s ip (h, v)).
  { apply (contested_crowded map_data s ip (h, v) Hp Hd Hy). simpl.
    apply holder_group_contested. eauto. }
  split; [exact Hc|].
  rewrite (holder_group_claimants map_data s ip h v Hp Hd Ev Hc) in El.
  congruence.
Qed.

Lemma holder_group_not_crowded map_data s ip h v :
  placed s -> agent_dict s ip ->
  holder_group (groups_of map_data s ip) h = None ->
  dict_get ip h = Some v -> ~ crowded map_data s ip (h, v).
Proof.
  intros Hp Hd En Ev Hc.
  rewrite (holder_group_claimants map_data s ip h v Hp Hd Ev Hc) in En.
  discriminate.
Qed.

Lemma first_contest_detected map_data s h n : forall ip l,
  first_contest map_data s h n ip = Some l ->
  exists j, j < n /\
    holder_group (groups_of map_data s (passes map_data s j ip)) h = Some l /\
    (forall i, i < j ->
       holder_group (groups_of map_data s (passes map_data s i ip)) h = None) /\
    (forall i, i < j ->
       overlap_detected (groups_of map_data s (passes map_data s i ip)) = true).
Proof.
  induction n as [|n IH]; intros ip l H; simpl in H; [discriminate|].
  destruct (holder_group (groups_of map_data s ip) h) as [l'|] eqn:Eg.
  - inversion H; subst l'. exists 0. split; [lia|]. split; [exact Eg|].
    split; intros i Hi; lia.
  - destruct (overlap_detected (groups_of map_data s ip)) eqn:Eo;
      [|discriminate].
    destruct (IH _ _ H) as [j [Hj [E [Hb Ho]]]].
    exists (S j). split; [lia|]. split; [exact E|].
    split; intros [|i] Hi; try assumption; [apply Hb | apply Ho]; lia.
Qed.

Lemma first_contest_none map_data s h n : forall ip j,
  first_contest map_data s h n ip = None -> j < n ->
  (forall i, i < j ->
     overlap_detected (groups_of map_data s (passes map_data s i ip)) = true) ->
  holder_group (groups_of map_data s (passes map_data s j ip)) h = None.
Proof.
  induction n as [|n IH]; intros ip j H Hj Ho; [lia|]. simpl in H.
  destruct (holder_group (groups_of map_data s ip) h) as [l'|] eqn:Eg;
    [discriminate|].
  destruct j as [|j]; [exact Eg|].
  pose proof (Ho 0 (Nat.lt_0_succ j)) as E0. simpl in E0. rewrite E0 in H.
  apply (IH (pass map_data s ip) j H); [lia|].
  intros i Hi. apply (Ho (S i)). lia.
Qed.

Lemma detected_of_holder_group g h l :
  holder_group g h = Some l -> overlap_detected g = true.
Proof.
  intros H. destruct (overlap_detected g) eqn:E; [reflexivity|].
  rewrite (holder_group_none g h E) in H. discriminate.
Qed.

(** C3. From a state whose agents stand on pairwise distinct tiles and in
    which at most one agent holds the ball, and for every dictionary of
    intended destinations, the loop of [_update_agent_pos] returns after
    [k+1] executions of its body with [k+1] at most the number of agents.
    The dictionary it returns is the one given after [k] passes, each of
    which found a tile claimed twice: it has the keys of the one given, in
    their order, and every entry is the one given or the agent's own tile.
    In it no tile is claimed twice: the grouping of the code finds no
    group of two or more, another pass would change nothing, and the
    destinations are pairwise distinct.  The state changes in ball flags
    only. *)
Theorem overlap_resolution_terminates map_data s ip rng :
  placed s -> distinct_tiles s -> at_most_one_holder s -> agent_dict s ip ->
  exists k ip' w',
    k < Nat.max 1 (agent_count s) /\
    resolve_loop map_data (Nat.max 1 (agent_count s)) ip false (mkWorld s rng)
    = (Ok ip', w') /\
    ip' = passes map_data s k ip /\
    (forall j, j < k ->
       overlap_detected (groups_of map_data s (passes map_data s j ip))
       = true) /\
    map fst ip' = map fst ip /\
    (forall x', In x' ip' -> In x' ip \/ x' = (fst x', cur s (fst x'))) /\
    same_but_ball s (st w') /\
    (exists g, _get_overlapping_pos_to_agent map_data (st w') ip' = Ok g /\
               Forall (fun item => length (snd item) <= 1) g) /\
    no_overlap map_data (st w') ip' /\
    pass map_data (st w') ip' = ip' /\
    (Forall (destination map_data s) ip ->
     forall x y, In x ip' -> In y ip' -> snd x = snd y -> fst x = fst y).
Proof.
  intros Hp Hdist Hone Hd.
  set (w := mkWorld s rng).
  assert (Hoh : exists oh, holds (st w) oh).
  { destruct Hone as [[h Hh]|Hn]; [exists (Some h) | exists None]; assumption. }
  destruct Hoh as [oh Hoh].
  destruct (resolve_loop_run map_data (Nat.max 1 (agent_count s)) ip false w oh
              Hoh Hp Hdist Hd) as [k [Hk [E [Hbefore Hnd]]]].
  { right. pose proof (dict_length_bound s ip Hd). split; lia. }
  simpl st in E, Hbefore, Hnd.
  destruct (loop_world_spec map_data oh false (Nat.max 1 (agent_count s)) ip w
              Hoh Hd) as [Sb _].
  simpl st in Sb.
  set (ip' := passes map_data s k ip) in *.
  set (w' := loop_world map_data oh false (Nat.max 1 (agent_count s)) ip w)
    in *.
  assert (Hd' : agent_dict s ip') by (apply passes_agent_dict; exact Hd).
  assert (Hno : no_overlap map_data s ip')
    by (apply not_detected_no_overlap; assumption).
  assert (Hen : forall x', In x' ip' ->
                           In x' ip \/ x' = (fst x', cur s (fst x')))
    by (intros x'; apply passes_entries).
  exists k, ip', w'. split; [exact Hk|]. split; [exact E|].
  split; [reflexivity|]. split; [exact Hbefore|].
  split; [apply passes_keys|]. split; [exact Hen|]. split; [exact Sb|].
  split; [|split; [|split]].
  - exists (groups_of map_data (st w') ip'). split.
    + apply overlapping_ok.
      * apply (same_but_ball_placed s); assumption.
      * apply (same_but_ball_dict s); assumption.
    + rewrite (same_but_ball_groups map_data s (st w') ip' Sb).
      apply Forall_forall. intros item Hi.
      unfold overlap_detected in Hnd.
      destruct (1 <? length (snd item)) eqn:El;
        [|apply Nat.ltb_ge in El; lia].
      exfalso.
      assert (existsb (fun item : Pos * list nat => 1 <? length (snd item))
                (groups_of map_data s ip') = true)
        by (apply existsb_exists; eauto).
      congruence.
  - apply (same_but_ball_no_overlap map_data s); assumption.
  - rewrite (same_but_ball_pass map_data s (st w') ip' Sb).
    apply pass_without_overlap. assumption.
  - intros Hdest.
    apply (no_overlap_distinct_values map_data s ip' Hno).
    apply (loop_entries_destination map_data s ip ip'); assumption.
Qed.

Lemma overlap_resolution_terminates_witness :
  exists k ip' w',
    k < Nat.max 1 (agent_count queue_state) /\
    resolve_loop row (Nat.max 1 (agent_count queue_state)) queue_intended_pos
      false (mkWorld queue_state (constant_rng 0)) = (Ok ip', w') /\
    ip' = passes row queue_state k queue_intended_pos /\
    (forall j, j < k ->
       overlap_detected
         (groups_of row queue_state (passes row queue_state j queue_intended_pos))
       = true) /\
    map fst ip' = map fst queue_intended_pos /\
    (forall x', In x' ip' ->
       In x' queue_intended_pos \/ x' = (fst x', cur queue_state (fst x'))) /\
    same_but_ball queue_state (st w') /\
    (exists g, _get_overlapping_pos_to_agent row (st w') ip' = Ok g /\
               Forall (fun item => length (snd item) <= 1) g) /\
    no_overlap row (st w') ip' /\
    pass row (st w') ip' = ip' /\
    (Forall (destination row queue_state) queue_intended_pos ->
     forall x y, In x ip' -> In y ip' -> snd x = snd y -> fst x = fst y).
Proof.
  apply (overlap_resolution_terminates row queue_state queue_intended_pos
           (constant_rng 0)).
  - apply (wf_placed _ _ queue_state_wf).
  - apply (wf_distinct _ _ queue_state_wf).
  - left. apply (wf_holder _ _ queue_state_wf).
  - exact queue_dict.
Defined.

(** C3, as stated, fails: the agents stand on distinct tiles, but with
    the ball in the hands of both claimants of a tile nobody is left to
    take it, and the draw among no agents raises [IndexError] in the first
    execution of the loop body, whatever the number of executions
    allowed. *)
Lemma overlap_resolution_two_holders :
  placed two_balls_state /\ distinct_tiles two_balls_state /\
  agent_dict two_balls_state [(0, Some (1, 0)%Z); (1, Some (1, 0)%Z)] /\
  forall fuel rng,
    fst (resolve_loop row (S fuel) [(0, Some (1, 0)%Z); (1, Some (1, 0)%Z)]
           false (mkWorld two_balls_state rng)) = Raise IndexError.
Proof.
  split; [|split; [|split]].
  - intros i Hi. unfold agent_count in Hi. simpl in Hi.
    destruct i as [|[|i]]; [discriminate | discriminate | lia].
  - intros i j Hi Hj Hij p. unfold agent_count in Hi, Hj. simpl in Hi, Hj.
    destruct i as [|[|i]]; destruct j as [|[|j]]; try lia;
      unfold cur, agent; simpl; congruence.
  - split; simpl.
    + repeat constructor; simpl; intuition lia.
    + repeat constructor; unfold agent_count; simpl; lia.
  - intros fuel rng. reflexivity.
Qed.

(** C4. The loop of [_update_agent_pos] in a state where agent [h] holds
    the ball, entered as [take_action] enters it.  It returns the
    dictionary after [k] passes, each of which found a tile claimed twice,
    and in which none is.  In each pass, every agent whose tile
    another agent claims too gets the tile it stands on as its destination,
    and every other entry is left as it is.  The ball: at the first pass
    in which another agent claims the tile [h] claims, it goes from [h] to
    the claimant of that tile that [random.choice] draws among the others,
    each of them being drawn by exactly one index, and that is the only
    change of the state and the only draw of the whole loop, however many
    tiles are contested and however many passes follow; when no pass has
    such a tile, the state and the generator are untouched. *)
Theorem overlap_resolution_effect map_data w h ip fuel :
  holder_at (st w) h -> placed (st w) -> distinct_tiles (st w) ->
  agent_dict (st w) ip -> 0 < fuel -> agent_count (st w) <= fuel ->
  exists k w',
    resolve_loop map_data fuel ip false w
    = (Ok (passes map_data (st w) k ip), w') /\
    k < fuel /\
    (forall j, j < k ->
       overlap_detected
         (groups_of map_data (st w) (passes map_data (st w) j ip)) = true) /\
    overlap_detected
      (groups_of map_data (st w) (passes map_data (st w) k ip)) = false /\
    (forall j x, j < k -> In x (passes map_data (st w) j ip) ->
       (crowded map_data (st w) (passes map_data (st w) j ip) x ->
        dict_get (passes map_data (st w) (S j) ip) (fst x)
        = Some (cur (st w) (fst x))) /\
       (~ crowded map_data (st w) (passes map_data (st w) j ip) x ->
        dict_get (passes map_data (st w) (S j) ip) (fst x)
        = Some (snd x))) /\
    ((exists j v l,
        j < k /\
        dict_get (passes map_data (st w) j ip) h = Some v /\
        crowded map_data (st w) (passes map_data (st w) j ip) (h, v) /\
        (forall i u, i < j ->
           dict_get (passes map_data (st w) i ip) h = Some u ->
           ~ crowded map_data (st w) (passes map_data (st w) i ip) (h, u)) /\
        l = claimants map_data (st w) (passes map_data (st w) j ip) h /\
        (forall c, In c l <->
           exists y, In y (passes map_data (st w) j ip) /\ fst y = c /\
                     claim map_data (st w) y = claim map_data (st w) (h, v)) /\
        In h l /\ 1 < length l /\
        In (switch_partner w h l) l /\ switch_partner w h l <> h /\
        (forall c, In c l -> c <> h ->
           exists n, n < length (other_claimants h l) /\
             nth n (other_claimants h l) 0 = c /\
             forall n', n' < length (other_claimants h l) ->
                        nth n' (other_claimants h l) 0 = c -> n' = n) /\
        switch_ball (st w) h (switch_partner w h l) = Ok (st w') /\
        holder_at (st w') (switch_partner w h l) /\
        rnd w' = rnd (after_draw w)) \/
     ((forall j u, j <= k ->
         dict_get (passes map_data (st w) j ip) h = Some u ->
         ~ crowded map_data (st w) (passes map_data (st w) j ip) (h, u)) /\
      w' = w)).
Proof.
  intros Hh Hp Hdist Hd Hf Hc.
  destruct (resolve_loop_run map_data fuel ip false w (Some h)
              Hh Hp Hdist Hd) as [k [Hk [E [Hbefore Hnd]]]].
  { right. pose proof (dict_length_bound (st w) ip Hd). split; lia. }
  pose proof (loop_world_spec map_data (Some h) false fuel ip w Hh Hd)
    as [_ Hsw].
  set (w' := loop_world map_data (Some h) false fuel ip w) in *.
  exists k, w'. split; [exact E|]. split; [exact Hk|].
  split; [exact Hbefore|]. split; [exact Hnd|]. split.
  - intros j x Hj Hx. rewrite passes_succ.
    apply pass_effect; [exact Hp | apply passes_agent_dict; exact Hd | exact Hx].
  - destruct (first_contest map_data (st w) h fuel ip) as [l|] eqn:Ef.
    + left.
      destruct (first_contest_detected map_data (st w) h fuel ip l Ef)
        as [j [Hj [Eg [Hnone Hdet]]]].
      pose proof (passes_agent_dict map_data (st w) j ip Hd) as Hdj.
      destruct (holder_group_crowded map_data (st w) _ h l Hp Hdj Eg)
        as [v [Ev [Hcr El]]].
      assert (Hjk : j < k).
      { destruct (Nat.lt_ge_cases j k) as [?|Hge]; [assumption|].
        exfalso. pose proof (detected_of_holder_group _ _ _ Eg) as Ed.
        destruct (Nat.eq_dec j k) as [->|Hne]; [congruence|].
        assert (Hlt : k < j) by lia.
        pose proof (Hdet k Hlt). congruence. }
      destruct Hsw as [Hin [Hlen [Hnd' [Hpin [Hpne [Esw [Hholder Ernd]]]]]]].
      exists j, v, l. split; [exact Hjk|]. split; [exact Ev|].
      split; [exact Hcr|]. split.
      { intros i u Hi Eu.
        apply holder_group_not_crowded;
          [exact Hp | apply passes_agent_dict; exact Hd | | exact Eu].
        apply Hnone. exact Hi. }
      split; [exact El|]. split.
      { rewrite El. apply claimants_spec; assumption. }
      split; [exact Hin|]. split; [exact Hlen|]. split; [exact Hpin|].
      split; [exact Hpne|]. split.
      { intros c. apply other_claimants_draw. exact Hnd'. }
      tauto.
    + right. split; [|exact Hsw].
      intros j u Hj Eu.
      apply holder_group_not_crowded;
        [exact Hp | apply passes_agent_dict; exact Hd | | exact Eu].
      apply (first_contest_none map_data (st w) h fuel ip j Ef); [lia|].
      intros i Hi. apply Hbefore. lia.
Qed.

Lemma overlap_resolution_effect_witness :
  exists k w',
    resolve_loop row 4 queue_intended_pos false
      (mkWorld queue_state (constant_rng 0))
    = (Ok (passes row queue_state k queue_intended_pos), w') /\
    holder_at (st w') 1.
Proof.
  destruct (overlap_resolution_effect row
              (mkWorld queue_state (constant_rng 0)) 0 queue_intended_pos 4
              queue_holder
              (wf_placed _ _ queue_state_wf)
              (wf_distinct _ _ queue_state_wf)
              queue_dict)
    as [k [w' [E [_ [_ [_ [_ [Sw|[Hno _]]]]]]]]].
  - simpl; lia.
  - unfold agent_count; simpl; lia.
  - destruct Sw
      as (j & v & l & Hj & Ev & Hcr & Hfirst & El & _ & _ & _ & _ & _ & _ & _ & Hh & _).
    exists k, w'. split; [exact E|].
    assert (Ej : j = 0).
    { destruct j as [|j]; [reflexivity|]. exfalso.
      apply (Hfirst 0 (Some (0, 0)%Z)); [lia | reflexivity |].
      exists (1, Some (0, 0)%Z). split; [simpl; auto|].
      split; [simpl; lia | reflexivity]. }
    subst j. rewrite El in Hh. exact Hh.
  - exfalso. apply (Hno 0 (Some (0, 0)%Z)); [lia | reflexivity |].
    exists (1, Some (0, 0)%Z). split; [simpl; auto|].
    split; [simpl; lia | reflexivity].
Defined.

(** * A step, from any well-formed state *)

Lemma claim_same_cur map_data s s' x :
  (forall i, cur s' i = cur s i) -> claim map_data s' x = claim map_data s x.
Proof. intros H. unfold claim. rewrite H. reflexivity. Qed.

Lemma groups_same_cur map_data s s' ip :
  (forall i, cur s' i = cur s i) ->
  groups_of map_data s' ip = groups_of map_data s ip.
Proof.
  intros H. unfold groups_of, claims_of. f_equal. apply map_ext.
  intros x. rewrite (claim_same_cur map_data s s' x H). reflexivity.
Qed.

Lemma pass_same_cur map_data s s' ip :
  (forall i, cur s' i = cur s i) -> pass map_data s' ip = pass map_data s ip.
Proof.
  intros H. unfold pass. rewrite (groups_same_cur map_data s s' ip H).
  apply map_ext. intros x. unfold rolled_back. rewrite H. reflexivity.
Qed.

Lemma passes_same_cur map_data s s' n : forall ip,
  (forall i, cur s' i = cur s i) ->
  passes map_data s' n ip = passes map_data s n ip.
Proof.
  induction n as [|n IH]; intros ip H; simpl; [reflexivity|].
  rewrite (pass_same_cur map_data s s' ip H). apply IH. exact H.
Qed.

Lemma first_contest_same_cur map_data s s' h n : forall ip,
  (forall i, cur s' i = cur s i) ->
  first_contest map_data s' h n ip = first_contest map_data s h n ip.
Proof.
  induction n as [|n IH]; intros ip H; simpl; [reflexivity|].
  rewrite (groups_same_cur map_data s s' ip H),
    (pass_same_cur map_data s s' ip H), (IH _ H).
  reflexivity.
Qed.

Section Step.

Variable options : SoccerEnvironmentOptions.
Variable map_data : SoccerMapData.
Variable s0 : SoccerState.

Hypothesis wf0 : wf_state options s0.
Hypothesis goals_present : map_has_goals map_data.

Lemma chooses_member l t k a w :
  In (t, k) (roster options) -> same_but_action s0 (st w) ->
  match t with
  | PLAYER => nth_error l k = Some a
  | COMPUTER => fst (_get_computer_action options map_data k w) = Ok a
  end ->
  chooses options map_data l s0 (get_agent_index options t k) a.
Proof.
  intros Hin Sa H. apply roster_In in Hin. unfold chooses, get_agent_index.
  destruct t; simpl group_index.
  - replace (team_size options * 0 + k) with k by lia.
    rewrite (proj2 (Nat.ltb_lt _ _) Hin). exact H.
  - replace (team_size options * 1 + k <? team_size options) with false
      by (symmetry; apply Nat.ltb_ge; lia).
    replace (team_size options * 1 + k - team_size options) with k by lia.
    exists w. split; assumption.
Qed.

Lemma intended_pos_step_decides l ip t k w :
  same_but_action s0 (st w) ->
  length l = team_size options ->
  In (t, k) (roster options) ->
  wp (intended_pos_step options map_data l ip (t, k)) w
    (fun ip' w' =>
       same_but_action s0 (st w') /\
       exists p a,
         cur s0 (get_agent_index options t k) = Some p /\
         chooses options map_data l s0 (get_agent_index options t k) a /\
         ip' = dict_set ip (get_agent_index options t k)
                 (Some (intended_tile map_data p a)) /\
         forall j, action (agent (st w') j) =
                   if j =? get_agent_index options t k then Some a
                   else action (agent (st w) j))
    nowhere nowhere.
Proof.
  intros Sa Hlen Hin. pose proof wf0 as [Wc _ Wp _ _].
  destruct (roster_member options t k Hin) as [_ [_ Hidx]].
  pose proof (fun a => chooses_member l t k a w Hin Sa) as Hch.
  apply roster_In in Hin.
  set (idx := get_agent_index options t k) in *.
  assert (Hi0 : idx < agent_count s0) by lia.
  assert (Hi : idx < agent_count (st w))
    by (destruct Sa as [_ [C _]]; lia).
  destruct (cur s0 idx) as [p|] eqn:Ep; [|exfalso; apply (Wp idx Hi0 Ep)].
  unfold intended_pos_step. simpl fst. simpl snd. fold idx.
  apply wp_bind.
  eapply wp_read; [apply get_agent_pos_ok; assumption|].
  rewrite (same_but_action_cur s0 (st w) idx Sa), Ep.
  apply wp_bind.
  assert (Hact : wp (match t with
                     | PLAYER => lift (py_nth l k)
                     | COMPUTER => _get_computer_action options map_data k
                     end) w
                   (fun a w' => st w' = st w /\
                                chooses options map_data l s0 idx a)
                   nowhere nowhere).
  { destruct t.
    - unfold py_nth.
      destruct (nth_error l k) as [a|] eqn:En.
      + eapply wp_lift; [reflexivity|]. split; [reflexivity|].
        apply Hch. reflexivity.
      + apply nth_error_None in En. lia.
    - pose proof (computer_action_returns options map_data (st w)
                    (wf_same_but_action options _ _ Sa wf0) goals_present
                    k w eq_refl Hin) as H.
      apply wp_returns in H. destruct H as [a [w' [E Es]]].
      eapply wp_of_run; [exact E|]. split; [exact Es|].
      apply Hch. rewrite E. reflexivity. }
  eapply wp_conseq; [exact Hact | | auto | auto].
  intros a w1 [E1 Hn]. simpl in E1.
  assert (Hi1 : idx < agent_count (st w1)) by (rewrite E1; assumption).
  destruct (set_agent_action_spec (st w1) idx (Some a) Hi1)
    as [s2 [E2 [Sa2 A2]]].
  apply wp_bind. eapply wp_write; [exact E2|].
  assert (Sa02 : same_but_action s0 s2).
  { apply (same_but_action_trans s0 (st w1) s2); [|assumption].
    rewrite E1. assumption. }
  apply wp_bind. eapply wp_lift; [apply get_moved_pos_neighbour|].
  rewrite E1 in A2.
  destruct (pos_in (neighbour p a) (walkable map_data)) eqn:W; apply wp_ret;
    (split; [exact Sa02|]); exists p, a; unfold intended_tile; rewrite W;
    simpl; auto.
Qed.

Lemma get_intended_pos_decides l w :
  same_but_action s0 (st w) ->
  length l = team_size options ->
  wp (_get_intended_pos options map_data l) w
    (fun ip w' =>
       same_but_action s0 (st w') /\
       map fst ip = seq 0 (agent_count s0) /\
       Forall (decided options map_data l s0 (st w')) ip)
    nowhere nowhere.
Proof.
  intros Sa Hlen. unfold _get_intended_pos.
  eapply wp_conseq;
    [apply (foldM_inv (intended_pos_step options map_data l)
              (roster options)
              (fun done ip w' =>
                 same_but_action s0 (st w') /\
                 map fst ip = map (member_index options) done /\
                 Forall (decided options map_data l s0 (st w')) ip)
              nowhere nowhere)
    | | auto | auto].
  - intros done [t k] rest ip w1 EL [Sa1 [Hk Hd]].
    destruct (roster_position options done (t, k) rest EL) as [Hin Hfresh].
    eapply wp_conseq;
      [apply (intended_pos_step_decides l ip t k w1); assumption
      | | auto | auto].
    simpl. intros ip' w2 [Sa2 [p [a [Ep [Hn [-> A]]]]]].
    split; [assumption|].
    rewrite dict_set_append by (rewrite Hk; exact Hfresh).
    rewrite !map_app. simpl. rewrite Hk. split; [reflexivity|].
    apply Forall_app. split.
    + rewrite Forall_forall in *. intros x Hx.
      destruct (Hd x Hx) as [q [b [Eq [Eb [Hb Ev]]]]].
      exists q, b. repeat split; try assumption.
      rewrite A. destruct (fst x =? _) eqn:E; [|exact Hb].
      apply Nat.eqb_eq in E. exfalso. apply Hfresh.
      rewrite <- Hk. unfold member_index; simpl. rewrite <- E.
      apply in_map. exact Hx.
    + constructor; [|constructor]. exists p, a. simpl.
      split; [exact Ep|]. split; [exact Hn|].
      split; [rewrite A, Nat.eqb_refl; reflexivity | reflexivity].
  - simpl. split; [assumption|]. split; [reflexivity | constructor].
  - simpl. intros ip w' [Sa' [Hk Hd]]. split; [assumption|].
    split; [|assumption].
    rewrite Hk, roster_indices. destruct wf0 as [Wc _ _ _ _].
    rewrite Wc. reflexivity.
Qed.

End Step.

(** [_update_agent_pos] from a well-formed state, on a dictionary over
    all agents, with fuel for one execution of the loop body per agent:
    the run of the loop, and the commit of its result. *)
Lemma update_agent_pos_run options map_data fuel ip w :
  wf_state options (st w) ->
  map fst ip = seq 0 (agent_count (st w)) ->
  agent_count (st w) <= fuel ->
  exists k w',
    _update_agent_pos map_data fuel ip w = (Ok tt, w') /\
    k < fuel /\
    (forall j, j < k ->
       overlap_detected
         (groups_of map_data (st w) (passes map_data (st w) j ip)) = true) /\
    overlap_detected
      (groups_of map_data (st w) (passes map_data (st w) k ip)) = false /\
    time_step (st w') = time_step (st w) /\
    agent_count (st w') = agent_count (st w) /\
    (forall i, mode (agent (st w') i) = mode (agent (st w) i) /\
               action (agent (st w') i) = action (agent (st w) i)) /\
    (forall i, i < agent_count (st w) ->
       dict_get (passes map_data (st w) k ip) i = Some (cur (st w') i)) /\
    (forall h, holder_at (st w) h ->
       match first_contest map_data (st w) h fuel ip with
       | Some l =>
           In h l /\ 1 < length l /\
           exists c, In c l /\ c <> h /\ holder_at (st w') c
       | None => holder_at (st w') h
       end).
Proof.
  intros Hwf Hk Hfuel. pose proof Hwf as [Wc [h0 Wh0] Wp Wd Wm].
  pose proof (all_agents_dict (st w) ip Hk) as Hd.
  assert (Hpos : 0 < agent_count (st w)) by (destruct Wh0; lia).
  destruct (resolve_loop_run map_data fuel ip false w (Some h0)
              Wh0 Wp Wd Hd) as [k [Hkf [E [Hbefore Hnd]]]].
  { right. pose proof (dict_length_bound (st w) ip Hd). split; lia. }
  pose proof (loop_world_spec map_data (Some h0) false fuel ip w Wh0 Hd)
    as [Sb Hsw].
  set (wl := loop_world map_data (Some h0) false fuel ip w) in *.
  set (ip' := passes map_data (st w) k ip) in *.
  assert (Hd' : agent_dict (st wl) ip').
  { apply (same_but_ball_dict (st w)); [exact Sb|].
    apply passes_agent_dict. exact Hd. }
  pose proof (commit_wp ip' wl Hd') as Hc. apply wp_returns in Hc.
  destruct Hc as [[] [w' [Ec [T [C A]]]]].
  destruct Sb as [T1 [C1 A1]].
  exists k, w'. split.
  { unfold _update_agent_pos, bind. rewrite E. exact Ec. }
  split; [exact Hkf|]. split; [exact Hbefore|]. split; [exact Hnd|].
  split; [congruence|]. split; [congruence|].
  assert (Hball : forall i, ball (agent (st w') i) = ball (agent (st wl) i)).
  { intros i. rewrite A. destruct (dict_get ip' i); reflexivity. }
  split; [|split].
  - intros i. rewrite A. destruct (A1 i) as [_ [<- <-]].
    destruct (dict_get ip' i); split; reflexivity.
  - intros i Hi.
    destruct (dict_get_present ip' i) as [v Ev].
    { unfold ip'. rewrite passes_keys, Hk. apply in_seq. lia. }
    change (dict_get ip' i = Some (cur (st w') i)).
    rewrite Ev. unfold cur. rewrite A, Ev. reflexivity.
  - intros h Hh. rewrite (holder_unique _ _ _ Hh Wh0).
    simpl in Hsw.
    destruct (first_contest map_data (st w) h0 fuel ip) as [l|].
    + destruct Hsw as [Hin [Hlen [_ [Hpin [Hpne [_ [Hholder _]]]]]]].
      split; [exact Hin|]. split; [exact Hlen|].
      exists (switch_partner w h0 l). split; [exact Hpin|].
      split; [exact Hpne|].
      apply (holder_at_ext (st wl)); assumption.
    + rewrite Hsw in Hball, C.
      apply (holder_at_ext (st w)); assumption.
Qed.

(** What [take_action] does from a well-formed state, on a map with
    goals, for an argument of the right shape. *)
Lemma take_action_step options map_data fuel arg l w :
  wf_state options (st w) -> map_has_goals map_data ->
  _get_wrapped_action options arg = Ok l ->
  agent_count (st w) <= fuel ->
  wp (take_action options map_data fuel arg) w
    (fun obs w' =>
       exists ip k,
         map fst ip = seq 0 (agent_count (st w)) /\
         (forall i, i < agent_count (st w) ->
            mode (agent (st w') i) = mode (agent (st w) i) /\
            exists p a, cur (st w) i = Some p /\
              chooses options map_data l (st w) i a /\
              action (agent (st w') i) = Some a /\
              dict_get ip i = Some (Some (intended_tile map_data p a))) /\
         k < fuel /\
         (forall j, j < k ->
            overlap_detected
              (groups_of map_data (st w) (passes map_data (st w) j ip))
            = true) /\
         overlap_detected
           (groups_of map_data (st w) (passes map_data (st w) k ip))
         = false /\
         (forall i, i < agent_count (st w) ->
            dict_get (passes map_data (st w) k ip) i
            = Some (cur (st w') i)) /\
         (forall h, holder_at (st w) h ->
            match first_contest map_data (st w) h fuel ip with
            | Some gl =>
                In h gl /\ 1 < length gl /\
                exists c, In c gl /\ c <> h /\ holder_at (st w') c
            | None => holder_at (st w') h
            end))
    nowhere nowhere.
Proof.
  intros Hwf Hg Hwrap Hfuel. unfold take_action.
  apply wp_bind. eapply wp_lift; [exact Hwrap|].
  apply wp_bind.
  eapply wp_conseq;
    [apply (get_intended_pos_decides options map_data (st w) Hwf Hg l w
              (same_but_action_refl (st w))
              (wrapped_action_length options arg l Hwrap))
    | | auto | auto].
  intros ip w1 [Sa [Hk Hdec]].
  pose proof (wf_same_but_action options _ _ Sa Hwf) as Hwf1.
  assert (C1 : agent_count (st w1) = agent_count (st w))
    by (destruct Sa as [_ [C _]]; exact C).
  assert (Hcur : forall i, cur (st w1) i = cur (st w) i)
    by (intros i; apply same_but_action_cur; exact Sa).
  destruct (update_agent_pos_run options map_data fuel ip w1 Hwf1)
    as [k [w2 [E2 [Hkf [Hbefore [Hnd [T2 [C2 [A2 [P2 B2]]]]]]]]]].
  { rewrite C1. exact Hk. }
  { lia. }
  apply wp_bind. eapply wp_of_run; [exact E2|].
  apply wp_bind. eapply wp_write; [reflexivity|].
  destruct (get_reward_returns options map_data
              (increase_time_step (st w2))) as [r [Er _]].
  { unfold agent_count in *. simpl. rewrite C2, C1.
    apply (wf_count _ _ Hwf). }
  apply wp_bind. eapply wp_read; [exact Er|].
  apply wp_bind. eapply wp_read; [reflexivity|]. apply wp_ret. simpl st.
  exists ip, k. split; [exact Hk|].
  rewrite (passes_same_cur map_data (st w) (st w1) k ip Hcur) in Hnd, P2.
  split; [|split; [exact Hkf|split; [|split; [|split]]]].
  - intros i Hi.
    change (agent (increase_time_step (st w2)) i) with (agent (st w2) i).
    destruct Sa as [_ [_ A1]]. destruct (A1 i) as [_ [_ M1]].
    destruct (A2 i) as [Em Ea]. split; [congruence|].
    assert (Hin : In i (map fst ip)) by (rewrite Hk; apply in_seq; lia).
    apply in_map_iff in Hin. destruct Hin as [[i' v] [Ei Hx]].
    simpl in Ei. subst i'.
    rewrite Forall_forall in Hdec.
    destruct (Hdec _ Hx) as [p [a [Ep [Hch [Eact Ev]]]]]. simpl in *.
    exists p, a. split; [exact Ep|]. split; [exact Hch|].
    split; [congruence|].
    rewrite <- Ev.
    apply (dict_get_entry ip (i, v));
      [rewrite Hk; apply seq_NoDup | exact Hx].
  - intros j Hj.
    rewrite <- (passes_same_cur map_data (st w) (st w1) j ip Hcur).
    rewrite <- (groups_same_cur map_data (st w) (st w1) _ Hcur).
    apply Hbefore. exact Hj.
  - rewrite <- (groups_same_cur map_data (st w) (st w1) _ Hcur). exact Hnd.
  - intros i Hi.
    change (cur (increase_time_step (st w2)) i) with (cur (st w2) i).
    apply P2. lia.
  - intros h Hh.
    assert (Hh1 : holder_at (st w1) h).
    { destruct Sa as [_ [_ A1]].
      apply (holder_at_ext (st w)); [exact C1 | | exact Hh].
      intros i. apply A1. }
    pose proof (B2 h Hh1) as B.
    rewrite (first_contest_same_cur map_data (st w) (st w1) h fuel ip Hcur)
      in B.
    exact B.
Qed.

(** C10. [take_action] makes no terminal test.  From a well-formed state
    of which [is_terminal] says true, on a map with goals, for an argument
    of the right shape and fuel for the overlap loop, it returns, and the
    step is the step of any other state.  Every agent has taken an action,
    a controlled agent the one given for it and a scripted agent the one
    its policy computes, and that action is recorded; the dictionary [ip]
    holds for every agent the tile it asks for with it.  The agents stand
    where the dictionary says after the [k] passes of the overlap loop,
    each of which found a tile claimed twice.  The ball is with another
    claimant of the first contested tile its holder claimed, and with its
    holder when there was none.  The time step is one more, and the reward
    in the observation is the reward of the new state.  Repeated, the call
    takes the time step past every bound.  It does happen that the ball
    changes hands past the step budget, and that after a goal the scripted
    agent moves and the reward 1 is paid again. *)
Theorem take_action_ignores_terminal options map_data fuel arg l w :
  is_terminal options map_data (st w) = Ok true ->
  wf_state options (st w) -> map_has_goals map_data ->
  _get_wrapped_action options arg = Ok l ->
  agent_count (st w) <= fuel ->
  (exists obs w' r ip k,
     take_action options map_data fuel arg w = (Ok obs, w') /\
     obs = mkObservation None (Some l) r (Some (st w')) /\
     _get_reward options map_data (st w') = Ok r /\
     time_step (st w') = (time_step (st w) + 1)%Z /\
     agent_count (st w') = agent_count (st w) /\
     wf_state options (st w') /\
     map fst ip = seq 0 (agent_count (st w)) /\
     (forall i, i < agent_count (st w) ->
        mode (agent (st w') i) = mode (agent (st w) i) /\
        exists p a, cur (st w) i = Some p /\
          chooses options map_data l (st w) i a /\
          action (agent (st w') i) = Some a /\
          dict_get ip i = Some (Some (intended_tile map_data p a))) /\
     k < fuel /\
     (forall j, j < k ->
        overlap_detected
          (groups_of map_data (st w) (passes map_data (st w) j ip))
        = true) /\
     overlap_detected
       (groups_of map_data (st w) (passes map_data (st w) k ip)) = false /\
     (forall i, i < agent_count (st w) ->
        dict_get (passes map_data (st w) k ip) i = Some (cur (st w') i)) /\
     (forall h, holder_at (st w) h ->
        match first_contest map_data (st w) h fuel ip with
        | Some gl =>
            In h gl /\ 1 < length gl /\
            exists c, In c gl /\ c <> h /\ holder_at (st w') c
        | None => holder_at (st w') h
        end)) /\
  (forall n, exists w',
     play options map_data fuel arg n w = (Ok tt, w') /\
     wf_state options (st w') /\
     time_step (st w') = (time_step (st w) + Z.of_nat n)%Z) /\
  (is_terminal duel corridor overtime_state = Ok true /\
   exists obs w',
     take_action duel corridor 2 (OneAction MOVE_RIGHT)
       (mkWorld overtime_state (constant_rng 4)) = (Ok obs, w') /\
     time_step overtime_state = 100%Z /\
     time_step (st w') = 101%Z /\
     ball (agent overtime_state 0) = true /\
     ball (agent (st w') 0) = false /\
     ball (agent (st w') 1) = true) /\
  (is_terminal duel corridor scored_state = Ok true /\
   _get_reward duel corridor scored_state = Ok 1%Z /\
   exists obs w',
     take_action duel corridor 2 (OneAction STAND)
       (mkWorld scored_state (constant_rng 0)) = (Ok obs, w') /\
     obs_reward obs = 1%Z /\
     cur scored_state 1 = Some (3, 2)%Z /\
     cur (st w') 1 = Some (4, 2)%Z /\
     action (agent (st w') 1) = Some MOVE_RIGHT).
Proof.
  intros _ Hwf Hg Hl Hfuel. split; [|split; [|split]].
  - pose proof (wp_and _ _ _ _ _ _ _ _
                  (take_action_returns options map_data fuel arg l w
                     Hwf Hg Hl Hfuel)
                  (take_action_step options map_data fuel arg l w
                     Hwf Hg Hl Hfuel)) as H.
    unfold wp in H.
    destruct (take_action options map_data fuel arg w) as [[obs|e|] w'];
      [|destruct H as [[] _]|destruct H as [[] _]].
    destruct H as [[Hwf' [T [C [r [Er Eo]]]]] [ip [k Hstep]]].
    exists obs, w', r, ip, k. tauto.
  - intros n.
    pose proof (play_returns options map_data fuel arg l n w
                  Hwf Hg Hl Hfuel) as H.
    apply wp_returns in H. destruct H as [[] [w' [E [Hwf' T]]]].
    exists w'. auto.
  - split; [reflexivity|]. eexists; eexists.
    split; [vm_compute; reflexivity|]. repeat split.
  - split; [reflexivity|]. split; [reflexivity|].
    eexists; eexists. split; [vm_compute; reflexivity|]. repeat split.
Qed.

Lemma take_action_ignores_terminal_witness :
  is_terminal duel corridor overtime_state = Ok true /\
  exists obs w' ip k,
    take_action duel corridor 2 (OneAction MOVE_RIGHT)
      (mkWorld overtime_state (constant_rng 4)) = (Ok obs, w') /\
    time_step (st w') = (100 + 1)%Z /\
    (forall i, i < 2 ->
       dict_get (passes corridor overtime_state k ip) i
       = Some (cur (st w') i)) /\
    (forall n, exists w'',
       play duel corridor 2 (OneAction MOVE_RIGHT) n
         (mkWorld overtime_state (constant_rng 4)) = (Ok tt, w'') /\
       time_step (st w'') = (100 + Z.of_nat n)%Z).
Proof.
  split; [reflexivity|].
  destruct (take_action_ignores_terminal duel corridor 2
              (OneAction MOVE_RIGHT) [MOVE_RIGHT]
              (mkWorld overtime_state (constant_rng 4)))
    as [[obs [w' [r [ip [k H]]]]] [P _]].
  - reflexivity.
  - exact overtime_state_wf.
  - exact corridor_has_goals.
  - reflexivity.
  - unfold agent_count; simpl; lia.
  - destruct H as (E & _ & _ & T & _ & _ & _ & _ & _ & _ & _ & Hp & _).
    exists obs, w', ip, k. split; [exact E|]. split; [exact T|].
    split; [exact Hp|].
    intros n. destruct (P n) as [w'' [En [_ Tn]]]. exists w''. auto.
Defined.

(** * Indices, accessors and moves *)

(** X1. Agent indices and team membership go back and forth: the agent
    [k] of a team has that team's name and local index [k], every index in
    range is the index of its own team and local index, and two members
    with the same index are the same member. *)
Theorem agent_index_round_trip options :
  (forall t k, k < team_size options ->
     get_agent_index options t k < get_agent_size options /\
     get_team_name options (get_agent_index options t k) = t /\
     team_agent_index options (get_agent_index options t k) = k) /\
  (forall i, i < get_agent_size options ->
     team_agent_index options i < team_size options /\
     get_agent_index options (get_team_name options i)
       (team_agent_index options i) = i) /\
  (forall t k t' k', k < team_size options -> k' < team_size options ->
     get_agent_index options t k = get_agent_index options t' k' ->
     t = t' /\ k = k').
Proof.
  split; [|split].
  - intros t k Hk.
    destruct (roster_member options t k (proj2 (roster_In options t k) Hk))
      as [T [K R]].
    split; [exact R|]. split; [exact T|].
    unfold team_agent_index. rewrite T. symmetry. exact K.
  - intros i Hi. unfold team_agent_index, get_agent_index, get_team_name,
      get_agent_size in *.
    destruct (i <? team_size options) eqn:E;
      [apply Nat.ltb_lt in E | apply Nat.ltb_ge in E]; simpl; lia.
  - intros t k t' k' Hk Hk' E.
    apply (agent_index_inj options t k t' k' Hk Hk'). exact E.
Qed.

Lemma agent_index_round_trip_witness :
  get_agent_index doubles COMPUTER 1 < get_agent_size doubles /\
  get_team_name doubles (get_agent_index doubles COMPUTER 1) = COMPUTER /\
  team_agent_index doubles (get_agent_index doubles COMPUTER 1) = 1.
Proof.
  apply (proj1 (agent_index_round_trip doubles) COMPUTER 1). simpl; lia.
Defined.

(** X2. Writing a position and reading it back: [set_agent_pos] succeeds
    exactly on an index in range, and raises [IndexError] otherwise; after
    it the agent has the new position and its other fields, and every other
    agent, the number of agents and the time step are as before. *)
Theorem set_then_get_agent_pos s i p :
  (i < agent_count s ->
   exists s', set_agent_pos s i p = Ok s' /\
     get_agent_pos s' i = Ok p /\
     get_agent_ball s' i = get_agent_ball s i /\
     get_agent_mode s' i = get_agent_mode s i /\
     get_agent_action s' i = get_agent_action s i /\
     (forall j, j <> i -> agent s' j = agent s j) /\
     agent_count s' = agent_count s /\
     time_step s' = time_step s) /\
  (agent_count s <= i ->
   set_agent_pos s i p = Raise IndexError /\
   get_agent_pos s i = Raise IndexError).
Proof.
  split.
  - intros Hi.
    destruct (set_agent_pos_spec s i p Hi) as [s' [E [T [C A]]]].
    exists s'. split; [exact E|].
    assert (Hi' : i < agent_count s') by lia.
    assert (Ai : agent s' i = with_pos p (agent s i))
      by (rewrite A, Nat.eqb_refl; reflexivity).
    unfold get_agent_pos, get_agent_ball, get_agent_mode, get_agent_action.
    rewrite (get_agent_ok s' i Hi'), (get_agent_ok s i Hi), Ai. simpl.
    repeat split; auto.
    intros j Hj. rewrite A. destruct (j =? i) eqn:Ej; [|reflexivity].
    apply Nat.eqb_eq in Ej. contradiction.
  - intros Hi. unfold set_agent_pos, set_agent, get_agent_pos.
    rewrite (get_agent_out s i Hi). simpl.
    destruct (nth_error (agent_list s) i) eqn:E; [|auto].
    assert (nth_error (agent_list s) i <> None) by congruence.
    apply nth_error_Some in H. unfold agent_count in Hi. lia.
Qed.

Lemma set_then_get_agent_pos_witness :
  exists s', set_agent_pos doubles_state 1 (Some (2, 2)%Z) = Ok s' /\
    get_agent_pos s' 1 = Ok (Some (2, 2)%Z) /\
    get_agent_ball s' 1 = get_agent_ball doubles_state 1 /\
    get_agent_mode s' 1 = get_agent_mode doubles_state 1 /\
    get_agent_action s' 1 = get_agent_action doubles_state 1 /\
    (forall j, j <> 1 -> agent s' j = agent doubles_state j) /\
    agent_count s' = agent_count doubles_state /\
    time_step s' = time_step doubles_state.
Proof.
  apply (proj1 (set_then_get_agent_pos doubles_state 1 (Some (2, 2)%Z))).
  unfold agent_count; simpl; lia.
Defined.


(** X3. [get_moved_pos] moves by one tile along one axis, or not at all:
    the square of the distance to the tile it returns is 1, and 0 for STAND;
    the opposite action leads back; without a position it raises
    [TypeError]. *)
Theorem get_moved_pos_one_step (p : Pos) (a : Action) :
  exists q, get_moved_pos (Some p) a = Ok q /\
    get_pos_distance (Some p) (Some q)
    = Ok (match a with STAND => 0 | _ => 1 end)%Z /\
    (q = p <-> a = STAND) /\
    get_moved_pos (Some q) (opposite a) = Ok p /\
    get_moved_pos None a = Raise TypeError.
Proof.
  exists (neighbour p a). split; [apply get_moved_pos_neighbour|].
  destruct p as [x y].
  split; [|split; [|split]].
  - destruct a; simpl; f_equal; lia.
  - destruct a; simpl; split; intros H; try discriminate; try reflexivity;
      inversion H; lia.
  - rewrite get_moved_pos_neighbour. apply f_equal.
    destruct a; unfold neighbour; simpl; apply injective_projections;
      simpl; lia.
  - reflexivity.
Qed.

(** X4. Between two tiles whose coordinates are at most 2^24 in absolute
    value, where the sum of squares that [get_pos_distance] stands for is
    below 2^52 and so orders the norms of the code: the distance is
    symmetric and never negative, it is 0 exactly between a tile and
    itself, and at least 1 between two distinct tiles; without a position
    on either side the call raises [TypeError]. *)
Theorem get_pos_distance_metric (p q : Pos) :
  in_float_range p -> in_float_range q ->
  exists d, get_pos_distance (Some p) (Some q) = Ok d /\
    get_pos_distance (Some q) (Some p) = Ok d /\
    (0 <= d < 2 ^ 52)%Z /\
    (d = 0%Z <-> p = q) /\
    (p <> q -> 1 <= d)%Z /\
    get_pos_distance None (Some q) = Raise TypeError /\
    get_pos_distance (Some p) None = Raise TypeError.
Proof.
  intros Rp Rq. exists (dist2 p q).
  pose proof (dist2_in_float_range p q Rp Rq) as Hlt.
  pose proof (dist2_nonneg p q) as Hnn.
  pose proof (dist2_zero p q) as Hz.
  split; [apply get_pos_distance_dist2|]. split.
  { rewrite get_pos_distance_dist2. f_equal.
    destruct p as [x y], q as [u v]. unfold dist2; simpl. ring. }
  split; [lia|]. split; [exact Hz|].
  split; [|split; reflexivity].
  intros H. destruct (Z.eq_dec (dist2 p q) 0) as [E|E];
    [elim H; apply Hz; exact E | lia].
Qed.

Lemma get_pos_distance_metric_witness :
  exists d, get_pos_distance (Some (1, 1)%Z) (Some (4, 2)%Z) = Ok d /\
    get_pos_distance (Some (4, 2)%Z) (Some (1, 1)%Z) = Ok d /\
    (0 <= d < 2 ^ 52)%Z /\
    (d = 0%Z <-> (1, 1)%Z = (4, 2)%Z) /\
    ((1, 1)%Z <> (4, 2)%Z -> 1 <= d)%Z /\
    get_pos_distance None (Some (4, 2)%Z) = Raise TypeError /\
    get_pos_distance (Some (1, 1)%Z) None = Raise TypeError.
Proof.
  apply (get_pos_distance_metric (1, 1)%Z (4, 2)%Z);
    unfold in_float_range; simpl; lia.
Defined.

(** * Ball, occupancy and the end of an episode *)

(** X5. Between two distinct agents of which exactly one has the ball,
    [switch_ball] hands the ball over, whichever of the two arguments the
    holder is: their flags are exchanged, nothing else changes, the number
    of set flags stays, and a second call undoes the first. *)
Theorem switch_ball_swaps s a b :
  a < agent_count s -> b < agent_count s -> a <> b ->
  ball (agent s a) = negb (ball (agent s b)) ->
  exists s', switch_ball s a b = Ok s' /\
    ball (agent s' a) = ball (agent s b) /\
    ball (agent s' b) = ball (agent s a) /\
    same_but_ball s s' /\
    (forall c, c <> a -> c <> b -> agent s' c = agent s c) /\
    ball_count s' = ball_count s /\
    exists s'', switch_ball s' a b = Ok s'' /\
      forall i, agent s'' i = agent s i.
Proof.
  intros Ha Hb Hab Hx.
  assert (Step : forall s0, a < agent_count s0 -> b < agent_count s0 ->
    exists s2, switch_ball s0 a b = Ok s2 /\
      agent_count s2 = agent_count s0 /\ time_step s2 = time_step s0 /\
      (forall j, agent s2 j =
         if j =? b
         then mkAgent (pos (agent s0 b)) (ball (agent s0 a))
                (mode (agent s0 b)) (action (agent s0 b))
         else if j =? a
         then mkAgent (pos (agent s0 a)) (negb (ball (agent s0 a)))
                (mode (agent s0 a)) (action (agent s0 a))
         else agent s0 j) /\
      ball_count s2 + (if ball (agent s0 a) then 1 else 0)
        + (if ball (agent s0 b) then 1 else 0)
      = ball_count s0 + (if negb (ball (agent s0 a)) then 1 else 0)
        + (if ball (agent s0 a) then 1 else 0)).
  { intros s0 Ha0 Hb0. unfold switch_ball.
    rewrite get_agent_ball_ok by assumption. simpl.
    destruct (set_agent_ball_spec s0 a (negb (ball (agent s0 a))) Ha0)
      as [s1 [E1 [C1 [T1 [A1 N1]]]]].
    rewrite E1. simpl.
    assert (Hb1 : b < agent_count s1) by lia.
    destruct (set_agent_ball_spec s1 b (ball (agent s0 a)) Hb1)
      as [s2 [E2 [C2 [T2 [A2 N2]]]]].
    rewrite E2. exists s2. split; [reflexivity|].
    assert (B1 : agent s1 b = agent s0 b).
    { rewrite A1. destruct (b =? a) eqn:E; [|reflexivity].
      apply Nat.eqb_eq in E. congruence. }
    split; [congruence|]. split; [congruence|]. split.
    - intros j. rewrite A2, B1. destruct (j =? b); [reflexivity|].
      apply A1.
    - rewrite B1 in N2. lia. }
  destruct (Step s Ha Hb) as [s' [E [C [T [A N]]]]].
  assert (Aa : agent s' a
               = mkAgent (pos (agent s a)) (negb (ball (agent s a)))
                   (mode (agent s a)) (action (agent s a))).
  { rewrite A, Nat.eqb_refl. destruct (a =? b) eqn:Eab; [|reflexivity].
    apply Nat.eqb_eq in Eab. contradiction. }
  assert (Ab : agent s' b
               = mkAgent (pos (agent s b)) (ball (agent s a))
                   (mode (agent s b)) (action (agent s b)))
    by (rewrite A, Nat.eqb_refl; reflexivity).
  assert (Ao : forall c, c <> a -> c <> b -> agent s' c = agent s c).
  { intros c Hca Hcb. rewrite A.
    destruct (c =? b) eqn:E1; [apply Nat.eqb_eq in E1; contradiction|].
    destruct (c =? a) eqn:E2; [apply Nat.eqb_eq in E2; contradiction|].
    reflexivity. }
  exists s'. split; [exact E|].
  split; [rewrite Aa; simpl; rewrite Hx, negb_involutive; reflexivity|].
  split; [rewrite Ab; reflexivity|]. split; [|split; [exact Ao|split]].
  - split; [exact T|]. split; [exact C|]. intros i.
    destruct (Nat.eq_dec i a) as [->|Hia]; [rewrite Aa; simpl; auto|].
    destruct (Nat.eq_dec i b) as [->|Hib]; [rewrite Ab; simpl; auto|].
    rewrite (Ao i Hia Hib). auto.
  - rewrite Hx in N. destruct (ball (agent s b)); simpl in N; lia.
  - destruct (Step s' ltac:(lia) ltac:(lia)) as [s'' [E' [C' [T' [A' _]]]]].
    exists s''. split; [exact E'|]. intros i. rewrite A'.
    destruct (i =? b) eqn:Eb.
    + apply Nat.eqb_eq in Eb; subst i. rewrite Ab, Aa. simpl.
      rewrite Hx, negb_involutive. destruct (agent s b); reflexivity.
    + destruct (i =? a) eqn:Ea.
      * apply Nat.eqb_eq in Ea; subst i. rewrite Aa. simpl.
        rewrite negb_involutive. destruct (agent s a); reflexivity.
      * apply Nat.eqb_neq in Ea, Eb. apply Ao; assumption.
Qed.

Lemma switch_ball_swaps_witness :
  exists s', switch_ball doubles_state 0 2 = Ok s' /\
    ball (agent s' 0) = ball (agent doubles_state 2) /\
    ball (agent s' 2) = ball (agent doubles_state 0) /\
    same_but_ball doubles_state s' /\
    (forall c, c <> 0 -> c <> 2 -> agent s' c = agent doubles_state c) /\
    ball_count s' = ball_count doubles_state /\
    exists s'', switch_ball s' 0 2 = Ok s'' /\
      forall i, agent s'' i = agent doubles_state i.
Proof.
  apply (switch_ball_swaps doubles_state 0 2);
    unfold agent_count; simpl; try lia; reflexivity.
Defined.

Lemma find_skip {A} (g : A -> bool) (l1 l2 : list A) :
  (forall x, In x l1 -> g x = false) -> find g (l1 ++ l2) = find g l2.
Proof.
  induction l1 as [|x l1 IH]; simpl; intros H; [reflexivity|].
  rewrite (H x (or_introl eq_refl)). apply IH. auto.
Qed.

(** The nested loops stop at the agent of least index that passes the
    test. *)
Lemma find_first_index options (f : nat -> bool) h :
  h < get_agent_size options -> f h = true ->
  (forall j, j < h -> f j = false) ->
  find (fun m => f (member_index options m)) (roster options)
  = Some (get_team_name options h, team_agent_index options h).
Proof.
  intros Hh Hf Hlow.
  assert (Hin : In h (map (member_index options) (roster options))).
  { rewrite roster_indices. apply in_seq. lia. }
  apply in_map_iff in Hin. destruct Hin as [[t k] [Em Hm]].
  destruct (in_split _ _ Hm) as [done [rest EL]].
  destruct (roster_nth options done (t, k) rest EL) as [Eidx _].
  rewrite EL, find_skip.
  - simpl. rewrite Em, Hf.
    destruct (roster_member options t k Hm) as [T [K _]].
    unfold member_index in Em; simpl in Em. rewrite Em in T, K.
    unfold team_agent_index. rewrite T. rewrite <- K. reflexivity.
  - intros x Hx. destruct (in_split _ _ Hx) as [d1 [d2 Ed]].
    assert (EL' : roster options = d1 ++ x :: (d2 ++ (t, k) :: rest)).
    { rewrite EL, Ed, <- app_assoc. reflexivity. }
    destruct (roster_nth options d1 x _ EL') as [Ex _].
    apply Hlow. rewrite Ex, <- Em, Eidx, Ed, length_app. simpl. lia.
Qed.

Lemma py_pos_eq_true p q : py_pos_eq p q = true <-> q = Some p.
Proof.
  destruct q as [q|]; simpl.
  - rewrite pos_eqb_eq. split; congruence.
  - split; discriminate.
Qed.

(** X6. [get_pos_status] reports who stands on a tile: the team name,
    local index and global index of the agent of least index on it, and
    [None] exactly when no agent stands on it. *)
Theorem get_pos_status_contract options s p :
  agent_count s = get_agent_size options ->
  (forall i, i < agent_count s -> cur s i = Some p ->
     (forall j, j < i -> cur s j <> Some p) ->
     get_pos_status options s p
     = Ok (Some (mkStatus (get_team_name options i)
                   (team_agent_index options i) i))) /\
  (get_pos_status options s p = Ok None <->
   forall i, i < agent_count s -> cur s i <> Some p).
Proof.
  intros Hc.
  assert (Hfind : get_pos_status options s p =
            Ok (option_map (status_of options)
                  (find (fun m => py_pos_eq p (cur s (member_index options m)))
                     (roster options)))).
  { unfold get_pos_status.
    rewrite first_status_find by (apply roster_in_range; assumption).
    reflexivity. }
  split; [|split].
  - intros i Hi Ei Hlow. rewrite Hfind.
    rewrite (find_first_index options (fun j => py_pos_eq p (cur s j)) i).
    + simpl. unfold status_of, member_index. simpl. do 3 f_equal.
      unfold team_agent_index, get_agent_index, get_team_name.
      destruct (i <? team_size options) eqn:E;
        [apply Nat.ltb_lt in E | apply Nat.ltb_ge in E]; simpl; lia.
    + lia.
    + apply py_pos_eq_true. exact Ei.
    + intros j Hj. destruct (py_pos_eq p (cur s j)) eqn:E; [|reflexivity].
      apply py_pos_eq_true in E. elim (Hlow j Hj E).
  - apply pos_status_free. exact Hc.
  - intros Hfree. rewrite Hfind.
    destruct (find _ (roster options)) as [m|] eqn:Ef; [|reflexivity].
    apply find_some in Ef. destruct Ef as [Hin Ht].
    apply py_pos_eq_true in Ht. exfalso.
    pose proof (roster_in_range options s Hc) as R.
    rewrite Forall_forall in R. apply (Hfree _ (R m Hin) Ht).
Qed.

Lemma get_pos_status_contract_witness :
  (forall i, i < agent_count doubles_state ->
     cur doubles_state i = Some (4, 2)%Z ->
     (forall j, j < i -> cur doubles_state j <> Some (4, 2)%Z) ->
     get_pos_status doubles doubles_state (4, 2)%Z
     = Ok (Some (mkStatus (get_team_name doubles i)
                   (team_agent_index doubles i) i))) /\
  (get_pos_status doubles doubles_state (4, 2)%Z = Ok None <->
   forall i, i < agent_count doubles_state ->
             cur doubles_state i <> Some (4, 2)%Z).
Proof.
  apply (get_pos_status_contract doubles doubles_state (4, 2)%Z).
  reflexivity.
Defined.

(** * Winning, the reward and the end of an episode *)

Lemma any_agent_win_iff options map_data s l :
  Forall (fun i => i < agent_count s) l ->
  exists b, any_agent_win options map_data s l = Ok b /\
    (b = true <->
     exists i, In i l /\ is_agent_win options map_data s i = Ok true).
Proof.
  induction 1 as [|i l Hi Hl IH]; simpl.
  - exists false. split; [reflexivity|]. split; [discriminate|].
    intros [i [[] _]].
  - destruct (is_agent_win_returns options map_data s i Hi) as [b E].
    rewrite E. simpl. destruct b.
    + exists true. split; [reflexivity|]. split; [|reflexivity].
      intros _. exists i. auto.
    + destruct IH as [b' [E' H']]. exists b'. split; [exact E'|].
      rewrite H'. split.
      * intros [j [Hj Ej]]. exists j. auto.
      * intros [j [[<-|Hj] Ej]]; [congruence|]. exists j; auto.
Qed.

Lemma team_indices_in_range options s t :
  agent_count s = get_agent_size options ->
  Forall (fun i => i < agent_count s)
    (map (get_agent_index options t) (seq 0 (team_size options))).
Proof.
  intros Hc. apply Forall_forall. intros i Hi. apply in_map_iff in Hi.
  destruct Hi as [k [<- Hk]]. apply in_seq in Hk.
  rewrite Hc. apply (roster_member options t k). apply roster_In. lia.
Qed.

Lemma is_team_win_scores options map_data s t :
  agent_count s = get_agent_size options ->
  exists b, is_team_win options map_data s t = Ok b /\
            (b = true <-> team_scores options map_data s t).
Proof.
  intros Hc. unfold is_team_win, team_scores.
  destruct (any_agent_win_iff options map_data s _
              (team_indices_in_range options s t Hc)) as [b [E H]].
  exists b. split; [exact E|]. rewrite H. split.
  - intros [i [Hi Ei]]. apply in_map_iff in Hi. destruct Hi as [k [<- Hk]].
    apply in_seq in Hk. exists k. split; [lia | exact Ei].
  - intros [k [Hk Ek]]. exists (get_agent_index options t k).
    split; [|exact Ek]. apply in_map. apply in_seq. lia.
Qed.

Lemma agent_index_cover options i :
  i < get_agent_size options ->
  exists t k, k < team_size options /\ i = get_agent_index options t k.
Proof.
  intros Hi.
  assert (Hin : In i (map (member_index options) (roster options)))
    by (rewrite roster_indices; apply in_seq; lia).
  apply in_map_iff in Hin. destruct Hin as [[t k] [E Hm]].
  exists t, k. split; [apply roster_In in Hm; exact Hm | symmetry; exact E].
Qed.

(** An agent that wins has the ball. *)
Lemma winner_has_ball options map_data s i :
  i < agent_count s -> is_agent_win options map_data s i = Ok true ->
  ball (agent s i) = true.
Proof.
  intros Hi. unfold is_agent_win.
  rewrite get_agent_pos_ok, get_agent_ball_ok by assumption. simpl.
  destruct (ball (agent s i)); simpl; [reflexivity | discriminate].
Qed.

Lemma one_team_scores options map_data s :
  agent_count s = get_agent_size options -> one_holder s ->
  team_scores options map_data s PLAYER ->
  team_scores options map_data s COMPUTER -> False.
Proof.
  intros Hc [h [Hh Hb]] [k [Hk Ek]] [k' [Hk' Ek']].
  assert (R : forall t j, j < team_size options ->
            get_agent_index options t j < agent_count s).
  { intros t j Hj. rewrite Hc. apply (roster_member options t j).
    apply roster_In. exact Hj. }
  pose proof (winner_has_ball _ _ _ _ (R PLAYER k Hk) Ek) as B.
  pose proof (winner_has_ball _ _ _ _ (R COMPUTER k' Hk') Ek') as B'.
  rewrite (Hb _ (R PLAYER k Hk)) in B. apply Nat.eqb_eq in B.
  rewrite (Hb _ (R COMPUTER k' Hk')) in B'. apply Nat.eqb_eq in B'.
  assert (E : get_agent_index options PLAYER k
              = get_agent_index options COMPUTER k') by congruence.
  apply (agent_index_inj options PLAYER k COMPUTER k' Hk Hk') in E.
  destruct E as [E _]. discriminate.
Qed.

Lemma terminal_scores options map_data s :
  agent_count s = get_agent_size options ->
  exists b, is_terminal options map_data s = Ok b /\
    (b = true <->
     (100 <= time_step s)%Z \/ team_scores options map_data s PLAYER \/
     team_scores options map_data s COMPUTER).
Proof.
  intros Hc. unfold is_terminal.
  destruct (time_step s >=? 100)%Z eqn:Et.
  - exists true. split; [reflexivity|]. split; [|reflexivity].
    intros _. left. lia.
  - assert (Hr : Forall (fun i => i < agent_count s)
                   (seq 0 (get_agent_size options))).
    { apply Forall_forall. intros i Hi. apply in_seq in Hi. lia. }
    destruct (any_agent_win_iff options map_data s _ Hr) as [b [E H]].
    exists b. split; [exact E|]. rewrite H. split.
    + intros [i [Hi Ei]]. apply in_seq in Hi.
      destruct (agent_index_cover options i) as [t [k [Hk ->]]]; [lia|].
      right. destruct t; [left|right]; exists k; auto.
    + intros [Ht|[[k [Hk Ek]]|[k [Hk Ek]]]]; [lia| |].
      * exists (get_agent_index options PLAYER k). split; [|exact Ek].
        apply in_seq.
        pose proof (roster_member options PLAYER k
                      (proj2 (roster_In options PLAYER k) Hk)). lia.
      * exists (get_agent_index options COMPUTER k). split; [|exact Ek].
        apply in_seq.
        pose proof (roster_member options COMPUTER k
                      (proj2 (roster_In options COMPUTER k) Hk)). lia.
Qed.

(** A call of [take_action] that returns. *)
Lemma take_action_result options map_data fuel action w obs w' :
  wf_state options (st w) ->
  take_action options map_data fuel action w = (Ok obs, w') ->
  wf_state options (st w') /\
  time_step (st w') = (time_step (st w) + 1)%Z /\
  agent_count (st w') = agent_count (st w) /\
  exists l r, _get_wrapped_action options action = Ok l /\
    _get_reward options map_data (st w') = Ok r /\
    obs = mkObservation None (Some l) r (Some (st w')).
Proof.
  intros Hwf E.
  destruct (wrapped_action_outcome options action) as [[l Hl]|[e He]].
  - pose proof (take_action_wp options map_data fuel action l w
                  (fun _ => True) Hwf Hl) as H.
    unfold wp in H. rewrite E in H.
    destruct H as [H1 [H2 [H3 [r [Er Eo]]]]].
    + intros c w1 Hc Sa.
      eapply wp_conseq;
        [apply wp_readonly, readonly_computer_action | | |]; simpl; auto.
    + repeat (split; [assumption|]). exists l, r. auto.
  - unfold take_action, bind, lift in E. rewrite He in E. discriminate.
Qed.

(** X7. [is_terminal] and [is_team_win] agree: a state is terminal
    exactly when its time step has reached 100 or one of the two teams
    wins, a state at time step 100 or later being terminal whoever holds
    the ball. *)
Theorem is_terminal_iff_time_or_team_win options map_data s :
  agent_count s = get_agent_size options ->
  exists b, is_terminal options map_data s = Ok b /\
    (b = true <->
     (100 <= time_step s)%Z \/
     is_team_win options map_data s PLAYER = Ok true \/
     is_team_win options map_data s COMPUTER = Ok true).
Proof.
  intros Hc.
  destruct (terminal_scores options map_data s Hc) as [b [E H]].
  destruct (is_team_win_scores options map_data s PLAYER Hc)
    as [bp [Ep Hp]].
  destruct (is_team_win_scores options map_data s COMPUTER Hc)
    as [bc [Ec Hc']].
  exists b. split; [exact E|]. rewrite H, Ep, Ec, <- Hp, <- Hc'.
  split; (intros [Ht|[Hx|Hx]]; [left; exact Ht | right; left | right; right]);
    congruence.
Qed.

Lemma is_terminal_iff_time_or_team_win_witness :
  exists b, is_terminal duel corridor scored_state = Ok b /\
    (b = true <->
     (100 <= time_step scored_state)%Z \/
     is_team_win duel corridor scored_state PLAYER = Ok true \/
     is_team_win duel corridor scored_state COMPUTER = Ok true).
Proof.
  apply (is_terminal_iff_time_or_team_win duel corridor scored_state).
  reflexivity.
Defined.

(** X8. With one ball holder, [_get_reward] names the winner: it returns
    1 exactly when the controlled team wins, -1 exactly when the scripted
    team wins, 0 exactly when neither does, and the two teams never win in
    the same state. *)
Theorem reward_names_the_winner options map_data s :
  agent_count s = get_agent_size options -> one_holder s ->
  exists r, _get_reward options map_data s = Ok r /\
    (r = 1%Z <-> is_team_win options map_data s PLAYER = Ok true) /\
    (r = (-1)%Z <-> is_team_win options map_data s COMPUTER = Ok true) /\
    (r = 0%Z <-> is_team_win options map_data s PLAYER = Ok false /\
                 is_team_win options map_data s COMPUTER = Ok false) /\
    ~ (is_team_win options map_data s PLAYER = Ok true /\
       is_team_win options map_data s COMPUTER = Ok true).
Proof.
  intros Hc Hh.
  destruct (is_team_win_scores options map_data s PLAYER Hc)
    as [bp [Ep Hp]].
  destruct (is_team_win_scores options map_data s COMPUTER Hc)
    as [bc [Ec Hc']].
  assert (X : ~ (bp = true /\ bc = true)).
  { intros [Xp Xc]. apply Hp in Xp. apply Hc' in Xc.
    exact (one_team_scores options map_data s Hc Hh Xp Xc). }
  unfold _get_reward. rewrite Ep, Ec. simpl.
  destruct bp, bc; simpl; try (elim X; split; reflexivity);
    eexists; (split; [reflexivity|]);
    repeat split; try intros [? ?]; intros; try congruence; try lia.
Qed.

Lemma reward_names_the_winner_witness :
  exists r, _get_reward duel corridor scored_state = Ok r /\
    (r = 1%Z <-> is_team_win duel corridor scored_state PLAYER = Ok true) /\
    (r = (-1)%Z <->
     is_team_win duel corridor scored_state COMPUTER = Ok true) /\
    (r = 0%Z <-> is_team_win duel corridor scored_state PLAYER = Ok false /\
                 is_team_win duel corridor scored_state COMPUTER = Ok false) /\
    ~ (is_team_win duel corridor scored_state PLAYER = Ok true /\
       is_team_win duel corridor scored_state COMPUTER = Ok true).
Proof.
  apply (reward_names_the_winner duel corridor scored_state).
  - reflexivity.
  - apply (wf_holder duel). apply scored_state_wf.
Defined.

(** X9. When [take_action] returns, the state in the observation is the
    state it leaves behind, one time step later, and that state is terminal
    exactly when the reward in the observation is not zero or the new time
    step has reached 100. *)
Theorem take_action_terminal_reward options map_data fuel action w obs w' :
  wf_state options (st w) ->
  take_action options map_data fuel action w = (Ok obs, w') ->
  obs_next_state obs = Some (st w') /\
  time_step (st w') = (time_step (st w) + 1)%Z /\
  is_terminal options map_data (st w')
  = Ok (negb (obs_reward obs =? 0)%Z || (100 <=? time_step (st w'))%Z).
Proof.
  intros Hwf E.
  destruct (take_action_result options map_data fuel action w obs w' Hwf E)
    as [Hwf' [T [C [l [r [Hl [Er ->]]]]]]].
  simpl. split; [reflexivity|]. split; [exact T|].
  pose proof (wf_count _ _ Hwf') as Hc.
  destruct (terminal_scores options map_data (st w') Hc) as [b [Eb Hb]].
  destruct (is_team_win_scores options map_data (st w') PLAYER Hc)
    as [bp [Ep Hp]].
  destruct (is_team_win_scores options map_data (st w') COMPUTER Hc)
    as [bc [Ec Hc']].
  rewrite Eb. f_equal.
  unfold _get_reward in Er. rewrite Ep, Ec in Er. simpl in Er.
  apply eq_true_iff_eq. rewrite Hb, orb_true_iff, negb_true_iff, Z.leb_le.
  rewrite <- Hp, <- Hc'.
  destruct bp, bc; simpl in Er; inversion Er; subst r; simpl;
    intuition congruence.
Qed.

Lemma take_action_terminal_reward_witness :
  obs_next_state
    (mkObservation None (Some [MOVE_RIGHT]) 0
       (Some (st (snd (take_action duel corridor 2 (OneAction MOVE_RIGHT)
                         kickoff)))))
  = Some (st (snd (take_action duel corridor 2 (OneAction MOVE_RIGHT)
                     kickoff))) /\
  time_step (st (snd (take_action duel corridor 2 (OneAction MOVE_RIGHT)
                        kickoff)))
  = (time_step (st kickoff) + 1)%Z /\
  is_terminal duel corridor
    (st (snd (take_action duel corridor 2 (OneAction MOVE_RIGHT) kickoff)))
  = Ok (negb (0 =? 0)%Z ||
        (100 <=? time_step
                   (st (snd (take_action duel corridor 2
                               (OneAction MOVE_RIGHT) kickoff))))%Z).
Proof.
  apply (take_action_terminal_reward duel corridor 2 (OneAction MOVE_RIGHT)
           kickoff
           (mkObservation None (Some [MOVE_RIGHT]) 0
              (Some (st (snd (take_action duel corridor 2
                                (OneAction MOVE_RIGHT) kickoff)))))
           (snd (take_action duel corridor 2 (OneAction MOVE_RIGHT)
                   kickoff))).
  - apply (reachable_wf duel corridor). apply kickoff_reachable.
  - vm_compute. reflexivity.
Defined.

(** X10. An episode ends by its hundredth step: from the state [reset]
    leaves, [n] calls of [take_action] with a well-shaped action return,
    the time step is [n], and from [n = 100] on the state is terminal. *)
Theorem episode_ends_by_step_100 options map_data fuel fuel' action l n
    w obs w0 :
  map_has_goals map_data ->
  _get_wrapped_action options action = Ok l ->
  get_agent_size options <= fuel' ->
  reset options map_data fuel w = (Ok obs, w0) ->
  exists w', play options map_data fuel' action n w0 = (Ok tt, w') /\
    time_step (st w') = Z.of_nat n /\
    (100 <= n -> is_terminal options map_data (st w') = Ok true).
Proof.
  intros Hg Hl Hfuel E.
  pose proof (reset_wp options map_data fuel w) as R.
  unfold wp in R. rewrite E in R. destruct R as [Hwf [T0 _]].
  pose proof (play_returns options map_data fuel' action l n w0
                Hwf Hg Hl) as H.
  rewrite (wf_count _ _ Hwf) in H. specialize (H Hfuel).
  apply wp_returns in H. destruct H as [[] [w' [Ep [Hwf' T]]]].
  exists w'. split; [exact Ep|]. split; [lia|].
  intros Hn. unfold is_terminal.
  replace (time_step (st w') >=? 100)%Z with true; [reflexivity|].
  symmetry. apply Z.geb_le. lia.
Qed.

Lemma episode_ends_by_step_100_witness :
  exists w',
    play duel corridor 2 (OneAction STAND) 100 kickoff = (Ok tt, w') /\
    time_step (st w') = Z.of_nat 100 /\
    (100 <= 100 -> is_terminal duel corridor (st w') = Ok true).
Proof.
  apply (episode_ends_by_step_100 duel corridor 3 2 (OneAction STAND)
           [STAND] 100 dawn
           (mkObservation (Some (st kickoff)) None 0 None) kickoff).
  - exact corridor_has_goals.
  - reflexivity.
  - vm_compute. lia.
  - vm_compute. reflexivity.
Defined.

(** * What [take_action] does with a bad argument or a failing policy *)

(** X11. The shape check of [take_action]: a list of another length than
    the team size, and a bare action for a team of no agent or of two to
    four agents, raise [ValueError] before anything is touched, the state
    and the random source being as before.  For a team of at most four
    agents, in which no action name has the length of the team, an
    argument that is accepted is a list of [team_size] actions, or a bare
    action for a team of one, and an argument that is refused is refused
    with [ValueError]. *)
Theorem take_action_rejects_misshapen options map_data fuel w :
  (forall l, length l <> team_size options ->
     take_action options map_data fuel (ActionList l) w
     = (Raise ValueError, w)) /\
  (forall a, team_size options = 0 \/ (2 <= team_size options <= 4) ->
     take_action options map_data fuel (OneAction a) w
     = (Raise ValueError, w)) /\
  (team_size options <= 4 ->
   forall action,
     (forall l, _get_wrapped_action options action = Ok l ->
        length l = team_size options /\
        (action = ActionList l \/
         exists a, action = OneAction a /\ l = [a] /\
                   team_size options = 1)) /\
     (forall e, _get_wrapped_action options action = Raise e ->
        e = ValueError) /\
     _get_wrapped_action options action <> OutOfFuel).
Proof.
  split; [|split].
  - intros l Hl. unfold take_action, bind, lift. simpl.
    apply Nat.eqb_neq in Hl. rewrite Hl. reflexivity.
  - intros a Hts. unfold take_action, bind, lift. simpl.
    destruct (team_size options <=? 1) eqn:E1.
    + apply Nat.leb_le in E1.
      assert (E0 : team_size options = 0) by lia. rewrite E0. reflexivity.
    + assert (En : (action_name_length a =? team_size options) = false).
      { apply Nat.eqb_neq. destruct a; simpl; lia. }
      rewrite En. reflexivity.
  - intros Hts action. split; [|split].
    + intros l Hl.
      split; [apply (wrapped_action_length options action l Hl)|].
      unfold _get_wrapped_action in Hl. destruct action as [a|l'].
      * right. exists a. destruct (team_size options <=? 1).
        -- destruct (length [a] =? team_size options) eqn:E; simpl in Hl;
             [|discriminate].
           apply Nat.eqb_eq in E. simpl in E. inversion Hl. auto.
        -- destruct (negb _); discriminate.
      * left. destruct (negb _); [discriminate|]. inversion Hl. reflexivity.
    + intros e He. unfold _get_wrapped_action in He.
      destruct action as [a|l'].
      * destruct (team_size options <=? 1).
        -- destruct (negb _); [congruence | discriminate].
        -- assert (En : (action_name_length a =? team_size options) = false)
             by (apply Nat.eqb_neq; destruct a; simpl; lia).
           rewrite En in He. simpl in He. congruence.
      * destruct (negb _); [congruence | discriminate].
    + unfold _get_wrapped_action. destruct action as [a|l'].
      * destruct (team_size options <=? 1); destruct (negb _); discriminate.
      * destruct (negb _); discriminate.
Qed.

Lemma take_action_rejects_misshapen_witness :
  take_action doubles corridor 4 (ActionList [STAND])
    (mkWorld doubles_state (constant_rng 0))
  = (Raise ValueError, mkWorld doubles_state (constant_rng 0)) /\
  take_action doubles corridor 4 (OneAction STAND)
    (mkWorld doubles_state (constant_rng 0))
  = (Raise ValueError, mkWorld doubles_state (constant_rng 0)) /\
  length [MOVE_UP] = team_size duel.
Proof.
  pose proof (take_action_rejects_misshapen doubles corridor 4
                (mkWorld doubles_state (constant_rng 0))) as [H1 [H2 _]].
  pose proof (take_action_rejects_misshapen duel corridor 4
                (mkWorld doubles_state (constant_rng 0))) as [_ [_ H3]].
  split; [apply H1; simpl; lia|]. split; [apply H2; simpl; lia|].
  assert (Hts : team_size duel <= 4) by (simpl; lia).
  destruct (H3 Hts (OneAction MOVE_UP)) as [H _].
  apply (H [MOVE_UP]). reflexivity.
Defined.

(** X12. When [take_action] raises, nobody has moved: the time step, the
    positions, the ball flags and the modes are as before, only last
    actions may have been recorded, and the state is still well formed. *)
Theorem take_action_raise_keeps_positions options map_data fuel action
    w e w' :
  wf_state options (st w) ->
  take_action options map_data fuel action w = (Raise e, w') ->
  same_but_action (st w) (st w') /\ wf_state options (st w').
Proof.
  intros Hwf E.
  assert (S : same_but_action (st w) (st w')).
  { destruct (wrapped_action_outcome options action) as [[l Hl]|[e' He]].
    - pose proof (take_action_wp options map_data fuel action l w
                    (same_but_action (st w)) Hwf Hl) as H.
      unfold wp in H. rewrite E in H. apply H.
      intros c w1 Hc Sa.
      eapply wp_conseq;
        [apply wp_readonly, readonly_computer_action | | |]; simpl;
        intros; try assumption; congruence.
    - unfold take_action, bind, lift in E. rewrite He in E.
      inversion E; subst. apply same_but_action_refl. }
  split; [exact S|]. apply (wf_same_but_action options (st w)); assumption.
Qed.

Lemma guard_state_wf : wf_state duel guard_state.
Proof. concrete_wf 0. Qed.

Lemma take_action_raise_keeps_positions_witness :
  same_but_action guard_state
    (st (snd (take_action duel row 2 (OneAction MOVE_RIGHT)
                (mkWorld guard_state (constant_rng 0))))) /\
  wf_state duel
    (st (snd (take_action duel row 2 (OneAction MOVE_RIGHT)
                (mkWorld guard_state (constant_rng 0))))).
Proof.
  apply (take_action_raise_keeps_positions duel row 2 (OneAction MOVE_RIGHT)
           (mkWorld guard_state (constant_rng 0)) ValueError
           (snd (take_action duel row 2 (OneAction MOVE_RIGHT)
                   (mkWorld guard_state (constant_rng 0))))).
  - exact guard_state_wf.
  - vm_compute. reflexivity.
Defined.

(** * Where a step takes the agents *)

Section Moves.

Variable options : SoccerEnvironmentOptions.
Variable map_data : SoccerMapData.
Variable s0 : SoccerState.

Hypothesis wf0 : wf_state options s0.

Lemma intended_pos_step_records l ip t k w :
  same_but_action s0 (st w) ->
  length l = team_size options ->
  In (t, k) (roster options) ->
  wp (intended_pos_step options map_data l ip (t, k)) w
    (fun ip' w' =>
       same_but_action s0 (st w') /\
       exists p a,
         cur s0 (get_agent_index options t k) = Some p /\
         (t = PLAYER -> nth_error l k = Some a) /\
         ip' = dict_set ip (get_agent_index options t k)
                 (Some (intended_tile map_data p a)) /\
         forall j, action (agent (st w') j) =
                   if j =? get_agent_index options t k then Some a
                   else action (agent (st w) j))
    (fun w' => same_but_action s0 (st w'))
    (fun w' => same_but_action s0 (st w')).
Proof.
  intros Sa Hlen Hin. pose proof wf0 as [Wc _ Wp _ _].
  destruct (roster_member options t k Hin) as [_ [_ Hidx]].
  apply roster_In in Hin.
  set (idx := get_agent_index options t k) in *.
  assert (Hi0 : idx < agent_count s0) by lia.
  assert (Hi : idx < agent_count (st w))
    by (destruct Sa as [_ [C _]]; lia).
  destruct (cur s0 idx) as [p|] eqn:Ep; [|exfalso; apply (Wp idx Hi0 Ep)].
  unfold intended_pos_step. simpl fst. simpl snd. fold idx.
  apply wp_bind.
  eapply wp_read; [apply get_agent_pos_ok; assumption|].
  rewrite (same_but_action_cur s0 (st w) idx Sa), Ep.
  apply wp_bind.
  assert (Hact : wp (match t with
                     | PLAYER => lift (py_nth l k)
                     | COMPUTER => _get_computer_action options map_data k
                     end) w
                   (fun a w' => st w' = st w /\
                                (t = PLAYER -> nth_error l k = Some a))
                   (fun w' => same_but_action s0 (st w'))
                   (fun w' => same_but_action s0 (st w'))).
  { destruct t.
    - unfold py_nth.
      destruct (nth_error l k) as [a|] eqn:En.
      + eapply wp_lift; [reflexivity|]. split; [reflexivity|]. auto.
      + apply nth_error_None in En. lia.
    - eapply wp_conseq;
        [apply wp_readonly, readonly_computer_action | | |]; simpl.
      + intros a w' H. split; [exact H | discriminate].
      + intros w' H. rewrite H. exact Sa.
      + intros w' H. rewrite H. exact Sa. }
  eapply wp_conseq; [exact Hact | | auto | auto].
  intros a w1 [E1 Hn]. simpl in E1.
  assert (Hi1 : idx < agent_count (st w1)) by (rewrite E1; assumption).
  destruct (set_agent_action_spec (st w1) idx (Some a) Hi1)
    as [s2 [E2 [Sa2 A2]]].
  apply wp_bind. eapply wp_write; [exact E2|].
  assert (Sa02 : same_but_action s0 s2).
  { apply (same_but_action_trans s0 (st w1) s2); [|assumption].
    rewrite E1. assumption. }
  apply wp_bind. eapply wp_lift; [apply get_moved_pos_neighbour|].
  rewrite E1 in A2.
  destruct (pos_in (neighbour p a) (walkable map_data)) eqn:W; apply wp_ret;
    (split; [exact Sa02|]); exists p, a; unfold intended_tile; rewrite W;
    simpl; auto.
Qed.

Lemma get_intended_pos_records l w :
  same_but_action s0 (st w) ->
  length l = team_size options ->
  wp (_get_intended_pos options map_data l) w
    (fun ip w' =>
       same_but_action s0 (st w') /\
       map fst ip = seq 0 (agent_count s0) /\
       Forall (recorded options map_data l s0 (st w')) ip)
    (fun w' => same_but_action s0 (st w'))
    (fun w' => same_but_action s0 (st w')).
Proof.
  intros Sa Hlen. unfold _get_intended_pos.
  eapply wp_conseq;
    [apply (foldM_inv (intended_pos_step options map_data l)
              (roster options)
              (fun done ip w' =>
                 same_but_action s0 (st w') /\
                 map fst ip = map (member_index options) done /\
                 Forall (recorded options map_data l s0 (st w')) ip)
              (fun w' => same_but_action s0 (st w'))
              (fun w' => same_but_action s0 (st w')))
    | | auto | auto].
  - intros done [t k] rest ip w1 EL [Sa1 [Hk Hd]].
    destruct (roster_position options done (t, k) rest EL) as [Hin Hfresh].
    eapply wp_conseq;
      [apply (intended_pos_step_records l ip t k w1); assumption
      | | auto | auto].
    simpl. intros ip' w2 [Sa2 [p [a [Ep [Hn [-> A]]]]]].
    split; [assumption|].
    rewrite dict_set_append by (rewrite Hk; exact Hfresh).
    rewrite !map_app. simpl. rewrite Hk. split; [reflexivity|].
    apply Forall_app. split.
    + rewrite Forall_forall in *. intros x Hx.
      destruct (Hd x Hx) as [q [b [Eq [Eb [Hb Ev]]]]].
      exists q, b. repeat split; try assumption.
      rewrite A. destruct (fst x =? _) eqn:E; [|exact Eb].
      apply Nat.eqb_eq in E. exfalso. apply Hfresh.
      rewrite <- Hk. unfold member_index; simpl. rewrite <- E.
      apply in_map. exact Hx.
    + constructor; [|constructor]. exists p, a. simpl.
      split; [exact Ep|]. split; [rewrite A, Nat.eqb_refl; reflexivity|].
      split; [|reflexivity].
      apply roster_In in Hin. unfold get_agent_index.
      destruct t; simpl; intros Hlt.
      * replace (team_size options * 0 + k) with k by lia. auto.
      * exfalso. lia.
  - simpl. split; [assumption|]. split; [reflexivity | constructor].
  - simpl. intros ip w' [Sa' [Hk Hd]]. split; [assumption|].
    split; [|assumption].
    rewrite Hk, roster_indices. destruct wf0 as [Wc _ _ _ _].
    rewrite Wc. reflexivity.
Qed.

End Moves.

(** The agents end on their own tile or on the tile of their entry. *)
Lemma update_agent_pos_moves options map_data fuel ip w :
  wf_state options (st w) ->
  map fst ip = seq 0 (agent_count (st w)) ->
  wp (_update_agent_pos map_data fuel ip) w
    (fun _ w' =>
       agent_count (st w') = agent_count (st w) /\
       (forall i, mode (agent (st w') i) = mode (agent (st w) i) /\
                  action (agent (st w') i) = action (agent (st w) i)) /\
       forall i, i < agent_count (st w) ->
         cur (st w') i = cur (st w) i \/ In (i, cur (st w') i) ip)
    nowhere anywhere.
Proof.
  intros Hwf Hk. pose proof Hwf as [Wc [h Wh] Wp Wd Wm].
  pose proof (all_agents_dict (st w) ip Hk) as Hd.
  unfold _update_agent_pos. apply wp_bind.
  eapply wp_conseq;
    [apply (resolve_loop_bounded map_data fuel ip false w h); assumption
    | | auto | unfold anywhere; auto].
  intros ip' w1 [[hs' Hsw] [Hk' [Hnd Hen]]].
  destruct (at_most_one_switch_holder _ _ _ _ _ Wh Hsw) as [Sb Hh1].
  assert (C1 : agent_count (st w1) = agent_count (st w))
    by (destruct Sb as [_ [C _]]; exact C).
  assert (Hk1 : map fst ip' = seq 0 (agent_count (st w1)))
    by (rewrite Hk', C1; exact Hk).
  eapply wp_conseq;
    [apply commit_wp; apply all_agents_dict; exact Hk1 | | auto
    | unfold nowhere; tauto].
  simpl. intros u w' [_ [C A]]. destruct Sb as [_ [_ A1]].
  split; [congruence|]. split.
  - intros i. rewrite A. destruct (A1 i) as [_ [<- <-]].
    destruct (dict_get ip' i); split; reflexivity.
  - intros i Hi.
    destruct (dict_get_present ip' i) as [v Ev].
    { rewrite Hk1. apply in_seq. lia. }
    assert (Ec : cur (st w') i = v).
    { unfold cur. rewrite A, Ev. reflexivity. }
    apply dict_get_In in Ev. destruct (Hen _ Ev) as [H|H].
    + right. rewrite Ec. exact H.
    + left. simpl in H. inversion H. congruence.
Qed.

(** [take_action] on a well-formed state, for an argument of the right
    shape: where the agents are when it returns, and that nobody has moved
    when it raises. *)
Lemma take_action_moves options map_data fuel arg l w :
  wf_state options (st w) ->
  _get_wrapped_action options arg = Ok l ->
  wp (take_action options map_data fuel arg) w
    (fun obs w' =>
       obs_action obs = Some l /\
       stepped options map_data l (st w) (st w'))
    (fun w' => same_but_action (st w) (st w'))
    anywhere.
Proof.
  intros Hwf Hwrap. unfold take_action.
  apply wp_bind. eapply wp_lift; [exact Hwrap|].
  apply wp_bind.
  eapply wp_conseq;
    [apply (get_intended_pos_records options map_data (st w) Hwf l w
              (same_but_action_refl (st w))
              (wrapped_action_length options arg l Hwrap))
    | | auto | unfold anywhere; auto].
  intros ip w1 [Sa [Hk Hrec]].
  pose proof (wf_same_but_action options _ _ Sa Hwf) as Hwf1.
  assert (C1 : agent_count (st w1) = agent_count (st w))
    by (destruct Sa as [_ [C _]]; exact C).
  apply wp_bind.
  eapply wp_conseq;
    [apply (update_agent_pos_moves options map_data fuel ip w1 Hwf1)
    | | unfold nowhere; tauto | auto].
  - rewrite C1. exact Hk.
  - intros u w2 [C2 [A2 M2]].
    apply wp_bind. eapply wp_write; [reflexivity|].
    destruct (get_reward_returns options map_data
                (increase_time_step (st w2))) as [r [Er _]].
    { unfold agent_count in *. simpl. rewrite C2, C1.
      apply (wf_count _ _ Hwf). }
    apply wp_bind. eapply wp_read; [exact Er|].
    apply wp_bind. eapply wp_read; [reflexivity|]. apply wp_ret. simpl.
    split; [reflexivity|]. intros i Hi.
    change (agent (increase_time_step (st w2)) i) with (agent (st w2) i).
    change (cur (increase_time_step (st w2)) i) with (cur (st w2) i).
    destruct Sa as [_ [_ A1]]. destruct (A1 i) as [P1 [_ M1]].
    destruct (A2 i) as [Em Ea]. split; [congruence|].
    assert (Hin : In i (map fst ip)) by (rewrite Hk; apply in_seq; lia).
    apply in_map_iff in Hin. destruct Hin as [[i' v] [Ei Hx]].
    simpl in Ei. subst i'.
    rewrite Forall_forall in Hrec.
    destruct (Hrec _ Hx) as [p [a [Ep [Eact [Hl _]]]]]. simpl in *.
    exists p, a. split; [exact Ep|]. split; [congruence|].
    split; [exact Hl|].
    destruct (M2 i ltac:(lia)) as [Hs|Hm].
    + left. rewrite Hs. fold (cur (st w1) i) in P1. unfold cur in *.
      congruence.
    + destruct (Hrec _ Hm) as [p' [a' [Ep' [Eact' [_ Ev]]]]]. simpl in *.
      assert (p' = p) by congruence. assert (a' = a) by congruence.
      subst p' a'. rewrite Ev. unfold intended_tile.
      destruct (pos_in (neighbour p a) (walkable map_data)) eqn:W; auto.
Qed.

(** X13. A step of [take_action] that returns moves every agent by at
    most one tile, and only onto walkable ground: each agent keeps its
    mode and has a last action, which for a controlled agent is the one
    given for it, and afterwards it stands where it stood or on the
    walkable tile next to it in the direction of that action. *)
Theorem take_action_moves_one_step options map_data fuel arg w obs w' :
  wf_state options (st w) ->
  take_action options map_data fuel arg w = (Ok obs, w') ->
  exists l, _get_wrapped_action options arg = Ok l /\
    obs_action obs = Some l /\
    forall i, i < agent_count (st w) ->
      mode (agent (st w') i) = mode (agent (st w) i) /\
      exists p a, cur (st w) i = Some p /\
        action (agent (st w') i) = Some a /\
        (i < team_size options -> nth_error l i = Some a) /\
        (cur (st w') i = Some p \/
         (cur (st w') i = Some (neighbour p a) /\
          pos_in (neighbour p a) (walkable map_data) = true)).
Proof.
  intros Hwf E.
  destruct (wrapped_action_outcome options arg) as [[l Hl]|[e He]].
  - exists l. split; [exact Hl|].
    pose proof (take_action_moves options map_data fuel arg l w Hwf Hl)
      as H.
    unfold wp in H. rewrite E in H. exact H.
  - unfold take_action, bind, lift in E. rewrite He in E. discriminate.
Qed.

Lemma take_action_moves_one_step_witness :
  exists l, _get_wrapped_action duel (OneAction MOVE_RIGHT) = Ok l /\
    obs_action (mkObservation None (Some [MOVE_RIGHT]) 0
                  (Some (st first_step))) = Some l /\
    forall i, i < agent_count (st kickoff) ->
      mode (agent (st first_step) i) = mode (agent (st kickoff) i) /\
      exists p a, cur (st kickoff) i = Some p /\
        action (agent (st first_step) i) = Some a /\
        (i < team_size duel -> nth_error l i = Some a) /\
        (cur (st first_step) i = Some p \/
         (cur (st first_step) i = Some (neighbour p a) /\
          pos_in (neighbour p a) (walkable corridor) = true)).
Proof.
  apply (take_action_moves_one_step duel corridor 2 (OneAction MOVE_RIGHT)
           kickoff
           (mkObservation None (Some [MOVE_RIGHT]) 0 (Some (st first_step)))
           first_step).
  - apply (reachable_wf duel corridor). apply kickoff_reachable.
  - vm_compute. reflexivity.
Defined.

(** * Where [reset] puts the agents, and where they can get to *)

Section Layout.

Variable options : SoccerEnvironmentOptions.
Variable map_data : SoccerMapData.

Lemma find_pos_spawn fuel t i : forall w,
  i < agent_count (st w) ->
  wp (find_pos options map_data fuel t i) w
    (fun _ w' =>
       exists p, In p (spawn map_data t) /\
         agent_count (st w') = agent_count (st w) /\
         forall j, agent (st w') j =
                   if j =? i then with_pos (Some p) (agent (st w) i)
                   else agent (st w) j)
    anywhere anywhere.
Proof.
  induction fuel as [|fuel IH]; intros w Hi; simpl.
  - exact I.
  - apply wp_bind.
    destruct (spawn map_data t) as [|d l] eqn:Es; [exact I|].
    apply wp_choice; [discriminate|]. intros p Hp.
    apply wp_bind. unfold wp at 1. unfold read. simpl st.
    destruct (get_pos_status options (st w) p) as [[status|]|e|] eqn:Ep;
      try exact I.
    + eapply wp_conseq; [apply (IH (after_draw w)); assumption | | auto | auto].
      simpl. auto.
    + unfold set_agent_pos. apply wp_set_agent; [assumption|].
      intros s' T C A. exists p. simpl. auto.
Qed.

Lemma randomize_step_layout fuel t0 k0 t k w :
  agent_count (st w) = get_agent_size options ->
  In (t, k) (roster options) ->
  wp (randomize_step options map_data fuel t0 k0 (t, k)) w
    (fun _ w' =>
       exists p b m,
         In p (spawn map_data t) /\
         (m = None <-> t = PLAYER) /\
         agent_count (st w') = agent_count (st w) /\
         forall j, agent (st w') j =
                   if j =? get_agent_index options t k
                   then mkAgent (Some p) b m (Some STAND)
                   else agent (st w) j)
    anywhere anywhere.
Proof.
  intros Hc Hin.
  destruct (roster_member options t k Hin) as [_ [_ Hidx]].
  set (idx := get_agent_index options t k) in *.
  assert (Hi : idx < agent_count (st w)) by lia.
  unfold randomize_step. simpl fst. simpl snd. fold idx.
  apply wp_bind.
  eapply wp_conseq; [apply find_pos_spawn; assumption | | auto | auto].
  intros u w1 [p [Hp [C1 A1]]].
  assert (Hi1 : idx < agent_count (st w1)) by lia.
  apply wp_bind.
  assert (Hball : wp (if team_eqb t t0 && (k =? k0)
                      then write (fun s => set_agent_ball s idx true)
                      else write (fun s => set_agent_ball s idx false)) w1
            (fun _ w2 =>
               exists b,
               agent_count (st w2) = agent_count (st w1) /\
               forall j, agent (st w2) j =
                 if j =? idx
                 then mkAgent (pos (agent (st w1) idx)) b
                        (mode (agent (st w1) idx)) (action (agent (st w1) idx))
                 else agent (st w1) j)
            anywhere anywhere).
  { destruct (team_eqb t t0 && (k =? k0)); unfold set_agent_ball;
      (apply wp_set_agent; [assumption|]); intros s' T C A; simpl;
      eexists; split; [exact C | exact A | exact C | exact A]. }
  eapply wp_conseq; [exact Hball | | auto | auto].
  intros u2 w2 [b [C2 A2]].
  assert (Hi2 : idx < agent_count (st w2)) by lia.
  apply wp_bind.
  assert (Hmode : wp (match t with
                      | COMPUTER =>
                          bind (choice modes) (fun computer_mode =>
                          write (fun s => set_agent_mode s idx
                                            (Some computer_mode)))
                      | PLAYER => write (fun s => set_agent_mode s idx None)
                      end) w2
            (fun _ w3 =>
               exists m, (m = None <-> t = PLAYER) /\
               agent_count (st w3) = agent_count (st w2) /\
               forall j, agent (st w3) j =
                 if j =? idx
                 then mkAgent (pos (agent (st w2) idx))
                        (ball (agent (st w2) idx)) m
                        (action (agent (st w2) idx))
                 else agent (st w2) j)
            anywhere anywhere).
  { destruct t.
    - unfold set_agent_mode. apply wp_set_agent; [assumption|].
      intros s' T C A. exists None. simpl. split; [tauto|]. auto.
    - apply wp_bind. apply wp_choice; [discriminate|]. intros m _.
      unfold set_agent_mode. apply wp_set_agent; [assumption|].
      intros s' T C A. exists (Some m). simpl.
      split; [split; discriminate|]. auto. }
  eapply wp_conseq; [exact Hmode | | auto | auto].
  intros u3 w3 [m [Hm [C3 A3]]].
  assert (Hi3 : idx < agent_count (st w3)) by lia.
  unfold set_agent_action. apply wp_set_agent; [assumption|].
  intros s' T C A.
  exists p, b, m. simpl. split; [assumption|]. split; [assumption|].
  split; [congruence|].
  intros j. rewrite A. destruct (j =? idx) eqn:Ej.
  - rewrite A3, Nat.eqb_refl. simpl.
    rewrite A2, Nat.eqb_refl. simpl.
    rewrite A1, Nat.eqb_refl. simpl. reflexivity.
  - rewrite A3, Ej, A2, Ej, A1, Ej. reflexivity.
Qed.

Lemma seated_step n s s' t p b m :
  seated options map_data n s ->
  get_team_name options n = t ->
  In p (spawn map_data t) -> (m = None <-> t = PLAYER) ->
  agent_count s' = agent_count s ->
  (forall j, agent s' j = if j =? n then mkAgent (Some p) b m (Some STAND)
                          else agent s j) ->
  seated options map_data (S n) s'.
Proof.
  intros [Sc Sl] Ht Hp Hm C A. split; [congruence|].
  intros i Hi. unfold cur. rewrite A.
  destruct (i =? n) eqn:E.
  - apply Nat.eqb_eq in E. subst i. simpl.
    split; [exists p; rewrite Ht; auto|]. split; [reflexivity|].
    rewrite Hm, <- Ht. unfold get_team_name.
    destruct (n <? team_size options) eqn:El;
      [apply Nat.ltb_lt in El | apply Nat.ltb_ge in El];
      split; intros; try reflexivity; try discriminate; lia.
  - apply Nat.eqb_neq in E. apply Sl. lia.
Qed.

Lemma randomize_layout fuel w :
  agent_count (st w) = get_agent_size options ->
  wp (randomize options map_data fuel) w
    (fun _ w' => seated options map_data (get_agent_size options) (st w'))
    anywhere anywhere.
Proof.
  intros Hc. unfold randomize.
  apply wp_bind. apply wp_choice; [discriminate|]. intros t0 _.
  apply wp_bind. unfold randrange.
  destruct (team_size options =? 0) eqn:Ets; [exact I|].
  apply wp_randbelow. set (k0 := _ mod _).
  eapply wp_conseq;
    [apply (forM_inv (randomize_step options map_data fuel t0 k0)
              (roster options)
              (fun done w' =>
                 seated options map_data (length done) (st w'))
              anywhere anywhere)
    | | auto | auto].
  - intros done [t1 k1] rest w1 EL D.
    destruct (roster_position options done (t1, k1) rest EL) as [Hin _].
    destruct (roster_nth options done (t1, k1) rest EL) as [Hidx Hlt].
    unfold member_index in Hidx. simpl in Hidx.
    eapply wp_conseq;
      [apply (randomize_step_layout fuel t0 k0 t1 k1 w1);
       [apply D | assumption]
      | | auto | auto].
    simpl. intros u w2 [p [b [m [Hp [Hm [C A]]]]]].
    rewrite length_app. simpl. rewrite Nat.add_1_r.
    apply (seated_step (length done) (st w1) (st w2) t1 p b m); auto.
    + rewrite <- Hidx. apply (roster_member options t1 k1 Hin).
    + intros j. rewrite A, Hidx. reflexivity.
  - simpl. split; [exact Hc|]. intros i Hi. lia.
  - simpl. intros u w' D. rewrite roster_length in D. exact D.
Qed.

Lemma reset_layout fuel w :
  wp (reset options map_data fuel) w
    (fun obs w' =>
       seated options map_data (get_agent_size options) (st w'))
    anywhere anywhere.
Proof.
  unfold reset, SoccerState_reset.
  apply wp_bind. apply wp_bind. eapply wp_write; [reflexivity|].
  apply wp_bind.
  eapply wp_of_run.
  { apply (blank_loop (get_agent_size options)).
    apply Forall_forall. intros i Hi. apply in_seq in Hi. lia. }
  apply wp_bind.
  eapply wp_conseq;
    [eapply randomize_layout; unfold agent_count; simpl; apply repeat_length
    | | auto | auto].
  intros u w1 D. eapply wp_write; [reflexivity|].
  apply wp_bind. eapply wp_read; [reflexivity|]. apply wp_ret. simpl.
  exact D.
Qed.

End Layout.

(** X14. When [reset] returns, the time step is 0, the observation holds
    the new state, and every agent stands on a spawn tile of its own team,
    has STAND as its last action, and has a mode exactly when it is
    scripted. *)
Theorem reset_kickoff_layout options map_data fuel w obs w' :
  reset options map_data fuel w = (Ok obs, w') ->
  time_step (st w') = 0%Z /\
  obs = mkObservation (Some (st w')) None 0 None /\
  agent_count (st w') = get_agent_size options /\
  forall i, i < get_agent_size options ->
    (exists p, cur (st w') i = Some p /\
               In p (spawn map_data (get_team_name options i))) /\
    action (agent (st w') i) = Some STAND /\
    (mode (agent (st w') i) = None <-> i < team_size options).
Proof.
  intros E.
  pose proof (wp_and _ _ _ _ _ _ _ _ (reset_wp options map_data fuel w)
                (reset_layout options map_data fuel w)) as H.
  unfold wp in H. rewrite E in H. destruct H as [[_ [T O]] [C L]].
  auto.
Qed.

Lemma reset_kickoff_layout_witness :
  time_step (st kickoff) = 0%Z /\
  mkObservation (Some (st kickoff)) None 0 None
  = mkObservation (Some (st kickoff)) None 0 None /\
  agent_count (st kickoff) = get_agent_size duel /\
  forall i, i < get_agent_size duel ->
    (exists p, cur (st kickoff) i = Some p /\
               In p (spawn corridor (get_team_name duel i))) /\
    action (agent (st kickoff) i) = Some STAND /\
    (mode (agent (st kickoff) i) = None <-> i < team_size duel).
Proof.
  apply (reset_kickoff_layout duel corridor 3 dawn
           (mkObservation (Some (st kickoff)) None 0 None) kickoff).
  vm_compute. reflexivity.
Defined.

Lemma corridor_spawn_walkable : spawn_walkable corridor.
Proof.
  intros t p Hp. apply pos_in_In.
  destruct t; simpl in Hp; destruct Hp as [<-|[<-|[]]]; reflexivity.
Qed.

(** X15. On a map whose spawn tiles are walkable, the agents never leave
    the walkable tiles: in every state the environment goes through, each
    agent stands on a walkable tile. *)
Theorem reachable_on_walkable options map_data s :
  spawn_walkable map_data ->
  reachable options map_data s -> on_walkable map_data s.
Proof.
  intros Hsp. induction 1 as [fuel w obs w' E | fuel arg w r w' Hr IH E Hf].
  - pose proof (reset_layout options map_data fuel w) as H.
    unfold wp in H. rewrite E in H. destruct H as [C L].
    intros i Hi. destruct (L i ltac:(lia)) as [[p [Ep Hp]] _].
    exists p. split; [exact Ep|]. apply (Hsp _ _ Hp).
  - pose proof (reachable_wf options map_data _ Hr) as Hwf.
    assert (Same : same_but_action (st w) (st w') ->
                   on_walkable map_data (st w')).
    { intros [_ [C A]] i Hi. unfold cur. destruct (A i) as [-> _].
      apply IH. lia. }
    destruct (wrapped_action_outcome options arg) as [[l Hl]|[e He]].
    + pose proof (take_action_moves options map_data fuel arg l w Hwf Hl)
        as H.
      unfold wp in H. rewrite E in H.
      destruct r as [obs|e|]; [|apply Same; exact H|congruence].
      destruct H as [_ St]. intros i Hi.
      pose proof (take_action_result options map_data fuel arg w obs w'
                    Hwf E) as [_ [_ [C _]]].
      destruct (St i ltac:(lia)) as [_ [p [a [Ep [_ [_ [Ec|[Ec W]]]]]]]].
      * exists p. split; [exact Ec|].
        destruct (IH i ltac:(lia)) as [q [Eq Hq]]. congruence.
      * exists (neighbour p a). split; [exact Ec|].
        apply pos_in_In. exact W.
    + unfold take_action, bind, lift in E. rewrite He in E.
      inversion E; subst. exact IH.
Qed.


Lemma reachable_on_walkable_witness : on_walkable corridor (st kickoff).
Proof.
  apply (reachable_on_walkable duel corridor (st kickoff)).
  - exact corridor_spawn_walkable.
  - exact kickoff_reachable.
Defined.

(** * Whom the scripted agents watch *)

Section Watch.

Variable options : SoccerEnvironmentOptions.
Variable s : SoccerState.

Hypothesis count_ok : agent_count s = get_agent_size options.
Hypothesis placed_ok : placed s.

Lemma member_in_range t k :
  k < team_size options -> get_agent_index options t k < agent_count s.
Proof.
  intros Hk. rewrite count_ok.
  apply (roster_member options t k). apply roster_In. assumption.
Qed.

Lemma member_cur t k :
  k < team_size options ->
  exists p, cur s (get_agent_index options t k) = Some p.
Proof.
  intros Hk. pose proof (placed_ok _ (member_in_range t k Hk)) as H.
  destruct (cur s _); [eauto | congruence].
Qed.

Lemma nearest_step_ok c cp acc k :
  cur s (get_agent_index options COMPUTER c) = Some cp ->
  k < team_size options ->
  nearest_step options s (Some cp) acc k =
  Ok (match snd acc with
      | None => (Some (get_agent_index options PLAYER k),
                 Some (player_distance options s c k))
      | Some nearest_dist =>
          if (player_distance options s c k <? nearest_dist)%Z
          then (Some (get_agent_index options PLAYER k),
                Some (player_distance options s c k))
          else acc
      end).
Proof.
  intros Ec Hk. unfold nearest_step, player_distance. cbv zeta.
  rewrite get_agent_pos_ok by (apply member_in_range; assumption).
  destruct (member_cur PLAYER k Hk) as [q Eq]. rewrite Ec, Eq.
  cbn [obind]. rewrite get_pos_distance_dist2. cbn [obind].
  destruct (snd acc) as [nd|]; [|reflexivity].
  destruct (_ <? nd)%Z; reflexivity.
Qed.

(** The scan keeps the first of the nearest controlled agents seen so
    far. *)
Lemma nearest_scan_min c cp n : forall m k,
  cur s (get_agent_index options COMPUTER c) = Some cp ->
  m + n <= team_size options -> k < m ->
  (forall j, j < m ->
     (player_distance options s c k <= player_distance options s c j)%Z) ->
  (forall j, j < k ->
     (player_distance options s c k < player_distance options s c j)%Z) ->
  exists k', k' < m + n /\
    foldO (nearest_step options s (Some cp)) (seq m n)
      (Some (get_agent_index options PLAYER k),
       Some (player_distance options s c k))
    = Ok (Some (get_agent_index options PLAYER k'),
          Some (player_distance options s c k')) /\
    (forall j, j < m + n ->
       (player_distance options s c k' <= player_distance options s c j)%Z) /\
    (forall j, j < k' ->
       (player_distance options s c k' < player_distance options s c j)%Z).
Proof.
  induction n as [|n IH]; intros m k Ec Hmn Hk Hmin Hfirst.
  - exists k. rewrite Nat.add_0_r. simpl. auto with zarith.
  - cbn [seq foldO].
    rewrite (nearest_step_ok c cp _ m Ec) by lia. cbn [snd obind].
    destruct (player_distance options s c m <? player_distance options s c k)%Z
      eqn:El; [apply Z.ltb_lt in El | apply Z.ltb_ge in El].
    + destruct (IH (S m) m Ec) as [k' [Hk' [E [H1 H2]]]]; try lia.
      * intros j Hj. destruct (Nat.eq_dec j m) as [->|Hne]; [lia|].
        specialize (Hmin j ltac:(lia)). lia.
      * intros j Hj. specialize (Hmin j ltac:(lia)). lia.
      * exists k'. split; [lia|]. split; [exact E|].
        split; [|exact H2]. intros j Hj. apply H1. lia.
    + destruct (IH (S m) k Ec) as [k' [Hk' [E [H1 H2]]]]; try lia.
      * intros j Hj. destruct (Nat.eq_dec j m) as [->|Hne]; [lia|].
        apply Hmin. lia.
      * exact Hfirst.
      * exists k'. split; [lia|]. split; [exact E|].
        split; [|exact H2]. intros j Hj. apply H1. lia.
Qed.

End Watch.

(** X16. In a state whose agents stand on tiles with coordinates of at
    most 2^24 in absolute value, where the sums of squares compared are
    below 2^52 and order the norms of the code:
    [_get_nearest_player_index] returns the global index of a controlled
    agent whose distance to the scripted agent is the least among the
    controlled agents, and the first such agent in team order. *)
Theorem nearest_player_is_nearest options s c :
  agent_count s = get_agent_size options -> placed s ->
  agents_in_float_range s ->
  c < team_size options ->
  exists k, k < team_size options /\
    _get_nearest_player_index options s c
    = Ok (Some (get_agent_index options PLAYER k)) /\
    (forall j, j < team_size options ->
       (player_distance options s c k <= player_distance options s c j
        < 2 ^ 52)%Z) /\
    (forall j, j < k ->
       (player_distance options s c k < player_distance options s c j)%Z).
Proof.
  intros Hcount Hp Hr Hc.
  destruct (member_cur options s Hcount Hp COMPUTER c Hc) as [cp Ec].
  unfold _get_nearest_player_index. cbv zeta.
  rewrite get_agent_pos_ok
    by (apply (member_in_range options s Hcount); assumption).
  rewrite Ec. cbn [obind].
  change (foldO _ (seq 0 (team_size options)) (None, None))
    with (foldO (nearest_step options s (Some cp))
            (seq 0 (team_size options)) (None, None)).
  destruct (team_size options) as [|n] eqn:En; [lia|].
  cbn [seq foldO].
  rewrite (nearest_step_ok options s Hcount Hp c cp _ 0 Ec) by lia.
  cbn [snd obind].
  destruct (nearest_scan_min options s Hcount Hp c cp n 1 0 Ec)
    as [k' [Hk' [E [H1 H2]]]]; try lia.
  - intros j Hj. replace j with 0 by lia. lia.
  - exists k'. rewrite E. cbn [obind fst].
    split; [exact Hk'|]. split; [reflexivity|]. split; [|exact H2].
    intros j Hj. split; [apply H1; exact Hj|].
    unfold player_distance. rewrite Ec.
    destruct (cur s (get_agent_index options PLAYER j)) as [q|] eqn:Eq;
      [|reflexivity].
    apply dist2_in_float_range; [apply (Hr _ _ Ec) | apply (Hr _ _ Eq)].
Qed.

Lemma nearest_player_is_nearest_witness :
  exists k, k < team_size doubles /\
    _get_nearest_player_index doubles doubles_state 1
    = Ok (Some (get_agent_index doubles PLAYER k)) /\
    (forall j, j < team_size doubles ->
       (player_distance doubles doubles_state 1 k
        <= player_distance doubles doubles_state 1 j < 2 ^ 52)%Z) /\
    (forall j, j < k ->
       (player_distance doubles doubles_state 1 k
        < player_distance doubles doubles_state 1 j)%Z).
Proof.
  apply (nearest_player_is_nearest doubles doubles_state 1).
  - reflexivity.
  - intros i Hi. unfold agent_count in Hi. simpl in Hi.
    do 4 (try (destruct i as [|i]; [unfold cur, agent; simpl; discriminate|])).
    lia.
  - intros i p. unfold cur, agent.
    do 4 (try (destruct i as [|i];
               [simpl; intros E; inversion E; subst p;
                unfold in_float_range; simpl; lia|])).
    simpl. destruct i; discriminate.
  - simpl. lia.
Defined.

(** X17. [_get_defensive_agent_index] returns the ball holder when a
    controlled agent has the ball, the nearest controlled agent when a
    scripted agent has it, and raises [TypeError] when nobody has it. *)
Theorem defensive_agent_is_holder_or_nearest options s c :
  agent_count s = get_agent_size options ->
  (forall h, holder_at s h -> h < team_size options ->
     _get_defensive_agent_index options s c = Ok (Some h)) /\
  (forall h, holder_at s h -> team_size options <= h ->
     _get_defensive_agent_index options s c
     = _get_nearest_player_index options s c) /\
  (no_holder s ->
     _get_defensive_agent_index options s c = Raise TypeError).
Proof.
  intros Hc. unfold _get_defensive_agent_index. split; [|split].
  - intros h Hh Hlt. rewrite (get_ball_possession_holder options s h Hc Hh).
    cbn [obind status_team_name status_agent_index].
    unfold get_team_name. apply Nat.ltb_lt in Hlt. rewrite Hlt. reflexivity.
  - intros h Hh Hge. rewrite (get_ball_possession_holder options s h Hc Hh).
    cbn [obind status_team_name status_agent_index].
    unfold get_team_name. apply Nat.ltb_ge in Hge. rewrite Hge. reflexivity.
  - intros Hn. rewrite (get_ball_possession_none options s Hc Hn).
    reflexivity.
Qed.

Lemma defensive_agent_is_holder_or_nearest_witness :
  _get_defensive_agent_index doubles doubles_state 1
  = _get_nearest_player_index doubles doubles_state 1 /\
  _get_defensive_agent_index duel guard_state 0 = Ok (Some 0) /\
  _get_defensive_agent_index duel lost_ball_state 0 = Raise TypeError.
Proof.
  pose proof (defensive_agent_is_holder_or_nearest doubles doubles_state 1
                eq_refl) as [_ [H2 _]].
  pose proof (defensive_agent_is_holder_or_nearest duel guard_state 0
                eq_refl) as [H1 _].
  pose proof (defensive_agent_is_holder_or_nearest duel lost_ball_state 0
                eq_refl) as [_ [_ H3]].
  split; [|split].
  - apply (H2 2); [|simpl; lia].
    split; [unfold agent_count; simpl; lia|].
    intros i Hi. unfold agent_count in Hi. simpl in Hi.
    do 4 (try (destruct i as [|i]; [reflexivity|])). lia.
  - apply (H1 0); [|simpl; lia].
    split; [unfold agent_count; simpl; lia|].
    intros i Hi. unfold agent_count in Hi. simpl in Hi.
    do 2 (try (destruct i as [|i]; [reflexivity|])). lia.
  - apply H3. intros i Hi. unfold agent_count in Hi. simpl in Hi.
    do 2 (try (destruct i as [|i]; [reflexivity|])). lia.
Defined.

(** * What the greedy search finds *)

Lemma last_at_end {A} (l : list A) d :
  last l d = nth (length l - 1) l d.
Proof.
  induction l as [|h t IH]; [reflexivity|].
  destruct t as [|h' t]; [reflexivity|].
  change (last (h :: h' :: t) d) with (last (h' :: t) d). rewrite IH.
  simpl. rewrite Nat.sub_0_r. reflexivity.
Qed.

(** A draw takes one element out of the pool and keeps the others. *)
Lemma draw_keeps_others {A} (pool : list A) j d x :
  j < length pool -> In x pool ->
  x = nth j pool d \/
  In x (removelast (list_set pool j (last pool d))).
Proof.
  intros Hj Hx. destruct (In_nth pool x d Hx) as [i [Hi Ei]].
  destruct (Nat.eq_dec i j) as [->|Hij]; [left; congruence|]. right.
  rewrite removelast_firstn_len, list_set_length.
  assert (Hpos : forall n, n < length pool - 1 ->
            nth n (firstn (Nat.pred (length pool))
                     (list_set pool j (last pool d))) d
            = if n =? j then last pool d else nth n pool d).
  { intros n Hn. rewrite nth_firstn.
    replace (n <? Nat.pred (length pool)) with true
      by (symmetry; apply Nat.ltb_lt; lia).
    rewrite nth_list_set.
    replace (j <? length pool) with true by (symmetry; apply Nat.ltb_lt; lia).
    rewrite andb_true_r. reflexivity. }
  assert (Hlen : length (firstn (Nat.pred (length pool))
                           (list_set pool j (last pool d)))
                 = length pool - 1).
  { rewrite length_firstn, list_set_length. lia. }
  destruct (Nat.eq_dec i (length pool - 1)) as [Elast|Hmid].
  - assert (Hj' : j < length pool - 1) by lia.
    rewrite <- Ei, Elast, <- last_at_end.
    pose proof (Hpos j Hj') as P. rewrite Nat.eqb_refl in P.
    pose proof (nth_In _ d (eq_ind_r (fun n => j < n) Hj' Hlen)) as H.
    rewrite P in H. exact H.
  - assert (Hi' : i < length pool - 1) by lia.
    pose proof (Hpos i Hi') as P.
    apply Nat.eqb_neq in Hij. rewrite Hij, Ei in P.
    pose proof (nth_In _ d (eq_ind_r (fun n => i < n) Hi' Hlen)) as H.
    rewrite P in H. exact H.
Qed.

(** Sampling as many elements as the pool has leaves none out. *)
Lemma sample_covers {A} k : forall (pool : list A) w,
  k = length pool ->
  exists l w', sample k pool w = (Ok l, w') /\ st w' = st w /\
               forall x, In x pool -> In x l.
Proof.
  induction k as [|k IH]; intros pool w Hk; simpl.
  - exists [], w. destruct pool; [auto | discriminate].
  - destruct pool as [|d pool]; [discriminate|].
    unfold bind at 1. unfold randbelow at 1.
    set (j := _ mod _). set (w1 := mkWorld _ _).
    assert (Hj : j < length (d :: pool))
      by (apply Nat.mod_upper_bound; discriminate).
    destruct (IH (removelast (list_set (d :: pool) j (last (d :: pool) d)))
                w1) as [l [w' [E [S L]]]].
    { rewrite removelast_shorter, list_set_length. simpl in *. lia. }
    unfold bind. rewrite E. eexists; eexists. split; [reflexivity|].
    split; [assumption|]. intros x Hx.
    destruct (draw_keeps_others (d :: pool) j d x Hj Hx) as [->|H].
    + left. reflexivity.
    + right. apply L. exact H.
Qed.

Lemma every_action (a : Action) : In a actions.
Proof. destruct a; simpl; auto 6. Qed.

Lemma improves_spec m d bd :
  improves m d bd = true <->
  (search_key m d < search_key m bd)%Z /\ eligible m d.
Proof.
  destruct m; simpl.
  - rewrite Z.ltb_lt. tauto.
  - rewrite Z.gtb_lt. split; [intros; split; [lia | exact I] | lia].
  - rewrite andb_true_iff, Z.ltb_lt, Z.geb_le. tauto.
Qed.

(** The scan returns with the best of the candidates it went through that
    improve on the distance it started from, or else with the action it
    started from. *)
Lemma strategic_scan_greedy map_data src tgt m l : forall ba bd,
  exists a d,
    strategic_scan map_data (Some src) (Some tgt) m l ba bd = Ok a /\
    (search_key m d <= search_key m bd)%Z /\
    (forall x d', In x l -> candidate map_data m src tgt x d' ->
                  (search_key m d <= search_key m d')%Z) /\
    ((a = ba /\ d = bd) \/
     (In a l /\ candidate map_data m src tgt a d /\
      (search_key m d < search_key m bd)%Z)).
Proof.
  induction l as [|x l IH]; intros ba bd; cbn [strategic_scan].
  - exists ba, bd. split; [reflexivity|]. split; [lia|].
    split; [intros ? ? []|]. auto.
  - rewrite get_moved_pos_neighbour. cbn [obind].
    destruct (pos_in (neighbour src x) (walkable map_data)) eqn:W;
      cbn [negb].
    + rewrite get_pos_distance_dist2. cbn [obind].
      destruct (improves m (dist2 (neighbour src x) tgt) bd) eqn:I.
      * apply improves_spec in I. destruct I as [Ik Ie].
        destruct (IH x (dist2 (neighbour src x) tgt))
          as [a [d [E [Hle [Hmin Hor]]]]].
        exists a, d. split; [exact E|]. split; [lia|]. split.
        -- intros y d' [<-|Hy] Hc; [|apply (Hmin y d' Hy Hc)].
           destruct Hc as [_ [-> _]]. exact Hle.
        -- right. destruct Hor as [[-> ->]|[Ha [Hc Hk]]].
           ++ split; [left; reflexivity|]. split; [|exact Ik].
              split; [apply pos_in_In; exact W|]. split; [reflexivity|].
              exact Ie.
           ++ split; [right; exact Ha|]. split; [exact Hc | lia].
      * destruct (IH ba bd) as [a [d [E [Hle [Hmin Hor]]]]].
        exists a, d. split; [exact E|]. split; [exact Hle|]. split.
        -- intros y d' [<-|Hy] Hc; [|apply (Hmin y d' Hy Hc)].
           destruct Hc as [_ [-> He]].
           destruct (Z_lt_le_dec
                       (search_key m (dist2 (neighbour src x) tgt))
                       (search_key m bd)) as [Hlt|Hge]; [|lia].
           assert (T : improves m (dist2 (neighbour src x) tgt) bd = true)
             by (apply improves_spec; auto).
           congruence.
        -- destruct Hor as [H|[Ha [Hc Hk]]]; [left; exact H|].
           right. split; [right; exact Ha | auto].
    + destruct (IH ba bd) as [a [d [E [Hle [Hmin Hor]]]]].
      exists a, d. split; [exact E|]. split; [exact Hle|]. split.
      * intros y d' [<-|Hy] Hc; [|apply (Hmin y d' Hy Hc)].
        destruct Hc as [Hw _]. apply pos_in_In in Hw. congruence.
      * destruct Hor as [H|[Ha [Hc Hk]]]; [left; exact H|].
        right. split; [right; exact Ha | auto].
Qed.

(** X18. Between a source and a target with coordinates of at most 2^24
    in absolute value, where the sums of squares compared are below 2^52
    and order the norms of the code: [_get_strategic_action] is greedy
    over all five actions. It returns, leaves the state alone, and either
    gives an action that leads to a walkable tile at an eligible distance,
    strictly better than the present distance and at least as good as
    every other such action, or, when no such action is strictly better,
    the action drawn at random beforehand. Better means nearer for
    APPROACH and INTERCEPT, farther for AVOID; eligible excludes distance
    0 for INTERCEPT. *)
Theorem strategic_action_greedy map_data src tgt m w :
  in_float_range src -> in_float_range tgt ->
  exists a w' d,
    _get_strategic_action map_data (Some src) (Some tgt) m w = (Ok a, w') /\
    st w' = st w /\
    (search_key m d <= search_key m (dist2 src tgt))%Z /\
    (forall x d', candidate map_data m src tgt x d' ->
                  (search_key m d <= search_key m d')%Z /\
                  (d' < 2 ^ 52)%Z) /\
    (dist2 src tgt < 2 ^ 52)%Z /\
    ((a = default_action w /\ d = dist2 src tgt) \/
     (candidate map_data m src tgt a d /\
      (search_key m d < search_key m (dist2 src tgt))%Z)).
Proof.
  intros Rs Rt.
  unfold _get_strategic_action.
  rewrite get_pos_distance_dist2.
  unfold bind at 1. unfold lift at 1.
  unfold bind at 1. unfold choice, actions at 1.
  unfold bind at 1. unfold randbelow at 1. unfold ret at 1.
  set (w1 := mkWorld _ _).
  set (ba := nth _ _ _).
  assert (Eba : ba = default_action w) by reflexivity.
  destruct (sample_covers (length actions) actions w1 eq_refl)
    as [l [w2 [Es [S2 Hcov]]]].
  unfold bind at 1. rewrite Es.
  destruct (strategic_scan_greedy map_data src tgt m l ba (dist2 src tgt))
    as [a [d [E [Hle [Hmin Hor]]]]].
  unfold lift. rewrite E.
  exists a, w2, d. split; [reflexivity|]. split; [rewrite S2; reflexivity|].
  split; [exact Hle|]. split; [|split].
  - intros x d' Hc. split.
    + apply (Hmin x d'); [|exact Hc]. apply Hcov, every_action.
    + destruct Hc as [_ [-> _]].
      apply dist2_neighbour_in_float_range; assumption.
  - apply dist2_in_float_range; assumption.
  - destruct Hor as [[-> ->]|[_ [Hc Hk]]]; [left; auto | right; auto].
Qed.

Lemma strategic_action_greedy_witness :
  exists a w' d,
    _get_strategic_action corridor (Some (1, 1)%Z) (Some (4, 1)%Z) APPROACH
      (mkWorld lost_ball_state (constant_rng 0)) = (Ok a, w') /\
    (d <= dist2 (1, 1)%Z (4, 1)%Z)%Z /\
    (forall x d', candidate corridor APPROACH (1, 1)%Z (4, 1)%Z x d' ->
                  (d <= d')%Z) /\
    ((a = default_action (mkWorld lost_ball_state (constant_rng 0)) /\
      d = dist2 (1, 1)%Z (4, 1)%Z) \/
     (candidate corridor APPROACH (1, 1)%Z (4, 1)%Z a d /\
      (d < dist2 (1, 1)%Z (4, 1)%Z)%Z)).
Proof.
  destruct (strategic_action_greedy corridor (1, 1)%Z (4, 1)%Z APPROACH
              (mkWorld lost_ball_state (constant_rng 0)))
    as [a [w' [d [E [_ [Hle [Hmin [_ Hor]]]]]]]].
  - unfold in_float_range; simpl; lia.
  - unfold in_float_range; simpl; lia.
  - exists a, w', d. split; [exact E|]. split; [exact Hle|].
    split; [|exact Hor].
    intros x d' Hc. apply (Hmin x d' Hc).
Defined.

(** * The grouping of the agents by the tile they claim *)

Lemma group_all_keys claims t :
  In t (map fst (group_all claims)) <-> In t (map fst claims).
Proof.
  unfold group_all.
  assert (H : forall acc,
            In t (map fst (fold_left
                     (fun a (c : Pos * nat) => group_add a (fst c) (snd c))
                     claims acc))
            <-> In t (map fst claims) \/ In t (map fst acc)).
  { induction claims as [|c claims IH]; intros acc; simpl; [tauto|].
    rewrite IH, group_add_keys. intuition congruence. }
  rewrite H. simpl. tauto.
Qed.

(** X19. [_get_overlapping_pos_to_agent] partitions the agents of the
    dictionary by the tile they claim: the tiles of the groups are
    distinct, no group is empty or lists an agent twice, a group holds
    exactly the agents that claim its tile, and every agent of the
    dictionary is in the group of the tile it claims. *)
Theorem overlapping_pos_partitions map_data s ip :
  placed s -> agent_dict s ip ->
  exists g, _get_overlapping_pos_to_agent map_data s ip = Ok g /\
    NoDup (map fst g) /\
    (forall t l, In (t, l) g ->
       l <> [] /\ NoDup l /\
       forall i, In i l <->
                 exists x, In x ip /\ fst x = i /\
                           claim map_data s x = Some t) /\
    (forall x, In x ip ->
       exists t l, In (t, l) g /\ In (fst x) l /\
                   claim map_data s x = Some t).
Proof.
  intros Hp Hd. exists (groups_of map_data s ip).
  split; [apply overlapping_ok; assumption|].
  split; [apply group_all_NoDup|].
  assert (Hmem : forall t i,
            In i (members (groups_of map_data s ip) t) <->
            exists x, In x ip /\ fst x = i /\ claim map_data s x = Some t).
  { intros t i. rewrite members_groups_of, in_map_iff. split.
    - intros [x [E Hx]]. apply filter_In in Hx. destruct Hx as [Hx Ht].
      exists x. split; [exact Hx|]. split; [exact E|].
      destruct (claim_some map_data s x Hp (in_dict_range s ip x Hd Hx))
        as [t' Et].
      rewrite Et in Ht. simpl in Ht. apply pos_eqb_eq in Ht. congruence.
    - intros [x [Hx [E Et]]]. exists x. split; [exact E|].
      apply filter_In. split; [exact Hx|]. rewrite Et. simpl.
      apply pos_eqb_refl. }
  split.
  - intros t l Hin.
    assert (El : members (groups_of map_data s ip) t = l)
      by (apply members_of_item; [apply group_all_NoDup | exact Hin]).
    split; [|split].
    + assert (Ht : In t (map fst (groups_of map_data s ip)))
        by (apply (in_map fst _ _ Hin)).
      apply group_all_keys in Ht. unfold claims_of in Ht.
      rewrite map_map in Ht. apply in_map_iff in Ht.
      destruct Ht as [x [Et Hx]]. simpl in Et.
      assert (Hi : In (fst x) l).
      { rewrite <- El. apply Hmem. exists x. split; [exact Hx|].
        split; [reflexivity|].
        destruct (claim_some map_data s x Hp (in_dict_range s ip x Hd Hx))
          as [t' Et'].
        rewrite Et' in Et. simpl in Et. congruence. }
      intros ->. exact Hi.
    + apply (group_item_NoDup map_data s ip t l); [apply Hd | exact Hin].
    + intros i. rewrite <- El. apply Hmem.
  - intros x Hx.
    destruct (claim_some map_data s x Hp (in_dict_range s ip x Hd Hx))
      as [t Et].
    assert (Hi : In (fst x) (members (groups_of map_data s ip) t))
      by (apply Hmem; exists x; auto).
    exists t, (members (groups_of map_data s ip) t).
    split; [|split; [exact Hi | exact Et]].
    apply members_item. intros E. rewrite E in Hi. exact Hi.
Qed.

Lemma overlapping_pos_partitions_witness :
  exists g, _get_overlapping_pos_to_agent row queue_state queue_intended_pos
            = Ok g /\
    NoDup (map fst g) /\
    (forall t l, In (t, l) g ->
       l <> [] /\ NoDup l /\
       forall i, In i l <->
                 exists x, In x queue_intended_pos /\ fst x = i /\
                           claim row queue_state x = Some t) /\
    (forall x, In x queue_intended_pos ->
       exists t l, In (t, l) g /\ In (fst x) l /\
                   claim row queue_state x = Some t).
Proof.
  apply (overlapping_pos_partitions row queue_state queue_intended_pos).
  - apply (wf_placed doubles). exact queue_state_wf.
  - exact queue_dict.
Defined.

(** * The renderer: key events and the partially observable screenshot *)

Lemma nth_error_repeat_some {A} (x : A) n i :
  i < n -> nth_error (repeat x n) i = Some x.
Proof.
  revert i. induction n as [|n IH]; intros [|i] H; simpl; try lia; auto.
  apply IH. lia.
Qed.

(** X20. The action list the renderer builds for a key: for a team of at
    least one agent it has [team_size] entries, the key's action first and
    STAND for the other agents, and [_get_wrapped_action] accepts it as it
    is; for a team of no agent the assignment to the first entry raises
    [IndexError]. *)
Theorem renderer_action_shape options a :
  (team_size options = 0 -> _get_action options a = Raise IndexError) /\
  (0 < team_size options ->
   exists l, _get_action options a = Ok l /\
     length l = team_size options /\
     nth_error l 0 = Some a /\
     (forall i, 0 < i < team_size options -> nth_error l i = Some STAND) /\
     _get_wrapped_action options (ActionList l) = Ok l).
Proof.
  unfold _get_action. split.
  - intros ->. reflexivity.
  - intros Hts. destruct (team_size options) as [|n] eqn:En; [lia|].
    simpl. eexists. split; [reflexivity|].
    split; [simpl; rewrite repeat_length; reflexivity|].
    split; [reflexivity|]. split.
    + intros [|i] Hi; [lia|]. simpl. apply nth_error_repeat_some. lia.
    + unfold _get_wrapped_action. simpl. rewrite repeat_length, En.
      rewrite Nat.eqb_refl. reflexivity.
Qed.

Lemma renderer_action_shape_witness :
  exists l, _get_action doubles MOVE_UP = Ok l /\
    length l = team_size doubles /\
    nth_error l 0 = Some MOVE_UP /\
    (forall i, 0 < i < team_size doubles -> nth_error l i = Some STAND) /\
    _get_wrapped_action doubles (ActionList l) = Ok l.
Proof.
  apply (renderer_action_shape doubles MOVE_UP). simpl. lia.
Defined.

Lemma wrap64_small z : (- 2 ^ 63 <= z < 2 ^ 63)%Z -> wrap64 z = z.
Proof. intros H. unfold wrap64. rewrite Z.mod_small; lia. Qed.

(** X21. The window of the partially observable screenshot, along one
    axis, when the display and the image together are short of 2^63
    pixels, so that no 64-bit operation wraps: for an agent on a tile of
    the display, the image has [tile_size * (2 * radius + 1)] pixels, the
    crop slice is a non-empty range of the display that contains the
    agent's tile, the paste slice is a range of the image of the same
    length, and the agent's tile lands [radius] tiles from the start of
    the image, that is, in its centre. *)
Theorem po_window_centres_agent tile_size display_size agent_pos radius :
  (0 < tile_size)%Z -> (0 <= radius)%Z -> (0 <= agent_pos)%Z ->
  (tile_size * (agent_pos + 1) <= display_size)%Z ->
  (display_size + tile_size * (2 * radius + 1) < 2 ^ 63)%Z ->
  let win := po_window tile_size display_size agent_pos radius in
  po_size win = (tile_size * (2 * radius + 1))%Z /\
  (0 <= slice_start (crop_slice win) < slice_stop (crop_slice win))%Z /\
  (slice_stop (crop_slice win) <= display_size)%Z /\
  (slice_start (crop_slice win) <= tile_size * agent_pos)%Z /\
  (tile_size * (agent_pos + 1) <= slice_stop (crop_slice win))%Z /\
  (0 <= slice_start (paste_slice win))%Z /\
  (slice_stop (paste_slice win) <= po_size win)%Z /\
  (slice_stop (paste_slice win) - slice_start (paste_slice win)
   = slice_stop (crop_slice win) - slice_start (crop_slice win))%Z /\
  (tile_size * agent_pos - slice_start (crop_slice win)
   + slice_start (paste_slice win) = tile_size * radius)%Z.
Proof.
  intros Ht Hr Hp Hd Hb. unfold po_window. cbv zeta.
  cbn [po_size crop_slice paste_slice slice_start slice_stop].
  assert (Er : (radius <= tile_size * radius)%Z) by nia.
  assert (Ep : (agent_pos <= tile_size * agent_pos)%Z) by nia.
  replace (tile_size * (2 * radius + 1))%Z
    with (2 * (tile_size * radius) + tile_size)%Z in * by ring.
  replace (tile_size * (agent_pos + 1))%Z
    with (tile_size * agent_pos + tile_size)%Z in * by ring.
  rewrite (wrap64_small (agent_pos - radius)) by lia.
  replace (tile_size * (agent_pos - radius))%Z
    with (tile_size * agent_pos - tile_size * radius)%Z by ring.
  set (A := (tile_size * agent_pos)%Z) in *.
  set (R := (tile_size * radius)%Z) in *.
  rewrite (wrap64_small (2 * R + tile_size)) by lia.
  rewrite (wrap64_small (A - R)) by lia.
  rewrite (wrap64_small (A - R + (2 * R + tile_size))) by lia.
  rewrite (wrap64_small (- (A - R))) by lia.
  rewrite (wrap64_small (Z.min display_size (A - R + (2 * R + tile_size))
                         - Z.max 0 (A - R))) by lia.
  rewrite wrap64_small by lia.
  lia.
Qed.

Lemma po_window_centres_agent_witness :
  let win := po_window 32 288 0 2 in
  po_size win = (32 * (2 * 2 + 1))%Z /\
  (0 <= slice_start (crop_slice win) < slice_stop (crop_slice win))%Z /\
  (slice_stop (crop_slice win) <= 288)%Z /\
  (slice_start (crop_slice win) <= 32 * 0)%Z /\
  (32 * (0 + 1) <= slice_stop (crop_slice win))%Z /\
  (0 <= slice_start (paste_slice win))%Z /\
  (slice_stop (paste_slice win) <= po_size win)%Z /\
  (slice_stop (paste_slice win) - slice_start (paste_slice win)
   = slice_stop (crop_slice win) - slice_start (crop_slice win))%Z /\
  (32 * 0 - slice_start (crop_slice win)
   + slice_start (paste_slice win) = 32 * 2)%Z.
Proof.
  apply (po_window_centres_agent 32 288 0 2); lia.
Defined.

(** Past that bound the size of the image wraps around. *)
Lemma po_window_wraps : po_size (po_window 32 288 0 (2 ^ 59)) = 32%Z.
Proof. reflexivity. Qed.

(** * A step nobody contests *)

(** Without a group of two or more the loop over the groups does
    nothing. *)
Lemma resolve_groups_idle g : forall r w,
  overlap_detected g = false ->
  foldM resolve_group g r w = (Ok r, w).
Proof.
  induction g as [|item g IH]; intros r w H; simpl; [reflexivity|].
  unfold overlap_detected in H. simpl in H.
  apply orb_false_iff in H. destruct H as [H1 H2].
  unfold bind, resolve_group. rewrite H1. unfold ret. apply IH. exact H2.
Qed.

Lemma no_overlap_not_detected map_data s ip :
  placed s -> agent_dict s ip -> no_overlap map_data s ip ->
  overlap_detected (groups_of map_data s ip) = false.
Proof.
  intros Hp Hd Hno.
  destruct (overlap_detected (groups_of map_data s ip)) eqn:E;
    [|reflexivity].
  destruct (detected_two_claimants map_data s ip Hp Hd E)
    as [x [y [Hx [Hy [Hne [Hc _]]]]]].
  elim Hne. apply (Hno x y Hx Hy Hc).
Qed.

(** Writing positions draws nothing. *)
Lemma commit_keeps_rnd (ip : IntendedPos) : forall w r w',
  forM (fun item : nat * option Pos =>
          write (fun s => set_agent_pos s (fst item) (snd item))) ip w
  = (r, w') ->
  rnd w' = rnd w.
Proof.
  induction ip as [|x ip IH]; intros w r w' E; simpl in E.
  - inversion E. reflexivity.
  - unfold bind, write in E.
    destruct (set_agent_pos (st w) (fst x) (snd x)) as [s1| |];
      [|inversion E; reflexivity|inversion E; reflexivity].
    apply IH in E. exact E.
Qed.

(** X22. When no tile is claimed by two agents, [_update_agent_pos]
    returns after one round of detection: every entry of the dictionary
    becomes the position of its agent, nothing else changes, the ball
    stays where it is and the random source is not used. *)
Theorem uncontested_moves_all_succeed map_data fuel ip w :
  placed (st w) -> agent_dict (st w) ip ->
  no_overlap map_data (st w) ip -> 0 < fuel ->
  exists w', _update_agent_pos map_data fuel ip w = (Ok tt, w') /\
    rnd w' = rnd w /\
    committed (st w) ip (st w') /\
    forall i, ball (agent (st w') i) = ball (agent (st w) i).
Proof.
  intros Hp Hd Hno Hfuel.
  pose proof (no_overlap_not_detected map_data (st w) ip Hp Hd Hno) as Hnd.
  destruct fuel as [|fuel]; [lia|].
  assert (Eloop : resolve_loop map_data (S fuel) ip false w = (Ok ip, w)).
  { simpl resolve_loop. unfold bind at 1. unfold read at 1.
    rewrite overlapping_ok by assumption.
    unfold bind at 1. rewrite resolve_groups_idle by assumption.
    reflexivity. }
  unfold _update_agent_pos, bind. rewrite Eloop.
  pose proof (commit_wp ip w Hd) as H. unfold wp in H.
  destruct (forM _ ip w) as [[[]|e|] w'] eqn:E;
    try (unfold nowhere in H; contradiction).
  exists w'. split; [reflexivity|].
  split; [apply (commit_keeps_rnd ip w _ _ E)|]. split; [exact H|].
  intros i. destruct H as [_ [_ A]]. rewrite A.
  destruct (dict_get ip i); reflexivity.
Qed.

Lemma uncontested_moves_all_succeed_witness :
  exists w',
    _update_agent_pos row 1
      [(0, Some (1, 0)%Z); (1, Some (3, 0)%Z)]
      (mkWorld guard_state (constant_rng 0)) = (Ok tt, w') /\
    rnd w' = constant_rng 0 /\
    committed guard_state [(0, Some (1, 0)%Z); (1, Some (3, 0)%Z)] (st w') /\
    forall i, ball (agent (st w') i) = ball (agent guard_state i).
Proof.
  apply (uncontested_moves_all_succeed row 1
           [(0, Some (1, 0)%Z); (1, Some (3, 0)%Z)]
           (mkWorld guard_state (constant_rng 0))).
  - apply (wf_placed duel). exact guard_state_wf.
  - split; simpl.
    + repeat constructor; simpl; intuition lia.
    + repeat constructor; unfold agent_count; simpl; lia.
  - intros x y [<-|[<-|[]]] [<-|[<-|[]]]; vm_compute; congruence.
  - lia.
Defined.

(** * Hashing a state *)

Lemma hash_step_key s acc i :
  i < agent_count s ->
  hash_step s acc i =
  match agent_key (agent s i) with
  | Some k => Ok (acc ++ k)
  | None => Raise TypeError
  end.
Proof.
  intros Hi. unfold hash_step, agent_key, get_agent_pos, get_agent_ball,
    get_agent_mode, get_agent_action.
  rewrite get_agent_ok by assumption. cbn [obind].
  destruct (pos (agent s i)) as [[x y]|]; [|reflexivity].
  cbn [py_extend obind]. rewrite <- !app_assoc. reflexivity.
Qed.

Lemma hash_scan s l : forall acc,
  Forall (fun i => i < agent_count s) l ->
  foldO (hash_step s) l acc =
  match agents_key (map (agent s) l) with
  | Some ks => Ok (acc ++ ks)
  | None => Raise TypeError
  end.
Proof.
  induction l as [|i l IH]; intros acc Hl; cbn [foldO map agents_key].
  - rewrite app_nil_r. reflexivity.
  - inversion Hl as [|? ? Hi Hl']; subst.
    rewrite hash_step_key by assumption.
    destruct (agent_key (agent s i)) as [k|]; [|reflexivity].
    cbn [obind]. rewrite IH by assumption.
    destruct (agents_key (map (agent s) l)); [|reflexivity].
    rewrite app_assoc. reflexivity.
Qed.

Lemma agents_by_index s :
  map (agent s) (seq 0 (agent_count s)) = agent_list s.
Proof.
  apply (nth_ext _ _ blank_agent blank_agent).
  - rewrite length_map, length_seq. reflexivity.
  - intros n Hn. rewrite length_map, length_seq in Hn.
    rewrite (nth_indep _ blank_agent (agent s 0))
      by (rewrite length_map, length_seq; exact Hn).
    rewrite map_nth, seq_nth by exact Hn. reflexivity.
Qed.

Lemma hash_list_key options s :
  agent_count s = get_agent_size options ->
  hash_list options s =
  match agents_key (agent_list s) with
  | Some ks => Ok (ks ++ [VInt (time_step s)])
  | None => Raise TypeError
  end.
Proof.
  intros Hc. unfold hash_list. rewrite <- Hc, hash_scan.
  - rewrite agents_by_index.
    destruct (agents_key (agent_list s)); reflexivity.
  - apply Forall_forall. intros i Hi. apply in_seq in Hi. lia.
Qed.

Lemma agent_key_length a k : agent_key a = Some k -> length k = 5.
Proof.
  unfold agent_key. destruct (pos a) as [[x y]|]; [|discriminate].
  intros H; inversion H. reflexivity.
Qed.

Lemma agent_key_inj a b k :
  agent_key a = Some k -> agent_key b = Some k -> a = b.
Proof.
  unfold agent_key. destruct a as [[[x y]|] ba ma aa]; [|discriminate].
  destruct b as [[[x' y']|] bb mb ab]; [|discriminate]. simpl.
  intros H H'. rewrite <- H in H'. inversion H' as [[Ex Ey Eb Em Ea]].
  assert (bb = ba) by (destruct bb, ba; simpl in Eb; congruence).
  assert (mb = ma)
    by (destruct mb, ma; simpl in Em; congruence).
  assert (ab = aa)
    by (destruct ab, aa; simpl in Ea; congruence).
  congruence.
Qed.

Lemma agents_key_length l : forall ks,
  agents_key l = Some ks -> length ks = 5 * length l.
Proof.
  induction l as [|a l IH]; intros ks H; simpl in H.
  - inversion H. reflexivity.
  - destruct (agent_key a) as [k|] eqn:Ek; [|discriminate].
    destruct (agents_key l) as [ks'|]; [|discriminate].
    inversion H. rewrite length_app, (agent_key_length a k Ek), (IH ks').
    + simpl. lia.
    + reflexivity.
Qed.

Lemma agents_key_none l :
  (exists a, In a l /\ pos a = None) -> agents_key l = None.
Proof.
  induction l as [|b l IH]; intros [a [Ha Hp]]; [contradiction|].
  simpl. destruct Ha as [->|Ha].
  - unfold agent_key. rewrite Hp. reflexivity.
  - rewrite IH by eauto. destruct (agent_key b); reflexivity.
Qed.

Lemma agents_key_some l :
  (forall a, In a l -> pos a <> None) -> exists ks, agents_key l = Some ks.
Proof.
  induction l as [|b l IH]; intros H; simpl; [eauto|].
  destruct IH as [ks ->]; [intros; apply H; simpl; auto|].
  unfold agent_key. specialize (H b (or_introl eq_refl)).
  destruct (pos b) as [[x y]|]; [eauto | congruence].
Qed.

Lemma agents_key_inj l1 : forall l2 k1 k2 (t1 t2 : PyVal),
  length l1 = length l2 ->
  agents_key l1 = Some k1 -> agents_key l2 = Some k2 ->
  k1 ++ [t1] = k2 ++ [t2] ->
  l1 = l2 /\ t1 = t2.
Proof.
  induction l1 as [|a l1 IH]; intros [|b l2] k1 k2 t1 t2 Hlen H1 H2 E;
    simpl in Hlen; try discriminate.
  - simpl in H1, H2. inversion H1; inversion H2; subst. simpl in E.
    inversion E. auto.
  - simpl in H1, H2.
    destruct (agent_key a) as [ka|] eqn:Ea; [|discriminate].
    destruct (agents_key l1) as [ks1|] eqn:E1; [|discriminate].
    destruct (agent_key b) as [kb|] eqn:Eb; [|discriminate].
    destruct (agents_key l2) as [ks2|] eqn:E2; [|discriminate].
    inversion H1; inversion H2; subst. rewrite <- !app_assoc in E.
    pose proof (agent_key_length a ka Ea) as La.
    pose proof (agent_key_length b kb Eb) as Lb.
    apply app_eq_app in E.
    destruct E as [tl [[Ek Er]|[Ek Er]]];
      assert (tl = [])
        by (apply length_zero_iff_nil;
            apply (f_equal (@length PyVal)) in Ek;
            rewrite length_app in Ek; lia);
      subst tl; rewrite app_nil_r in Ek; simpl in Er; subst.
    + rewrite (agent_key_inj a b kb Ea Eb).
      destruct (IH l2 ks1 ks2 t1 t2) as [-> ->]; auto.
    + rewrite (agent_key_inj a b ka Ea Eb).
      destruct (IH l2 ks1 ks2 t1 t2) as [-> ->]; auto.
Qed.

(** X23. The list [__hash__] hashes tells the states of an environment
    apart: with every agent placed it has five entries for each agent and
    one for the time step, and two states that give the same list are
    equal in the sense of [__eq__]; a state with an agent that has no
    position cannot be hashed, [extend] raising [TypeError]. *)
Theorem hash_list_separates_states options :
  (forall s, agent_count s = get_agent_size options -> placed s ->
     exists k, hash_list options s = Ok k /\
               length k = 5 * get_agent_size options + 1) /\
  (forall s1 s2 k,
     agent_count s1 = get_agent_size options ->
     agent_count s2 = get_agent_size options ->
     hash_list options s1 = Ok k -> hash_list options s2 = Ok k ->
     s1 = s2) /\
  (forall s i, agent_count s = get_agent_size options ->
     i < agent_count s -> cur s i = None ->
     hash_list options s = Raise TypeError).
Proof.
  split; [|split].
  - intros s Hc Hp. rewrite (hash_list_key options s Hc).
    destruct (agents_key_some (agent_list s)) as [ks Ek].
    { intros a Ha. destruct (In_nth _ _ blank_agent Ha) as [i [Hi Ei]].
      rewrite <- Ei. apply (Hp i Hi). }
    rewrite Ek. eexists. split; [reflexivity|].
    rewrite length_app, (agents_key_length _ _ Ek). simpl.
    unfold agent_count in Hc. lia.
  - intros s1 s2 k C1 C2 H1 H2.
    rewrite (hash_list_key options s1 C1) in H1.
    rewrite (hash_list_key options s2 C2) in H2.
    destruct (agents_key (agent_list s1)) as [k1|] eqn:E1; [|discriminate].
    destruct (agents_key (agent_list s2)) as [k2|] eqn:E2; [|discriminate].
    inversion H1 as [K1]. inversion H2 as [K2]. rewrite <- K2 in K1.
    destruct (agents_key_inj (agent_list s1) (agent_list s2) k1 k2 _ _
                ltac:(unfold agent_count in *; congruence) E1 E2 K1)
      as [El Et].
    destruct s1, s2. simpl in *. inversion Et. congruence.
  - intros s i Hc Hi Hn. rewrite (hash_list_key options s Hc).
    rewrite agents_key_none; [reflexivity|].
    exists (agent s i). split; [apply nth_In; exact Hi | exact Hn].
Qed.

Lemma hash_list_separates_states_witness :
  (exists k, hash_list duel guard_state = Ok k /\
             length k = 5 * get_agent_size duel + 1) /\
  hash_list duel (mkState [blank_agent; blank_agent] 0) = Raise TypeError.
Proof.
  pose proof (hash_list_separates_states duel) as [H1 [_ H3]].
  split.
  - apply H1; [reflexivity|]. apply (wf_placed duel). exact guard_state_wf.
  - apply (H3 _ 0); [reflexivity | unfold agent_count; simpl; lia
                    | reflexivity].
Defined.

(** * Who starts with the ball *)

(** The agent the first two draws of [randomize] give the ball to. *)
Lemma randomize_deals options map_data fuel w t :
  st w = mkState (repeat blank_agent (get_agent_size options)) t ->
  wp (randomize options map_data fuel) w
    (fun _ w' =>
       holder_at (st w')
         (get_agent_index options
            (nth (tape (rnd w) (cursor (rnd w)) mod length team_names)
               team_names PLAYER)
            (tape (rnd w) (S (cursor (rnd w))) mod team_size options)))
    anywhere anywhere.
Proof.
  intros Es. unfold randomize.
  apply wp_bind. apply wp_choice_draw. set (t0 := nth _ _ _).
  apply wp_bind. unfold randrange.
  destruct (team_size options =? 0) eqn:Ets; [exact I|].
  apply Nat.eqb_neq in Ets. apply wp_randbelow.
  set (k0 := _ mod _).
  assert (Hk0 : k0 < team_size options)
    by (apply Nat.mod_upper_bound; assumption).
  set (hb := get_agent_index options t0 k0).
  assert (Hhb : hb < get_agent_size options).
  { apply (roster_member options t0 k0). apply roster_In. assumption. }
  eapply wp_conseq;
    [apply (forM_inv (randomize_step options map_data fuel t0 k0)
              (roster options)
              (fun done w' => dealt options hb (length done) (st w'))
              anywhere anywhere)
    | | auto | auto].
  - intros done [t1 k1] rest w1 EL D.
    destruct (roster_position options done (t1, k1) rest EL) as [Hin _].
    destruct (roster_nth options done (t1, k1) rest EL) as [Hidx Hlt].
    unfold member_index in Hidx. simpl in Hidx.
    eapply wp_conseq;
      [apply (randomize_step_wp options map_data fuel t0 k0 t1 k1 w1);
       [apply D | assumption | assumption]
      | | auto | auto].
    simpl. intros u w2 [p [a [Hfree [Hp [Hb [Hm [_ [C A]]]]]]]].
    rewrite length_app. simpl. rewrite Nat.add_1_r.
    apply (dealt_step options hb (length done) (st w1) (st w2) t1 p a); auto.
    + rewrite <- Hidx. apply (roster_member options t1 k1 Hin).
    + rewrite <- Hidx. exact Hb.
    + intros j. rewrite A, Hidx. reflexivity.
  - simpl. do 2 (unfold after_draw; simpl). rewrite Es. apply dealt_blank.
  - simpl. intros u w' D. rewrite roster_length in D.
    destruct D as [Dc [Dl _]]. split; [rewrite Dc; exact Hhb|].
    intros i Hi. apply Dl. rewrite <- Dc. exact Hi.
Qed.

(** X24. The two draws [reset] makes first decide who starts with the
    ball: the team drawn by [random.choice] and the place in the team drawn
    by [random.randrange] name the one agent that has the ball when [reset]
    returns. *)
Theorem reset_ball_holder options map_data fuel w obs w' :
  reset options map_data fuel w = (Ok obs, w') ->
  holder_at (st w')
    (get_agent_index options
       (nth (tape (rnd w) (cursor (rnd w)) mod length team_names)
          team_names PLAYER)
       (tape (rnd w) (S (cursor (rnd w))) mod team_size options)).
Proof.
  intros E.
  assert (H : wp (reset options map_data fuel) w
            (fun _ w' =>
               holder_at (st w')
                 (get_agent_index options
                    (nth (tape (rnd w) (cursor (rnd w))
                          mod length team_names) team_names PLAYER)
                    (tape (rnd w) (S (cursor (rnd w)))
                     mod team_size options)))
            anywhere anywhere).
  { unfold reset, SoccerState_reset.
    apply wp_bind. apply wp_bind. eapply wp_write; [reflexivity|].
    apply wp_bind.
    eapply wp_of_run.
    { apply (blank_loop (get_agent_size options)).
      apply Forall_forall. intros i Hi. apply in_seq in Hi. lia. }
    apply wp_bind.
    eapply wp_conseq;
      [eapply randomize_deals; reflexivity | | auto | auto].
    intros u w1 Hh. eapply wp_write; [reflexivity|].
    apply wp_bind. eapply wp_read; [reflexivity|]. apply wp_ret. simpl.
    exact Hh. }
  unfold wp in H. rewrite E in H. exact H.
Qed.

Lemma reset_ball_holder_witness :
  holder_at (st kickoff)
    (get_agent_index duel
       (nth (tape (rnd dawn) (cursor (rnd dawn)) mod length team_names)
          team_names PLAYER)
       (tape (rnd dawn) (S (cursor (rnd dawn))) mod team_size duel)).
Proof.
  apply (reset_ball_holder duel corridor 3 dawn
           (mkObservation (Some (st kickoff)) None 0 None) kickoff).
  vm_compute. reflexivity.
Defined.
